(** * Kannel gateway: timer sets (gw/timers.c) and connections (gwlib/conn.c)

    A shallow embedding of the two modules and the proofs of their
    specified properties.

    - [Timers] embeds gw/timers.c: the [Timer] structs live in a store
      indexed by address, the set's heap is a list of addresses, and every
      function is a state transformer that fails ([None]) where the C code
      hits a [gw_assert] or an out-of-range [list_get].
    - [Conn] embeds gwlib/conn.c: the connection is a record, the system
      calls ([read], [octstr_write_data], [gwthread_pollfd]) take their
      outcome from the environment, and the calls made are logged. *)

From Stdlib Require Import ZArith Lia ZifyNat List Bool.
From Stdlib.Strings Require Import Byte.
From stdpp Require Import base option list gmap.

Local Open Scope Z_scope.

(** Linear arithmetic with division by constants ([index / 2]). *)
Ltac dlia := zify; Z.to_euclidean_division_equations; lia.

(* ===================================================================== *)
(** * gw/timers.c *)
(* ===================================================================== *)

Module Timers.

(** Addresses of [Timer] structs and of [WAPEvent] payloads; a null pointer
    is [None] at the places where the C code allows one. *)
Definition addr := nat.
Definition evptr := nat.

(** [struct Timer].  The [set] back pointer is left out: the model has one
    timer set, and every timer belongs to it. *)
Record Timer := mkTimer {
  elapses : Z;
  event : option evptr;
  elapsed_event : option evptr;
  index : Z
}.

(** Calls into the collaborators (mutex, thread, list, wap-events), in the
    order in which they are made. *)
Inductive Call :=
| MutexLock
| MutexUnlock
| Wakeup
| Sleep (seconds : Z)
| Duplicate (src dst : option evptr)
| Produce (timer : addr) (item : option evptr)
| DeleteEqual (item : evptr) (count : nat)
| Destroy (item : evptr).

(** [struct Timerset], together with the objects it points to: the [Timer]
    structs ([timers]), the output list, the state of its mutex, the next
    address [wap_event_duplicate] hands out, and the log of calls. *)
Record Timerset := mkTimerset {
  stopping : bool;
  mutex : bool;
  heap : list addr;
  timers : gmap addr Timer;
  output : list (option evptr);
  next_event : evptr;
  calls : list Call
}.

Definition set_mutex (b : bool) (s : Timerset) : Timerset :=
  mkTimerset (stopping s) b (heap s) (timers s) (output s) (next_event s) (calls s).
Definition set_heap (h : list addr) (s : Timerset) : Timerset :=
  mkTimerset (stopping s) (mutex s) h (timers s) (output s) (next_event s) (calls s).
Definition set_timers (m : gmap addr Timer) (s : Timerset) : Timerset :=
  mkTimerset (stopping s) (mutex s) (heap s) m (output s) (next_event s) (calls s).
Definition set_output (o : list (option evptr)) (s : Timerset) : Timerset :=
  mkTimerset (stopping s) (mutex s) (heap s) (timers s) o (next_event s) (calls s).
Definition set_next_event (n : evptr) (s : Timerset) : Timerset :=
  mkTimerset (stopping s) (mutex s) (heap s) (timers s) (output s) n (calls s).
Definition call (c : Call) (s : Timerset) : Timerset :=
  mkTimerset (stopping s) (mutex s) (heap s) (timers s) (output s) (next_event s)
             (calls s ++ [c]).

Definition with_elapses (e : Z) (T : Timer) : Timer :=
  mkTimer e (event T) (elapsed_event T) (index T).
Definition with_event (e : option evptr) (T : Timer) : Timer :=
  mkTimer (elapses T) e (elapsed_event T) (index T).
Definition with_elapsed_event (e : option evptr) (T : Timer) : Timer :=
  mkTimer (elapses T) (event T) e (index T).
Definition with_index (i : Z) (T : Timer) : Timer :=
  mkTimer (elapses T) (event T) (elapsed_event T) i.

(** A write through a [Timer *]: fails on a pointer that is not a timer. *)
Definition update (t : addr) (f : Timer -> Timer) (s : Timerset) : option Timerset :=
  T ← timers s !! t;
  Some (set_timers (<[t := f T]> (timers s)) s).

(** [gw_assert]. *)
Definition gw_assert (b : bool) : option unit := if b then Some tt else None.

(** [list_get] with a [long] position: asserts that it is in range. *)
Definition list_get (h : list addr) (pos : Z) : option addr :=
  if pos <? 0 then None else h !! Z.to_nat pos.

(** The result of [interval += time(NULL)] in an [int]. *)
Definition to_int (z : Z) : Z := (z + 2147483648) mod 4294967296 - 2147483648.

(** ** Locking *)

Definition lock (s : Timerset) : option Timerset :=
  if mutex s then None else Some (call MutexLock (set_mutex true s)).

Definition unlock (s : Timerset) : option Timerset :=
  if mutex s then Some (call MutexUnlock (set_mutex false s)) else None.

(** ** The heap *)

(** [list_swap]. *)
Definition list_swap (h : list addr) (i j : nat) : option (list addr) :=
  x ← h !! i;
  y ← h !! j;
  Some (<[j := x]> (<[i := y]> h)).

Definition heap_swap (index1 index2 : nat) (s : Timerset) : option Timerset :=
  h ← list_swap (heap s) index1 index2;
  let s := set_heap h s in
  t ← heap s !! index1;
  s ← update t (with_index (Z.of_nat index1)) s;
  t ← heap s !! index2;
  update t (with_index (Z.of_nat index2)) s.

Definition elapses_of (s : Timerset) (t : addr) : option Z :=
  elapses <$> timers s !! t.

(** The loop [while (t->elapses < parent->elapses)] of [heap_adjust]; its
    result is the final [index].  [fuel] bounds the number of swaps. *)
Fixpoint move_up (fuel : nat) (t : addr) (index : nat) (s : Timerset)
  : option (nat * Timerset) :=
  parent ← heap s !! (index / 2)%nat;
  te ← elapses_of s t;
  pe ← elapses_of s parent;
  if te <? pe then
    match fuel with
    | O => None
    | S fuel =>
        s ← heap_swap index (index / 2)%nat s;
        move_up fuel t (index / 2)%nat s
    end
  else Some (index, s).

(** The loop [for (;;)] of [heap_adjust]. *)
Fixpoint move_down (fuel : nat) (t : addr) (index : nat) (s : Timerset)
  : option Timerset :=
  let child_index := (index * 2)%nat in
  if (length (heap s) <=? child_index)%nat then Some s
  else
    child ← heap s !! child_index;
    te ← elapses_of s t;
    ce ← elapses_of s child;
    if (child_index =? length (heap s) - 1)%nat then
      if ce <? te then heap_swap index child_index s else Some s
    else
      child2 ← heap s !! (child_index + 1)%nat;
      c2e ← elapses_of s child2;
      let '(ce, child_index) :=
        if c2e <? ce then (c2e, (child_index + 1)%nat) else (ce, child_index) in
      if ce <? te then
        match fuel with
        | O => None
        | S fuel =>
            s ← heap_swap index child_index s;
            move_down fuel t child_index s
        end
      else Some s.

(** [heap_adjust]: the flag says whether the top is now earlier. *)
Definition heap_adjust (index : nat) (s : Timerset) : option (bool * Timerset) :=
  t ← heap s !! index;
  parent ← heap s !! (index / 2)%nat;
  te ← elapses_of s t;
  pe ← elapses_of s parent;
  if te <? pe then
    '(index, s) ← move_up (length (heap s)) t index s;
    Some ((index =? 0)%nat, s)
  else
    s ← move_down (length (heap s)) t index s;
    Some (false, s).

Definition heap_delete (index : nat) (s : Timerset) : option Timerset :=
  t ← heap s !! index;
  let last := (length (heap s) - 1)%nat in
  s ← (if (index =? last)%nat then Some (set_heap (delete last (heap s)) s)
       else
         s ← heap_swap index last s;
         let s := set_heap (delete last (heap s)) s in
         snd <$> heap_adjust index s);
  update t (with_index (-1)) s.

Definition heap_insert (timer : addr) (s : Timerset) : option Timerset :=
  let s := set_heap (heap s ++ [timer]) s in
  let i := (length (heap s) - 1)%nat in
  s ← update timer (with_index (Z.of_nat i)) s;
  snd <$> heap_adjust i s.

(** ** Elapse payloads *)

(** Modelled from the spec: [wap_event_duplicate] (gw/wap-events.c is not
    part of the sources): the payload is opaque, a duplicate is a payload with
    an identity of its own, here the next unused address; a null pointer has
    no duplicate. *)
Definition wap_event_duplicate (e : option evptr) (s : Timerset)
  : option evptr * Timerset :=
  match e with
  | None => (None, call (Duplicate None None) s)
  | Some _ =>
      let p := next_event s in
      (Some p, call (Duplicate e (Some p)) (set_next_event (S p) s))
  end.

(** Modelled from the spec: [wap_event_destroy]; a null pointer is ignored. *)
Definition wap_event_destroy (e : option evptr) (s : Timerset) : Timerset :=
  match e with
  | None => s
  | Some p => call (Destroy p) s
  end.

(** Modelled from the spec: [list_delete_equal] of the queue, which compares
    by pointer identity and returns the number of deleted items. *)
Definition list_delete_equal (o : list (option evptr)) (p : evptr)
  : nat * list (option evptr) :=
  (length (filter (λ x, x = Some p) o), filter (λ x, x ≠ Some p) o).

Definition abort_elapsed (timer : addr) (s : Timerset) : option Timerset :=
  T ← timers s !! timer;
  match elapsed_event T with
  | None => Some s
  | Some p =>
      let '(count, o) := list_delete_equal (output s) p in
      let s := call (DeleteEqual p count) (set_output o s) in
      let s := if (0 <? count)%nat then wap_event_destroy (Some p) s else s in
      update timer (with_elapsed_event None) s
  end.

Definition elapse_timer (timer : addr) (s : Timerset) : option Timerset :=
  T ← timers s !! timer;
  _ ← gw_assert (bool_decide (elapsed_event T = None));
  let '(p, s) := wap_event_duplicate (event T) s in
  s ← update timer (with_elapsed_event p) s;
  let s := call (Produce timer p) (set_output (output s ++ [p]) s) in
  update timer (with_elapses (-1)) s.

(** ** The interface *)

(** [timerset_create]: an empty set around the caller's output list. *)
Definition timerset_create (outputlist : list (option evptr)) (first_event : evptr)
  : Timerset :=
  mkTimerset false false [] ∅ outputlist first_event [].

(** [timer_create]: [gw_malloc] returns an address that is not in use. *)
Definition timer_create (s : Timerset) : addr * Timerset :=
  let t := fresh (dom (timers s)) in
  (t, set_timers (<[t := mkTimer (-1) None None (-1)]> (timers s)) s).

(** [timer_start]; [now] is what [time(NULL)] returns. *)
Definition timer_start (now : Z) (timer : addr) (interval : Z)
    (ev : option evptr) (s : Timerset) : option Timerset :=
  T ← timers s !! timer;
  _ ← gw_assert (bool_decide (ev ≠ None) || bool_decide (event T ≠ None));
  s ← lock s;
  let interval := to_int (interval + now) in
  '(wakeup, s) ←
    (if 0 <? elapses T then
       let wakeup := (interval <? elapses T) && (index T =? 0) in
       s ← update timer (with_elapses interval) s;
       t ← list_get (heap s) (index T);
       _ ← gw_assert (bool_decide (t = timer));
       '(w, s) ← heap_adjust (Z.to_nat (index T)) s;
       s ← (match ev with
            | Some _ =>
                update timer (with_event ev) (wap_event_destroy (event T) s)
            | None => Some s
            end);
       Some (wakeup || w, s)
     else
       s ← abort_elapsed timer s;
       s ← update timer (with_elapses interval) s;
       T ← timers s !! timer;
       _ ← gw_assert (index T <? 0);
       s ← heap_insert timer s;
       T ← timers s !! timer;
       Some (index T =? 0, s));
  s ← unlock s;
  Some (if wakeup : bool then call Wakeup s else s).

Definition timer_stop (timer : addr) (s : Timerset) : option Timerset :=
  T ← timers s !! timer;
  s ← lock s;
  s ← (if 0 <? elapses T then
         s ← update timer (with_elapses (-1)) s;
         t ← list_get (heap s) (index T);
         _ ← gw_assert (bool_decide (t = timer));
         heap_delete (Z.to_nat (index T)) s
       else Some s);
  s ← abort_elapsed timer s;
  unlock s.

(** One turn of the loop of [watch_timers]; [now] is what [time(NULL)]
    returns in it. *)
Definition watch_iteration (now : Z) (s : Timerset) : option Timerset :=
  s ← lock s;
  if (length (heap s) =? 0)%nat then
    s ← unlock s;
    Some (call (Sleep 1000000) s)
  else
    top ← heap s !! 0%nat;
    top_time ← elapses_of s top;
    if top_time <=? now then
      s ← heap_delete 0 s;
      s ← elapse_timer top s;
      unlock s
    else
      s ← unlock s;
      Some (call (Sleep (top_time - now)) s).

(** [watch_timers], run for as many turns as there are clock readings. *)
Fixpoint watch_timers (clock : list Z) (s : Timerset) : option Timerset :=
  match clock with
  | [] => Some s
  | now :: clock =>
      if stopping s then Some s
      else s ← watch_iteration now s; watch_timers clock s
  end.

(** The caller's side of the output list: [list_consume] takes the first
    item. *)
Definition consume (s : Timerset) : option (option evptr * Timerset) :=
  match output s with
  | [] => None
  | p :: o => Some (p, set_output o s)
  end.

(** ** Invariants *)

(** The partial order of the heap, on the keys [k] of its elements: the
    element at [p] is not later than the element at [c]. *)
Definition le_at (k : addr -> Z) (h : list addr) (p c : nat) : Prop :=
  ∀ a b, h !! p = Some a → h !! c = Some b → k a ≤ k b.

(** The order kept by the code (see [struct Timerset]): element [i] is the
    child of element [i / 2] and never elapses before it. *)
Definition ordered (k : addr -> Z) (h : list addr) : Prop :=
  ∀ i, le_at k h (i / 2)%nat i.

(** The order as a heap with children [2i+1] and [2i+2]. *)
Definition min_heap (k : addr -> Z) (h : list addr) : Prop :=
  ∀ i, le_at k h i (2 * i + 1)%nat ∧ le_at k h i (2 * i + 2)%nat.

(** The states of the heap while [heap_adjust] runs on position [idx]: the
    parent of [idx] is not later than the children of [idx], and the order
    holds on every edge except the edge above [idx] ([up_ok]), the edges
    below it ([down_ok]), or both ([hole_ok]). *)
Definition grand_ok (k : addr -> Z) (h : list addr) (idx : nat) : Prop :=
  ∀ i, (i / 2)%nat = idx → idx ≠ 0%nat → le_at k h (idx / 2)%nat i.
Definition up_ok (k : addr -> Z) (h : list addr) (idx : nat) : Prop :=
  (∀ i, i ≠ idx → le_at k h (i / 2)%nat i) ∧ grand_ok k h idx.
Definition down_ok (k : addr -> Z) (h : list addr) (idx : nat) : Prop :=
  (∀ i, (i / 2)%nat ≠ idx → le_at k h (i / 2)%nat i) ∧ grand_ok k h idx.
Definition hole_ok (k : addr -> Z) (h : list addr) (idx : nat) : Prop :=
  (∀ i, i ≠ idx → (i / 2)%nat ≠ idx → le_at k h (i / 2)%nat i) ∧ grand_ok k h idx.

(** The list after [list_swap] of positions [i] and [j], which held [x] and
    [y]. *)
Definition swapped (h : list addr) (i j : nat) (x y : addr) : list addr :=
  <[j := x]> (<[i := y]> h).

(** The elapse time of the timer at an address. *)
Definition key (s : Timerset) (a : addr) : Z := default 0 (elapses_of s a).

(** Every position of the heap holds a timer whose [index] is that
    position. *)
Definition heap_indexed (s : Timerset) : Prop :=
  ∀ i a, heap s !! i = Some a →
    ∃ T, timers s !! a = Some T ∧ index T = Z.of_nat i.

(** Every timer is out of the heap, with [index] -1, or at the position its
    [index] names: [heap[t.index] == t]. *)
Definition index_valid (s : Timerset) : Prop :=
  ∀ a T, timers s !! a = Some T →
    index T = -1 ∨ (0 ≤ index T ∧ heap s !! Z.to_nat (index T) = Some a).

(** What the heap operations leave alone: everything but the order of the
    heap and the [index] fields of the timers in it. *)
Record frame (s s' : Timerset) : Prop := mkFrame {
  frame_stopping : stopping s' = stopping s;
  frame_mutex : mutex s' = mutex s;
  frame_output : output s' = output s;
  frame_next_event : next_event s' = next_event s;
  frame_calls : calls s' = calls s;
  frame_heap : heap s' ≡ₚ heap s;
  frame_none : ∀ a, timers s !! a = None → timers s' !! a = None;
  frame_some : ∀ a T, timers s !! a = Some T →
    ∃ T', timers s' !! a = Some T' ∧ elapses T' = elapses T ∧
          event T' = event T ∧ elapsed_event T' = elapsed_event T ∧
          (a ∉ heap s → index T' = index T)
}.

(** What no heap operation changes: everything but the heap and the
    [index] fields. *)
Record same_payload (s s' : Timerset) : Prop := mkSamePayload {
  sp_stopping : stopping s' = stopping s;
  sp_mutex : mutex s' = mutex s;
  sp_output : output s' = output s;
  sp_next_event : next_event s' = next_event s;
  sp_calls : calls s' = calls s;
  sp_none : ∀ a, timers s !! a = None → timers s' !! a = None;
  sp_some : ∀ a T, timers s !! a = Some T →
    ∃ T', timers s' !! a = Some T' ∧ elapses T' = elapses T ∧
          event T' = event T ∧ elapsed_event T' = elapsed_event T
}.

(** The timers outside the heap keep their [index]. *)
Definition same_index_outside (h : list addr) (s s' : Timerset) : Prop :=
  ∀ a T T', a ∉ h → timers s !! a = Some T → timers s' !! a = Some T' →
    index T' = index T.

(** The invariant of a timer set at rest.  The code takes a timer for
    active when its [elapses] is positive ([timer_start], [timer_stop]), so
    the timers in the heap are the timers with a positive elapse time. *)
Record wf (s : Timerset) : Prop := mkWf {
  wf_free : mutex s = false;
  wf_indexed : heap_indexed s;
  wf_ordered : ordered (key s) (heap s);
  wf_outside : ∀ a T, timers s !! a = Some T → a ∉ heap s →
    index T = -1 ∧ elapses T = -1;
  wf_active : ∀ a T, timers s !! a = Some T → a ∈ heap s →
    0 < elapses T ∧ elapsed_event T = None;
  wf_queue : ∀ t p, Produce t (Some p) ∈ calls s → Some p ∈ output s →
    ∃ T, timers s !! t = Some T ∧ elapsed_event T = Some p;
  wf_fresh : ∀ t p, Produce t (Some p) ∈ calls s → (p < next_event s)%nat
}.

(** The invariant of the heap alone: the set is at rest, the heap is in the
    order of the code, [heap[t.index] == t] for the timers in the heap, and
    the other timers have [index] -1. *)
Record heap_invariant (s : Timerset) : Prop := mkHeapInvariant {
  hi_free : mutex s = false;
  hi_ordered : ordered (key s) (heap s);
  hi_indexed : heap_indexed s;
  hi_outside : ∀ a T, timers s !! a = Some T → a ∉ heap s → index T = -1
}.

(** ** The operations on a timer set *)

Inductive Op :=
| OpCreate
| OpStart (now : Z) (timer : addr) (interval : Z) (ev : option evptr)
| OpStop (timer : addr)
| OpWatch (now : Z)
| OpConsume.

Definition step (o : Op) (s : Timerset) : option Timerset :=
  match o with
  | OpCreate => Some (snd (timer_create s))
  | OpStart now timer interval ev => timer_start now timer interval ev s
  | OpStop timer => timer_stop timer s
  | OpWatch now => watch_iteration now s
  | OpConsume => snd <$> consume s
  end.

(** A start asks for a positive absolute time that fits an [int]. *)
Definition valid_time (o : Op) : Prop :=
  match o with
  | OpStart now _ interval _ => 0 < to_int (interval + now)
  | _ => True
  end.

(** The states of a timer set between operations. *)
Inductive reachable : Timerset -> Prop :=
| reachable_create outputlist first_event :
    reachable (timerset_create outputlist first_event)
| reachable_step s o s' :
    reachable s → valid_time o → step o s = Some s' → reachable s'.

Fixpoint run (ops : list Op) (s : Timerset) : option Timerset :=
  match ops with
  | [] => Some s
  | o :: ops => s ← step o s; run ops s
  end.

(** The elapse time of the top of the heap. *)
Definition top_time (s : Timerset) : option Z :=
  top ← heap s !! 0%nat; elapses_of s top.

(** The top of the heap of [s'] is earlier than the top of the heap of
    [s]; an empty heap has no top. *)
Definition top_earlier (s s' : Timerset) : Prop :=
  match top_time s', top_time s with
  | Some e', Some e => e' < e
  | Some _, None => True
  | None, _ => False
  end.

(** What [abort_elapsed] calls for a timer whose [elapsed_event] is [e]. *)
Definition retraction (e : option evptr) (o : list (option evptr)) : list Call :=
  match e with
  | None => []
  | Some p =>
      let count := fst (list_delete_equal o p) in
      DeleteEqual p count :: (if (0 <? count)%nat then [Destroy p] else [])
  end.

(** Whether the mutex is held after the calls [l], when [held] says whether
    it was held before. *)
Fixpoint held_after (held : bool) (l : list Call) : bool :=
  match l with
  | [] => held
  | MutexLock :: l => held_after true l
  | MutexUnlock :: l => held_after false l
  | _ :: l => held_after held l
  end.

(** Whether every [Sleep] and [Wakeup] among the calls [l] is made with the
    mutex free. *)
Fixpoint unlocked_calls (held : bool) (l : list Call) : bool :=
  match l with
  | [] => true
  | MutexLock :: l => unlocked_calls true l
  | MutexUnlock :: l => unlocked_calls false l
  | (Sleep _ | Wakeup) :: l => negb held && unlocked_calls held l
  | _ :: l => unlocked_calls held l
  end.

(** The payload [wap_event_duplicate] returns for [e] in state [s]. *)
Definition duplicate_of (e : option evptr) (s : Timerset) : option evptr :=
  fst (wap_event_duplicate e s).

(** What the active branch of [timer_start] destroys: the old event, when a
    new one is given. *)
Definition replaced_event (ev old : option evptr) : list Call :=
  match ev, old with
  | Some _, Some p => [Destroy p]
  | _, _ => []
  end.

(** The calls made since the state [s], in a later state [s']. *)
Definition calls_since (s s' : Timerset) : list Call :=
  drop (length (calls s)) (calls s').

(** Seven timers started one after the other at time 1000, for 1, 2, 10,
    3, 11, 12 and 4 seconds. *)
Definition seven_timers : list Op :=
  [OpCreate; OpStart 1000 0%nat 1 (Some 50%nat);
   OpCreate; OpStart 1000 1%nat 2 (Some 51%nat);
   OpCreate; OpStart 1000 2%nat 10 (Some 52%nat);
   OpCreate; OpStart 1000 3%nat 3 (Some 53%nat);
   OpCreate; OpStart 1000 4%nat 11 (Some 54%nat);
   OpCreate; OpStart 1000 5%nat 12 (Some 55%nat);
   OpCreate; OpStart 1000 6%nat 4 (Some 56%nat)].

(** A timer that is started. *)
Definition started_timer : list Op :=
  [OpCreate; OpStart 1000 0%nat 5 (Some 50%nat)].

(** A timer that is started, given its event by a second start, and
    elapses: its payload is on the output list. *)
Definition elapsed_timer : list Op :=
  [OpCreate; OpStart 1000 0%nat 5 (Some 50%nat);
   OpStart 1001 0%nat 5 (Some 51%nat); OpWatch 1006].

(** The state after the operations [ops] on a new set. *)
Definition state_after (ops : list Op) : Timerset :=
  default (timerset_create [] 100%nat) (run ops (timerset_create [] 100%nat)).

(** ** Destruction *)

Definition set_stopping (b : bool) (s : Timerset) : Timerset :=
  mkTimerset b (mutex s) (heap s) (timers s) (output s) (next_event s) (calls s).

(** The loop [while (list_len(set->heap) > 0) timer_stop(list_get(set->heap, 0))]
    of [timerset_destroy]; [fuel] bounds its turns. *)
Fixpoint stop_all (fuel : nat) (s : Timerset) : option Timerset :=
  if (0 <? length (heap s))%nat then
    match fuel with
    | O => None
    | S fuel =>
        top ← list_get (heap s) 0;
        s ← timer_stop top s;
        stop_all fuel s
    end
  else Some s.

(** [timerset_destroy]: every timer of the heap is stopped, then the timer
    thread is told to stop and woken up.  The join of the thread, the
    [list_remove_producer] of the output list and the release of the heap,
    the mutex and the set have nothing to act on in the model; the set is
    not used again. *)
Definition timerset_destroy (s : Timerset) : option Timerset :=
  s ← stop_all (length (heap s)) s;
  Some (call Wakeup (set_stopping true s)).

(** [timer_destroy]: the timer is stopped, its event destroyed and its
    memory given back. *)
Definition timer_destroy (timer : addr) (s : Timerset) : option Timerset :=
  s ← timer_stop timer s;
  T ← timers s !! timer;
  let s := wap_event_destroy (event T) s in
  Some (set_timers (delete timer (timers s)) s).

(** The timers that the calls [l] produce an item for, in their order. *)
Definition produced (l : list Call) : list addr :=
  omap (λ c, match c with Produce t _ => Some t | _ => None end) l.

(** A timer that is started for a time that wraps around to a negative
    [int]. *)
Definition wrapped_timer : list Op := [OpCreate].

End Timers.

(* ===================================================================== *)
(** * gwlib/conn.c *)
(* ===================================================================== *)

Module Conn.

Global Instance byte_eq_dec : EqDecision byte := Byte.byte_eq_dec.

(** ** Octet strings *)

(** Modelled from the spec: the byte-string type [Octstr] and its operations
    (gwlib/octstr.c is not part of the sources): an octet string is the list
    of its bytes, positions and lengths are [long]s. *)
Definition Octstr := list byte.

Definition byte_value (b : byte) : Z := Z.of_N (Byte.to_N b).
Definition byte_of_Z (z : Z) : byte :=
  default x00 (Byte.of_N (Z.to_N (z mod 256))).

(** Modelled from the spec: [octstr_len]. *)
Definition octstr_len (o : Octstr) : Z := Z.of_nat (length o).

(** Modelled from the spec: [octstr_delete] takes out [len] bytes from
    position [pos]; both are cut down to the string. *)
Definition octstr_delete (o : Octstr) (pos len : Z) : Octstr :=
  take (Z.to_nat pos) o ++ drop (Z.to_nat pos + Z.to_nat len) o.

(** Modelled from the spec: [octstr_copy] and [octstr_get_many_chars], at
    most [len] bytes from position [from]. *)
Definition octstr_copy (o : Octstr) (from len : Z) : Octstr :=
  take (Z.to_nat len) (drop (Z.to_nat from) o).

(** Modelled from the spec: [octstr_get_char], the byte at [pos], or -1. *)
Definition octstr_get_char (o : Octstr) (pos : Z) : Z :=
  if pos <? 0 then -1
  else match o !! Z.to_nat pos with
       | Some b => byte_value b
       | None => -1
       end.

(** Modelled from the spec: [octstr_search_char], the first position from
    [pos] on that holds [ch], or -1. *)
Definition octstr_search_char (o : Octstr) (ch : Z) (pos : Z) : Z :=
  match list_find (λ b, byte_value b = ch) (drop (Z.to_nat pos) o) with
  | Some (i, _) => Z.of_nat (Z.to_nat pos + i)
  | None => -1
  end.

(** Modelled from the spec: [decode_network_long] and
    [encode_network_long], the codec of the 32-bit length prefix in
    network order; a prefix with the high bit set decodes to a negative
    length. *)
Definition decode_network_long (l : list byte) : Z :=
  let u := fold_left (λ acc b, acc * 256 + byte_value b) (take 4 l) 0 in
  if u <? 2147483648 then u else u - 4294967296.

(** Modelled from the spec: [encode_network_long], the four bytes of [n]
    in network order. *)
Definition encode_network_long (n : Z) : list byte :=
  [byte_of_Z (n / 16777216); byte_of_Z (n / 65536); byte_of_Z (n / 256);
   byte_of_Z n].

(** ** The connection and its environment *)

(** Constants of <poll.h> and <errno.h>, with their values on Linux. *)
Definition POLLIN : Z := 1.
Definition POLLOUT : Z := 4.
Definition POLLERR : Z := 8.
Definition POLLHUP : Z := 16.
Definition POLLNVAL : Z := 32.
Definition EINTR : Z := 4.
Definition EAGAIN : Z := 11.
Definition EWOULDBLOCK : Z := 11.

(** [revents & mask] as a condition. *)
Definition has_events (revents mask : Z) : bool := negb (Z.land revents mask =? 0).

(** [struct Connection].  The mutexes are in the [World]; [claiming_thread]
    is left out, every call being made by the one thread of the model. *)
Record Connection := mkConnection {
  claimed : bool;
  fd : Z;
  outbuf : Octstr;
  outbufpos : Z;
  output_buffering : Z;
  inbuf : Octstr;
  inbufpos : Z;
  read_eof : bool;
  read_error : bool;
  registered : option nat;
  callback : option nat;
  callback_data : option nat;
  listening_pollin : bool;
  listening_pollout : bool
}.

(** What [read] returns: an error with its [errno], or the bytes read, none
    at the end of the file. *)
Inductive read_result :=
| ReadError (errno : Z)
| ReadBytes (data : list byte).

(** Calls to the operating system and to the collaborators, in the order in
    which they are made. *)
Inductive Call :=
| LockIn
| UnlockIn
| LockOut
| UnlockOut
| SysWrite (from ret : Z)
| SysRead (r : read_result)
| Poll (fd events seconds : Z) (ret errno : Z)
| FdsetListen (mask value : Z)
| FdsetRegister (events : Z)
| FdsetUnregister
| UserCallback
| LogWarning
| LogError.

(** The connection with its two mutexes, what the environment will answer to
    the next calls of [octstr_write_data], [read] and [gwthread_pollfd], and
    the calls made so far.  When the answers run out nothing happens any
    more: a write sends nothing, a read has nothing to read, a poll times
    out. *)
Record World := mkWorld {
  conn : Connection;
  inlock : bool;
  outlock : bool;
  writes : list Z;
  reads : list read_result;
  polls : list (Z * Z);
  calls : list Call
}.

(** Functions on a connection: state, with failure where the code panics
    ([gw_assert], [panic]) or blocks on a mutex for ever. *)
Definition M (A : Type) : Type := World → option (A * World).
Global Instance M_ret : MRet M := λ A a w, Some (a, w).
Global Instance M_bind : MBind M := λ A B k m w,
  match m w with
  | Some (a, w') => k a w'
  | None => None
  end.

Definition get : M Connection := λ w, Some (conn w, w).
Definition modify (f : Connection → Connection) : M unit := λ w,
  Some (tt, mkWorld (f (conn w)) (inlock w) (outlock w) (writes w) (reads w)
              (polls w) (calls w)).
Definition call (c : Call) : M unit := λ w,
  Some (tt, mkWorld (conn w) (inlock w) (outlock w) (writes w) (reads w)
              (polls w) (calls w ++ [c])).
Definition panic {A : Type} : M A := λ _, None.
Definition gw_assert (b : bool) : M unit := if b then mret tt else panic.

Definition set_outbuf (o : Octstr) (pos : Z) (c : Connection) : Connection :=
  mkConnection (claimed c) (fd c) o pos (output_buffering c) (inbuf c)
    (inbufpos c) (read_eof c) (read_error c) (registered c) (callback c)
    (callback_data c) (listening_pollin c) (listening_pollout c).
Definition set_output_buffering (n : Z) (c : Connection) : Connection :=
  mkConnection (claimed c) (fd c) (outbuf c) (outbufpos c) n (inbuf c)
    (inbufpos c) (read_eof c) (read_error c) (registered c) (callback c)
    (callback_data c) (listening_pollin c) (listening_pollout c).
Definition set_inbuf (i : Octstr) (pos : Z) (c : Connection) : Connection :=
  mkConnection (claimed c) (fd c) (outbuf c) (outbufpos c) (output_buffering c) i
    pos (read_eof c) (read_error c) (registered c) (callback c)
    (callback_data c) (listening_pollin c) (listening_pollout c).
Definition set_read_eof (c : Connection) : Connection :=
  mkConnection (claimed c) (fd c) (outbuf c) (outbufpos c) (output_buffering c)
    (inbuf c) (inbufpos c) true (read_error c) (registered c) (callback c)
    (callback_data c) (listening_pollin c) (listening_pollout c).
Definition set_read_error (c : Connection) : Connection :=
  mkConnection (claimed c) (fd c) (outbuf c) (outbufpos c) (output_buffering c)
    (inbuf c) (inbufpos c) (read_eof c) true (registered c) (callback c)
    (callback_data c) (listening_pollin c) (listening_pollout c).
Definition set_claimed (c : Connection) : Connection :=
  mkConnection true (fd c) (outbuf c) (outbufpos c) (output_buffering c)
    (inbuf c) (inbufpos c) (read_eof c) (read_error c) (registered c) (callback c)
    (callback_data c) (listening_pollin c) (listening_pollout c).
Definition set_registration (r cb data : option nat) (pin pout : bool)
    (c : Connection) : Connection :=
  mkConnection (claimed c) (fd c) (outbuf c) (outbufpos c) (output_buffering c)
    (inbuf c) (inbufpos c) (read_eof c) (read_error c) r cb data pin pout.
Definition set_listening_pollin (b : bool) (c : Connection) : Connection :=
  set_registration (registered c) (callback c) (callback_data c) b
    (listening_pollout c) c.
Definition set_listening_pollout (b : bool) (c : Connection) : Connection :=
  set_registration (registered c) (callback c) (callback_data c)
    (listening_pollin c) b c.

(** Modelled from the spec:
    [octstr_write_data (conn->outbuf, conn->fd, conn->outbufpos)], the
    number of bytes that were sent, or -1, as the environment answers. *)
Definition octstr_write_data (from : Z) : M Z := λ w,
  let r := hd 0 (writes w) in
  Some (r, mkWorld (conn w) (inlock w) (outlock w) (tl (writes w)) (reads w)
             (polls w) (calls w ++ [SysWrite from r])).

(** [read (conn->fd, buf, sizeof (buf))]. *)
Definition sys_read : M read_result := λ w,
  let r := hd (ReadError EAGAIN) (reads w) in
  Some (r, mkWorld (conn w) (inlock w) (outlock w) (writes w) (tl (reads w))
             (polls w) (calls w ++ [SysRead r])).

(** Modelled from the spec: [gwthread_pollfd], its result and the [errno]
    it leaves, as the environment answers. *)
Definition gwthread_pollfd (fd events seconds : Z) : M (Z * Z) := λ w,
  let r := hd (0, 0) (polls w) in
  Some (r, mkWorld (conn w) (inlock w) (outlock w) (writes w) (reads w)
             (tl (polls w)) (calls w ++ [Poll fd events seconds r.1 r.2])).

(** ** Locking *)

Definition lock_in : M unit :=
  c ← get;
  if claimed c then mret tt
  else λ w, if inlock w then None
            else Some (tt, mkWorld (conn w) true (outlock w) (writes w) (reads w)
                             (polls w) (calls w ++ [LockIn])).

Definition unlock_in : M unit :=
  c ← get;
  if claimed c then mret tt
  else λ w, if inlock w
            then Some (tt, mkWorld (conn w) false (outlock w) (writes w) (reads w)
                             (polls w) (calls w ++ [UnlockIn]))
            else None.

Definition lock_out : M unit :=
  c ← get;
  if claimed c then mret tt
  else λ w, if outlock w then None
            else Some (tt, mkWorld (conn w) (inlock w) true (writes w) (reads w)
                             (polls w) (calls w ++ [LockOut])).

Definition unlock_out : M unit :=
  c ← get;
  if claimed c then mret tt
  else λ w, if outlock w
            then Some (tt, mkWorld (conn w) (inlock w) false (writes w) (reads w)
                             (polls w) (calls w ++ [UnlockOut]))
            else None.

(** ** The unlocked operations *)

Definition unlocked_outbuf_len (c : Connection) : Z :=
  octstr_len (outbuf c) - outbufpos c.

Definition unlocked_inbuf_len (c : Connection) : Z :=
  octstr_len (inbuf c) - inbufpos c.

Definition unlocked_register_pollin (onoff : bool) : M unit :=
  c ← get;
  gw_assert (bool_decide (registered c ≠ None));;
  if onoff && negb (listening_pollin c) then
    modify (set_listening_pollin true);;
    call (FdsetListen POLLIN POLLIN)
  else if negb onoff && listening_pollin c then
    modify (set_listening_pollin false);;
    call (FdsetListen POLLIN 0)
  else mret tt.

Definition unlocked_register_pollout (onoff : bool) : M unit :=
  c ← get;
  gw_assert (bool_decide (registered c ≠ None));;
  if onoff && negb (listening_pollout c) then
    modify (set_listening_pollout true);;
    call (FdsetListen POLLOUT POLLOUT)
  else if negb onoff && listening_pollout c then
    modify (set_listening_pollout false);;
    call (FdsetListen POLLOUT 0)
  else mret tt.

Definition unlocked_write : M Z :=
  c ← get;
  ret ← octstr_write_data (outbufpos c);
  if ret <? 0 then mret (-1)
  else
    modify (λ c, set_outbuf (outbuf c) (outbufpos c + ret) c);;
    c ← get;
    (if Z.quot (octstr_len (outbuf c)) 2 <? outbufpos c then
       modify (λ c, set_outbuf (octstr_delete (outbuf c) 0 (outbufpos c)) 0 c)
     else mret tt);;
    c ← get;
    (if registered c is Some _ then unlocked_register_pollout (0 <? unlocked_outbuf_len c)
     else mret tt);;
    mret ret.

Definition unlocked_try_write : M Z :=
  c ← get;
  let len := unlocked_outbuf_len c in
  if len =? 0 then mret 0
  else if len <? output_buffering c then mret 1
  else
    r ← unlocked_write;
    if r <? 0 then mret (-1)
    else
      c ← get;
      if 0 <? unlocked_outbuf_len c then mret 1 else mret 0.

Definition unlocked_read : M unit :=
  c ← get;
  (if 0 <? inbufpos c then
     modify (λ c, set_inbuf (octstr_delete (inbuf c) 0 (inbufpos c)) 0 c)
   else mret tt);;
  r ← sys_read;
  match r with
  | ReadError errno =>
      if (errno =? EINTR) || (errno =? EAGAIN) || (errno =? EWOULDBLOCK)
      then mret tt
      else
        call LogError;;
        modify set_read_error;;
        c ← get;
        if registered c is Some _ then unlocked_register_pollin false else mret tt
  | ReadBytes [] =>
      modify set_read_eof;;
      c ← get;
      if registered c is Some _ then unlocked_register_pollin false else mret tt
  | ReadBytes data =>
      modify (λ c, set_inbuf (inbuf c ++ data) (inbufpos c) c)
  end.

Definition unlocked_get (length : Z) : M Octstr :=
  c ← get;
  gw_assert (length <=? unlocked_inbuf_len c);;
  let result := octstr_copy (inbuf c) (inbufpos c) length in
  modify (λ c, set_inbuf (inbuf c) (inbufpos c + length) c);;
  mret result.

(** ** The interface *)

Definition conn_wrap_fd (fd : Z) : Connection :=
  mkConnection false fd [] 0 0 [] 0 false false None None None false false.

Definition conn_claim : M unit :=
  c ← get;
  if claimed c then panic else modify set_claimed.

Definition conn_outbuf_len : M Z :=
  lock_out;; c ← get; unlock_out;; mret (unlocked_outbuf_len c).

Definition conn_inbuf_len : M Z :=
  lock_in;; c ← get; unlock_in;; mret (unlocked_inbuf_len c).

Definition conn_eof : M bool :=
  lock_in;; c ← get; unlock_in;; mret (read_eof c).

Definition conn_read_error : M bool :=
  lock_in;; c ← get; unlock_in;; mret (read_error c).

Definition conn_set_output_buffering (size : Z) : M unit :=
  lock_out;;
  modify (set_output_buffering size);;
  unlocked_try_write;;
  unlock_out.

Definition poll_callback (fd' revents : Z) : M unit :=
  c ← get;
  if negb (fd c =? fd') then call LogError
  else
    (if has_events revents POLLOUT then
       lock_out;; unlocked_write;; unlock_out
     else mret tt);;
    (if has_events revents POLLIN then
       lock_in;; unlocked_read;; unlock_in;; call UserCallback
     else mret tt).

Definition conn_register (fdset : option nat) (cb data : option nat) : M Z :=
  c ← get;
  if fd c <? 0 then mret (-1)
  else
    lock_out;;
    lock_in;;
    c ← get;
    result ←
      (if bool_decide (registered c = fdset) then
         modify (set_registration (registered c) cb data (listening_pollin c)
                   (listening_pollout c));;
         mret 0
       else if registered c is Some _ then mret (-1)
       else
         let events :=
           Z.lor (if negb (read_eof c) && negb (read_error c) then POLLIN else 0)
                 (if 0 <? unlocked_outbuf_len c then POLLOUT else 0) in
         modify (set_registration fdset cb data (has_events events POLLIN)
                   (has_events events POLLOUT));;
         call (FdsetRegister events);;
         mret 0);
    unlock_in;;
    unlock_out;;
    mret result.

Definition conn_unregister : M unit :=
  c ← get;
  if fd c <? 0 then mret tt
  else
    lock_out;;
    lock_in;;
    c ← get;
    (if registered c is Some _ then
       call FdsetUnregister;;
       modify (set_registration None None None false false)
     else mret tt);;
    unlock_in;;
    unlock_out.

(** The part of [conn_wait] that follows the poll, which returned [ret]
    and left [errno]. *)
Definition wait_polled (ret errno : Z) : M Z :=
  if ret <? 0 then
    if errno =? EINTR then mret 0
    else call LogError;; mret (-1)
  else if ret =? 0 then mret 1
  else if has_events ret POLLNVAL then call LogError;; mret (-1)
  else if has_events ret (Z.lor POLLERR POLLHUP) then
    lock_in;; unlocked_read;; unlock_in;; mret (-1)
  else
    (if has_events ret POLLOUT then
       lock_out;; unlocked_write;; unlock_out
     else mret tt);;
    (if has_events ret POLLIN then
       lock_in;; unlocked_read;; unlock_in
     else mret tt);;
    mret 0.

Definition conn_wait (seconds : Z) : M Z :=
  lock_out;;
  ret ← unlocked_write;
  if ret <? 0 then unlock_out;; mret (-1)
  else if 0 <? ret then unlock_out;; mret 0
  else
    c ← get;
    let fd := fd c in
    let events := if 0 <? unlocked_outbuf_len c then POLLOUT else 0 in
    unlock_out;;
    lock_in;;
    c ← get;
    let events :=
      if (negb (read_eof c) && negb (read_error c)) || (events =? 0)
      then Z.lor events POLLIN else events in
    unlock_in;;
    '(ret, errno) ← gwthread_pollfd fd events seconds;
    wait_polled ret errno.

(** The loop of [conn_flush]; it is entered with the out lock held, and
    left with it when the buffer is empty: the source returns 0 after the
    loop without [unlock_out]. *)
Fixpoint flush_loop (fuel : nat) : M Z :=
  c ← get;
  if unlocked_outbuf_len c =? 0 then mret 0
  else
    match fuel with
    | O => panic
    | S fuel =>
        unlock_out;;
        '(revents, errno) ← gwthread_pollfd (fd c) POLLOUT (-1);
        if revents <? 0 then
          if errno =? EINTR then mret 1
          else call LogError;; mret (-1)
        else if revents =? 0 then mret 1
        else if has_events revents POLLNVAL then call LogError;; mret (-1)
        else
          lock_out;;
          ret ←
            (if has_events revents (Z.lor POLLOUT (Z.lor POLLERR POLLHUP))
             then unlocked_write else mret 0);
          if ret <? 0 then unlock_out;; mret (-1)
          else flush_loop fuel
    end.

(** [conn_flush].  The loop ends when the environment has no more answers
    to a poll, if not before, so that many turns and one are enough. *)
Definition conn_flush : M Z :=
  lock_out;;
  ret ← unlocked_write;
  if ret <? 0 then unlock_out;; mret (-1)
  else λ w, flush_loop (S (length (polls w))) w.

Definition conn_write (data : Octstr) : M Z :=
  lock_out;;
  modify (λ c, set_outbuf (outbuf c ++ data) (outbufpos c) c);;
  ret ← unlocked_try_write;
  unlock_out;;
  mret ret.

Definition conn_write_data (data : list byte) (length : Z) : M Z :=
  lock_out;;
  modify (λ c, set_outbuf (outbuf c ++ take (Z.to_nat length) data) (outbufpos c) c);;
  ret ← unlocked_try_write;
  unlock_out;;
  mret ret.

Definition conn_write_withlen (data : Octstr) : M Z :=
  let lengthbuf := encode_network_long (octstr_len data) in
  lock_out;;
  modify (λ c, set_outbuf (outbuf c ++ lengthbuf) (outbufpos c) c);;
  modify (λ c, set_outbuf (outbuf c ++ data) (outbufpos c) c);;
  ret ← unlocked_try_write;
  unlock_out;;
  mret ret.

Definition conn_read_everything : M (option Octstr) :=
  lock_in;;
  c ← get;
  again ←
    (if unlocked_inbuf_len c =? 0 then
       unlocked_read;;
       c ← get;
       mret (unlocked_inbuf_len c =? 0)
     else mret false);
  if again : bool then unlock_in;; mret None
  else
    c ← get;
    result ← unlocked_get (unlocked_inbuf_len c);
    unlock_in;;
    mret (Some result).

Definition conn_read_fixed (length : Z) : M (option Octstr) :=
  lock_in;;
  c ← get;
  short ←
    (if unlocked_inbuf_len c <? length then
       unlocked_read;;
       c ← get;
       mret (unlocked_inbuf_len c <? length)
     else mret false);
  if short : bool then unlock_in;; mret None
  else
    result ← unlocked_get length;
    unlock_in;;
    mret (Some result).

Definition conn_read_line : M (option Octstr) :=
  lock_in;;
  c ← get;
  pos ←
    (let pos := octstr_search_char (inbuf c) 10 (inbufpos c) in
     if pos <? 0 then
       unlocked_read;;
       c ← get;
       mret (octstr_search_char (inbuf c) 10 (inbufpos c))
     else mret pos);
  if pos <? 0 then unlock_in;; mret None
  else
    c ← get;
    result ← unlocked_get (pos - inbufpos c);
    modify (λ c, set_inbuf (inbuf c) (inbufpos c + 1) c);;
    let result :=
      if (0 <? octstr_len result) &&
         (octstr_get_char result (octstr_len result - 1) =? 13)
      then octstr_delete result (octstr_len result - 1) 1
      else result in
    unlock_in;;
    mret (Some result).

(** The body of the loop of [conn_read_withlen] from the label [retry] on:
    [Some result] when it leaves the loop with a frame, [None] when it goes
    on with the next turn.  [fuel] bounds the jumps back to [retry]. *)
Fixpoint withlen_retry (fuel : nat) : M (option Octstr) :=
  c ← get;
  if unlocked_inbuf_len c <? 4 then mret None
  else
    let length := decode_network_long (octstr_copy (inbuf c) (inbufpos c) 4) in
    if length <? 0 then
      call LogWarning;;
      modify (λ c, set_inbuf (inbuf c) (inbufpos c + 4) c);;
      match fuel with
      | O => panic
      | S fuel => withlen_retry fuel
      end
    else if unlocked_inbuf_len c - 4 <? length then mret None
    else
      modify (λ c, set_inbuf (inbuf c) (inbufpos c + 4) c);;
      result ← unlocked_get length;
      mret (Some result).

(** The loop [for (try = 1; try <= 2; try++)] of [conn_read_withlen]. *)
Fixpoint withlen_loop (turns : nat) (try : Z) : M (option Octstr) :=
  match turns with
  | O => mret None
  | S turns =>
      if try <=? 2 then
        (if 1 <? try then unlocked_read else mret tt);;
        c ← get;
        result ← withlen_retry (length (inbuf c));
        match result with
        | Some r => mret (Some r)
        | None => withlen_loop turns (try + 1)
        end
      else mret None
  end.

Definition conn_read_withlen : M (option Octstr) :=
  lock_in;;
  result ← withlen_loop 3 1;
  unlock_in;;
  mret result.

(** The loop of [conn_read_packet]. *)
Fixpoint packet_loop (turns : nat) (try : Z) (startmark endmark : Z)
  : M (option Octstr) :=
  match turns with
  | O => mret None
  | S turns =>
      if try <=? 2 then
        (if 1 <? try then unlocked_read else mret tt);;
        c ← get;
        let startpos := octstr_search_char (inbuf c) startmark (inbufpos c) in
        if startpos <? 0 then
          modify (λ c, set_inbuf (inbuf c) (octstr_len (inbuf c)) c);;
          packet_loop turns (try + 1) startmark endmark
        else
          modify (λ c, set_inbuf (inbuf c) startpos c);;
          c ← get;
          let endpos := octstr_search_char (inbuf c) endmark (inbufpos c) in
          if endpos <? 0 then packet_loop turns (try + 1) startmark endmark
          else
            result ← unlocked_get (endpos - startpos + 1);
            mret (Some result)
      else mret None
  end.

Definition conn_read_packet (startmark endmark : Z) : M (option Octstr) :=
  lock_in;;
  result ← packet_loop 3 1 startmark endmark;
  unlock_in;;
  mret result.

(** ** The notions of the properties *)

(** The bytes of the input buffer that have not been handed out, and the
    bytes of the output buffer that have not been sent. *)
Definition unread (c : Connection) : list byte :=
  drop (Z.to_nat (inbufpos c)) (inbuf c).

Definition inbuf_ok (c : Connection) : Prop :=
  0 ≤ inbufpos c ≤ octstr_len (inbuf c).
Definition outbuf_ok (c : Connection) : Prop :=
  0 ≤ outbufpos c ≤ octstr_len (outbuf c).

(** No thread is inside an operation of the connection. *)
Definition at_rest (w : World) : Prop := inlock w = false ∧ outlock w = false.

(** The calls made from [w] to [w']. *)
Definition calls_since (w w' : World) : list Call :=
  drop (length (calls w)) (calls w').

Definition bytes_of (r : read_result) : list byte :=
  match r with
  | ReadBytes d => d
  | ReadError _ => []
  end.

(** The bytes that the calls of [read] in [l] have returned. *)
Definition read_data (l : list Call) : list byte :=
  flat_map (λ c, match c with SysRead r => bytes_of r | _ => [] end) l.

Definition is_warning (c : Call) : bool :=
  match c with
  | LogWarning => true
  | _ => false
  end.

Definition warnings (l : list Call) : nat := length (List.filter is_warning l).

(** The system calls among the calls, in their order. *)
Inductive Io :=
| IoWrite
| IoRead
| IoPoll (fd events seconds : Z).

Definition io_of (c : Call) : option Io :=
  match c with
  | SysWrite _ _ => Some IoWrite
  | SysRead _ => Some IoRead
  | Poll fd events seconds _ _ => Some (IoPoll fd events seconds)
  | _ => None
  end.

Definition io (l : list Call) : list Io := omap io_of l.

(** Whether every [Poll] of [l] is made with both locks free, [inl] and
    [outl] telling whether they are held before [l]. *)
Fixpoint polls_unlocked (inl outl : bool) (l : list Call) : bool :=
  match l with
  | [] => true
  | LockIn :: l => polls_unlocked true outl l
  | UnlockIn :: l => polls_unlocked false outl l
  | LockOut :: l => polls_unlocked inl true l
  | UnlockOut :: l => polls_unlocked inl false l
  | Poll _ _ _ _ _ :: l => negb inl && negb outl && polls_unlocked inl outl l
  | _ :: l => polls_unlocked inl outl l
  end.

(** The answers of the environment to the next calls. *)
Definition next_write (w : World) : Z := hd 0 (writes w).
Definition next_read (w : World) : read_result := hd (ReadError EAGAIN) (reads w).
Definition next_poll (w : World) : Z * Z := hd (0, 0) (polls w).

(** *** Length-prefixed frames, as the specification words them *)

(** Skip the prefixes with a negative length at the head of [bytes]: what
    is left, and how many were skipped. *)
Fixpoint skip_negative (bytes : list byte) : list byte * nat :=
  match bytes with
  | a :: b :: c :: d :: rest =>
      if decode_network_long [a; b; c; d] <? 0
      then let '(r, k) := skip_negative rest in (r, S k)
      else (bytes, 0%nat)
  | _ => (bytes, 0%nat)
  end.

(** A complete frame at the head of [bytes]: the frame and what follows
    it. *)
Definition take_frame (bytes : list byte) : option (Octstr * list byte) :=
  if octstr_len bytes <? 4 then None
  else
    let n := decode_network_long (take 4 bytes) in
    if n <? 0 then None
    else if octstr_len bytes - 4 <? n then None
    else Some (take (Z.to_nat n) (drop 4 bytes), drop (4 + Z.to_nat n) bytes).

Record frame_result := mkFrameResult {
  fr_frame : option Octstr;
  fr_rest : list byte;
  fr_skipped : nat;
  fr_read : bool
}.

(** One call on the unread bytes [u], the environment answering [next] to
    a [read]: the frame if there is one, else one read and a second
    attempt. *)
Definition spec_read_withlen (u : list byte) (next : read_result) : frame_result :=
  let '(rest1, k1) := skip_negative u in
  match take_frame rest1 with
  | Some (f, rest) => mkFrameResult (Some f) rest k1 false
  | None =>
      let '(rest2, k2) := skip_negative (rest1 ++ bytes_of next) in
      match take_frame rest2 with
      | Some (f, rest) => mkFrameResult (Some f) rest (k1 + k2) true
      | None => mkFrameResult None rest2 (k1 + k2) true
      end
  end.

(** The world after [k] prefixes were skipped and the position was moved
    to [pos]. *)
Definition retry_world (w : World) (pos : Z) (k : nat) : World :=
  mkWorld (set_inbuf (inbuf (conn w)) pos (conn w)) (inlock w) (outlock w)
    (writes w) (reads w) (polls w) (calls w ++ replicate k LogWarning).

(** *** The result of [conn_wait], as the specification words it *)

(** The mask of the poll: POLLOUT iff unsent bytes remain, POLLIN iff
    neither the end of the file nor an error has been seen, or there is
    nothing to write. *)
Definition wait_mask (c : Connection) : Z :=
  Z.lor (if 0 <? unlocked_outbuf_len c then POLLOUT else 0)
        (if (negb (read_eof c) && negb (read_error c))
            || negb (0 <? unlocked_outbuf_len c)
         then POLLIN else 0).

(** What follows the poll that answered [(ret, errno)]: the result of
    [conn_wait] and the system calls it makes. *)
Definition after_poll (ret errno : Z) : Z * list Io :=
  if ret <? 0 then (if errno =? EINTR then 0 else -1, [])
  else if ret =? 0 then (1, [])
  else if has_events ret POLLNVAL then (-1, [])
  else if has_events ret (Z.lor POLLERR POLLHUP) then (-1, [IoRead])
  else (0, (if has_events ret POLLOUT then [IoWrite] else []) ++
           (if has_events ret POLLIN then [IoRead] else [])).

(** *** The operations on a connection *)

Inductive Op :=
| OpClaim
| OpOutbufLen
| OpInbufLen
| OpEof
| OpReadError
| OpSetOutputBuffering (size : Z)
| OpPollCallback (fd revents : Z)
| OpRegister (fdset cb data : option nat)
| OpUnregister
| OpWait (seconds : Z)
| OpFlush
| OpWrite (data : Octstr)
| OpWriteData (data : list byte) (length : Z)
| OpWriteWithlen (data : Octstr)
| OpReadEverything
| OpReadFixed (length : Z)
| OpReadLine
| OpReadWithlen
| OpReadPacket (startmark endmark : Z).

Definition run_op (o : Op) : M unit :=
  match o with
  | OpClaim => conn_claim
  | OpOutbufLen => conn_outbuf_len;; mret tt
  | OpInbufLen => conn_inbuf_len;; mret tt
  | OpEof => conn_eof;; mret tt
  | OpReadError => conn_read_error;; mret tt
  | OpSetOutputBuffering size => conn_set_output_buffering size
  | OpPollCallback fd revents => poll_callback fd revents
  | OpRegister fdset cb data => conn_register fdset cb data;; mret tt
  | OpUnregister => conn_unregister
  | OpWait seconds => conn_wait seconds;; mret tt
  | OpFlush => conn_flush;; mret tt
  | OpWrite data => conn_write data;; mret tt
  | OpWriteData data length => conn_write_data data length;; mret tt
  | OpWriteWithlen data => conn_write_withlen data;; mret tt
  | OpReadEverything => conn_read_everything;; mret tt
  | OpReadFixed length => conn_read_fixed length;; mret tt
  | OpReadLine => conn_read_line;; mret tt
  | OpReadWithlen => conn_read_withlen;; mret tt
  | OpReadPacket startmark endmark => conn_read_packet startmark endmark;; mret tt
  end.

Fixpoint run (ops : list Op) : M unit :=
  match ops with
  | [] => mret tt
  | o :: ops => run_op o;; run ops
  end.

(** The state after [ops], for the examples. *)
Definition world_after (ops : list Op) (w : World) : World :=
  match run ops w with
  | Some (_, w') => w'
  | None => w
  end.

(** A new connection on descriptor 3 and what the environment answers. *)
Definition fresh_world (ws : list Z) (rs : list read_result) (ps : list (Z * Z))
  : World :=
  mkWorld (conn_wrap_fd 3) false false ws rs ps [].

(** *** The connection after a write and after a read *)

(** A write of [ret] bytes, [0 <= ret]: the position moves on; the part
    of the buffer that was sent is dropped when it is more than half of
    it; a registered connection listens for POLLOUT iff bytes are left. *)
Definition written (ret : Z) (c : Connection) : Connection :=
  let pos := outbufpos c + ret in
  if octstr_len (outbuf c) / 2 <? pos
  then set_outbuf (drop (Z.to_nat pos) (outbuf c)) 0 c
  else set_outbuf (outbuf c) pos c.

Definition after_write (ret : Z) (c : Connection) : Connection :=
  let c1 := written ret c in
  if registered c1 is Some _
  then set_listening_pollout (0 <? unlocked_outbuf_len c1) c1
  else c1.

Definition listen_log (listening onoff : bool) (mask : Z) : list Call :=
  if onoff && negb listening then [FdsetListen mask mask]
  else if negb onoff && listening then [FdsetListen mask 0]
  else [].

Definition write_log (ret : Z) (c : Connection) : list Call :=
  let c1 := written ret c in
  if registered c1 is Some _
  then listen_log (listening_pollout c1) (0 <? unlocked_outbuf_len c1) POLLOUT
  else [].

Definition transient (errno : Z) : bool :=
  (errno =? EINTR) || (errno =? EAGAIN) || (errno =? EWOULDBLOCK).

(** The input buffer without the bytes that were handed out. *)
Definition compacted (c : Connection) : Connection :=
  if 0 <? inbufpos c
  then set_inbuf (drop (Z.to_nat (inbufpos c)) (inbuf c)) 0 c
  else c.

Definition pollin_off (c : Connection) : Connection :=
  if registered c is Some _ then set_listening_pollin false c else c.

(** A read that the environment answers with [r]. *)
Definition after_read (r : read_result) (c : Connection) : Connection :=
  let c1 := compacted c in
  match r with
  | ReadError errno =>
      if transient errno then c1 else pollin_off (set_read_error c1)
  | ReadBytes [] => pollin_off (set_read_eof c1)
  | ReadBytes data => set_inbuf (inbuf c1 ++ data) (inbufpos c1) c1
  end.

Definition pollin_off_log (c : Connection) : list Call :=
  if registered c is Some _ then listen_log (listening_pollin c) false POLLIN
  else [].

Definition read_log (r : read_result) (c : Connection) : list Call :=
  match r with
  | ReadError errno =>
      if transient errno then [] else LogError :: pollin_off_log c
  | ReadBytes [] => pollin_off_log c
  | ReadBytes _ => []
  end.

(** Calls that are neither system calls nor lock operations nor
    warnings. *)
Definition quiet (l : list Call) : Prop :=
  Forall (λ c, c = LogError ∨ ∃ mask value, c = FdsetListen mask value) l.

(** *** What every operation keeps *)

(** From [w] to [w'] the end of the file stays seen, and the input buffer
    has gained no bytes but those of the calls of [read] made since. *)
Definition extends (w w' : World) : Prop :=
  (read_eof (conn w) = true → read_eof (conn w') = true) ∧
  ∃ l, calls w' = calls w ++ l ∧
       inbuf (conn w') `suffix_of` (inbuf (conn w) ++ read_data l).

Definition keeps {A : Type} (m : M A) : Prop :=
  ∀ w a w', m w = Some (a, w') → extends w w'.

(** The calls of the locks: on a claimed connection there are none. *)
Definition lock_log (c : Connection) (e : Call) : list Call :=
  if claimed c then [] else [e].

(** *** Examples *)

(** The peer closes, and the descriptor delivers a byte all the same. *)
Definition eof_then_data : World :=
  fresh_world [] [ReadBytes []; ReadBytes [x78]] [].

(** One byte arrives, then two more. *)
Definition short_read : World :=
  fresh_world [] [ReadBytes [x61]; ReadBytes [x62; x63]] [].

(** A connection registered with a set of descriptors, and a write that
    fails. *)
Definition registered_world : World :=
  world_after [OpRegister (Some 0%nat) None None] (fresh_world [-1] [] []).

(** The same with one byte in the output buffer, as [conn_write] has it
    when it calls [unlocked_try_write]. *)
Definition pending_byte : World :=
  mkWorld (set_outbuf [x61] 0 (conn registered_world)) false true [-1] [] []
    (calls registered_world ++ [LockOut]).

(** A write that sends nothing, and a poll that reports input. *)
Definition input_ready : World :=
  fresh_world [0] [ReadBytes [x61]] [(POLLIN, 0)].

(** A negative prefix, then the frame [ok] with its prefix. *)
Definition negative_then_ok : World :=
  mkWorld (set_inbuf [xff; xff; xff; xff; x00; x00; x00; x02; x6f; x6b] 0
             (conn_wrap_fd 3))
    false false [] [] [] [].

(** *** The properties in the words of the specification *)

(** After [read_eof] is set no operation appends to [inbuf]: the buffer
    can only lose bytes at its head. *)
Definition no_append_after_eof : Prop :=
  ∀ w ops w', read_eof (conn w) = true → run ops w = Some (tt, w') →
    inbuf (conn w') `suffix_of` inbuf (conn w).

(** [unlocked_try_write] with enough pending bytes writes and, on a
    registered connection, leaves the interest in POLLOUT at whether bytes
    are pending. *)
Definition try_write_updates_pollout : Prop :=
  ∀ w r w', outbuf_ok (conn w) →
    unlocked_outbuf_len (conn w) ≠ 0 →
    output_buffering (conn w) ≤ unlocked_outbuf_len (conn w) →
    registered (conn w) ≠ None →
    unlocked_try_write w = Some (r, w') →
    listening_pollout (conn w') = (0 <? unlocked_outbuf_len (conn w')).

(** [conn_wait] returns 0 without a poll when its write made progress, and
    polls otherwise. *)
Definition wait_polls_unless_progress : Prop :=
  ∀ seconds w r w', at_rest w → conn_wait seconds w = Some (r, w') →
    if 0 <? next_write w
    then r = 0 ∧ io (calls_since w w') = [IoWrite]
    else ∃ events, IoPoll (fd (conn w)) events seconds ∈ io (calls_since w w').

(** ** Relations that every operation respects *)

(** [m] takes every world to a world in the relation [R] with it. *)
Definition respects (R : World → World → Prop) {A : Type} (m : M A) : Prop :=
  ∀ w a w', m w = Some (a, w') → R w w'.

(** The same from the worlds whose connection is [c]. *)
Definition respects_at (R : World → World → Prop) (c : Connection) {A : Type}
    (m : M A) : Prop :=
  ∀ w a w', conn w = c → m w = Some (a, w') → R w w'.

(** A relation that holds along the steps that take the connection from
    [c] to [c'] with [Cr c c'] and make the calls [l] with [Lg c l]. *)
Class Respectful (R : World → World → Prop)
    (Cr : Connection → Connection → Prop) (Lg : Connection → list Call → Prop) := {
  r_refl : ∀ w, R w w;
  r_trans : ∀ w1 w2 w3, R w1 w2 → R w2 w3 → R w1 w3;
  r_step : ∀ w c' il ol ws rs ps l,
    Cr (conn w) c' → Lg (conn w) l →
    R w (mkWorld c' il ol ws rs ps (calls w ++ l))
}.

(** The sent part of the output buffer is never more than half of it, and
    a connection listens for POLLIN iff it is registered and has seen
    neither the end of the file nor an error, and for POLLOUT only if it
    is registered. *)
Definition is_registered (c : Connection) : bool :=
  if registered c is Some _ then true else false.

Record tidy (c : Connection) : Prop := mkTidy {
  tidy_pos : 0 ≤ outbufpos c ≤ octstr_len (outbuf c) / 2;
  tidy_pollin :
    listening_pollin c = is_registered c && negb (read_eof c) && negb (read_error c);
  tidy_pollout : listening_pollout c = true → is_registered c = true
}.

Definition keeps_tidy (w w' : World) : Prop := tidy (conn w) → tidy (conn w').

(** The calls of the locks. *)
Definition is_lock_call (c : Call) : bool :=
  match c with
  | LockIn | UnlockIn | LockOut | UnlockOut => true
  | _ => false
  end.

(** A claimed connection stays claimed and no lock is taken or released. *)
Definition claimed_lock_free (w w' : World) : Prop :=
  claimed (conn w) = true →
  claimed (conn w') = true ∧
  ∃ l, calls w' = calls w ++ l ∧ Forall (λ c, is_lock_call c = false) l.

(** The descriptor stays, and what was claimed or in error stays so. *)
Definition steady (w w' : World) : Prop :=
  fd (conn w') = fd (conn w) ∧
  (read_error (conn w) = true → read_error (conn w') = true).

(** A registered connection with a byte that was not sent, and a peer that
    closes. *)
Definition busy_world : World :=
  fresh_world [0; 1] [ReadBytes [x61]; ReadBytes []] [(POLLIN, 0)].

Definition busy_ops : list Op :=
  [OpRegister (Some 0%nat) None None; OpWrite [x61; x62; x63];
   OpPollCallback 3 (Z.lor POLLIN POLLOUT); OpReadEverything;
   OpPollCallback 3 POLLIN; OpUnregister].

(** A claimed connection at work. *)
Definition claimed_ops : list Op :=
  [OpWrite [x61]; OpWait 1; OpReadLine; OpOutbufLen; OpReadWithlen].

Definition claimed_world : World :=
  world_after [OpClaim] (fresh_world [1] [ReadBytes [x61; x0a]] [(POLLIN, 0)]).

(** A read that fails with EIO, and a descriptor that delivers a byte
    afterwards. *)
Definition failed_world : World :=
  world_after [OpReadEverything] (fresh_world [] [ReadError 5; ReadBytes [x61]] []).

(** The bytes of the output buffer that have not been written. *)
Definition unsent (c : Connection) : list byte :=
  drop (Z.to_nat (outbufpos c)) (outbuf c).

(** The frame [ok] with its prefix and a byte after it, unread. *)
Definition framed_ok : World :=
  mkWorld (set_inbuf [x00; x00; x00; x02; x6f; x6b; x21] 0 (conn_wrap_fd 3))
    false false [] [] [] [].

(** A line with a carriage return arrives, and a byte of the next line. *)
Definition line_world : World :=
  fresh_world [] [ReadBytes [x61; x0d; x0a; x62]] [].

(** A write that takes two bytes. *)
Definition partial_write : World := fresh_world [2] [] [].

(** The events a connection is registered with. *)
Definition register_events (c : Connection) : Z :=
  Z.lor (if negb (read_eof c) && negb (read_error c) then POLLIN else 0)
        (if 0 <? unlocked_outbuf_len c then POLLOUT else 0).

(** *** Packets between two marks *)

Definition starts_with (mark : Z) (l : list byte) : Prop :=
  ∃ b tl, l = b :: tl ∧ byte_value b = mark.

(** A packet: from a start mark to the first end mark, which may be the
    same byte. *)
Definition packet (startmark endmark : Z) (p : list byte) : Prop :=
  starts_with startmark p ∧
  ∃ body e, p = body ++ [e] ∧ byte_value e = endmark ∧
    Forall (λ b, byte_value b ≠ endmark) body.

(** One scan of the stream [s]: the packet after the bytes without a
    start mark, and what follows it; without a complete packet, what is
    kept of [s], from the first start mark on. *)
Definition scanned (startmark endmark : Z) (s : list byte) (r : option Octstr)
    (rest : list byte) : Prop :=
  match r with
  | Some p =>
      ∃ junk, s = junk ++ p ++ rest ∧
        Forall (λ b, byte_value b ≠ startmark) junk ∧ packet startmark endmark p
  | None =>
      (Forall (λ b, byte_value b ≠ startmark) s ∧ rest = []) ∨
      (∃ junk, s = junk ++ rest ∧ Forall (λ b, byte_value b ≠ startmark) junk ∧
         starts_with startmark rest ∧ Forall (λ b, byte_value b ≠ endmark) rest)
  end.

(** Two packets in one read, after a byte that belongs to none. *)
Definition packet_world : World :=
  fresh_world [] [ReadBytes [x78; x02; x61; x03; x02; x62; x03]] [].

(** *** Operations that return *)

(** The locks that are held, on a connection that is not claimed. *)
Definition locks (i o : bool) (w : World) : Prop :=
  inlock w = i && negb (claimed (conn w)) ∧
  outlock w = o && negb (claimed (conn w)).

(** From the connection [c] with the locks [i] and [o], [m] returns, with
    the locks [i'] and [o'], a well-formed input buffer and the claim as it
    was. *)
Definition total_at (c : Connection) (i o : bool) {A : Type} (m : M A)
    (i' o' : bool) : Prop :=
  ∀ w, conn w = c → locks i o w →
    ∃ a w', m w = Some (a, w') ∧ locks i' o' w' ∧ inbuf_ok (conn w') ∧
      claimed (conn w') = claimed c.

(** The operations that return from every state at rest. *)
Definition returns (o : Op) : Prop :=
  match o with
  | OpClaim | OpFlush => False
  | OpReadFixed length => 0 ≤ length
  | _ => True
  end.

End Conn.

(* ===================================================================== *)
(** * Proofs about gw/timers.c *)
(* ===================================================================== *)

Module TimersProofs.
Import Timers.

Local Set Warnings "-clear-no-such-hyp".
Local Arguments Nat.div : simpl never.
Local Arguments Nat.mul : simpl never.
Local Arguments Nat.sub : simpl never.

(** ** The order of the heap under swaps *)

Lemma swapped_lookup (h : list addr) i j x y m :
  h !! i = Some x → h !! j = Some y →
  swapped h i j x y !! m =
    if decide (m = j) then Some x else if decide (m = i) then Some y else h !! m.
Proof.
  intros Hi Hj. unfold swapped.
  apply lookup_lt_Some in Hi as Hli. apply lookup_lt_Some in Hj as Hlj.
  rewrite !list_lookup_insert, !length_insert.
  repeat case_decide; try done; try lia; naive_solver.
Qed.

Lemma swapped_length (h : list addr) i j x y : length (swapped h i j x y) = length h.
Proof. unfold swapped. by rewrite !length_insert. Qed.

Lemma swapped_perm (h : list addr) i j x y :
  h !! i = Some x → h !! j = Some y → swapped h i j x y ≡ₚ h.
Proof. intros Hi Hj. by apply Permutation_insert_swap. Qed.

Section Order.
Context (k : addr -> Z).
Implicit Types h : list addr.

Lemma le_at_refl h i : le_at k h i i.
Proof. intros a b Ha Hb. rewrite Ha in Hb. injection Hb as ->. lia. Qed.

(** Derives the comparisons that the ordering facts in sight give for the
    elements in sight, then calls [lia]. *)
Ltac order :=
  repeat match goal with
         | H : le_at k ?h ?p ?c, Hp : ?h !! ?p = Some ?a, Hc : ?h !! ?c = Some ?b |- _ =>
             lazymatch goal with
             | _ : k a ≤ k b |- _ => fail
             | _ => pose proof (H a b Hp Hc)
             end
         end; try lia.

Lemma up_step h idx x y :
  h !! idx = Some x → h !! (idx / 2)%nat = Some y → k x < k y →
  up_ok k h idx → up_ok k (swapped h idx (idx / 2) x y) (idx / 2).
Proof.
  intros Hx Hy Hlt [H1 H2].
  assert (idx ≠ (idx / 2)%nat) as Hne
    by (intros E; rewrite <- E in Hy; simplify_eq; lia).
  split.
  - intros i Hi a b. rewrite !(swapped_lookup h idx (idx / 2) x y) by done.
    intros Ha Hb.
    pose proof (H1 i) as H1i. pose proof (H2 i) as H2i.
    repeat case_decide; simplify_eq; try lia; try dlia.
    + specialize (H1i ltac:(done)). rewrite H3 in H1i. order.
    + specialize (H2i ltac:(done) ltac:(dlia)). order.
    + specialize (H1i ltac:(done)). order.
  - intros i Hi Hp a b. rewrite !(swapped_lookup h idx (idx / 2) x y) by done.
    intros Ha Hb.
    pose proof (H1 (idx / 2)%nat ltac:(done)) as Hpp.
    pose proof (H1 i) as Hc. rewrite Hi in Hc.
    repeat case_decide; simplify_eq; try lia; try dlia; order.
    all: try (specialize (Hc ltac:(done)); order).
Qed.

Lemma up_done h idx :
  le_at k h (idx / 2)%nat idx → up_ok k h idx → ordered k h.
Proof.
  intros Hle [H1 _] i. destruct (decide (i = idx)) as [->|]; auto.
Qed.

Lemma hole_up h idx x y :
  h !! idx = Some x → h !! (idx / 2)%nat = Some y → k x < k y →
  hole_ok k h idx → up_ok k h idx.
Proof.
  intros Hx Hy Hlt [H1 H2]. split; [|done].
  intros i Hi. destruct (decide ((i / 2)%nat = idx)) as [E|]; [|by auto].
  assert (idx ≠ 0%nat)
    by (intros ->; change (0 / 2)%nat with 0%nat in Hy; simplify_eq; lia).
  intros a b Ha Hb. pose proof (H2 i E ltac:(done)).
  rewrite E in Ha. simplify_eq. order.
Qed.

Lemma hole_down h idx x y :
  h !! idx = Some x → h !! (idx / 2)%nat = Some y → k y ≤ k x →
  hole_ok k h idx → down_ok k h idx.
Proof.
  intros Hx Hy Hle [H1 H2]. split; [|done].
  intros i Hi. destruct (decide (i = idx)) as [->|]; [|by auto].
  intros a b Ha Hb. simplify_eq. done.
Qed.

(** One swap of the downward loop: the child at [c] is earlier than the
    element at [idx] and not later than the other child. *)
Lemma down_step h idx c x y :
  h !! idx = Some x → h !! c = Some y → k y < k x →
  (c / 2)%nat = idx →
  (∀ i, (i / 2)%nat = idx → le_at k h c i ∨ i = idx) →
  down_ok k h idx → down_ok k (swapped h idx c x y) c.
Proof.
  intros Hx Hy Hlt Hc Hmin [H1 H2].
  assert (c ≠ idx) as Hne by (intros ->; simplify_eq; lia).
  split.
  - intros i Hi a b. rewrite !(swapped_lookup h idx c x y) by done.
    intros Ha Hb.
    pose proof (H1 i) as H1i. pose proof (H2 i) as H2i.
    pose proof (Hmin i) as Hmi. pose proof (H2 c Hc) as H2c.
    repeat case_decide; simplify_eq; try lia; try dlia; order.
    all: try (destruct Hmi as [Hmi| ->]; [done| |]; order; dlia).
    all: try (specialize (H2c ltac:(dlia)); order).
    all: try (specialize (H1i ltac:(done)); order).
  - intros i Hi Hc0 a b. rewrite !(swapped_lookup h idx c x y) by done.
    intros Ha Hb.
    pose proof (H1 i) as H1i. rewrite Hi in H1i.
    repeat case_decide; simplify_eq; try lia; try dlia; order.
    all: try (specialize (H1i ltac:(dlia)); order).
Qed.

Lemma down_done h idx :
  (∀ i, (i / 2)%nat = idx → le_at k h idx i) → down_ok k h idx → ordered k h.
Proof.
  intros Hle [H1 _] i. destruct (decide ((i / 2)%nat = idx)) as [E|]; auto.
  rewrite E. auto.
Qed.

Lemma ordered_hole h idx : ordered k h → hole_ok k h idx.
Proof.
  intros Ho. split; [by auto|].
  intros i Hi Hne a b Ha Hb.
  destruct (h !! idx) as [c|] eqn:Hc.
  - pose proof (Ho idx). pose proof (Ho i) as Hoi. rewrite Hi in Hoi. order.
  - apply lookup_ge_None in Hc. apply lookup_lt_Some in Hb. dlia.
Qed.

(** The top of an ordered heap is its earliest element. *)
Lemma ordered_top h top :
  ordered k h → h !! 0%nat = Some top → ∀ i a, h !! i = Some a → k top ≤ k a.
Proof.
  intros Ho Ht i. induction (lt_wf i) as [i _ IH]. intros a Ha.
  destruct (decide (i = 0%nat)) as [->|Hne]; [simplify_eq; lia|].
  assert (i / 2 < i)%nat as Hlt by dlia.
  destruct (h !! (i / 2)%nat) as [b|] eqn:Hb.
  - pose proof (IH _ Hlt b Hb). pose proof (Ho i). order.
  - apply lookup_ge_None in Hb. apply lookup_lt_Some in Ha. lia.
Qed.

End Order.

(** ** What the heap operations change *)

Lemma frame_refl s : frame s s.
Proof. split; try done. intros a T HT. by exists T. Qed.

Lemma frame_trans s1 s2 s3 : frame s1 s2 → frame s2 s3 → frame s1 s3.
Proof.
  intros [] []. split; try congruence; [by etrans|by auto|].
  intros a T HT.
  destruct (frame_some0 a T HT) as (T2 & H2 & ? & ? & ? & Hi2).
  destruct (frame_some1 a T2 H2) as (T3 & H3 & ? & ? & ? & Hi3).
  exists T3. repeat split; try congruence.
  intros Hn. rewrite Hi3, Hi2; [done..|]. by rewrite frame_heap0.
Qed.

Lemma frame_key s s' a : frame s s' → key s' a = key s a.
Proof.
  intros F. unfold key, elapses_of.
  destruct (timers s !! a) as [T|] eqn:HT.
  - destruct (frame_some _ _ F a T HT) as (T' & -> & He & _). simpl. done.
  - by rewrite (frame_none _ _ F a HT).
Qed.

Lemma frame_length s s' : frame s s' → length (heap s') = length (heap s).
Proof. intros F. by rewrite (frame_heap _ _ F). Qed.

Lemma heap_indexed_NoDup s : heap_indexed s → NoDup (heap s).
Proof.
  intros Hx. apply NoDup_alt. intros i j a Hi Hj.
  destruct (Hx i a Hi) as (T & HT & Hidx). destruct (Hx j a Hj) as (T' & HT' & Hidx').
  simplify_eq. lia.
Qed.

Lemma elapses_of_heap s i a :
  heap_indexed s → heap s !! i = Some a → elapses_of s a = Some (key s a).
Proof.
  intros Hx Hi. destruct (Hx i a Hi) as (T & HT & _).
  unfold key, elapses_of. by rewrite HT.
Qed.

Lemma heap_swap_spec s i j x y :
  heap_indexed s → heap s !! i = Some x → heap s !! j = Some y → i ≠ j →
  ∃ s', heap_swap i j s = Some s' ∧ heap s' = swapped (heap s) i j x y ∧
        heap_indexed s' ∧ frame s s'.
Proof.
  intros Hx Hi Hj Hne.
  pose proof (heap_indexed_NoDup s Hx) as Hnd.
  assert (x ≠ y) as Hxy
    by (intros ->; apply Hne; eapply NoDup_alt; eauto).
  destruct (Hx i x Hi) as (Tx & HTx & Hix). destruct (Hx j y Hj) as (Ty & HTy & Hiy).
  unfold heap_swap, list_swap. rewrite Hi, Hj. simpl.
  change (<[j:=x]> (<[i:=y]> (heap s))) with (swapped (heap s) i j x y).
  rewrite !(swapped_lookup (heap s) i j x y) by done.
  rewrite decide_False, decide_True by done. simpl.
  unfold update at 2. simpl. rewrite HTy. simpl.
  rewrite (swapped_lookup (heap s) i j x y), decide_True by done. simpl.
  unfold update. simpl. rewrite lookup_insert_ne, HTx by done. simpl.
  eexists. split; [done|]. split; [done|]. split.
  - intros m a. simpl. rewrite (swapped_lookup (heap s) i j x y) by done.
    intros Hm. repeat case_decide; simplify_eq.
    + rewrite lookup_insert_eq. by eexists.
    + rewrite lookup_insert_ne, lookup_insert_eq by done. by eexists.
    + assert (a ≠ x) by (intros ->; apply H0; eapply NoDup_alt; eauto).
      assert (a ≠ y) by (intros ->; apply H; eapply NoDup_alt; eauto).
      rewrite !lookup_insert_ne by done. by apply Hx.
  - split; simpl; try done.
    + by apply swapped_perm.
    + intros a Ha. rewrite !lookup_insert_ne; [done|congruence..].
    + intros a T Ha.
      destruct (decide (a = x)) as [->|]; [|destruct (decide (a = y)) as [->|]].
      * rewrite lookup_insert_eq. eexists. split; [done|]. simplify_eq.
        repeat split; try done. intros []. eapply list_elem_of_lookup_2; eauto.
      * rewrite lookup_insert_ne, lookup_insert_eq by done.
        eexists. split; [done|]. simplify_eq.
        repeat split; try done. intros []. eapply list_elem_of_lookup_2; eauto.
      * rewrite !lookup_insert_ne by done. by exists T.
Qed.

Lemma same_payload_refl s : same_payload s s.
Proof. split; try done. intros a T HT. by exists T. Qed.

Lemma same_payload_trans s1 s2 s3 :
  same_payload s1 s2 → same_payload s2 s3 → same_payload s1 s3.
Proof.
  intros [] []. split; try congruence; [by auto|].
  intros a T HT.
  destruct (sp_some0 a T HT) as (T2 & H2 & ? & ? & ?).
  destruct (sp_some1 a T2 H2) as (T3 & H3 & ? & ? & ?).
  exists T3. repeat split; congruence.
Qed.

Lemma frame_same_payload s s' : frame s s' → same_payload s s'.
Proof.
  intros []. split; try done. intros a T HT.
  destruct (frame_some0 a T HT) as (T' & ? & ? & ? & ? & _). by exists T'.
Qed.

Lemma same_payload_key s s' a : same_payload s s' → key s' a = key s a.
Proof.
  intros F. unfold key, elapses_of.
  destruct (timers s !! a) as [T|] eqn:HT.
  - destruct (sp_some _ _ F a T HT) as (T' & -> & He & _). simpl. done.
  - by rewrite (sp_none _ _ F a HT).
Qed.

Lemma same_payload_set_heap h s : same_payload s (set_heap h s).
Proof. split; try done. intros a T HT. by exists T. Qed.

Lemma update_eq t f s T :
  timers s !! t = Some T →
  update t f s = Some (set_timers (<[t := f T]> (timers s)) s).
Proof. intros HT. unfold update. by rewrite HT. Qed.

Lemma update_index_spec t i s T :
  timers s !! t = Some T →
  ∃ s', update t (with_index i) s = Some s' ∧
    heap s' = heap s ∧ same_payload s s' ∧
    timers s' = <[t := with_index i T]> (timers s).
Proof.
  intros HT. unfold update. rewrite HT. simpl. eexists. split; [done|].
  split; [done|]. split; [|done]. split; try done; simpl.
  - intros a Ha. rewrite lookup_insert_ne; [done|congruence].
  - intros a T0 Ha. destruct (decide (a = t)) as [->|].
    + rewrite lookup_insert_eq. simplify_eq. by eexists.
    + rewrite lookup_insert_ne by done. by exists T0.
Qed.

Lemma delete_last_lookup (l : list addr) n m :
  n = (length l - 1)%nat →
  delete n l !! m = if decide (m < n)%nat then l !! m else None.
Proof.
  intros ->. case_decide.
  - by rewrite list_lookup_delete_lt.
  - rewrite list_lookup_delete_ge by lia. apply lookup_ge_None. lia.
Qed.

(** ** [heap_adjust] restores the order *)

Section Adjust.
Context (k : addr -> Z).

Lemma move_up_spec fuel : ∀ idx s t,
  heap_indexed s → (∀ a, key s a = k a) →
  heap s !! idx = Some t → up_ok k (heap s) idx → (idx ≤ fuel)%nat →
  ∃ idx' s', move_up fuel t idx s = Some (idx', s') ∧
    heap_indexed s' ∧ ordered k (heap s') ∧ frame s s' ∧
    heap s' !! idx' = Some t ∧ (idx' ≤ idx)%nat ∧
    (idx' ≠ 0%nat → heap s' !! 0%nat = heap s !! 0%nat) ∧
    (idx' = 0%nat → idx ≠ 0%nat →
       ∀ top, heap s !! 0%nat = Some top → k t < k top).
Proof.
  induction fuel as [|fuel IH]; intros idx s t Hx Hk Ht Hup Hfuel.
  all: assert (idx / 2 < length (heap s))%nat as Hp
         by (apply lookup_lt_Some in Ht; dlia).
  all: apply lookup_lt_is_Some in Hp as [y Hy].
  all: simpl; rewrite Hy; simpl.
  all: rewrite (elapses_of_heap s idx t), (elapses_of_heap s (idx / 2) y) by done.
  all: simpl; rewrite !Hk.
  all: destruct (Z.ltb_spec (k t) (k y)) as [Hlt|Hge].
  - assert (idx = 0%nat) as -> by lia.
    change (0 / 2)%nat with 0%nat in Hy. simplify_eq. lia.
  - exists idx, s. split; [done|]. split; [done|].
    split; [|split; [apply frame_refl|done]].
    eapply up_done; [|done]. intros a b Ha Hb. by simplify_eq.
  - assert (idx ≠ (idx / 2)%nat) as Hne
      by (intros E; rewrite <- E in Hy; simplify_eq; lia).
    destruct (heap_swap_spec s idx (idx / 2) t y Hx Ht Hy Hne)
      as (s1 & -> & Hh1 & Hx1 & F1).
    simpl.
    destruct (IH (idx / 2)%nat s1 t) as (idx' & s' & -> & Hx' & Ho' & F' & Ht' & Hle & H0 & Htop).
    + done.
    + intros a. by rewrite (frame_key s s1).
    + rewrite Hh1, (swapped_lookup (heap s) idx (idx / 2)%nat t y) by done.
      by rewrite decide_True.
    + rewrite Hh1. by apply up_step.
    + dlia.
    + exists idx', s'. split; [done|]. split; [done|]. split; [done|].
      split; [by eapply frame_trans|]. split; [done|]. split; [dlia|].
      assert (∀ m, m ≠ idx → m ≠ (idx / 2)%nat →
                heap s1 !! m = heap s !! m) as Hsame.
      { intros m ? ?. rewrite Hh1, (swapped_lookup (heap s) idx (idx / 2)%nat t y) by done.
        by rewrite !decide_False. }
      split.
      * intros Hi'. rewrite H0 by done.
        destruct (decide ((idx / 2)%nat = 0%nat)) as [E|E].
        -- lia.
        -- apply Hsame; dlia.
      * intros -> _ top Htop'.
        destruct (decide ((idx / 2)%nat = 0%nat)) as [E|E].
        -- rewrite E in Hy. by simplify_eq.
        -- apply Htop; [done..|]. rewrite Hsame; [done|dlia..].
  - exists idx, s. split; [done|]. split; [done|].
    split; [|split; [apply frame_refl|]].
    + eapply up_done; [|done]. intros a b Ha Hb. by simplify_eq.
    + split; [done|]. split; [done|]. split; [done|]. intros ->. done.
Qed.

Lemma move_down_spec fuel : ∀ idx s t,
  heap_indexed s → (∀ a, key s a = k a) →
  heap s !! idx = Some t → down_ok k (heap s) idx →
  (length (heap s) - idx ≤ fuel)%nat →
  ∃ s', move_down fuel t idx s = Some s' ∧
    heap_indexed s' ∧ ordered k (heap s') ∧ frame s s' ∧
    (∀ m, (m < idx)%nat → heap s' !! m = heap s !! m).
Proof.
  induction fuel as [|fuel IH]; intros idx s t Hx Hk Ht Hdown Hfuel.
  all: apply lookup_lt_Some in Ht as Hlen.
  1: lia.
  simpl. destruct (Nat.leb_spec (length (heap s)) (idx * 2)) as [Hbot|Hc].
  { exists s. split; [done|]. split; [done|]. split; [|split; [apply frame_refl|done]].
    eapply down_done; [|done]. intros i Hi a b Ha Hb.
    apply lookup_lt_Some in Hb. dlia. }
  apply lookup_lt_is_Some in Hc as Hc'. destruct Hc' as [c Hcl].
  rewrite Hcl. simpl.
  rewrite (elapses_of_heap s idx t), (elapses_of_heap s (idx * 2) c) by done.
  simpl. rewrite !Hk.
  destruct (Nat.eqb_spec (idx * 2) (length (heap s) - 1)) as [Hone|Htwo].
  - (* only one child *)
    destruct (Z.ltb_spec (k c) (k t)) as [Hlt|Hge].
    + assert (idx ≠ (idx * 2)%nat) as Hne
        by (intros E; rewrite <- E in Hcl; simplify_eq; lia).
      destruct (heap_swap_spec s idx (idx * 2) t c Hx Ht Hcl Hne)
        as (s1 & -> & Hh1 & Hx1 & F1).
      exists s1. split; [done|]. split; [done|]. split; [|split; [done|]].
      * eapply (down_done k _ (idx * 2)).
        -- intros i Hi a b Ha Hb. apply lookup_lt_Some in Hb.
           rewrite Hh1, swapped_length in Hb. dlia.
        -- rewrite Hh1. apply down_step; try done; [dlia|].
           intros i Hi. destruct (decide (i = (idx * 2)%nat)) as [->|].
           ++ left. apply le_at_refl.
           ++ left. intros a b Ha Hb. apply lookup_lt_Some in Hb. dlia.
      * intros m Hm. rewrite Hh1, (swapped_lookup (heap s) idx (idx * 2) t c) by done.
        rewrite !decide_False by lia. done.
    + exists s. split; [done|]. split; [done|]. split; [|split; [apply frame_refl|done]].
      eapply down_done; [|done]. intros i Hi a b Ha Hb.
      destruct (decide (i = (idx * 2)%nat)) as [->|]; [by simplify_eq|].
      destruct (decide (i = idx)) as [->|]; [by simplify_eq|].
      apply lookup_lt_Some in Hb. dlia.
  - (* two children *)
    assert (idx * 2 + 1 < length (heap s))%nat as Hc2 by lia.
    apply lookup_lt_is_Some in Hc2 as [c2 Hc2].
    rewrite Hc2. simpl.
    rewrite (elapses_of_heap s (idx * 2 + 1) c2) by done.
    simpl. rewrite !Hk.
    set (pick := if k c2 <? k c then (k c2, (idx * 2 + 1)%nat) else (k c, (idx * 2)%nat)).
    assert (∃ ci y, pick = (k y, ci) ∧ heap s !! ci = Some y ∧
              (ci / 2)%nat = idx ∧ (idx * 2 ≤ ci)%nat ∧
              k y ≤ k c ∧ k y ≤ k c2) as (ci & y & -> & Hy & Hci & Hci2 & Hyc & Hyc2).
    { unfold pick. destruct (Z.ltb_spec (k c2) (k c)).
      - exists (idx * 2 + 1)%nat, c2. repeat split; try done; try lia; dlia.
      - exists (idx * 2)%nat, c. repeat split; try done; try lia; dlia. }
    destruct (Z.ltb_spec (k y) (k t)) as [Hlt|Hge].
    + assert (idx ≠ ci) as Hne
        by (intros E; rewrite <- E in Hy; simplify_eq; lia).
      destruct (heap_swap_spec s idx ci t y Hx Ht Hy Hne)
        as (s1 & -> & Hh1 & Hx1 & F1).
      simpl.
      destruct (IH ci s1 t) as (s' & -> & Hx' & Ho' & F' & Hsame').
      * done.
      * intros a. by rewrite (frame_key s s1).
      * rewrite Hh1, (swapped_lookup (heap s) idx ci t y) by done.
        by rewrite decide_True.
      * rewrite Hh1. apply down_step; try done.
        intros i Hi.
        destruct (decide (i = (idx * 2)%nat)) as [->|];
          [|destruct (decide (i = (idx * 2 + 1)%nat)) as [->|]].
        -- left. intros a b Ha Hb. by simplify_eq.
        -- left. intros a b Ha Hb. by simplify_eq.
        -- right. dlia.
      * rewrite (frame_length s s1) by done. lia.
      * exists s'. split; [done|]. split; [done|]. split; [done|].
        split; [by eapply frame_trans|].
        intros m Hm. rewrite Hsame' by lia.
        rewrite Hh1, (swapped_lookup (heap s) idx ci t y) by done.
        rewrite !decide_False by lia. done.
    + exists s. split; [done|]. split; [done|]. split; [|split; [apply frame_refl|done]].
      eapply down_done; [|done]. intros i Hi a b Ha Hb.
      destruct (decide (i = (idx * 2)%nat)) as [->|];
        [|destruct (decide (i = (idx * 2 + 1)%nat)) as [->|]].
      * simplify_eq. lia.
      * simplify_eq. lia.
      * assert (i = idx) as -> by dlia. simplify_eq. lia.
Qed.

Lemma heap_adjust_spec idx s t :
  heap_indexed s → (∀ a, key s a = k a) →
  heap s !! idx = Some t → hole_ok k (heap s) idx →
  ∃ w s', heap_adjust idx s = Some (w, s') ∧
    heap_indexed s' ∧ ordered k (heap s') ∧ frame s s' ∧
    (w = true → idx ≠ 0%nat ∧ heap s' !! 0%nat = Some t ∧
                ∀ top, heap s !! 0%nat = Some top → k t < k top) ∧
    (w = false → idx ≠ 0%nat → heap s' !! 0%nat = heap s !! 0%nat).
Proof.
  intros Hx Hk Ht Hhole.
  assert (idx / 2 < length (heap s))%nat as Hp
    by (apply lookup_lt_Some in Ht; dlia).
  apply lookup_lt_is_Some in Hp as [y Hy].
  unfold heap_adjust. rewrite Ht, Hy. simpl.
  rewrite (elapses_of_heap s idx t), (elapses_of_heap s (idx / 2) y) by done.
  simpl. rewrite !Hk.
  destruct (Z.ltb_spec (k t) (k y)) as [Hlt|Hge].
  - destruct (move_up_spec (length (heap s)) idx s t)
      as (idx' & s' & -> & Hx' & Ho' & F' & Ht' & Hle & H0 & Htop); try done.
    { by eapply hole_up. }
    { apply lookup_lt_Some in Ht. lia. }
    simpl. eexists _, s'. split; [done|]. split; [done|]. split; [done|].
    split; [done|].
    assert (idx ≠ 0%nat)
      by (intros ->; change (0 / 2)%nat with 0%nat in Hy; simplify_eq; lia).
    split.
    + intros E%Nat.eqb_eq. subst idx'. auto.
    + intros E%Nat.eqb_neq _. auto.
  - destruct (move_down_spec (length (heap s)) idx s t)
      as (s' & -> & Hx' & Ho' & F' & Hsame); try done.
    { by eapply hole_down. }
    { lia. }
    simpl. eexists _, s'. split; [done|]. split; [done|]. split; [done|].
    split; [done|]. split; [done|].
    intros _ ?. apply Hsame. lia.
Qed.

Lemma heap_insert_spec t s T :
  heap_indexed s → (∀ a, a ≠ t → key s a = k a) → elapses T = k t →
  ordered k (heap s) → timers s !! t = Some T → t ∉ heap s →
  ∃ s', heap_insert t s = Some s' ∧
    heap_indexed s' ∧ ordered k (heap s') ∧ heap s' ≡ₚ t :: heap s ∧
    same_payload s s' ∧ same_index_outside (t :: heap s) s s' ∧
    (heap s' !! 0%nat = Some t ↔
       heap s = [] ∨ ∃ top, heap s !! 0%nat = Some top ∧ k t < k top) ∧
    (heap s' !! 0%nat ≠ Some t → heap s' !! 0%nat = heap s !! 0%nat).
Proof.
  intros Hx Hk HkT Ho HT Hnin.
  unfold heap_insert. simpl. rewrite length_app. simpl.
  replace (length (heap s) + 1 - 1)%nat with (length (heap s)) by lia.
  set (s0 := set_heap (heap s ++ [t]) s).
  destruct (update_index_spec t (Z.of_nat (length (heap s))) s0 T HT)
    as (s1 & -> & Hh1 & P1 & Ht1).
  simpl in Hh1. simpl.
  assert (heap_indexed s1) as Hx1.
  { intros m a. rewrite Hh1, Ht1. intros Hm.
    destruct (decide (m < length (heap s))%nat).
    - rewrite lookup_app_l in Hm by done.
      assert (a ≠ t) by (intros ->; apply Hnin; eapply list_elem_of_lookup_2; eauto).
      rewrite lookup_insert_ne by done. by apply Hx.
    - apply lookup_lt_Some in Hm as Hlt. rewrite length_app in Hlt. simpl in Hlt.
      assert (m = length (heap s)) as -> by lia.
      rewrite list_lookup_middle in Hm by done. simplify_eq.
      rewrite lookup_insert_eq. by eexists. }
  assert (∀ a, key s1 a = k a) as Hk1.
  { intros a. rewrite (same_payload_key s0 s1) by done.
    destruct (decide (a = t)) as [->|]; [|by apply Hk].
    unfold key, elapses_of. simpl. by rewrite HT. }
  assert (heap s1 !! length (heap s) = Some t) as Hlast
    by (rewrite Hh1; by apply list_lookup_middle).
  assert (hole_ok k (heap s1) (length (heap s))) as Hhole.
  { rewrite Hh1. split.
    - intros i Hi Hi2 a b Ha Hb.
      apply lookup_lt_Some in Hb as Hlt. rewrite length_app in Hlt. simpl in Hlt.
      rewrite lookup_app_l in Ha, Hb by dlia. by eapply Ho.
    - intros i Hi Hne a b Ha Hb.
      apply lookup_lt_Some in Hb as Hlt. rewrite length_app in Hlt. simpl in Hlt.
      dlia. }
  destruct (heap_adjust_spec _ s1 t Hx1 Hk1 Hlast Hhole)
    as (w & s' & -> & Hx' & Ho' & F' & Hw1 & Hw0).
  simpl. exists s'. split; [done|]. split; [done|]. split; [done|].
  assert (heap s' ≡ₚ t :: heap s) as Hperm.
  { rewrite (frame_heap _ _ F'), Hh1. by rewrite Permutation_app_comm. }
  split; [done|].
  split; [eapply same_payload_trans; [|by apply frame_same_payload];
          eapply same_payload_trans; [apply same_payload_set_heap|done]|].
  split.
  { intros a Ta Ta' Hna Ha Ha'.
    assert (timers s1 !! a = Some Ta) as Ha1
      by (rewrite Ht1, lookup_insert_ne; [done|set_solver]).
    destruct (frame_some _ _ F' a Ta Ha1) as (T2 & HT2 & _ & _ & _ & Hi).
    rewrite HT2 in Ha'. simplify_eq. apply Hi. rewrite Hh1. set_solver. }
  assert (heap s = [] → heap s' !! 0%nat = Some t) as Hempty.
  { intros E. rewrite E in Hperm. apply Permutation_singleton_r in Hperm.
    by rewrite Hperm. }
  assert (heap s ≠ [] → ∃ top, heap s !! 0%nat = Some top ∧ top ≠ t ∧
                          heap s1 !! 0%nat = Some top) as Htop.
  { intros Hne. destruct (heap s) as [|top h] eqn:E; [done|].
    exists top. split; [done|]. split; [set_solver|]. by rewrite Hh1. }
  split; [split|].
  - intros Ht0. destruct (decide (heap s = [])) as [|Hne]; [by left|right].
    destruct (Htop Hne) as (top & Htop0 & Hnt & Htop1).
    exists top. split; [done|].
    destruct w.
    + destruct Hw1 as (_ & _ & Hlt); [done|]. by apply Hlt.
    + rewrite Hw0 in Ht0; [congruence|done|].
      intros E. apply Hne. by apply nil_length_inv.
  - intros [E|(top & Htop0 & Hlt)]; [by apply Hempty|].
    assert (heap s ≠ []) as Hne by (intros E; by rewrite E in Htop0).
    destruct (Htop Hne) as (top' & Htop0' & Hnt & Htop1). simplify_eq.
    destruct w; [by apply Hw1|].
    assert (heap s' !! 0%nat = Some top) as Htop'.
    { rewrite Hw0; [done..|]. intros E. apply Hne. by apply nil_length_inv. }
    assert (t ∈ heap s') as [i Hi]%list_elem_of_lookup by (rewrite Hperm; set_solver).
    pose proof (ordered_top k (heap s') top Ho' Htop' i t Hi). lia.
  - intros Hnt0. destruct (decide (heap s = [])) as [E|Hne]; [by destruct Hnt0; auto|].
    destruct (Htop Hne) as (top & Htop0 & Hnt & Htop1).
    destruct w.
    + destruct Hw1 as (_ & ? & _); done.
    + rewrite Hw0; [congruence|done|]. intros E; apply Hne; by apply nil_length_inv.
Qed.

Lemma heap_delete_spec idx s t :
  heap_indexed s → (∀ a, key s a = k a) →
  heap s !! idx = Some t → hole_ok k (heap s) idx →
  ∃ s', heap_delete idx s = Some s' ∧
    heap_indexed s' ∧ ordered k (heap s') ∧ heap s ≡ₚ t :: heap s' ∧
    same_payload s s' ∧ same_index_outside (heap s) s s' ∧
    (∃ T', timers s' !! t = Some T' ∧ index T' = -1).
Proof.
  intros Hx Hk Ht [H1 H2].
  pose proof (heap_indexed_NoDup s Hx) as Hnd.
  apply lookup_lt_Some in Ht as Hlen.
  destruct (Hx idx t Ht) as (T & HT & HTi).
  unfold heap_delete. rewrite Ht. simpl.
  destruct (Nat.eqb_spec idx (length (heap s) - 1)) as [->|Hne].
  - simpl. set (s2 := set_heap (delete (length (heap s) - 1)%nat (heap s)) s).
    destruct (update_index_spec t (-1) s2 T HT) as (s' & -> & Hh' & P' & Ht').
    simpl in Hh'.
    exists s'. split; [done|]. split; [|split; [|split; [|split; [|split]]]].
    + intros m a. rewrite Hh', Ht', delete_last_lookup by done. case_decide; [|done].
      intros Hm.
      assert (a ≠ t) by (intros ->; assert (m = (length (heap s) - 1)%nat);
                         [eapply NoDup_alt; eauto|lia]).
      rewrite lookup_insert_ne by done. by apply Hx.
    + intros i a b. rewrite Hh', !delete_last_lookup by done.
      repeat case_decide; try done. apply H1; dlia.
    + rewrite Hh'. by apply delete_Permutation.
    + eapply same_payload_trans; [apply same_payload_set_heap|done].
    + intros a Ta Ta' Hna Ha. rewrite Ht'.
      assert (a ≠ t) by (intros ->; apply Hna; eapply list_elem_of_lookup_2; eauto).
      rewrite lookup_insert_ne by done. simpl. congruence.
    + rewrite Ht', lookup_insert_eq. by eexists.
  - assert (length (heap s) - 1 < length (heap s))%nat as Hl by lia.
    apply lookup_lt_is_Some in Hl as [y Hy].
    destruct (heap_swap_spec s idx _ t y Hx Ht Hy Hne) as (s1 & -> & Hh1 & Hx1 & F1).
    simpl.
    set (last := (length (heap s) - 1)%nat) in *.
    set (s2 := set_heap (delete last (heap s1)) s1).
    assert (∀ m, heap s2 !! m =
              if decide (m < last)%nat
              then (if decide (m = idx) then Some y else heap s !! m)
              else None) as Hl2.
    { intros m. unfold s2. simpl. rewrite Hh1.
      rewrite delete_last_lookup by (by rewrite swapped_length).
      rewrite (swapped_lookup (heap s) idx last t y) by done.
      repeat case_decide; try done; lia. }
    assert (heap s1 !! last = Some t) as Hlast1.
    { rewrite Hh1, (swapped_lookup (heap s) idx last t y) by done.
      by rewrite decide_True. }
    assert (heap_indexed s2) as Hx2.
    { intros m a Hm. apply (Hx1 m a). rewrite Hl2 in Hm. unfold s2 in Hm.
      rewrite Hh1, (swapped_lookup (heap s) idx last t y) by done.
      repeat case_decide; try done; lia. }
    assert (∀ a, key s2 a = k a) as Hk2
      by (intros a; rewrite <- Hk; apply (frame_key s s1 a F1)).
    assert (heap s2 !! idx = Some y) as Hidx2
      by (rewrite Hl2, !decide_True by (unfold last; lia); done).
    assert (hole_ok k (heap s2) idx) as Hhole2.
    { split.
      - intros i Hi Hi2 a b. rewrite !Hl2.
        repeat case_decide; try done; try lia. by apply H1.
      - intros i Hi Hi0 a b. rewrite !Hl2.
        repeat case_decide; try done; try dlia. by apply H2. }
    destruct (heap_adjust_spec idx s2 y Hx2 Hk2 Hidx2 Hhole2)
      as (w & s3 & -> & Hx3 & Ho3 & F3 & _).
    simpl.
    assert (heap s ≡ₚ t :: heap s2) as Hperm2.
    { unfold s2. simpl. rewrite <- (delete_Permutation (heap s1) last t) by done.
      by rewrite (frame_heap _ _ F1). }
    assert (t ∉ heap s2) as Hnin2.
    { rewrite Hperm2 in Hnd. by apply NoDup_cons_1_1 in Hnd. }
    destruct (frame_some _ _ F1 t T HT) as (T1 & HT1 & _).
    destruct (frame_some _ _ F3 t T1 HT1) as (T3 & HT3 & _).
    destruct (update_index_spec t (-1) s3 T3 HT3) as (s' & -> & Hh' & P' & Ht').
    exists s'. split; [done|]. split; [|split; [|split; [|split; [|split]]]].
    + intros m a. rewrite Hh', Ht'. intros Hm.
      assert (a ≠ t).
      { intros ->. apply Hnin2. rewrite <- (frame_heap _ _ F3).
        eapply list_elem_of_lookup_2; eauto. }
      rewrite lookup_insert_ne by done. by apply Hx3.
    + by rewrite Hh'.
    + by rewrite Hh', (frame_heap _ _ F3).
    + eapply same_payload_trans; [by apply frame_same_payload|].
      eapply same_payload_trans; [|done].
      eapply same_payload_trans; [|by apply frame_same_payload].
      apply (same_payload_set_heap _ s1).
    + intros a Ta Ta' Hna Ha. rewrite Ht'.
      assert (a ≠ t) by (intros ->; apply Hna; eapply list_elem_of_lookup_2; eauto).
      rewrite lookup_insert_ne by done. intros Ha'.
      destruct (frame_some _ _ F1 a Ta Ha) as (Ta1 & Ha1 & _ & _ & _ & Hi1).
      destruct (frame_some _ _ F3 a Ta1 Ha1) as (Ta3 & Ha3 & _ & _ & _ & Hi3).
      simplify_eq. rewrite Hi3, Hi1; [done..|].
      intros Hin. apply Hna. rewrite Hperm2. set_solver.
    + rewrite Ht', lookup_insert_eq. by eexists.
Qed.

Lemma ordered_hole_change k' (h : list addr) idx t :
  ordered k' h → NoDup h → h !! idx = Some t →
  (∀ a, a ≠ t → k a = k' a) → hole_ok k h idx.
Proof.
  intros Ho Hnd Ht Hk.
  assert (∀ m a, h !! m = Some a → m ≠ idx → k a = k' a) as Hoth.
  { intros m a Hm Hne. apply Hk. intros ->. apply Hne. eapply NoDup_alt; eauto. }
  split.
  - intros i Hi Hi2 a b Ha Hb.
    rewrite (Hoth _ _ Ha), (Hoth _ _ Hb) by done. by eapply Ho.
  - intros i Hi Hi0 a b Ha Hb.
    rewrite (Hoth _ _ Ha), (Hoth _ _ Hb) by dlia.
    pose proof (Ho idx a t Ha Ht). rewrite <- Hi in Ht.
    pose proof (Ho i t b Ht Hb). lia.
Qed.

End Adjust.

(** ** The invariant *)

Lemma ordered_ext (k k' : addr -> Z) (h : list addr) :
  (∀ a, a ∈ h → k' a = k a) → ordered k h → ordered k' h.
Proof.
  intros He Ho i a b Ha Hb.
  rewrite !He by (eapply list_elem_of_lookup_2; eauto). by eapply Ho.
Qed.

Lemma heap_timer s a :
  heap_indexed s → a ∈ heap s → ∃ T, timers s !! a = Some T.
Proof.
  intros Hx [i Hi]%list_elem_of_lookup. destruct (Hx i a Hi) as (T & ? & _). eauto.
Qed.

Lemma wf_create outputlist first_event : wf (timerset_create outputlist first_event).
Proof.
  split; simpl; try done.
  - intros t p Hp. by apply elem_of_nil in Hp.
  - intros t p Hp. by apply elem_of_nil in Hp.
Qed.

Lemma timer_create_fresh s : timers s !! (timer_create s).1 = None.
Proof. simpl. apply not_elem_of_dom. apply is_fresh. Qed.

Lemma wf_timer_create s : wf s → wf (timer_create s).2.
Proof.
  intros W. pose proof (timer_create_fresh s) as Hf. simpl in *.
  set (t := fresh (dom (timers s))) in *.
  assert (∀ a, a ∈ heap s → a ≠ t) as Hne.
  { intros a Ha ->. destruct (heap_timer s t (wf_indexed s W) Ha). congruence. }
  split; simpl.
  - apply W.
  - intros i a Hi. simpl in *. rewrite lookup_insert_ne.
    + by apply (wf_indexed s W).
    + intros <-. eapply Hne; [|done]. eapply list_elem_of_lookup_2; eauto.
  - eapply ordered_ext; [|apply (wf_ordered s W)].
    intros a Ha. unfold key, elapses_of. simpl.
    rewrite lookup_insert_ne; [done|]. intros <-. by eapply Hne.
  - intros a T. destruct (decide (a = t)) as [->|].
    + rewrite lookup_insert_eq. by intros [= <-].
    + rewrite lookup_insert_ne by done. apply W.
  - intros a T HT Ha. rewrite lookup_insert_ne in HT; [by eapply W|].
    intros <-. by eapply Hne.
  - intros t' p Hc Ho. destruct (wf_queue s W t' p Hc Ho) as (T & HT & HE).
    exists T. split; [|done]. rewrite lookup_insert_ne; [done|congruence].
  - apply W.
Qed.

Lemma wf_consume s p s' : wf s → consume s = Some (p, s') → wf s'.
Proof.
  intros W. unfold consume. destruct (output s) as [|q o] eqn:E; [done|].
  intros [= <- <-]. split; simpl; try apply W.
  intros t p' Hc Ho. apply (wf_queue s W t p' Hc). rewrite E. set_solver.
Qed.

(** ** [abort_elapsed] and [timer_stop] *)

Lemma with_elapsed_event_id T :
  elapsed_event T = None → with_elapsed_event None T = T.
Proof. destruct T. simpl. by intros ->. Qed.

Lemma abort_elapsed_spec s t T :
  timers s !! t = Some T →
  ∃ s', abort_elapsed t s = Some s' ∧
    stopping s' = stopping s ∧ mutex s' = mutex s ∧ heap s' = heap s ∧
    next_event s' = next_event s ∧
    timers s' = <[t := with_elapsed_event None T]> (timers s) ∧
    output s' = match elapsed_event T with
                | None => output s
                | Some p => filter (λ x, x ≠ Some p) (output s)
                end ∧
    calls s' = calls s ++ retraction (elapsed_event T) (output s).
Proof.
  intros HT. unfold abort_elapsed. rewrite HT. simpl.
  destruct (elapsed_event T) as [p|] eqn:E.
  - unfold retraction, list_delete_equal, update. simpl.
    destruct (0 <? _)%nat; simpl; rewrite HT; simpl; eexists; split; try done.
    + repeat split; try done. simpl. by rewrite <- app_assoc.
  - exists s. rewrite with_elapsed_event_id, insert_id by done.
    repeat split; try done. simpl. by rewrite app_nil_r.
Qed.

Lemma produce_not_retraction t p e o : Produce t p ∉ retraction e o.
Proof.
  unfold retraction. destruct e; [|set_solver].
  destruct (0 <? _)%nat; set_solver.
Qed.

Lemma timer_stop_spec s t T :
  wf s → timers s !! t = Some T →
  ∃ s' T', timer_stop t s = Some s' ∧ wf s' ∧
    timers s' !! t = Some T' ∧
    elapses T' = (-1) ∧ index T' = (-1) ∧ elapsed_event T' = None ∧
    event T' = event T ∧ (t ∉ heap s') ∧
    output s' = match elapsed_event T with
                | None => output s
                | Some p => filter (λ x, x ≠ Some p) (output s)
                end ∧
    calls s' = calls s ++ [MutexLock] ++ retraction (elapsed_event T) (output s)
                       ++ [MutexUnlock].
Proof.
  intros W HT. unfold timer_stop. rewrite HT. simpl.
  unfold lock. rewrite (wf_free s W). simpl.
  set (s_l := call MutexLock (set_mutex true s)).
  destruct (Z.ltb_spec 0 (elapses T)) as [Hact|Hina].
  - (* active: taken out of the heap *)
    assert (t ∈ heap s) as Hin.
    { destruct (decide (t ∈ heap s)) as [|Hn]; [done|].
      destruct (wf_outside s W t T HT Hn). lia. }
    destruct (wf_active s W t T HT Hin) as [_ HE].
    apply list_elem_of_lookup in Hin as [i Hi].
    destruct (wf_indexed s W i t Hi) as (T0 & HT0 & Hidx). simplify_eq.
    unfold update at 1. simpl. rewrite HT. simpl.
    set (s_1 := set_timers _ s_l).
    unfold list_get. rewrite Hidx.
    destruct (Z.ltb_spec (Z.of_nat i) 0) as [|_]; [lia|].
    rewrite Nat2Z.id. simpl. rewrite Hi. simpl.
    rewrite bool_decide_eq_true_2 by done. simpl.
    assert (heap_indexed s_1) as Hx1.
    { intros m a Hm. simpl in *. destruct (decide (a = t)) as [->|].
      - rewrite lookup_insert_eq. eexists. split; [done|]. simpl.
        destruct (wf_indexed s W m t Hm) as (T1 & ? & ?). by simplify_eq.
      - rewrite lookup_insert_ne by done. by apply (wf_indexed s W). }
    assert (hole_ok (key s_1) (heap s_1) i) as Hhole.
    { eapply (ordered_hole_change _ (key s)); [apply (wf_ordered s W)| |done|].
      - exact (heap_indexed_NoDup s (wf_indexed s W)).
      - intros a Hne. unfold key, elapses_of. simpl. by rewrite lookup_insert_ne. }
    destruct (heap_delete_spec (key s_1) i s_1 t Hx1 ltac:(done) Hi Hhole)
      as (s_2 & -> & Hx2 & Ho2 & Hperm & P2 & Hout2 & (T2 & HT2 & HT2i)).
    simpl.
    destruct (sp_some _ _ P2 t (with_elapses (-1) T)) as (T2' & HT2' & He2 & Hev2 & Hee2).
    { simpl. by rewrite lookup_insert_eq. }
    simplify_eq. simpl in *.
    destruct (abort_elapsed_spec s_2 t T2 HT2)
      as (s_3 & -> & Hst3 & Hm3 & Hh3 & Hn3 & Ht3 & Hou3 & Hc3).
    rewrite Hee2, HE in *. simpl in Hc3. rewrite app_nil_r in Hc3.
    rewrite with_elapsed_event_id, insert_id in Ht3 by done.
    simpl. unfold unlock. rewrite Hm3, (sp_mutex _ _ P2). simpl.
    assert (NoDup (heap s)) as Hnd by exact (heap_indexed_NoDup s (wf_indexed s W)).
    assert (t ∉ heap s_2) as Hnin
      by (rewrite Hperm in Hnd; by apply NoDup_cons_1_1 in Hnd).
    eexists _, T2. split; [done|]. simpl. rewrite Ht3, Hh3, Hou3, Hc3.
    rewrite (sp_output _ _ P2), (sp_calls _ _ P2). simpl.
    split; [|rewrite <- app_assoc; by repeat split].
    assert (∀ a, a ≠ t → timers s !! a = timers s_1 !! a) as Hsame1.
    { intros a Hne. simpl. by rewrite lookup_insert_ne. }
    split; simpl; rewrite ?Ht3, ?Hh3, ?Hou3, ?Hc3, ?Hn3,
             ?(sp_output _ _ P2), ?(sp_calls _ _ P2), ?(sp_next_event _ _ P2); simpl.
    + done.
    + intros m a Hm. simpl in *. rewrite Ht3. apply Hx2. by rewrite <- Hh3.
    + eapply ordered_ext; [|done]. intros a Ha.
      rewrite <- (same_payload_key s_1 s_2 a P2).
      unfold key, elapses_of. simpl. by rewrite Ht3.
    + intros a Ta Ha Hna. destruct (decide (a = t)) as [->|Hne].
      { simplify_eq. split; [done|]. by rewrite He2. }
      assert (a ∉ heap s) as Hna' by (rewrite Hperm; set_solver).
      destruct (timers s !! a) as [Ta0|] eqn:Ha0.
      * destruct (wf_outside s W a Ta0 Ha0 Hna') as [Hi0 He0].
        rewrite Hsame1 in Ha0 by done.
        destruct (sp_some _ _ P2 a Ta0 Ha0) as (Ta' & Ha' & ? & _).
        rewrite (Hout2 a Ta0 Ta Hna' Ha0 Ha). simplify_eq. split; [done|congruence].
      * rewrite Hsame1 in Ha0 by done.
        rewrite (sp_none _ _ P2 a Ha0) in Ha. done.
    + intros a Ta Ha Hina.
      assert (a ≠ t) as Hne by (intros ->; done).
      assert (a ∈ heap s) as Hina' by (rewrite Hperm; set_solver).
      destruct (heap_timer s a (wf_indexed s W) Hina') as [Ta0 Ha0].
      destruct (wf_active s W a Ta0 Ha0 Hina') as [? ?].
      rewrite Hsame1 in Ha0 by done.
      destruct (sp_some _ _ P2 a Ta0 Ha0) as (Ta' & Ha' & ? & ? & ?).
      simplify_eq. split; congruence.
    + intros t' p Hc Hq.
      assert (Produce t' (Some p) ∈ calls s) as Hc' by set_solver.
      destruct (wf_queue s W t' p Hc' Hq) as (T' & HT' & HE').
      destruct (decide (t' = t)) as [->|Hne]; [congruence|].
      rewrite Hsame1 in HT' by done.
      destruct (sp_some _ _ P2 t' T' HT') as (T'' & ? & ? & ? & ?).
      exists T''. split; [done|congruence].
    + intros t' p Hc. apply (wf_fresh s W t' p). set_solver.
  - (* not active: only the retraction *)
    assert (t ∉ heap s) as Hnin.
    { intros Hin. destruct (wf_active s W t T HT Hin). lia. }
    destruct (wf_outside s W t T HT Hnin) as [Hi He]. simpl.
    destruct (abort_elapsed_spec s_l t T HT)
      as (s_3 & -> & Hst3 & Hm3 & Hh3 & Hn3 & Ht3 & Hou3 & Hc3).
    subst s_l. simpl in Hst3, Hm3, Hh3, Hn3, Ht3, Hou3, Hc3.
    simpl. unfold unlock. rewrite Hm3. simpl.
    eexists _, _. split; [done|]. simpl. rewrite Ht3, Hh3, Hou3, Hc3. simpl.
    rewrite lookup_insert_eq.
    split; [|rewrite <- !app_assoc; by repeat split].
    assert (∀ a Ta, timers s !! a = Some Ta →
              ∃ Ta', <[t:=with_elapsed_event None T]> (timers s) !! a = Some Ta' ∧
                     elapses Ta' = elapses Ta ∧ index Ta' = index Ta ∧
                     (elapsed_event Ta' = elapsed_event Ta ∨
                      (a = t ∧ elapsed_event Ta' = None))) as Hsame.
    { intros a Ta Ha. destruct (decide (a = t)) as [->|].
      - rewrite lookup_insert_eq. simplify_eq. eexists. split; [done|]. simpl. auto.
      - rewrite lookup_insert_ne by done. exists Ta. auto. }
    assert (∀ a Ta', <[t:=with_elapsed_event None T]> (timers s) !! a = Some Ta' →
              ∃ Ta, timers s !! a = Some Ta) as Hback.
    { intros a Ta'. destruct (decide (a = t)) as [->|]; [eauto|].
      rewrite lookup_insert_ne by done. eauto. }
    split; simpl; rewrite ?Ht3, ?Hh3, ?Hou3, ?Hc3, ?Hn3; simpl.
    + done.
    + intros m a Hm. simpl in *. rewrite Ht3. rewrite Hh3 in Hm.
      destruct (wf_indexed s W m a Hm) as (Ta & Ha & ?).
      destruct (Hsame a Ta Ha) as (Ta' & ? & ? & ? & _).
      exists Ta'. split; [done|congruence].
    + eapply ordered_ext; [|apply W]. intros a Ha. unfold key, elapses_of. simpl.
      rewrite Ht3. destruct (heap_timer s a (wf_indexed s W) Ha) as [Ta HTa].
      destruct (Hsame a Ta HTa) as (Ta' & -> & ? & _). rewrite HTa. simpl. done.
    + intros a Ta' Ha' Hna. destruct (Hback a Ta' Ha') as [Ta Ha].
      destruct (Hsame a Ta Ha) as (Ta'' & ? & ? & ? & _). simplify_eq.
      destruct (wf_outside s W a Ta Ha Hna). split; congruence.
    + intros a Ta' Ha' Hin'. destruct (Hback a Ta' Ha') as [Ta Ha].
      destruct (wf_active s W a Ta Ha Hin').
      destruct (Hsame a Ta Ha) as (Ta'' & ? & ? & ? & [?|[-> ?]]);
        simplify_eq; [|done].
      split; congruence.
    + intros t' p Hc Hq.
      assert (Produce t' (Some p) ∈ calls s) as Hc'.
      { pose proof (produce_not_retraction t' (Some p) (elapsed_event T) (output s)).
        rewrite !elem_of_app in Hc. set_solver. }
      assert (Some p ∈ output s ∧ elapsed_event T ≠ Some p) as [Hq' Hnp].
      { destruct (elapsed_event T) as [q|]; [|done].
        apply list_elem_of_filter in Hq as [? ?]. split; [done|congruence]. }
      destruct (wf_queue s W t' p Hc' Hq') as (T' & HT' & HE').
      destruct (decide (t' = t)) as [->|Hne]; [congruence|].
      exists T'. by rewrite lookup_insert_ne.
    + intros t' p Hc. apply (wf_fresh s W t' p).
      pose proof (produce_not_retraction t' (Some p) (elapsed_event T) (output s)).
      rewrite !elem_of_app in Hc. set_solver.
Qed.

(** ** [elapse_timer] and the watcher *)

Lemma elapse_timer_spec s t T :
  timers s !! t = Some T → elapsed_event T = None →
  let p := duplicate_of (event T) s in
  ∃ s', elapse_timer t s = Some s' ∧
    stopping s' = stopping s ∧ mutex s' = mutex s ∧ heap s' = heap s ∧
    timers s' = <[t := mkTimer (-1) (event T) p (index T)]> (timers s) ∧
    output s' = output s ++ [p] ∧
    (next_event s ≤ next_event s')%nat ∧
    (∀ q, p = Some q → q = next_event s ∧ (q < next_event s')%nat) ∧
    calls s' = calls s ++ [Duplicate (event T) p; Produce t p].
Proof.
  intros HT HE p. unfold elapse_timer. rewrite HT. simpl.
  rewrite bool_decide_eq_true_2 by done. simpl.
  subst p. unfold duplicate_of, wap_event_duplicate.
  destruct (event T) as [e|] eqn:Ev; simpl.
  all: unfold update; simpl; rewrite HT; simpl; rewrite lookup_insert_eq; simpl.
  all: eexists; split; [done|]; simpl.
  all: rewrite insert_insert_eq, <- !app_assoc; simpl.
  all: unfold with_elapses, with_elapsed_event; simpl; rewrite ?Ev.
  all: repeat split; try done; try lia.
  all: simplify_eq; lia.
Qed.

(** Calls that produce nothing, made around a released mutex, keep the
    invariant. *)
Lemma wf_calls s l :
  wf s → (∀ t p, Produce t p ∉ l) →
  wf (mkTimerset (stopping s) false (heap s) (timers s) (output s)
                 (next_event s) (calls s ++ l)).
Proof.
  intros [] Hl. split; simpl; try done.
  - intros t p Hc. apply wf_queue0. specialize (Hl t (Some p)). set_solver.
  - intros t p Hc. apply (wf_fresh0 t). specialize (Hl t (Some p)). set_solver.
Qed.

Lemma watch_iteration_spec now s :
  wf s →
  ∃ s', watch_iteration now s = Some s' ∧ wf s' ∧
    match heap s !! 0%nat with
    | None =>
        calls s' = calls s ++ [MutexLock; MutexUnlock; Sleep 1000000] ∧
        heap s' = heap s ∧ timers s' = timers s ∧ output s' = output s
    | Some top =>
        if key s top <=? now then
          ∃ T T', timers s !! top = Some T ∧ timers s' !! top = Some T' ∧
            let p := duplicate_of (event T) s in
            heap s ≡ₚ top :: heap s' ∧ (top ∉ heap s') ∧
            T' = mkTimer (-1) (event T) p (-1) ∧
            output s' = output s ++ [p] ∧
            calls s' = calls s ++ [MutexLock; Duplicate (event T) p;
                                   Produce top p; MutexUnlock]
        else
          calls s' = calls s ++ [MutexLock; MutexUnlock;
                                 Sleep (key s top - now)] ∧
          heap s' = heap s ∧ timers s' = timers s ∧ output s' = output s
    end.
Proof.
  intros W. unfold watch_iteration, lock. rewrite (wf_free s W). simpl.
  set (s_l := call MutexLock (set_mutex true s)).
  destruct (heap s !! 0%nat) as [top|] eqn:Htop.
  2: { apply lookup_ge_None in Htop.
       destruct (Nat.eqb_spec (length (heap s)) 0) as [_|]; [|lia].
       eexists. split; [done|]. subst s_l. unfold call, set_mutex. simpl.
       rewrite <- !app_assoc. simpl. split; [|done].
       apply wf_calls; [done|]. set_solver. }
  apply lookup_lt_Some in Htop as Hlen.
  destruct (Nat.eqb_spec (length (heap s)) 0) as [|_]; [lia|].
  simpl. rewrite ?Htop. simpl.
  destruct (wf_indexed s W 0%nat top Htop) as (T & HT & HTi).
  unfold elapses_of at 1. simpl. rewrite HT. simpl.
  assert (key s top = elapses T) as -> by (unfold key, elapses_of; by rewrite HT).
  destruct (Z.leb_spec (elapses T) now) as [Hel|Hno]; simpl.
  2: { eexists. split; [done|]. subst s_l. unfold call, set_mutex. simpl.
       rewrite <- !app_assoc. simpl. split; [|done].
       apply wf_calls; [done|]. set_solver. }
  assert (top ∈ heap s) as Hin by (eapply list_elem_of_lookup_2; eauto).
  destruct (wf_active s W top T HT Hin) as [Hpos HE].
  assert (hole_ok (key s) (heap s_l) 0) as Hhole
    by (apply ordered_hole, W).
  destruct (heap_delete_spec (key s) 0 s_l top (wf_indexed s W) ltac:(done) Htop Hhole)
    as (s_2 & Hdel & Hx2 & Ho2 & Hperm & P2 & Hout2 & (T2 & HT2 & HT2i)).
  change (heap s_l) with (heap s) in Hperm, Hout2.
  rewrite Hdel. simpl.
  destruct (sp_some _ _ P2 top T HT) as (T2' & HT2' & He2 & Hev2 & Hee2).
  simplify_eq.
  destruct (elapse_timer_spec s_2 top T2 HT2 ltac:(congruence))
    as (s_3 & -> & Hst3 & Hm3 & Hh3 & Ht3 & Hou3 & Hn3 & Hp3 & Hc3).
  simpl. unfold unlock. rewrite Hm3, (sp_mutex _ _ P2). simpl.
  assert (duplicate_of (event T2) s_2 = duplicate_of (event T) s) as Hdup.
  { unfold duplicate_of, wap_event_duplicate. rewrite Hev2.
    destruct (event T); simpl; [|done]. by rewrite (sp_next_event _ _ P2). }
  rewrite Hdup, Hev2, HT2i in *. clear Hdup.
  set (p := duplicate_of (event T) s) in *.
  rewrite (sp_next_event _ _ P2) in Hn3, Hp3. simpl in Hn3, Hp3.
  rewrite (sp_output _ _ P2) in Hou3. rewrite (sp_calls _ _ P2) in Hc3.
  simpl in Hou3, Hc3.
  assert (NoDup (heap s)) as Hnd by exact (heap_indexed_NoDup s (wf_indexed s W)).
  assert (top ∉ heap s_2) as Hnin
    by (rewrite Hperm in Hnd; by apply NoDup_cons_1_1 in Hnd).
  eexists. split; [done|]. simpl. rewrite Ht3, Hh3, Hou3, Hc3, lookup_insert_eq.
  split.
  2: { exists T. eexists. split; [done|]. split; [done|]. simpl.
       rewrite <- !app_assoc. by repeat split. }
  split; simpl; rewrite ?Ht3, ?Hh3, ?Hou3, ?Hc3; simpl.
  - done.
  - intros m a Hm. simpl in *. rewrite Ht3. rewrite Hh3 in Hm.
    assert (a ≠ top)
      by (intros ->; apply Hnin; eapply list_elem_of_lookup_2; eauto).
    rewrite lookup_insert_ne by done. by apply Hx2.
  - eapply ordered_ext; [|done]. intros a Ha.
    trans (key s_2 a); [|apply (same_payload_key s_l s_2 a P2)].
    unfold key, elapses_of. simpl. rewrite Ht3.
    rewrite lookup_insert_ne; [done|]. by intros <-.
  - intros a Ta Ha Hna. destruct (decide (a = top)) as [->|Hne].
    { rewrite lookup_insert_eq in Ha. by simplify_eq. }
    rewrite lookup_insert_ne in Ha by done.
    assert (a ∉ heap s) as Hna' by (rewrite Hperm; set_solver).
    destruct (timers s !! a) as [Ta0|] eqn:Ha0.
    + destruct (wf_outside s W a Ta0 Ha0 Hna') as [Hi0 He0].
      destruct (sp_some _ _ P2 a Ta0 Ha0) as (Ta' & Ha' & ? & _).
      rewrite (Hout2 a Ta0 Ta Hna' Ha0 Ha). simplify_eq. split; [done|congruence].
    + rewrite (sp_none _ _ P2 a Ha0) in Ha. done.
  - intros a Ta Ha Hina.
    assert (a ≠ top) as Hne by (intros ->; done).
    rewrite lookup_insert_ne in Ha by done.
    assert (a ∈ heap s) as Hina' by (rewrite Hperm; set_solver).
    destruct (heap_timer s a (wf_indexed s W) Hina') as [Ta0 Ha0].
    destruct (wf_active s W a Ta0 Ha0 Hina') as [? ?].
    destruct (sp_some _ _ P2 a Ta0 Ha0) as (Ta' & Ha' & ? & ? & ?).
    simplify_eq. split; congruence.
  - intros t' q Hc Hq.
    assert (Produce t' (Some q) ∈ calls s ∨ (t' = top ∧ p = Some q)) as Hc'.
    { rewrite !elem_of_app, !elem_of_cons in Hc. set_solver. }
    rewrite elem_of_app in Hq.
    destruct Hc' as [Hc'|[-> Hpq]].
    + pose proof (wf_fresh s W t' q Hc') as Hfr.
      destruct Hq as [Hq|Hq].
      * destruct (wf_queue s W t' q Hc' Hq) as (T' & HT' & HE').
        destruct (decide (t' = top)) as [->|Hne]; [congruence|].
        rewrite lookup_insert_ne by done.
        destruct (sp_some _ _ P2 t' T' HT') as (T'' & ? & ? & ? & ?).
        exists T''. split; [done|congruence].
      * apply list_elem_of_singleton in Hq. symmetry in Hq.
        destruct (Hp3 q Hq). lia.
    + rewrite lookup_insert_eq. eexists. split; [done|]. done.
  - intros t' q Hc.
    assert (Produce t' (Some q) ∈ calls s ∨ (t' = top ∧ p = Some q)) as Hc'.
    { rewrite !elem_of_app, !elem_of_cons in Hc. set_solver. }
    destruct Hc' as [Hc'|[-> Hpq]].
    + pose proof (wf_fresh s W t' q Hc'). lia.
    + by destruct (Hp3 q Hpq).
Qed.

(** ** [timer_start] *)

Lemma top_time_key s top :
  heap_indexed s → heap s !! 0%nat = Some top → top_time s = Some (key s top).
Proof.
  intros Hx Ht. unfold top_time. rewrite Ht. simpl. by eapply elapses_of_heap.
Qed.

Lemma top_time_none s : heap s = [] → top_time s = None.
Proof. intros E. unfold top_time. by rewrite E. Qed.

Local Arguments to_int : simpl never.

(** Resetting an active timer. *)
Lemma timer_start_active now s t interval ev T :
  wf s → timers s !! t = Some T → 0 < elapses T →
  ev ≠ None ∨ event T ≠ None →
  0 < to_int (interval + now) →
  ∃ s' T' wake, timer_start now t interval ev s = Some s' ∧ wf s' ∧
    timers s' !! t = Some T' ∧
    T' = mkTimer (to_int (interval + now))
                 (if ev is Some _ then ev else event T) None (index T') ∧
    (t ∈ heap s') ∧ heap s' ≡ₚ heap s ∧ output s' = output s ∧
    calls s' = calls s ++ [MutexLock] ++ replaced_event ev (event T)
                       ++ [MutexUnlock] ++ (if wake : bool then [Wakeup] else []) ∧
    (wake = true ↔ top_earlier s s').
Proof.
  intros W HT Hact Hev Hpos.
  assert (t ∈ heap s) as Hin.
  { destruct (decide (t ∈ heap s)) as [|Hn]; [done|].
    destruct (wf_outside s W t T HT Hn). lia. }
  destruct (wf_active s W t T HT Hin) as [_ HE].
  apply list_elem_of_lookup in Hin as [i Hi].
  destruct (wf_indexed s W i t Hi) as (T0 & HT0 & Hidx). simplify_eq.
  assert (NoDup (heap s)) as Hnd by exact (heap_indexed_NoDup s (wf_indexed s W)).
  set (e := to_int (interval + now)) in *.
  unfold timer_start. rewrite HT. simpl.
  assert (bool_decide (ev ≠ None) || bool_decide (event T ≠ None) = true) as ->.
  { destruct Hev; [rewrite bool_decide_eq_true_2 by done; done|].
    rewrite (bool_decide_eq_true_2 (event T ≠ None)) by done. apply orb_true_r. }
  simpl. unfold lock. rewrite (wf_free s W). simpl.
  set (s_l := call MutexLock (set_mutex true s)).
  destruct (Z.ltb_spec 0 (elapses T)) as [_|]; [|lia].
  assert (timers s_l !! t = Some T) as HTl by done.
  rewrite (update_eq t _ s_l T HTl). simpl. fold e.
  set (s_1 := set_timers _ s_l).
  unfold list_get. rewrite Hidx.
  destruct (Z.ltb_spec (Z.of_nat i) 0) as [|_]; [lia|].
  rewrite Nat2Z.id. simpl. rewrite Hi. simpl.
  rewrite bool_decide_eq_true_2 by done. simpl.
  assert (heap_indexed s_1) as Hx1.
  { intros m a Hm. simpl in *. destruct (decide (a = t)) as [->|].
    - rewrite lookup_insert_eq. eexists. split; [done|]. simpl.
      destruct (wf_indexed s W m t Hm) as (T1 & ? & ?). by simplify_eq.
    - rewrite lookup_insert_ne by done. by apply (wf_indexed s W). }
  assert (∀ a, a ≠ t → key s_1 a = key s a) as Hk1.
  { intros a Hne. unfold key, elapses_of. simpl. by rewrite lookup_insert_ne. }
  assert (key s_1 t = e) as Hkt.
  { unfold key, elapses_of. simpl. by rewrite lookup_insert_eq. }
  assert (key s t = elapses T) as Hkt0.
  { unfold key, elapses_of. by rewrite HT. }
  assert (hole_ok (key s_1) (heap s_1) i) as Hhole.
  { eapply (ordered_hole_change _ (key s)); [apply (wf_ordered s W)|done|done|done]. }
  destruct (heap_adjust_spec (key s_1) i s_1 t Hx1 ltac:(done) Hi Hhole)
    as (w & s_2 & -> & Hx2 & Ho2 & F2 & Hw1 & Hw0).
  simpl.
  change (heap s_1) with (heap s) in Hw1, Hw0.
  pose proof (frame_heap _ _ F2) as Hperm. change (heap s_1) with (heap s) in Hperm.
  destruct (frame_some _ _ F2 t (with_elapses e T)) as (T2 & HT2 & He2 & Hev2 & Hee2 & _).
  { simpl. by rewrite lookup_insert_eq. }
  simpl in He2, Hev2, Hee2.
  assert (∃ s_3,
            match ev with
            | Some _ => update t (with_event ev) (wap_event_destroy (event T) s_2)
            | None => Some s_2
            end = Some s_3 ∧
            stopping s_3 = stopping s ∧ mutex s_3 = true ∧ heap s_3 = heap s_2 ∧
            timers s_3 = <[t := with_event (if ev is Some _ then ev else event T) T2]>
                           (timers s_2) ∧
            output s_3 = output s ∧ next_event s_3 = next_event s ∧
            calls s_3 = (calls s ++ [MutexLock]) ++ replaced_event ev (event T))
    as (s_3 & -> & Hst3 & Hm3 & Hh3 & Ht3 & Hou3 & Hn3 & Hc3).
  { destruct F2 as [Fst Fm Fo Fn Fc _ _ _]. simpl in Fst, Fm, Fo, Fn, Fc.
    destruct ev as [e0|].
    - unfold wap_event_destroy, replaced_event.
      destruct (event T) as [p|]; simpl.
      + erewrite update_eq by (simpl; done). eexists. split; [done|]. simpl.
        rewrite Fc. by repeat split.
      + erewrite update_eq by done. eexists. split; [done|]. simpl.
        rewrite Fc, app_nil_r. by repeat split.
    - exists s_2. split; [done|]. rewrite <- Hev2.
      replace (with_event (event T2) T2) with T2 by (by destruct T2).
      rewrite insert_id by done. unfold replaced_event. simpl.
      rewrite Fc, app_nil_r. by repeat split. }
  simpl. unfold unlock. rewrite Hm3. simpl.
  set (wake := (e <? elapses T) && (Z.of_nat i =? 0) || w).
  assert (t ∈ heap s_2) as Hin2
    by (rewrite Hperm; eapply list_elem_of_lookup_2; eauto).
  set (s_4 := mkTimerset (stopping s) false (heap s_2)
                (<[t := with_event (if ev is Some _ then ev else event T) T2]>
                   (timers s_2))
                (output s) (next_event s)
                (calls s ++ [MutexLock] ++ replaced_event ev (event T)
                         ++ [MutexUnlock] ++ (if wake then [Wakeup] else []))).
  assert ((if wake then call Wakeup (call MutexUnlock (set_mutex false s_3))
           else call MutexUnlock (set_mutex false s_3)) = s_4) as ->.
  { unfold s_4, call, set_mutex. destruct wake; simpl.
    - rewrite Hst3, Hh3, Ht3, Hou3, Hn3, Hc3. by rewrite <- !app_assoc.
    - rewrite Hst3, Hh3, Ht3, Hou3, Hn3, Hc3. by rewrite <- !app_assoc. }
  clear s_3 Hst3 Hm3 Hh3 Ht3 Hou3 Hn3 Hc3.
  assert (∀ a, a ≠ t → timers s_4 !! a = timers s_2 !! a) as Hsame4.
  { intros a Hne. simpl. by rewrite lookup_insert_ne. }
  assert (∀ a, key s_4 a = key s_1 a) as Hk4.
  { intros a. rewrite <- (frame_key s_1 s_2 a F2). unfold key, elapses_of.
    destruct (decide (a = t)) as [->|]; [|by rewrite Hsame4].
    simpl. by rewrite lookup_insert_eq, HT2. }
  assert (wf s_4) as W4.
  { split; simpl.
    - done.
    - intros m a Hm. simpl in *. destruct (decide (a = t)) as [->|].
      + rewrite lookup_insert_eq. eexists. split; [done|]. simpl.
        destruct (Hx2 m t Hm) as (T3 & ? & ?). by simplify_eq.
      + rewrite lookup_insert_ne by done. by apply Hx2.
    - eapply ordered_ext; [|done]. by intros a _.
    - intros a Ta Ha Hna.
      assert (a ≠ t) as Hne by (intros ->; done).
      rewrite lookup_insert_ne in Ha by done.
      assert (a ∉ heap s) as Hna' by (by rewrite <- Hperm).
      destruct (timers s !! a) as [Ta0|] eqn:Ha0.
      + destruct (wf_outside s W a Ta0 Ha0 Hna') as [Hi0 He0].
        destruct (frame_some _ _ F2 a Ta0) as (Ta' & Ha' & ? & ? & ? & Hix).
        { simpl. by rewrite lookup_insert_ne. }
        simplify_eq. rewrite Hix by done. split; congruence.
      + rewrite (frame_none _ _ F2 a) in Ha; [done|].
        simpl. by rewrite lookup_insert_ne.
    - intros a Ta Ha Hina. destruct (decide (a = t)) as [->|Hne].
      + rewrite lookup_insert_eq in Ha. simplify_eq. simpl.
        split; [lia|congruence].
      + rewrite lookup_insert_ne in Ha by done.
        assert (a ∈ heap s) as Hina' by (by rewrite <- Hperm).
        destruct (heap_timer s a (wf_indexed s W) Hina') as [Ta0 Ha0].
        destruct (wf_active s W a Ta0 Ha0 Hina') as [? ?].
        destruct (frame_some _ _ F2 a Ta0) as (Ta' & Ha' & ? & ? & ? & _).
        { simpl. by rewrite lookup_insert_ne. }
        simplify_eq. split; congruence.
    - intros t' p Hc Hq.
      assert (Produce t' (Some p) ∈ calls s) as Hc'.
      { rewrite !elem_of_app in Hc.
        assert (Produce t' (Some p) ∉ replaced_event ev (event T))
          by (unfold replaced_event; destruct ev, (event T); set_solver).
        destruct wake; set_solver. }
      destruct (wf_queue s W t' p Hc' Hq) as (T' & HT' & HE').
      destruct (decide (t' = t)) as [->|Hne]; [congruence|].
      rewrite lookup_insert_ne by done.
      destruct (frame_some _ _ F2 t' T') as (Ta' & Ha' & ? & ? & ? & _).
      { simpl. by rewrite lookup_insert_ne. }
      exists Ta'. split; [done|congruence].
    - intros t' p Hc. apply (wf_fresh s W t' p).
      rewrite !elem_of_app in Hc.
      assert (Produce t' (Some p) ∉ replaced_event ev (event T))
        by (unfold replaced_event; destruct ev, (event T); set_solver).
      destruct wake; set_solver. }
  exists s_4, (with_event (if ev is Some _ then ev else event T) T2), wake.
  split; [done|]. split; [done|].
  split; [simpl; by rewrite lookup_insert_eq|].
  split; [unfold with_event; simpl; by rewrite He2, Hee2, HE|].
  split; [done|]. split; [done|]. split; [done|]. split; [done|].
  (* the wakeup *)
  assert (0 < length (heap s))%nat as Hlen by (apply lookup_lt_Some in Hi; lia).
  apply lookup_lt_is_Some in Hlen as Htop0. destruct Htop0 as [top0 Htop0].
  assert (0 < length (heap s_2))%nat as Hlen2 by (by rewrite Hperm).
  apply lookup_lt_is_Some in Hlen2 as [top2 Htop2].
  unfold top_earlier.
  rewrite (top_time_key s top0 (wf_indexed s W) Htop0).
  rewrite (top_time_key s_4 top2 (wf_indexed s_4 W4) Htop2).
  rewrite Hk4.
  pose proof (ordered_top (key s) (heap s) top0 (wf_ordered s W) Htop0) as Hmin.
  pose proof (ordered_top (key s_1) (heap s_2) top2 Ho2 Htop2) as Hmin2.
  assert (top2 ∈ heap s) as [j Hj]%list_elem_of_lookup.
  { rewrite <- Hperm. eapply list_elem_of_lookup_2; eauto. }
  apply list_elem_of_lookup in Hin2 as [j2 Hj2].
  specialize (Hmin2 j2 t Hj2). rewrite Hkt in Hmin2.
  unfold wake. destruct (decide (i = 0%nat)) as [->|Hi0].
  - simplify_eq. simpl Z.eqb.
    assert (w = false) as -> by (destruct w; [by destruct Hw1|done]).
    rewrite andb_true_r, orb_false_r, Z.ltb_lt.
    split; [lia|]. intros Hlt.
    destruct (decide (top2 = t)) as [->|Hne]; [lia|].
    specialize (Hmin j top2 Hj). rewrite Hk1 in Hlt by done. lia.
  - destruct (Z.eqb_spec (Z.of_nat i) 0) as [|_]; [lia|].
    rewrite andb_false_r. simpl.
    assert (top0 ≠ t) as Hne0.
    { intros ->. apply Hi0. eapply NoDup_alt; eauto. }
    destruct w.
    + destruct Hw1 as (_ & Ht2 & Hlt); [done|].
      assert (top2 = t) as -> by congruence.
      specialize (Hlt top0 Htop0). rewrite (Hk1 top0) in Hlt by done. done.
    + rewrite Hw0 in Htop2 by done.
      assert (top2 = top0) as -> by congruence.
      rewrite Hk1 by done. split; [done|lia].
Qed.

(** Starting a timer that is not active. *)
Lemma timer_start_inactive now s t interval ev T :
  wf s → timers s !! t = Some T → elapses T ≤ 0 →
  ev ≠ None ∨ event T ≠ None →
  0 < to_int (interval + now) →
  ∃ s' T' wake, timer_start now t interval ev s = Some s' ∧ wf s' ∧
    timers s' !! t = Some T' ∧
    T' = mkTimer (to_int (interval + now)) (event T) None (index T') ∧
    (t ∈ heap s') ∧ heap s' ≡ₚ t :: heap s ∧
    output s' = match elapsed_event T with
                | None => output s
                | Some p => filter (λ x, x ≠ Some p) (output s)
                end ∧
    calls s' = calls s ++ [MutexLock] ++ retraction (elapsed_event T) (output s)
                       ++ [MutexUnlock] ++ (if wake : bool then [Wakeup] else []) ∧
    (wake = true ↔ top_earlier s s').
Proof.
  intros W HT Hina Hev Hpos.
  assert (t ∉ heap s) as Hnin.
  { intros Hin. destruct (wf_active s W t T HT Hin). lia. }
  destruct (wf_outside s W t T HT Hnin) as [Hidx Hel].
  set (e := to_int (interval + now)) in *.
  unfold timer_start. rewrite HT. simpl.
  assert (bool_decide (ev ≠ None) || bool_decide (event T ≠ None) = true) as ->.
  { destruct Hev; [rewrite bool_decide_eq_true_2 by done; done|].
    rewrite (bool_decide_eq_true_2 (event T ≠ None)) by done. apply orb_true_r. }
  simpl. unfold lock. rewrite (wf_free s W). simpl.
  set (s_l := call MutexLock (set_mutex true s)).
  destruct (Z.ltb_spec 0 (elapses T)) as [|_]; [lia|].
  destruct (abort_elapsed_spec s_l t T HT)
    as (s_a & -> & Hsta & Hma & Hha & Hna & Hta & Houa & Hca).
  subst s_l. simpl in Hsta, Hma, Hha, Hna, Hta, Houa, Hca. simpl.
  erewrite update_eq by (rewrite Hta; apply lookup_insert_eq).
  simpl. fold e. rewrite lookup_insert_eq. simpl. rewrite Hidx. simpl.
  rewrite Hta, insert_insert_eq.
  set (T1 := with_elapses e (with_elapsed_event None T)).
  set (s_1 := set_timers (<[t:=T1]> (timers s)) s_a).
  assert (heap_indexed s_1) as Hx1.
  { intros m a Hm. simpl in *. rewrite Hha in Hm.
    assert (a ≠ t) by (intros ->; apply Hnin; eapply list_elem_of_lookup_2; eauto).
    rewrite lookup_insert_ne by done. by apply (wf_indexed s W). }
  assert (∀ a, a ≠ t → key s_1 a = key s a) as Hk1.
  { intros a Hne. unfold key, elapses_of. simpl. by rewrite lookup_insert_ne. }
  assert (key s_1 t = e) as Hkt.
  { unfold key, elapses_of. simpl. by rewrite lookup_insert_eq. }
  assert (ordered (key s_1) (heap s_1)) as Ho1.
  { simpl. rewrite Hha. eapply ordered_ext; [|apply (wf_ordered s W)].
    intros a Ha. apply Hk1. by intros ->. }
  destruct (heap_insert_spec (key s_1) t s_1 T1 Hx1) as
    (s_2 & -> & Hx2 & Ho2 & Hperm & P2 & Hout2 & Htopiff & Htopne); try done.
  { simpl. by rewrite lookup_insert_eq. }
  { simpl. by rewrite Hha. }
  simpl. simpl in Hperm, Hout2, Htopiff, Htopne.
  rewrite Hha in Hperm, Hout2, Htopiff, Htopne.
  destruct (sp_some _ _ P2 t T1) as (T2 & HT2 & He2 & Hev2 & Hee2).
  { simpl. by rewrite lookup_insert_eq. }
  simpl in He2, Hev2, Hee2. rewrite HT2. simpl.
  unfold unlock. rewrite (sp_mutex _ _ P2). simpl. rewrite Hma. simpl.
  set (wake := index T2 =? 0).
  assert (t ∈ heap s_2) as Hin2 by (rewrite Hperm; set_solver).
  assert (wake = true ↔ heap s_2 !! 0%nat = Some t) as Hwake.
  { unfold wake. rewrite Z.eqb_eq. split.
    - intros Hi0. apply list_elem_of_lookup in Hin2 as [j Hj].
      destruct (Hx2 j t Hj) as (T3 & ? & ?). simplify_eq.
      by replace j with 0%nat in Hj by lia.
    - intros Hj. destruct (Hx2 0%nat t Hj) as (T3 & ? & ?). by simplify_eq. }
  set (s_4 := mkTimerset (stopping s) false (heap s_2) (timers s_2)
                (match elapsed_event T with
                 | None => output s
                 | Some p => filter (λ x, x ≠ Some p) (output s)
                 end)
                (next_event s)
                (calls s ++ [MutexLock] ++ retraction (elapsed_event T) (output s)
                         ++ [MutexUnlock] ++ (if wake then [Wakeup] else []))).
  assert ((if wake then call Wakeup (call MutexUnlock (set_mutex false s_2))
           else call MutexUnlock (set_mutex false s_2)) = s_4) as ->.
  { unfold s_4, call, set_mutex. destruct P2 as [-> _ -> -> -> _ _]. simpl.
    rewrite Hsta, Houa, Hna, Hca.
    destruct wake; simpl; by rewrite <- !app_assoc. }
  assert (∀ a, key s_4 a = key s_1 a) as Hk4
    by (intros a; apply (same_payload_key s_1 s_2 a P2)).
  assert (wf s_4) as W4.
  { split; simpl.
    - done.
    - done.
    - eapply ordered_ext; [|done]. by intros a _.
    - intros a Ta Ha Hna'.
      assert (a ≠ t) as Hne by (intros ->; done).
      assert (a ∉ heap s) as Hna0 by (rewrite Hperm in Hna'; set_solver).
      destruct (timers s !! a) as [Ta0|] eqn:Ha0.
      + destruct (wf_outside s W a Ta0 Ha0 Hna0) as [Hi0 He0].
        assert (timers s_1 !! a = Some Ta0) as Ha1
          by (simpl; by rewrite lookup_insert_ne).
        destruct (sp_some _ _ P2 a Ta0 Ha1) as (Ta' & Ha' & ? & ? & ?).
        simplify_eq. rewrite (Hout2 a Ta0 Ta); [split; congruence|set_solver|done..].
      + rewrite (sp_none _ _ P2 a) in Ha; [done|].
        simpl. by rewrite lookup_insert_ne.
    - intros a Ta Ha Hina'. destruct (decide (a = t)) as [->|Hne].
      + simplify_eq. rewrite He2, Hee2. split; [done|]. done.
      + assert (a ∈ heap s) as Hina0 by (rewrite Hperm in Hina'; set_solver).
        destruct (heap_timer s a (wf_indexed s W) Hina0) as [Ta0 Ha0].
        destruct (wf_active s W a Ta0 Ha0 Hina0) as [? ?].
        assert (timers s_1 !! a = Some Ta0) as Ha1
          by (simpl; by rewrite lookup_insert_ne).
        destruct (sp_some _ _ P2 a Ta0 Ha1) as (Ta' & Ha' & ? & ? & ?).
        simplify_eq. split; congruence.
    - intros t' p Hc Hq.
      assert (Produce t' (Some p) ∈ calls s) as Hc'.
      { pose proof (produce_not_retraction t' (Some p) (elapsed_event T) (output s)).
        rewrite !elem_of_app in Hc. destruct wake; set_solver. }
      assert (Some p ∈ output s ∧ elapsed_event T ≠ Some p) as [Hq' Hnp].
      { destruct (elapsed_event T) as [q|]; [|done].
        apply list_elem_of_filter in Hq as [? ?]. split; [done|congruence]. }
      destruct (wf_queue s W t' p Hc' Hq') as (T' & HT' & HE').
      destruct (decide (t' = t)) as [->|Hne]; [congruence|].
      assert (timers s_1 !! t' = Some T') as Ha1
        by (simpl; by rewrite lookup_insert_ne).
      destruct (sp_some _ _ P2 t' T' Ha1) as (Ta' & Ha' & ? & ? & ?).
      exists Ta'. split; [done|congruence].
    - intros t' p Hc. apply (wf_fresh s W t' p).
      pose proof (produce_not_retraction t' (Some p) (elapsed_event T) (output s)).
      rewrite !elem_of_app in Hc. destruct wake; set_solver. }
  exists s_4, T2, wake. split; [done|]. split; [done|]. split; [done|].
  split; [destruct T2; simpl in *; by subst|].
  split; [done|]. split; [done|]. split; [done|]. split; [done|].
  (* the wakeup *)
  rewrite Hwake. unfold top_earlier.
  assert (0 < length (heap s_2))%nat as Hlen2 by (rewrite Hperm; simpl; lia).
  apply lookup_lt_is_Some in Hlen2 as [top2 Htop2].
  rewrite (top_time_key s_4 top2 (wf_indexed s_4 W4) Htop2), Hk4.
  destruct (heap s !! 0%nat) as [top0|] eqn:Htop0.
  - rewrite (top_time_key s top0 (wf_indexed s W) Htop0).
    assert (top0 ≠ t) as Hne0
      by (intros ->; apply Hnin; eapply list_elem_of_lookup_2; eauto).
    split.
    + intros Ht0. assert (top2 = t) as -> by congruence.
      destruct (proj1 Htopiff Ht0) as [E|(top & ? & Hlt)].
      * rewrite E in Htop0. done.
      * assert (top = top0) as -> by congruence.
        by rewrite <- (Hk1 top0).
    + intros Hlt. destruct (decide (top2 = t)) as [->|Hne]; [done|].
      exfalso. rewrite Htopne in Htop2 by congruence.
      assert (top2 = top0) as -> by congruence.
      rewrite Hk1 in Hlt by done. lia.
  - rewrite top_time_none; [|by apply lookup_ge_None in Htop0; apply nil_length_inv; lia].
    split; [done|]. intros _. apply Htopiff. left.
    apply lookup_ge_None in Htop0. apply nil_length_inv. lia.
Qed.

(** ** Every reachable state satisfies the invariant *)

Lemma wf_step s o s' : wf s → valid_time o → step o s = Some s' → wf s'.
Proof.
  intros W Hv Hs. destruct o as [|now t interval ev|t|now|]; simpl in *.
  - simplify_eq. by apply wf_timer_create.
  - destruct (timers s !! t) as [T|] eqn:HT;
      [|unfold timer_start in Hs; rewrite HT in Hs; done].
    assert (ev ≠ None ∨ event T ≠ None) as Hev.
    { unfold timer_start in Hs. rewrite HT in Hs. simpl in Hs.
      destruct ev; [by left|right]. simpl in Hs.
      destruct (event T); [done|]. done. }
    destruct (Z.ltb_spec 0 (elapses T)).
    + destruct (timer_start_active now s t interval ev T) as (s'' & ? & ? & ? & ? & _);
        try done. congruence.
    + destruct (timer_start_inactive now s t interval ev T) as (s'' & ? & ? & ? & ? & _);
        try done. congruence.
  - destruct (timers s !! t) as [T|] eqn:HT;
      [|unfold timer_stop in Hs; rewrite HT in Hs; done].
    destruct (timer_stop_spec s t T W HT) as (s'' & ? & ? & ? & _). congruence.
  - destruct (watch_iteration_spec now s W) as (s'' & ? & ? & _). congruence.
  - destruct (consume s) as [[p s'']|] eqn:E; [|done]. simpl in Hs. simplify_eq.
    by eapply wf_consume.
Qed.

Lemma reachable_wf s : reachable s → wf s.
Proof.
  induction 1 as [|s o s' _ IH Hv Hs]; [apply wf_create|by eapply wf_step].
Qed.

Lemma reachable_run ops : ∀ s s',
  reachable s → Forall valid_time ops → run ops s = Some s' → reachable s'.
Proof.
  induction ops as [|o ops IH]; intros s s' R Hv Hr; simpl in Hr.
  - by simplify_eq.
  - destruct (step o s) as [s1|] eqn:E; [|done]. simpl in Hr.
    apply Forall_cons in Hv as [Hv1 Hv]. eapply IH; [|done..].
    by eapply reachable_step.
Qed.

(** ** The invariant of the heap, for every elapse time *)

Lemma wf_heap_invariant s : wf s → heap_invariant s.
Proof. intros []. split; try done. intros a T HT Hn. by destruct (wf_outside0 a T HT Hn). Qed.

(** The heap invariant looks at the mutex, the heap and the [elapses] and
    [index] of the timers only. *)
Lemma heap_invariant_view s s' :
  mutex s' = false → heap s' = heap s →
  (∀ a, (λ T, (elapses T, index T)) <$> timers s' !! a =
        (λ T, (elapses T, index T)) <$> timers s !! a) →
  ordered (key s) (heap s) → heap_indexed s →
  (∀ a T, timers s !! a = Some T → a ∉ heap s → index T = -1) →
  heap_invariant s'.
Proof.
  intros Hm Hh Hv Ho Hx Hout.
  assert (∀ a T', timers s' !! a = Some T' →
            ∃ T, timers s !! a = Some T ∧ elapses T = elapses T' ∧
                 index T = index T') as Hback.
  { intros a T' HT'. specialize (Hv a). rewrite HT' in Hv.
    destruct (timers s !! a) as [T|]; [|done]. simpl in Hv. simplify_eq.
    by exists T. }
  assert (∀ a T, timers s !! a = Some T →
            ∃ T', timers s' !! a = Some T' ∧ elapses T = elapses T' ∧
                  index T = index T') as Hforth.
  { intros a T HT. specialize (Hv a). rewrite HT in Hv.
    destruct (timers s' !! a) as [T'|]; [|done]. simpl in Hv. simplify_eq.
    by exists T'. }
  split.
  - done.
  - rewrite Hh. eapply ordered_ext; [|done]. intros a _. unfold key, elapses_of.
    specialize (Hv a). destruct (timers s' !! a), (timers s !! a); simpl in *;
      congruence.
  - intros i a. rewrite Hh. intros Hi. destruct (Hx i a Hi) as (T & HT & ?).
    destruct (Hforth a T HT) as (T' & ? & ? & ?). exists T'. split; [done|congruence].
  - intros a T' HT'. rewrite Hh. intros Hn.
    destruct (Hback a T' HT') as (T & HT & ? & ?).
    rewrite <- (Hout a T HT Hn). done.
Qed.

Lemma hi_timer_stop s t s' :
  heap_invariant s → timer_stop t s = Some s' → heap_invariant s'.
Proof.
  intros [Hm Ho Hx Hout]. unfold timer_stop.
  destruct (timers s !! t) as [T|] eqn:HT; [|done]. simpl.
  unfold lock. rewrite Hm. simpl.
  set (s_l := call MutexLock (set_mutex true s)).
  assert (timers s_l !! t = Some T) as HTl by done.
  destruct (0 <? elapses T).
  - rewrite (update_eq t _ s_l T HTl). simpl.
    set (s_1 := set_timers _ s_l).
    unfold list_get. destruct (Z.ltb_spec (index T) 0) as [|Hi0]; [done|].
    destruct (heap s !! Z.to_nat (index T)) as [t0|] eqn:Hi; [|done]. simpl.
    destruct (decide (t0 = t)) as [->|];
      [rewrite bool_decide_eq_true_2 by done
      |rewrite bool_decide_eq_false_2 by done; done].
    simpl.
    assert (heap_indexed s_1) as Hx1.
    { intros m a Hma. simpl in *. destruct (decide (a = t)) as [->|].
      - rewrite lookup_insert_eq. eexists. split; [done|]. simpl.
        destruct (Hx m t Hma) as (T1 & ? & ?). by simplify_eq.
      - rewrite lookup_insert_ne by done. by apply Hx. }
    assert (hole_ok (key s_1) (heap s_1) (Z.to_nat (index T))) as Hhole.
    { eapply (ordered_hole_change _ (key s)); [done| |done|].
      - exact (heap_indexed_NoDup s Hx).
      - intros a Hne. unfold key, elapses_of. simpl. by rewrite lookup_insert_ne. }
    destruct (heap_delete_spec (key s_1) _ s_1 t Hx1 ltac:(done) Hi Hhole)
      as (s_2 & -> & Hx2 & Ho2 & Hperm & P2 & Hout2 & (T2 & HT2 & HT2i)).
    simpl.
    destruct (abort_elapsed_spec s_2 t T2 HT2)
      as (s_3 & -> & Hst3 & Hm3 & Hh3 & Hn3 & Ht3 & Hou3 & Hc3).
    simpl. unfold unlock. rewrite Hm3, (sp_mutex _ _ P2). simpl.
    intros [= <-].
    assert (NoDup (heap s)) as Hnd by exact (heap_indexed_NoDup s Hx).
    assert (t ∉ heap s_2) as Hnin
      by (change (heap s_1) with (heap s) in Hperm; rewrite Hperm in Hnd;
          by apply NoDup_cons_1_1 in Hnd).
    apply (heap_invariant_view s_2); simpl; try done.
    + intros a. rewrite Ht3. destruct (decide (a = t)) as [->|].
      * rewrite lookup_insert_eq, HT2. done.
      * by rewrite lookup_insert_ne.
    + eapply ordered_ext; [|done]. intros a _.
      apply (same_payload_key s_1 s_2 a P2).
    + intros a Ta Ha Hna. destruct (decide (a = t)) as [->|Hne]; [congruence|].
      assert (a ∉ heap s) as Hna'
        by (change (heap s_1) with (heap s) in Hperm; rewrite Hperm; set_solver).
      destruct (timers s_1 !! a) as [Ta1|] eqn:Ha1.
      * rewrite (Hout2 a Ta1 Ta Hna' Ha1 Ha). apply (Hout a); [|done].
        simpl in Ha1. by rewrite lookup_insert_ne in Ha1.
      * by rewrite (sp_none _ _ P2 a Ha1) in Ha.
  - simpl. destruct (abort_elapsed_spec s_l t T HT)
      as (s_3 & -> & Hst3 & Hm3 & Hh3 & Hn3 & Ht3 & Hou3 & Hc3).
    simpl. unfold unlock. rewrite Hm3. simpl. intros [= <-].
    apply (heap_invariant_view s); simpl; try done.
    intros a. rewrite Ht3. destruct (decide (a = t)) as [->|].
    + rewrite lookup_insert_eq. simpl. by rewrite HT.
    + by rewrite lookup_insert_ne.
Qed.

Lemma hi_watch_iteration now s s' :
  heap_invariant s → watch_iteration now s = Some s' → heap_invariant s'.
Proof.
  intros [Hm Ho Hx Hout]. unfold watch_iteration, lock. rewrite Hm. simpl.
  set (s_l := call MutexLock (set_mutex true s)).
  destruct (length (heap s) =? 0)%nat.
  { simpl. intros [= <-]. by apply (heap_invariant_view s). }
  destruct (heap s !! 0%nat) as [top|] eqn:Htop; [|done]. simpl.
  destruct (Hx 0%nat top Htop) as (T & HT & HTi).
  unfold elapses_of at 1. simpl. rewrite HT. simpl.
  destruct (elapses T <=? now).
  2: { simpl. intros [= <-]. by apply (heap_invariant_view s). }
  assert (hole_ok (key s) (heap s_l) 0) as Hhole by (by apply ordered_hole).
  destruct (heap_delete_spec (key s) 0 s_l top Hx ltac:(done) Htop Hhole)
    as (s_2 & -> & Hx2 & Ho2 & Hperm & P2 & Hout2 & (T2 & HT2 & HT2i)).
  change (heap s_l) with (heap s) in Hperm, Hout2. simpl.
  destruct (elapsed_event T2) as [q|] eqn:HE2.
  { unfold elapse_timer. rewrite HT2. simpl. rewrite HE2. done. }
  destruct (elapse_timer_spec s_2 top T2 HT2 HE2)
    as (s_3 & -> & Hst3 & Hm3 & Hh3 & Ht3 & Hou3 & Hn3 & Hp3 & Hc3).
  simpl. unfold unlock. rewrite Hm3, (sp_mutex _ _ P2). simpl. intros [= <-].
  assert (NoDup (heap s)) as Hnd by exact (heap_indexed_NoDup s Hx).
  assert (top ∉ heap s_2) as Hnin
    by (rewrite Hperm in Hnd; by apply NoDup_cons_1_1 in Hnd).
  split; simpl.
  - done.
  - rewrite Hh3. eapply ordered_ext; [|done]. intros a Ha.
    trans (key s_2 a); [|apply (same_payload_key s_l s_2 a P2)].
    unfold key, elapses_of. simpl. rewrite Ht3.
    rewrite lookup_insert_ne; [done|]. by intros <-.
  - intros m a Hma. simpl in *. rewrite Ht3. rewrite Hh3 in Hma.
    assert (a ≠ top)
      by (intros ->; apply Hnin; eapply list_elem_of_lookup_2; eauto).
    rewrite lookup_insert_ne by done. by apply Hx2.
  - intros a Ta. rewrite Ht3, Hh3. intros Ha Hna.
    destruct (decide (a = top)) as [->|Hne].
    { rewrite lookup_insert_eq in Ha. by simplify_eq. }
    rewrite lookup_insert_ne in Ha by done.
    assert (a ∉ heap s) as Hna' by (rewrite Hperm; set_solver).
    destruct (timers s !! a) as [Ta0|] eqn:Ha0.
    + rewrite (Hout2 a Ta0 Ta Hna' Ha0 Ha). by apply (Hout a).
    + by rewrite (sp_none _ _ P2 a Ha0) in Ha.
Qed.

Lemma hi_timer_start now t interval ev s s' :
  heap_invariant s → timer_start now t interval ev s = Some s' →
  heap_invariant s'.
Proof.
  intros [Hm Ho Hx Hout]. unfold timer_start.
  destruct (timers s !! t) as [T|] eqn:HT; [|done]. simpl.
  destruct (gw_assert _); [|done]. simpl.
  unfold lock. rewrite Hm. simpl.
  set (s_l := call MutexLock (set_mutex true s)).
  set (e := to_int (interval + now)).
  assert (timers s_l !! t = Some T) as HTl by done.
  assert (NoDup (heap s)) as Hnd by exact (heap_indexed_NoDup s Hx).
  destruct (0 <? elapses T).
  - rewrite (update_eq t _ s_l T HTl). simpl.
    set (s_1 := set_timers _ s_l).
    unfold list_get. destruct (Z.ltb_spec (index T) 0) as [|Hi0]; [done|].
    destruct (heap s !! Z.to_nat (index T)) as [t0|] eqn:Hi; [|done]. simpl.
    destruct (decide (t0 = t)) as [->|];
      [rewrite bool_decide_eq_true_2 by done
      |rewrite bool_decide_eq_false_2 by done; done].
    simpl.
    assert (heap_indexed s_1) as Hx1.
    { intros m a Hma. simpl in *. destruct (decide (a = t)) as [->|].
      - rewrite lookup_insert_eq. eexists. split; [done|]. simpl.
        destruct (Hx m t Hma) as (T1 & ? & ?). by simplify_eq.
      - rewrite lookup_insert_ne by done. by apply Hx. }
    assert (hole_ok (key s_1) (heap s_1) (Z.to_nat (index T))) as Hhole.
    { eapply (ordered_hole_change _ (key s)); [done|done|done|].
      intros a Hne. unfold key, elapses_of. simpl. by rewrite lookup_insert_ne. }
    destruct (heap_adjust_spec (key s_1) _ s_1 t Hx1 ltac:(done) Hi Hhole)
      as (w & s_2 & -> & Hx2 & Ho2 & F2 & _).
    simpl.
    pose proof (frame_heap _ _ F2) as Hperm. change (heap s_1) with (heap s) in Hperm.
    destruct (frame_some _ _ F2 t (with_elapses e T)) as (T2 & HT2 & _).
    { simpl. by rewrite lookup_insert_eq. }
    assert (∀ s_3,
              match ev with
              | Some _ => update t (with_event ev) (wap_event_destroy (event T) s_2)
              | None => Some s_2
              end = Some s_3 →
              mutex s_3 = true ∧ heap s_3 = heap s_2 ∧
              ∀ a, (λ T, (elapses T, index T)) <$> timers s_3 !! a =
                   (λ T, (elapses T, index T)) <$> timers s_2 !! a) as H3.
    { intros s_3. pose proof (frame_mutex _ _ F2) as Fm. simpl in Fm.
      destruct ev as [e0|]; [|by intros [= <-]].
      erewrite update_eq by (destruct (event T); simpl; done).
      intros [= <-]. destruct (event T); simpl.
      all: split; [done|]; split; [done|]; intros a.
      all: destruct (decide (a = t)) as [->|];
        [by rewrite lookup_insert_eq, HT2|by rewrite lookup_insert_ne]. }
    destruct (match ev with Some _ => _ | None => _ end) as [s_3|]; [|done].
    destruct (H3 s_3 eq_refl) as (Hm3 & Hh3 & Ht3).
    simpl. unfold unlock. rewrite Hm3. simpl. intros [= <-].
    apply (heap_invariant_view s_2).
    + by destruct (_ || w).
    + by destruct (_ || w).
    + intros a. rewrite <- Ht3. by destruct (_ || w).
    + eapply ordered_ext; [|done]. intros a _. apply (frame_key s_1 s_2 a F2).
    + done.
    + intros a Ta Ha Hna.
      assert (a ∉ heap s) as Hna' by (by rewrite <- Hperm).
      assert (a ≠ t) as Hne
        by (intros ->; apply Hna'; eapply list_elem_of_lookup_2; eauto).
      destruct (timers s !! a) as [Ta0|] eqn:Ha0.
      * destruct (frame_some _ _ F2 a Ta0) as (Ta' & Ha' & _ & _ & _ & Hix).
        { simpl. by rewrite lookup_insert_ne. }
        simplify_eq. rewrite Hix by done. by apply (Hout a).
      * rewrite (frame_none _ _ F2 a) in Ha; [done|].
        simpl. by rewrite lookup_insert_ne.
  - simpl. destruct (abort_elapsed_spec s_l t T HT)
      as (s_a & -> & Hsta & Hma & Hha & Hna & Hta & Houa & Hca).
    subst s_l. simpl in Hsta, Hma, Hha, Hna, Hta, Houa, Hca. simpl.
    erewrite update_eq by (rewrite Hta; apply lookup_insert_eq).
    simpl. fold e. rewrite lookup_insert_eq. simpl.
    destruct (Z.ltb_spec (index T) 0) as [Hneg|]; [|done]. simpl.
    assert (t ∉ heap s) as Hnin.
    { intros [i Hi]%list_elem_of_lookup. destruct (Hx i t Hi) as (T0 & ? & ?).
      simplify_eq. lia. }
    rewrite Hta, insert_insert_eq.
    set (T1 := with_elapses e (with_elapsed_event None T)).
    set (s_1 := set_timers (<[t:=T1]> (timers s)) s_a).
    assert (heap_indexed s_1) as Hx1.
    { intros m a Hma'. simpl in *. rewrite Hha in Hma'.
      assert (a ≠ t) by (intros ->; apply Hnin; eapply list_elem_of_lookup_2; eauto).
      rewrite lookup_insert_ne by done. by apply Hx. }
    assert (ordered (key s_1) (heap s_1)) as Ho1.
    { simpl. rewrite Hha. eapply ordered_ext; [|done].
      intros a Ha. unfold key, elapses_of. simpl.
      rewrite lookup_insert_ne; [done|]. by intros <-. }
    destruct (heap_insert_spec (key s_1) t s_1 T1 Hx1) as
      (s_2 & -> & Hx2 & Ho2 & Hperm & P2 & Hout2 & _); try done.
    { unfold key, elapses_of. simpl. by rewrite lookup_insert_eq. }
    { simpl. by rewrite lookup_insert_eq. }
    { simpl. by rewrite Hha. }
    simpl. simpl in Hperm, Hout2. rewrite Hha in Hperm, Hout2.
    destruct (sp_some _ _ P2 t T1) as (T2 & HT2 & _).
    { simpl. by rewrite lookup_insert_eq. }
    rewrite HT2. simpl.
    unfold unlock. rewrite (sp_mutex _ _ P2). simpl. rewrite Hma. simpl.
    intros [= <-].
    apply (heap_invariant_view s_2).
    + by destruct (index T2 =? 0).
    + by destruct (index T2 =? 0).
    + intros a. by destruct (index T2 =? 0).
    + eapply ordered_ext; [|done]. intros a _.
      apply (same_payload_key s_1 s_2 a P2).
    + done.
    + intros a Ta Ha Hna'.
      assert (a ≠ t ∧ a ∉ heap s) as [Hne Hna0]
        by (rewrite Hperm in Hna'; set_solver).
      destruct (timers s !! a) as [Ta0|] eqn:Ha0.
      * rewrite (Hout2 a Ta0 Ta); [by apply (Hout a)|set_solver| |done].
        simpl. by rewrite lookup_insert_ne.
      * rewrite (sp_none _ _ P2 a) in Ha; [done|].
        simpl. by rewrite lookup_insert_ne.
Qed.

(** ** The specified properties *)

Lemma reachable_state_after ops : Forall valid_time ops → reachable (state_after ops).
Proof.
  intros Hv. unfold state_after.
  destruct (run ops _) as [s|] eqn:E; simpl.
  - eapply reachable_run; [apply reachable_create|done..].
  - apply reachable_create.
Qed.

Lemma seven_timers_valid : Forall valid_time seven_timers.
Proof. repeat constructor. Qed.

Lemma elapsed_timer_valid : Forall valid_time elapsed_timer.
Proof. repeat constructor. Qed.

(** C1, as stated, fails: after seven starts the heap is
    [1001, 1002, 1010, 1003, 1011, 1012, 1004], in which the element at
    position 2 is later than the element at position 6 = 2*2+2. *)
Lemma C1_min_heap_counterexample :
  reachable (state_after seven_timers) ∧
  map (key (state_after seven_timers)) (heap (state_after seven_timers)) =
    [1001; 1002; 1010; 1003; 1011; 1012; 1004] ∧
  ¬ min_heap (key (state_after seven_timers)) (heap (state_after seven_timers)).
Proof.
  split; [apply reachable_state_after, seven_timers_valid|].
  split; [vm_compute; reflexivity|].
  intros H. destruct (H 2%nat) as [_ H2].
  specialize (H2 2%nat 6%nat eq_refl eq_refl). vm_compute in H2. by apply H2.
Qed.

(** C1, amended: the invariant of the heap, with the order of the code
    (element [i] is the child of element [i / 2] and is not earlier than
    it) and [heap[t.index] == t] for the timers in the heap, is kept by
    every operation: [timer_start], [timer_stop], the step of the watcher,
    and also [timer_create] and the consumer of the output list. *)
Theorem C1_heap_invariant_preserved s o s' :
  heap_invariant s → step o s = Some s' → heap_invariant s'.
Proof.
  intros H Hs. destruct o as [|now t interval ev|t|now|]; simpl in Hs.
  - simplify_eq. destruct H as [Hm Ho Hx Hout].
    pose proof (timer_create_fresh s) as Hf. simpl in *.
    set (t := fresh (dom (timers s))) in *.
    assert (∀ a, a ∈ heap s → a ≠ t) as Hne.
    { intros a Ha ->. destruct (heap_timer s t Hx Ha). congruence. }
    split; simpl.
    + done.
    + eapply ordered_ext; [|done].
      intros a Ha. unfold key, elapses_of. simpl.
      rewrite lookup_insert_ne; [done|]. intros <-. by eapply Hne.
    + intros i a Hi. simpl in *. rewrite lookup_insert_ne; [by apply Hx|].
      intros <-. eapply Hne; [|done]. eapply list_elem_of_lookup_2; eauto.
    + intros a T. destruct (decide (a = t)) as [->|].
      * rewrite lookup_insert_eq. by intros [= <-].
      * rewrite lookup_insert_ne by done. apply Hout.
  - by eapply hi_timer_start.
  - by eapply hi_timer_stop.
  - by eapply hi_watch_iteration.
  - destruct H as [Hm Ho Hx Hout]. unfold consume in Hs.
    destruct (output s); [done|]. simpl in Hs. simplify_eq. by split.
Qed.

Lemma C1_heap_invariant_witness :
  heap_invariant (state_after seven_timers) ∧
  step (OpWatch 1005) (state_after seven_timers) =
    Some (state_after (seven_timers ++ [OpWatch 1005])) ∧
  heap_invariant (state_after (seven_timers ++ [OpWatch 1005])).
Proof.
  assert (heap_invariant (state_after seven_timers)) as H.
  { apply wf_heap_invariant, reachable_wf, reachable_state_after, seven_timers_valid. }
  assert (step (OpWatch 1005) (state_after seven_timers) =
          Some (state_after (seven_timers ++ [OpWatch 1005]))) as Hs
    by (vm_compute; reflexivity).
  split; [exact H|]. split; [exact Hs|].
  exact (C1_heap_invariant_preserved _ _ _ H Hs).
Defined.

Lemma retraction_destroy e o p :
  Destroy p ∈ retraction e o ↔
  ∃ count, DeleteEqual p count ∈ retraction e o ∧ (0 < count)%nat.
Proof.
  unfold retraction. destruct e as [q|]; [|set_solver].
  destruct (Nat.ltb_spec 0 (list_delete_equal o q).1) as [Hlt|Hge].
  - split.
    + intros Hd. assert (p = q) as -> by set_solver.
      eexists. split; [|done]. set_solver.
    + intros (n & Hn & _). assert (p = q) as -> by set_solver. set_solver.
  - split; [set_solver|].
    intros (n & Hn & Hlt).
    assert (n = (list_delete_equal o q).1) as -> by set_solver. lia.
Qed.



Lemma to_int_id z : 0 < z ≤ 2147483647 → to_int z = z.
Proof. intros H. unfold to_int. rewrite Z.mod_small; lia. Qed.

Lemma unlocked_start_calls l wake :
  (∀ c, c ∈ l → ∃ p n, c = DeleteEqual p n ∨ c = Destroy p) →
  unlocked_calls false
    ([MutexLock] ++ l ++ [MutexUnlock] ++ (if wake : bool then [Wakeup] else []))
  = true.
Proof.
  simpl. induction l as [|c l IH]; intros Hl.
  - by destruct wake.
  - destruct (Hl c) as (p & n & [-> | ->]); [set_solver|..]; simpl;
      apply IH; intros c' Hc'; apply Hl; set_solver.
Qed.

Lemma retraction_calls e o c :
  c ∈ retraction e o → ∃ p n, c = DeleteEqual p n ∨ c = Destroy p.
Proof.
  unfold retraction. destruct e as [q|]; [|set_solver].
  destruct (0 <? _)%nat; intros Hc.
  - assert (c = DeleteEqual q (list_delete_equal o q).1 ∨ c = Destroy q) as [->| ->]
      by set_solver; [eauto|exists q, 0%nat; auto].
  - assert (c = DeleteEqual q (list_delete_equal o q).1) as -> by set_solver. eauto.
Qed.

Lemma replaced_event_calls ev old c :
  c ∈ replaced_event ev old → ∃ p n, c = DeleteEqual p n ∨ c = Destroy p.
Proof.
  unfold replaced_event. destruct ev, old; try set_solver.
  intros Hc. assert (c = Destroy e0) as -> by set_solver. exists e0, 0%nat. auto.
Qed.

(** C3: [timer_start] returns, with the timer in the heap and its elapse
    time [now + interval], and the heap in order.  For an active timer the
    heap keeps its elements and the event is replaced only by a non-null
    one; for an inactive timer [abort_elapsed] comes first, the timer is
    added to the heap and the event is left as it is.  The calls are the
    lock, those of the branch, the unlock and then, after the unlock, the
    wakeup, which is made iff the top of the heap is now earlier. *)
Theorem C3_timer_start s now t interval ev T :
  reachable s → timers s !! t = Some T →
  ev ≠ None ∨ event T ≠ None →
  0 < now + interval ≤ 2147483647 →
  ∃ s' T' wake,
    timer_start now t interval ev s = Some s' ∧
    timers s' !! t = Some T' ∧ elapses T' = now + interval ∧
    heap_invariant s' ∧ heap s' !! Z.to_nat (index T') = Some t ∧
    (if 0 <? elapses T
     then heap s' ≡ₚ heap s ∧
          event T' = (if ev is Some _ then ev else event T) ∧
          calls_since s s' =
            [MutexLock] ++ replaced_event ev (event T) ++ [MutexUnlock]
            ++ (if wake : bool then [Wakeup] else [])
     else heap s' ≡ₚ t :: heap s ∧
          event T' = event T ∧
          calls_since s s' =
            [MutexLock] ++ retraction (elapsed_event T) (output s) ++ [MutexUnlock]
            ++ (if wake : bool then [Wakeup] else [])) ∧
    (wake = true ↔ top_earlier s s') ∧
    unlocked_calls false (calls_since s s') = true.
Proof.
  intros R HT Hev Hrange. pose proof (reachable_wf s R) as W.
  assert (to_int (interval + now) = now + interval) as Hid
    by (rewrite to_int_id; lia).
  assert (∀ s' T', wf s' → timers s' !! t = Some T' → t ∈ heap s' →
            heap s' !! Z.to_nat (index T') = Some t) as Hpos.
  { intros s' T' W' HT' [i Hi]%list_elem_of_lookup.
    destruct (wf_indexed s' W' i t Hi) as (T0 & ? & Hidx). simplify_eq.
    by rewrite Hidx, Nat2Z.id. }
  destruct (Z.ltb_spec 0 (elapses T)) as [Hact|Hina].
  - destruct (timer_start_active now s t interval ev T W HT Hact Hev)
      as (s' & T' & wake & Hs & W' & HT' & HTe & Hin & Hperm & Ho & Hc & Hw);
      [lia|].
    assert (calls_since s s' =
            [MutexLock] ++ replaced_event ev (event T) ++ [MutexUnlock]
            ++ (if wake then [Wakeup] else [])) as Hcs
      by (unfold calls_since; by rewrite Hc, drop_app_length).
    exists s', T', wake. split; [done|]. split; [done|].
    split; [rewrite HTe; simpl; done|].
    split; [by apply wf_heap_invariant|]. split; [by eapply Hpos|].
    split; [split; [done|]; split; [by rewrite HTe|done]|].
    split; [done|]. rewrite Hcs.
    apply unlocked_start_calls. apply replaced_event_calls.
  - destruct (timer_start_inactive now s t interval ev T W HT Hina Hev)
      as (s' & T' & wake & Hs & W' & HT' & HTe & Hin & Hperm & Ho & Hc & Hw);
      [lia|].
    assert (calls_since s s' =
            [MutexLock] ++ retraction (elapsed_event T) (output s) ++ [MutexUnlock]
            ++ (if wake then [Wakeup] else [])) as Hcs
      by (unfold calls_since; by rewrite Hc, drop_app_length).
    exists s', T', wake. split; [done|]. split; [done|].
    split; [rewrite HTe; simpl; done|].
    split; [by apply wf_heap_invariant|]. split; [by eapply Hpos|].
    split; [split; [done|]; split; [by rewrite HTe|done]|].
    split; [done|]. rewrite Hcs.
    apply unlocked_start_calls. apply retraction_calls.
Qed.

Lemma started_timer_valid : Forall valid_time started_timer.
Proof. repeat constructor. Qed.

Lemma C3_timer_start_witness :
  reachable (state_after started_timer) ∧
  timers (state_after started_timer) !! 0%nat = Some (mkTimer 1005 None None 0) ∧
  (Some 51%nat ≠ None ∨ event (mkTimer 1005 None None 0) ≠ None) ∧
  0 < 1001 + 2 ≤ 2147483647 ∧
  ∃ s' T' wake,
    timer_start 1001 0%nat 2 (Some 51%nat) (state_after started_timer) = Some s' ∧
    timers s' !! 0%nat = Some T' ∧ elapses T' = 1001 + 2 ∧
    heap_invariant s' ∧ heap s' !! Z.to_nat (index T') = Some 0%nat ∧
    (if 0 <? elapses (mkTimer 1005 None None 0)
     then heap s' ≡ₚ heap (state_after started_timer) ∧
          event T' = (if Some 51%nat is Some _ then Some 51%nat
                      else event (mkTimer 1005 None None 0)) ∧
          calls_since (state_after started_timer) s' =
            [MutexLock] ++
            replaced_event (Some 51%nat) (event (mkTimer 1005 None None 0)) ++
            [MutexUnlock] ++ (if wake : bool then [Wakeup] else [])
     else heap s' ≡ₚ 0%nat :: heap (state_after started_timer) ∧
          event T' = event (mkTimer 1005 None None 0) ∧
          calls_since (state_after started_timer) s' =
            [MutexLock] ++
            retraction (elapsed_event (mkTimer 1005 None None 0))
                       (output (state_after started_timer)) ++
            [MutexUnlock] ++ (if wake : bool then [Wakeup] else [])) ∧
    (wake = true ↔ top_earlier (state_after started_timer) s') ∧
    unlocked_calls false (calls_since (state_after started_timer) s') = true.
Proof.
  assert (timers (state_after started_timer) !! 0%nat =
          Some (mkTimer 1005 None None 0)) as HT by (vm_compute; reflexivity).
  assert (Some 51%nat ≠ None ∨ event (mkTimer 1005 None None 0) ≠ None) as Hev
    by (left; discriminate).
  assert (0 < 1001 + 2 ≤ 2147483647) as Hrange by lia.
  split; [exact (reachable_state_after _ started_timer_valid)|].
  split; [exact HT|]. split; [exact Hev|]. split; [exact Hrange|].
  exact (C3_timer_start (state_after started_timer) 1001 0%nat 2 (Some 51%nat)
           (mkTimer 1005 None None 0)
           (reachable_state_after _ started_timer_valid) HT Hev Hrange).
Defined.

Lemma unlocked_calls_app l1 : ∀ held l2,
  unlocked_calls held (l1 ++ l2) =
  unlocked_calls held l1 && unlocked_calls (held_after held l1) l2.
Proof.
  induction l1 as [|c l1 IH]; intros held l2; [done|].
  destruct c; simpl; rewrite ?IH; try done. all: by rewrite andb_assoc.
Qed.

Lemma held_after_app l1 : ∀ held l2,
  held_after held (l1 ++ l2) = held_after (held_after held l1) l2.
Proof.
  induction l1 as [|c l1 IH]; intros held l2; [done|]. destruct c; simpl; by rewrite ?IH.
Qed.

Lemma watch_timers_spec clock : ∀ s,
  wf s →
  ∃ s' l, watch_timers clock s = Some s' ∧ wf s' ∧ calls s' = calls s ++ l ∧
    unlocked_calls false l = true ∧ held_after false l = false.
Proof.
  induction clock as [|now clock IH]; intros s W; simpl.
  { exists s, []. by rewrite app_nil_r. }
  destruct (stopping s).
  { exists s, []. by rewrite app_nil_r. }
  destruct (watch_iteration_spec now s W) as (s1 & -> & W1 & Hshape). simpl.
  assert (∃ l1, calls s1 = calls s ++ l1 ∧ unlocked_calls false l1 = true ∧
                held_after false l1 = false) as (l1 & Hc1 & Hu1 & Hh1).
  { destruct (heap s !! 0%nat) as [top|].
    - destruct (key s top <=? now).
      + destruct Hshape as (T & T' & _ & _ & _ & _ & _ & _ & Hc).
        eexists. split; [exact Hc|]. done.
      + destruct Hshape as (Hc & _). eexists. split; [exact Hc|]. done.
    - destruct Hshape as (Hc & _). eexists. split; [exact Hc|]. done. }
  destruct (IH s1 W1) as (s' & l2 & -> & W' & Hc2 & Hu2 & Hh2).
  exists s', (l1 ++ l2). split; [done|]. split; [done|].
  split; [by rewrite Hc2, Hc1, app_assoc|].
  rewrite unlocked_calls_app, held_after_app, Hu1, Hh1. by split.
Qed.

(** C4: in a turn of the watcher in which the heap is not empty and its top
    is due, the turn returns with the top timer out of the heap, a duplicate
    [p] of its event at the end of the output list and in its
    [elapsed_event], and its [elapses] -1; and in any number of turns
    every sleep is made with the mutex free. *)
Theorem C4_watcher_elapses s :
  reachable s →
  (∀ now top T,
     heap s !! 0%nat = Some top → timers s !! top = Some T → elapses T ≤ now →
     ∃ s' p, watch_iteration now s = Some s' ∧
       p = duplicate_of (event T) s ∧
       heap s ≡ₚ top :: heap s' ∧ (top ∉ heap s') ∧
       timers s' !! top = Some (mkTimer (-1) (event T) p (-1)) ∧
       output s' = output s ++ [p] ∧
       calls_since s s' =
         [MutexLock; Duplicate (event T) p; Produce top p; MutexUnlock]) ∧
  (∀ clock, ∃ s', watch_timers clock s = Some s' ∧
     unlocked_calls false (calls_since s s') = true).
Proof.
  intros R. pose proof (reachable_wf s R) as W. split.
  - intros now top T Htop HT Hdue.
    destruct (watch_iteration_spec now s W) as (s' & Hs & W' & Hshape).
    rewrite Htop in Hshape.
    assert (key s top = elapses T) as Hk by (unfold key, elapses_of; by rewrite HT).
    rewrite Hk in Hshape.
    destruct (Z.leb_spec (elapses T) now) as [_|]; [|lia].
    destruct Hshape as (T0 & T' & HT0 & HT' & Hperm & Hnin & -> & Ho & Hc).
    assert (T0 = T) as -> by congruence.
    exists s', (duplicate_of (event T) s).
    repeat (split; [done|]). unfold calls_since. by rewrite Hc, drop_app_length.
  - intros clock.
    destruct (watch_timers_spec clock s W) as (s' & l & Hs & _ & Hc & Hu & _).
    exists s'. split; [done|]. unfold calls_since. by rewrite Hc, drop_app_length.
Qed.

Lemma C4_watcher_elapses_witness :
  reachable (state_after started_timer) ∧
  heap (state_after started_timer) !! 0%nat = Some 0%nat ∧
  timers (state_after started_timer) !! 0%nat = Some (mkTimer 1005 None None 0) ∧
  elapses (mkTimer 1005 None None 0) ≤ 1005 ∧
  (∃ s' p, watch_iteration 1005 (state_after started_timer) = Some s' ∧
     p = duplicate_of (event (mkTimer 1005 None None 0)) (state_after started_timer) ∧
     heap (state_after started_timer) ≡ₚ 0%nat :: heap s' ∧ (0%nat ∉ heap s') ∧
     timers s' !! 0%nat =
       Some (mkTimer (-1) (event (mkTimer 1005 None None 0)) p (-1)) ∧
     output s' = output (state_after started_timer) ++ [p] ∧
     calls_since (state_after started_timer) s' =
       [MutexLock; Duplicate (event (mkTimer 1005 None None 0)) p;
        Produce 0%nat p; MutexUnlock]) ∧
  (∃ s', watch_timers [1003; 1005; 1006] (state_after started_timer) = Some s' ∧
     unlocked_calls false (calls_since (state_after started_timer) s') = true).
Proof.
  assert (heap (state_after started_timer) !! 0%nat = Some 0%nat) as Htop
    by (vm_compute; reflexivity).
  assert (timers (state_after started_timer) !! 0%nat =
          Some (mkTimer 1005 None None 0)) as HT by (vm_compute; reflexivity).
  assert (elapses (mkTimer 1005 None None 0) ≤ 1005) as Hdue by (simpl; lia).
  split; [exact (reachable_state_after _ started_timer_valid)|].
  split; [exact Htop|]. split; [exact HT|]. split; [exact Hdue|].
  split.
  - exact (proj1 (C4_watcher_elapses (state_after started_timer)
                    (reachable_state_after _ started_timer_valid))
                 1005 0%nat (mkTimer 1005 None None 0) Htop HT Hdue).
  - exact (proj2 (C4_watcher_elapses (state_after started_timer)
                    (reachable_state_after _ started_timer_valid))
                 [1003; 1005; 1006]).
Defined.

(** C5: in every state that the operations ([timer_create], [timer_start]
    with a positive elapse time, [timer_stop], the turns of the watcher and
    the consumer of the output list) lead to, every timer has [index >= 0]
    iff [elapses >= 0] iff it is in the heap, and a timer with an
    [elapsed_event] has [index] -1. *)
Theorem C5_timer_invariant s t T :
  reachable s → timers s !! t = Some T →
  (0 ≤ index T ↔ 0 ≤ elapses T) ∧
  (0 ≤ elapses T ↔ t ∈ heap s) ∧
  (elapsed_event T ≠ None → index T = -1).
Proof.
  intros R HT. pose proof (reachable_wf s R) as W.
  destruct (decide (t ∈ heap s)) as [Hin|Hnin].
  - destruct (wf_active s W t T HT Hin) as [Hpos HE].
    apply list_elem_of_lookup in Hin as Hin'. destruct Hin' as [i Hi].
    destruct (wf_indexed s W i t Hi) as (T0 & ? & Hidx). simplify_eq.
    split; [split; lia|]. split; [split; [done|lia]|]. by rewrite HE.
  - destruct (wf_outside s W t T HT Hnin) as [Hidx Hel].
    split; [split; lia|]. split; [split; [lia|done]|]. done.
Qed.

Lemma C5_timer_invariant_witness :
  reachable (state_after elapsed_timer) ∧
  timers (state_after elapsed_timer) !! 0%nat =
    Some (mkTimer (-1) (Some 51%nat) (Some 100%nat) (-1)) ∧
  (0 ≤ index (mkTimer (-1) (Some 51%nat) (Some 100%nat) (-1)) ↔
   0 ≤ elapses (mkTimer (-1) (Some 51%nat) (Some 100%nat) (-1))) ∧
  (0 ≤ elapses (mkTimer (-1) (Some 51%nat) (Some 100%nat) (-1)) ↔
   0%nat ∈ heap (state_after elapsed_timer)) ∧
  (elapsed_event (mkTimer (-1) (Some 51%nat) (Some 100%nat) (-1)) ≠ None →
   index (mkTimer (-1) (Some 51%nat) (Some 100%nat) (-1)) = -1).
Proof.
  assert (timers (state_after elapsed_timer) !! 0%nat =
          Some (mkTimer (-1) (Some 51%nat) (Some 100%nat) (-1))) as HT
    by (vm_compute; reflexivity).
  split; [exact (reachable_state_after _ elapsed_timer_valid)|].
  split; [exact HT|].
  exact (C5_timer_invariant (state_after elapsed_timer) 0%nat
           (mkTimer (-1) (Some 51%nat) (Some 100%nat) (-1))
           (reachable_state_after _ elapsed_timer_valid) HT).
Defined.

(** ** Further properties of the timer set *)

(** X1: the top of the heap is the first timer to elapse: no timer of the
    heap has an earlier elapse time. *)
Theorem X1_top_is_earliest s top :
  reachable s → heap s !! 0%nat = Some top →
  ∀ t, t ∈ heap s → key s top ≤ key s t.
Proof.
  intros Hr Htop t Ht. apply reachable_wf in Hr.
  apply list_elem_of_lookup in Ht as [i Hi].
  exact (ordered_top (key s) (heap s) top (wf_ordered s Hr) Htop i t Hi).
Qed.

Lemma X1_top_is_earliest_witness :
  reachable (state_after seven_timers) ∧
  heap (state_after seven_timers) !! 0%nat = Some 0%nat ∧
  ∀ t, t ∈ heap (state_after seven_timers) →
    key (state_after seven_timers) 0%nat ≤ key (state_after seven_timers) t.
Proof.
  assert (heap (state_after seven_timers) !! 0%nat = Some 0%nat) as H
    by (vm_compute; reflexivity).
  split; [exact (reachable_state_after _ seven_timers_valid)|].
  split; [exact H|].
  exact (X1_top_is_earliest (state_after seven_timers) 0%nat
           (reachable_state_after _ seven_timers_valid) H).
Defined.

Lemma timer_calls_since_app s s' l : calls s' = calls s ++ l → calls_since s s' = l.
Proof. intros H. unfold calls_since. rewrite H. apply drop_app_length. Qed.

(** X2: a turn of the watcher with no timer due changes neither the heap
    nor the timers nor the output list, and sleeps with the mutex free for
    a positive time: until the top elapses, or very long when the heap is
    empty. *)
Theorem X2_watcher_idle s now :
  reachable s →
  (∀ top, heap s !! 0%nat = Some top → now < key s top) →
  ∃ s', watch_iteration now s = Some s' ∧
    calls_since s s' =
      [MutexLock; MutexUnlock;
       Sleep (match heap s !! 0%nat with
              | Some top => key s top - now
              | None => 1000000
              end)] ∧
    0 < match heap s !! 0%nat with
        | Some top => key s top - now
        | None => 1000000
        end ∧
    heap s' = heap s ∧ timers s' = timers s ∧ output s' = output s ∧
    mutex s' = false.
Proof.
  intros Hr Hnot. apply reachable_wf in Hr.
  destruct (watch_iteration_spec now s Hr) as (s' & H & W' & Hcase).
  exists s'. split; [done|].
  destruct (heap s !! 0%nat) as [top|] eqn:Htop.
  - specialize (Hnot top eq_refl).
    destruct (Z.leb_spec (key s top) now) as [|_]; [lia|].
    destruct Hcase as (Hc & Hh & Ht & Ho).
    rewrite (timer_calls_since_app _ _ _ Hc). repeat split; try done; [lia|apply W'].
  - destruct Hcase as (Hc & Hh & Ht & Ho).
    rewrite (timer_calls_since_app _ _ _ Hc). repeat split; try done. apply W'.
Qed.

Lemma X2_watcher_idle_witness :
  reachable (state_after started_timer) ∧
  (∀ top, heap (state_after started_timer) !! 0%nat = Some top →
     1002 < key (state_after started_timer) top) ∧
  ∃ s', watch_iteration 1002 (state_after started_timer) = Some s' ∧
    calls_since (state_after started_timer) s' =
      [MutexLock; MutexUnlock;
       Sleep (match heap (state_after started_timer) !! 0%nat with
              | Some top => key (state_after started_timer) top - 1002
              | None => 1000000
              end)] ∧
    0 < match heap (state_after started_timer) !! 0%nat with
        | Some top => key (state_after started_timer) top - 1002
        | None => 1000000
        end ∧
    heap s' = heap (state_after started_timer) ∧
    timers s' = timers (state_after started_timer) ∧
    output s' = output (state_after started_timer) ∧
    mutex s' = false.
Proof.
  assert (∀ top, heap (state_after started_timer) !! 0%nat = Some top →
            1002 < key (state_after started_timer) top) as H.
  { intros top Htop. vm_compute in Htop. injection Htop as <-.
    vm_compute. reflexivity. }
  split; [exact (reachable_state_after _ started_timer_valid)|].
  split; [exact H|].
  exact (X2_watcher_idle (state_after started_timer) 1002
           (reachable_state_after _ started_timer_valid) H).
Defined.

(** [timer_stop] on a timer that is not active. *)
Lemma timer_stop_inactive s t T :
  mutex s = false → timers s !! t = Some T → elapses T ≤ 0 →
  timer_stop t s =
    Some (mkTimerset (stopping s) false (heap s)
            (<[t := with_elapsed_event None T]> (timers s))
            (match elapsed_event T with
             | None => output s
             | Some p => filter (λ x, x ≠ Some p) (output s)
             end)
            (next_event s)
            (calls s ++ [MutexLock] ++ retraction (elapsed_event T) (output s)
               ++ [MutexUnlock])).
Proof.
  intros Hm HT Hel. unfold timer_stop. rewrite HT. simpl.
  unfold lock. rewrite Hm. simpl.
  destruct (Z.ltb_spec 0 (elapses T)) as [|_]; [lia|]. simpl.
  destruct (abort_elapsed_spec (call MutexLock (set_mutex true s)) t T HT)
    as (s3 & -> & Hst & Hmu & Hh & Hn & Ht & Ho & Hc).
  simpl in *. unfold unlock. rewrite Hmu. simpl.
  unfold call, set_mutex. simpl. rewrite Hst, Hh, Hn, Ht, Ho, Hc.
  by rewrite <- !app_assoc.
Qed.

(** X3: [timer_stop] is idempotent: a second stop takes and releases the
    mutex and changes nothing. *)
Theorem X3_timer_stop_twice s t T :
  reachable s → timers s !! t = Some T →
  ∃ s1 s2, timer_stop t s = Some s1 ∧ timer_stop t s1 = Some s2 ∧
    heap s2 = heap s1 ∧ timers s2 = timers s1 ∧ output s2 = output s1 ∧
    calls_since s1 s2 = [MutexLock; MutexUnlock].
Proof.
  intros Hr HT. apply reachable_wf in Hr.
  destruct (timer_stop_spec s t T Hr HT)
    as (s1 & T1 & H1 & W1 & HT1 & He1 & Hi1 & Hee1 & _).
  exists s1. eexists. split; [done|].
  rewrite (timer_stop_inactive s1 t T1 (wf_free s1 W1) HT1) by lia.
  split; [reflexivity|]. simpl. rewrite Hee1. simpl.
  rewrite with_elapsed_event_id, insert_id by done.
  repeat split. unfold calls_since. simpl. apply drop_app_length.
Qed.

Lemma X3_timer_stop_twice_witness :
  reachable (state_after elapsed_timer) ∧
  timers (state_after elapsed_timer) !! 0%nat =
    Some (mkTimer (-1) (Some 51%nat) (Some 100%nat) (-1)) ∧
  ∃ s1 s2, timer_stop 0%nat (state_after elapsed_timer) = Some s1 ∧
    timer_stop 0%nat s1 = Some s2 ∧
    heap s2 = heap s1 ∧ timers s2 = timers s1 ∧ output s2 = output s1 ∧
    calls_since s1 s2 = [MutexLock; MutexUnlock].
Proof.
  assert (timers (state_after elapsed_timer) !! 0%nat =
          Some (mkTimer (-1) (Some 51%nat) (Some 100%nat) (-1))) as HT
    by (vm_compute; reflexivity).
  split; [exact (reachable_state_after _ elapsed_timer_valid)|].
  split; [exact HT|].
  exact (X3_timer_stop_twice (state_after elapsed_timer) 0%nat _
           (reachable_state_after _ elapsed_timer_valid) HT).
Defined.

Lemma retraction_taken_back p o : Destroy p ∈ retraction (Some p) o ↔ Some p ∈ o.
Proof.
  unfold retraction, list_delete_equal. cbn [fst].
  destruct (Nat.ltb_spec 0 (length (filter (λ x, x = Some p) o))) as [Hpos|Hz].
  - split; [intros _|intros _; rewrite !elem_of_cons; auto].
    destruct (filter (λ x, x = Some p) o) as [|x l] eqn:Hf; [simpl in Hpos; lia|].
    assert (x ∈ filter (λ x, x = Some p) o) as Hx by (rewrite Hf; left).
    by apply list_elem_of_filter in Hx as [-> ?].
  - split.
    + rewrite elem_of_cons, elem_of_nil. by intros [[=]|[]].
    + intros Hp.
      assert (Some p ∈ filter (λ x, x = Some p) o) as Hx
        by (by apply list_elem_of_filter).
      destruct (filter (λ x, x = Some p) o); [by apply elem_of_nil in Hx|].
      simpl in Hz. lia.
Qed.



(** X5: [timer_start] on a timer that is not active does not store the
    event it is given: a new timer that is started with an event has none,
    and when the watcher elapses it the item put on the output list is the
    duplicate of a null event, null. *)
Theorem X5_first_event_not_stored s now interval e :
  reachable s → 0 < to_int (interval + now) →
  ∃ s1 T1,
    timer_start now (timer_create s).1 interval (Some e) (timer_create s).2 = Some s1 ∧
    timers s1 !! (timer_create s).1 = Some T1 ∧
    event T1 = None ∧ elapses T1 = to_int (interval + now) ∧
    ∀ now', heap s1 !! 0%nat = Some (timer_create s).1 → elapses T1 ≤ now' →
      ∃ s2, watch_iteration now' s1 = Some s2 ∧
        output s2 = output s1 ++ [None] ∧
        calls_since s1 s2 =
          [MutexLock; Duplicate None None; Produce (timer_create s).1 None;
           MutexUnlock].
Proof.
  intros Hr Hv. apply reachable_wf in Hr.
  pose proof (wf_timer_create s Hr) as W0.
  set (t := (timer_create s).1) in *. set (s0 := (timer_create s).2) in *.
  assert (timers s0 !! t = Some (mkTimer (-1) None None (-1))) as HT0.
  { subst t s0. unfold timer_create. simpl. apply lookup_insert_eq. }
  destruct (timer_start_inactive now s0 t interval (Some e) _ W0 HT0)
    as (s1 & T1 & wake & H & W1 & HT1 & HTe & _); [simpl; lia|by left|done|].
  exists s1, T1. split; [done|]. split; [done|]. rewrite HTe. simpl.
  split; [done|]. split; [done|]. intros now' Htop Hdue.
  destruct (watch_iteration_spec now' s1 W1) as (s2 & H2 & W2 & Hcase).
  rewrite Htop in Hcase.
  assert (key s1 t = to_int (interval + now)) as Hk.
  { unfold key, elapses_of. rewrite HT1, HTe. done. }
  rewrite Hk in Hcase.
  destruct (Z.leb_spec (to_int (interval + now)) now') as [_|]; [|lia].
  destruct Hcase as (T & T' & HT & HT' & _ & _ & _ & Ho & Hc).
  assert (T = T1) as -> by congruence.
  rewrite HTe in Ho, Hc. simpl in Ho, Hc.
  exists s2. split; [done|]. split; [done|].
  by rewrite (timer_calls_since_app _ _ _ Hc).
Qed.

Lemma X5_first_event_not_stored_witness :
  reachable (state_after []) ∧ 0 < to_int (5 + 1000) ∧
  ∃ s1 T1,
    timer_start 1000 (timer_create (state_after [])).1 5 (Some 50%nat)
      (timer_create (state_after [])).2 = Some s1 ∧
    timers s1 !! (timer_create (state_after [])).1 = Some T1 ∧
    event T1 = None ∧ elapses T1 = to_int (5 + 1000) ∧
    ∀ now', heap s1 !! 0%nat = Some (timer_create (state_after [])).1 →
      elapses T1 ≤ now' →
      ∃ s2, watch_iteration now' s1 = Some s2 ∧
        output s2 = output s1 ++ [None] ∧
        calls_since s1 s2 =
          [MutexLock; Duplicate None None;
           Produce (timer_create (state_after [])).1 None; MutexUnlock].
Proof.
  assert (0 < to_int (5 + 1000)) as Hv by (vm_compute; reflexivity).
  split; [exact (reachable_state_after [] (Forall_nil_2 _))|].
  split; [exact Hv|].
  exact (X5_first_event_not_stored (state_after []) 1000 5 50%nat
           (reachable_state_after [] (Forall_nil_2 _)) Hv).
Defined.

(** What a turn of the watcher leaves alone: the flag [stopping] and the
    elapse times of the timers that stay in the heap. *)
Lemma watch_iteration_frame now s s' :
  wf s → watch_iteration now s = Some s' →
  stopping s' = stopping s ∧ ∀ a, a ∈ heap s' → key s' a = key s a.
Proof.
  intros W. unfold watch_iteration, lock. rewrite (wf_free s W). simpl.
  set (s_l := call MutexLock (set_mutex true s)).
  destruct (heap s !! 0%nat) as [top|] eqn:Htop.
  2: { apply lookup_ge_None in Htop.
       destruct (Nat.eqb_spec (length (heap s)) 0) as [_|]; [|lia].
       intros [= <-]. done. }
  apply lookup_lt_Some in Htop as Hlen.
  destruct (Nat.eqb_spec (length (heap s)) 0) as [|_]; [lia|].
  simpl. rewrite ?Htop. simpl.
  destruct (wf_indexed s W 0%nat top Htop) as (T & HT & HTi).
  unfold elapses_of at 1. simpl. rewrite HT. simpl.
  destruct (Z.leb_spec (elapses T) now) as [Hel|Hno]; simpl.
  2: { intros [= <-]. done. }
  assert (top ∈ heap s) as Hin by (eapply list_elem_of_lookup_2; eauto).
  destruct (wf_active s W top T HT Hin) as [Hpos HE].
  assert (hole_ok (key s) (heap s_l) 0) as Hhole
    by (apply ordered_hole, W).
  destruct (heap_delete_spec (key s) 0 s_l top (wf_indexed s W) ltac:(done) Htop Hhole)
    as (s_2 & Hdel & Hx2 & Ho2 & Hperm & P2 & Hout2 & (T2 & HT2 & HT2i)).
  change (heap s_l) with (heap s) in Hperm, Hout2.
  rewrite Hdel. simpl.
  destruct (sp_some _ _ P2 top T HT) as (T2' & HT2' & He2 & Hev2 & Hee2).
  simplify_eq.
  destruct (elapse_timer_spec s_2 top T2 HT2 ltac:(congruence))
    as (s_3 & -> & Hst3 & Hm3 & Hh3 & Ht3 & Hou3 & Hn3 & Hp3 & Hc3).
  simpl. unfold unlock. rewrite Hm3, (sp_mutex _ _ P2). simpl.
  intros [= <-]. simpl. split; [by rewrite Hst3, (sp_stopping _ _ P2)|].
  assert (NoDup (heap s)) as Hnd by exact (heap_indexed_NoDup s (wf_indexed s W)).
  assert (top ∉ heap s_2) as Hnin
    by (rewrite Hperm in Hnd; by apply NoDup_cons_1_1 in Hnd).
  intros a Ha. rewrite Hh3 in Ha.
  trans (key s_2 a); [|apply (same_payload_key s_l s_2 a P2)].
  unfold key, elapses_of. simpl. rewrite Ht3.
  rewrite lookup_insert_ne; [done|]. by intros <-.
Qed.

Lemma produced_app l1 l2 : produced (l1 ++ l2) = produced l1 ++ produced l2.
Proof. apply omap_app. Qed.

(** The turns of the watcher when no timer is due. *)
Lemma watch_timers_idle now n : ∀ s,
  wf s → stopping s = false →
  (∀ top, heap s !! 0%nat = Some top → now < key s top) →
  ∃ s' l, watch_timers (replicate n now) s = Some s' ∧
    calls s' = calls s ++ l ∧ produced l = [] ∧
    heap s' = heap s ∧ timers s' = timers s ∧ output s' = output s.
Proof.
  induction n as [|n IH]; intros s W Hst Hidle.
  { exists s, []. by rewrite app_nil_r. }
  simpl. rewrite Hst.
  destruct (watch_iteration_spec now s W) as (s1 & H1 & W1 & Hcase).
  destruct (watch_iteration_frame now s s1 W H1) as [Hst1 _].
  rewrite H1. simpl.
  assert (∃ d, calls s1 = calls s ++ [MutexLock; MutexUnlock; Sleep d] ∧
               heap s1 = heap s ∧ timers s1 = timers s ∧ output s1 = output s)
    as (d & Hc1 & Hh1 & Ht1 & Ho1).
  { destruct (heap s !! 0%nat) as [top|] eqn:Htop; [|by eexists].
    specialize (Hidle top eq_refl).
    destruct (Z.leb_spec (key s top) now) as [|_]; [lia|]. by eexists. }
  destruct (IH s1 W1) as (s' & l & H & Hc & Hp & Hh & Ht & Ho).
  { congruence. }
  { intros top Htop. rewrite Hh1 in Htop.
    unfold key, elapses_of. rewrite Ht1. by apply Hidle. }
  exists s', ([MutexLock; MutexUnlock; Sleep d] ++ l).
  split; [done|]. split; [by rewrite Hc, Hc1, <- app_assoc|].
  split; [by rewrite produced_app, Hp|]. repeat split; congruence.
Qed.

(** The turns of the watcher at one time: the due timers leave the heap
    from the earliest on. *)
Lemma watch_timers_drain now n : ∀ s,
  wf s → stopping s = false → (length (heap s) < n)%nat →
  ∃ s' l popped, watch_timers (replicate n now) s = Some s' ∧
    calls s' = calls s ++ l ∧ produced l = popped ∧
    heap s ≡ₚ popped ++ heap s' ∧
    (∀ i j a b, (i ≤ j)%nat → popped !! i = Some a → popped !! j = Some b →
       key s a ≤ key s b) ∧
    Forall (λ t, key s t ≤ now) popped ∧
    Forall (λ t, now < key s t) (heap s') ∧
    length (output s') = (length (output s) + length popped)%nat.
Proof.
  induction n as [|n IH]; intros s W Hst Hlen; [lia|].
  assert ((∀ top, heap s !! 0%nat = Some top → now < key s top) ∨
          ∃ top, heap s !! 0%nat = Some top ∧ key s top ≤ now) as [Hidle|Hdue].
  { destruct (heap s !! 0%nat) as [top|]; [|by left].
    destruct (Z.le_gt_cases (key s top) now); [right; by exists top|].
    left. intros top' [= <-]. lia. }
  { destruct (watch_timers_idle now (S n) s W Hst Hidle)
      as (s' & l & H & Hc & Hp & Hh & Ht & Ho).
    exists s', l, []. split; [done|]. split; [done|]. split; [done|].
    rewrite Hh, Ho. simpl. split; [done|].
    split; [intros i j a b _ Ha; by rewrite lookup_nil in Ha|].
    split; [constructor|]. split; [|lia].
    apply Forall_forall. intros t Ht'.
    destruct (heap s !! 0%nat) as [top|] eqn:Htop.
    - pose proof (ordered_top (key s) (heap s) top (wf_ordered s W) Htop) as Hmin.
      apply list_elem_of_lookup in Ht' as [i Hi].
      specialize (Hmin i t Hi). specialize (Hidle top eq_refl). lia.
    - apply lookup_ge_None in Htop. destruct (heap s); [|simpl in Htop; lia].
      by apply elem_of_nil in Ht'. }
  destruct Hdue as (top & Htop & Hk).
  simpl. rewrite Hst.
  destruct (watch_iteration_spec now s W) as (s1 & H1 & W1 & Hcase).
  destruct (watch_iteration_frame now s s1 W H1) as [Hst1 Hkeys].
  rewrite H1. simpl. rewrite Htop in Hcase.
  destruct (Z.leb_spec (key s top) now) as [_|]; [|lia].
  destruct Hcase as (T & T' & HT & HT' & Hperm & Hnin & _ & Ho1 & Hc1).
  destruct (IH s1 W1) as (s' & l & popped & H & Hc & Hp & Hperm' & Hsort & Hdue' & Hrest & Hout).
  { congruence. }
  { apply Permutation_length in Hperm. simpl in Hperm. lia. }
  assert (∀ a, a ∈ popped → a ∈ heap s1) as Hsub.
  { intros a Ha. rewrite Hperm'. apply elem_of_app. by left. }
  assert (∀ a, a ∈ heap s1 → key s top ≤ key s a) as Hmin.
  { intros a Ha. assert (a ∈ heap s) as Ha' by (rewrite Hperm; by right).
    apply list_elem_of_lookup in Ha' as [i Hi].
    exact (ordered_top (key s) (heap s) top (wf_ordered s W) Htop i a Hi). }
  exists s', ([MutexLock; Duplicate (event T) (duplicate_of (event T) s);
               Produce top (duplicate_of (event T) s); MutexUnlock] ++ l),
    (top :: popped).
  split; [done|]. split; [by rewrite Hc, Hc1, <- app_assoc|].
  split; [by rewrite produced_app, Hp|].
  split; [by rewrite Hperm, Hperm'|].
  split.
  { intros i j a b Hij Ha Hb. destruct i as [|i], j as [|j]; simpl in *.
    - simplify_eq. lia.
    - simplify_eq. apply Hmin, Hsub. eapply list_elem_of_lookup_2; eauto.
    - lia.
    - rewrite <- (Hkeys a), <- (Hkeys b).
      + apply (Hsort i j); [lia|done..].
      + apply Hsub. eapply list_elem_of_lookup_2; eauto.
      + apply Hsub. eapply list_elem_of_lookup_2; eauto. }
  split.
  { constructor; [done|]. apply Forall_forall. intros a Ha.
    rewrite <- (Hkeys a) by (by apply Hsub).
    by apply (proj1 (Forall_forall _ _) Hdue'). }
  split.
  { apply Forall_forall. intros a Ha.
    rewrite <- (Hkeys a) by (rewrite Hperm'; apply elem_of_app; by right).
    by apply (proj1 (Forall_forall _ _) Hrest). }
  rewrite Hout, Ho1, length_app. simpl. lia.
Qed.

(** X6: the watcher elapses the due timers in the order of their elapse
    times.  In more turns at the time [now] than the heap has timers, the
    timers leave the heap from the earliest on, one item is produced for
    each, every timer that was due has left the heap and no other has. *)
Theorem X6_watcher_elapses_in_order s now n :
  reachable s → stopping s = false → (length (heap s) < n)%nat →
  ∃ s', watch_timers (replicate n now) s = Some s' ∧
    heap s ≡ₚ produced (calls_since s s') ++ heap s' ∧
    (∀ i j a b, (i ≤ j)%nat →
       produced (calls_since s s') !! i = Some a →
       produced (calls_since s s') !! j = Some b →
       key s a ≤ key s b) ∧
    Forall (λ t, key s t ≤ now) (produced (calls_since s s')) ∧
    Forall (λ t, now < key s t) (heap s') ∧
    length (output s') =
      (length (output s) + length (produced (calls_since s s')))%nat.
Proof.
  intros Hr Hst Hlen. apply reachable_wf in Hr.
  destruct (watch_timers_drain now n s Hr Hst Hlen)
    as (s' & l & popped & H & Hc & Hp & Hrest).
  exists s'. split; [done|].
  by rewrite (timer_calls_since_app _ _ _ Hc), Hp.
Qed.

Lemma X6_watcher_elapses_in_order_witness :
  reachable (state_after seven_timers) ∧
  stopping (state_after seven_timers) = false ∧
  (length (heap (state_after seven_timers)) < 8)%nat ∧
  ∃ s', watch_timers (replicate 8 1004) (state_after seven_timers) = Some s' ∧
    heap (state_after seven_timers) ≡ₚ
      produced (calls_since (state_after seven_timers) s') ++ heap s' ∧
    (∀ i j a b, (i ≤ j)%nat →
       produced (calls_since (state_after seven_timers) s') !! i = Some a →
       produced (calls_since (state_after seven_timers) s') !! j = Some b →
       key (state_after seven_timers) a ≤ key (state_after seven_timers) b) ∧
    Forall (λ t, key (state_after seven_timers) t ≤ 1004)
      (produced (calls_since (state_after seven_timers) s')) ∧
    Forall (λ t, 1004 < key (state_after seven_timers) t) (heap s') ∧
    length (output s') =
      (length (output (state_after seven_timers)) +
       length (produced (calls_since (state_after seven_timers) s')))%nat.
Proof.
  assert (stopping (state_after seven_timers) = false) as H1
    by (vm_compute; reflexivity).
  assert (length (heap (state_after seven_timers)) < 8)%nat as H2
    by (vm_compute; lia).
  split; [exact (reachable_state_after _ seven_timers_valid)|].
  split; [exact H1|]. split; [exact H2|].
  exact (X6_watcher_elapses_in_order (state_after seven_timers) 1004 8
           (reachable_state_after _ seven_timers_valid) H1 H2).
Defined.

(** What [timer_stop] leaves alone when it takes an active timer out of
    the heap. *)
Lemma timer_stop_active s t T s' :
  wf s → timers s !! t = Some T → 0 < elapses T → timer_stop t s = Some s' →
  heap s ≡ₚ t :: heap s' ∧ stopping s' = stopping s ∧ output s' = output s ∧
  calls s' = calls s ++ [MutexLock; MutexUnlock] ∧
  (∀ a Ta, a ≠ t → timers s !! a = Some Ta →
     ∃ Ta', timers s' !! a = Some Ta' ∧ elapses Ta' = elapses Ta ∧
            event Ta' = event Ta ∧ elapsed_event Ta' = elapsed_event Ta) ∧
  (∀ a, timers s !! a = None → timers s' !! a = None).
Proof.
  intros W HT Hact. unfold timer_stop. rewrite HT. simpl.
  unfold lock. rewrite (wf_free s W). simpl.
  set (s_l := call MutexLock (set_mutex true s)).
  destruct (Z.ltb_spec 0 (elapses T)) as [_|]; [|lia].
  assert (t ∈ heap s) as Hin.
  { destruct (decide (t ∈ heap s)) as [|Hn]; [done|].
    destruct (wf_outside s W t T HT Hn). lia. }
  destruct (wf_active s W t T HT Hin) as [_ HE].
  apply list_elem_of_lookup in Hin as [i Hi].
  destruct (wf_indexed s W i t Hi) as (T0 & HT0 & Hidx). simplify_eq.
  unfold update at 1. simpl. rewrite HT. simpl.
  set (s_1 := set_timers _ s_l).
  unfold list_get. rewrite Hidx.
  destruct (Z.ltb_spec (Z.of_nat i) 0) as [|_]; [lia|].
  rewrite Nat2Z.id. simpl. rewrite Hi. simpl.
  rewrite bool_decide_eq_true_2 by done. simpl.
  assert (heap_indexed s_1) as Hx1.
  { intros m a Hm. simpl in *. destruct (decide (a = t)) as [->|].
    - rewrite lookup_insert_eq. eexists. split; [done|]. simpl.
      destruct (wf_indexed s W m t Hm) as (T1 & ? & ?). by simplify_eq.
    - rewrite lookup_insert_ne by done. by apply (wf_indexed s W). }
  assert (hole_ok (key s_1) (heap s_1) i) as Hhole.
  { eapply (ordered_hole_change _ (key s)); [apply (wf_ordered s W)| |done|].
    - exact (heap_indexed_NoDup s (wf_indexed s W)).
    - intros a Hne. unfold key, elapses_of. simpl. by rewrite lookup_insert_ne. }
  destruct (heap_delete_spec (key s_1) i s_1 t Hx1 ltac:(done) Hi Hhole)
    as (s_2 & -> & Hx2 & Ho2 & Hperm & P2 & Hout2 & (T2 & HT2 & HT2i)).
  simpl.
  destruct (sp_some _ _ P2 t (with_elapses (-1) T)) as (T2' & HT2' & He2 & Hev2 & Hee2).
  { simpl. by rewrite lookup_insert_eq. }
  simplify_eq. simpl in *.
  destruct (abort_elapsed_spec s_2 t T2 HT2)
    as (s_3 & -> & Hst3 & Hm3 & Hh3 & Hn3 & Ht3 & Hou3 & Hc3).
  rewrite Hee2, HE in *. simpl in Hc3. rewrite app_nil_r in Hc3.
  rewrite with_elapsed_event_id, insert_id in Ht3 by done.
  simpl. unfold unlock. rewrite Hm3, (sp_mutex _ _ P2). simpl.
  intros [= <-]. simpl. rewrite Hh3, Hst3, Hou3, Hc3, Ht3.
  rewrite (sp_stopping _ _ P2), (sp_output _ _ P2), (sp_calls _ _ P2). simpl.
  split; [done|]. split; [done|]. split; [done|].
  split; [by rewrite <- app_assoc|]. split.
  - intros a Ta Hne Ha. apply (sp_some _ _ P2 a Ta). simpl.
    by rewrite lookup_insert_ne.
  - intros a Ha. apply (sp_none _ _ P2 a). simpl.
    rewrite lookup_insert_ne; [done|]. intros <-. congruence.
Qed.

(** The loop of [timerset_destroy]. *)
Lemma stop_all_spec fuel : ∀ s,
  wf s → (length (heap s) ≤ fuel)%nat →
  ∃ s' l, stop_all fuel s = Some s' ∧ wf s' ∧ heap s' = [] ∧
    stopping s' = stopping s ∧ output s' = output s ∧
    calls s' = calls s ++ l ∧
    Forall (λ c, c = MutexLock ∨ c = MutexUnlock) l ∧
    (∀ a Ta, timers s !! a = Some Ta →
       ∃ Ta', timers s' !! a = Some Ta' ∧
              event Ta' = event Ta ∧ elapsed_event Ta' = elapsed_event Ta) ∧
    (∀ a, timers s !! a = None → timers s' !! a = None).
Proof.
  induction fuel as [|fuel IH]; intros s W Hlen.
  { destruct (heap s) eqn:Hh; [|simpl in Hlen; lia].
    exists s, []. simpl. rewrite Hh, app_nil_r. simpl.
    split; [done|]. split; [done|]. split; [done|]. split; [done|].
    split; [done|]. split; [done|]. split; [constructor|].
    split; [|done]. intros a Ta Ha. by exists Ta. }
  simpl. destruct (heap s) as [|top h] eqn:Hh.
  { exists s, []. simpl. rewrite app_nil_r.
    split; [done|]. split; [done|]. split; [done|]. split; [done|].
    split; [done|]. split; [done|]. split; [constructor|].
    split; [|done]. intros a Ta Ha. by exists Ta. }
  simpl. assert (heap s !! 0%nat = Some top) as Htop by (by rewrite Hh).
  assert (top ∈ heap s) as Hin by (rewrite Hh; left).
  destruct (heap_timer s top (wf_indexed s W) Hin) as [T HT].
  destruct (wf_active s W top T HT Hin) as [Hpos HE].
  destruct (timer_stop_spec s top T W HT)
    as (s1 & T1 & H1 & W1 & HT1 & He1 & Hi1 & Hee1 & Hev1 & Hnin1 & Ho1 & Hc1).
  destruct (timer_stop_active s top T s1 W HT Hpos H1)
    as (Hperm & Hst1 & _ & Hc1' & Hsome & Hnone).
  rewrite H1. simpl. rewrite HE in Ho1.
  destruct (IH s1 W1) as (s' & l & H & W' & Hh' & Hst' & Ho' & Hl & Hfl & Hkeep & Hkn).
  { apply Permutation_length in Hperm. rewrite Hh in Hperm. simpl in *. lia. }
  exists s', ([MutexLock; MutexUnlock] ++ l).
  split; [done|]. split; [done|]. split; [done|].
  split; [congruence|]. split; [congruence|].
  split; [by rewrite Hl, Hc1', <- app_assoc|].
  split; [apply Forall_cons; split; [by left|];
          apply Forall_cons; split; [by right|done]|].
  split.
  - intros a Ta Ha. destruct (decide (a = top)) as [->|Hne].
    + assert (Ta = T) as -> by congruence.
      destruct (Hkeep top T1 HT1) as (T' & HT' & Hev' & Hee').
      exists T'. split; [done|]. split; congruence.
    + destruct (Hsome a Ta Hne Ha) as (Ta1 & Ha1 & _ & Hev & Hee).
      destruct (Hkeep a Ta1 Ha1) as (T' & HT' & Hev' & Hee').
      exists T'. split; [done|]. split; congruence.
  - intros a Ha. by apply Hkn, Hnone.
Qed.

(** X7: [timerset_destroy] stops every timer of the heap: the heap is empty
    and every timer is inactive with [index] -1; it keeps the events and
    the elapse events of the timers and the output list as they are, and
    destroys nothing; it ends with the flag [stopping] set and a wakeup
    of the timer thread, made with the mutex free. *)
Theorem X7_timerset_destroy s :
  reachable s →
  ∃ s', timerset_destroy s = Some s' ∧
    heap s' = [] ∧ stopping s' = true ∧ mutex s' = false ∧
    output s' = output s ∧
    (∀ t T, timers s !! t = Some T →
       ∃ T', timers s' !! t = Some T' ∧ elapses T' = -1 ∧ index T' = -1 ∧
             event T' = event T ∧ elapsed_event T' = elapsed_event T) ∧
    (∃ l, calls_since s s' = l ++ [Wakeup] ∧
          Forall (λ c, c = MutexLock ∨ c = MutexUnlock) l).
Proof.
  intros Hr. apply reachable_wf in Hr.
  destruct (stop_all_spec (length (heap s)) s Hr ltac:(lia))
    as (s1 & l & H & W1 & Hh & Hst & Ho & Hc & Hl & Hkeep & _).
  unfold timerset_destroy. rewrite H. simpl.
  eexists. split; [done|]. simpl.
  split; [done|]. split; [done|]. split; [apply W1|]. split; [done|]. split.
  - intros t T HT. destruct (Hkeep t T HT) as (T' & HT' & Hev & Hee).
    exists T'. split; [done|].
    destruct (wf_outside s1 W1 t T' HT') as [Hi He].
    { rewrite Hh. apply not_elem_of_nil. }
    done.
  - exists l. split; [|done].
    unfold calls_since. simpl. rewrite Hc, <- app_assoc. apply drop_app_length.
Qed.

Lemma X7_timerset_destroy_witness :
  reachable (state_after seven_timers) ∧
  ∃ s', timerset_destroy (state_after seven_timers) = Some s' ∧
    heap s' = [] ∧ stopping s' = true ∧ mutex s' = false ∧
    output s' = output (state_after seven_timers) ∧
    (∀ t T, timers (state_after seven_timers) !! t = Some T →
       ∃ T', timers s' !! t = Some T' ∧ elapses T' = -1 ∧ index T' = -1 ∧
             event T' = event T ∧ elapsed_event T' = elapsed_event T) ∧
    (∃ l, calls_since (state_after seven_timers) s' = l ++ [Wakeup] ∧
          Forall (λ c, c = MutexLock ∨ c = MutexUnlock) l).
Proof.
  split; [exact (reachable_state_after _ seven_timers_valid)|].
  exact (X7_timerset_destroy (state_after seven_timers)
           (reachable_state_after _ seven_timers_valid)).
Defined.

(** Giving back the memory of a stopped timer keeps the invariant. *)
Lemma wf_delete_timer s t T l :
  wf s → timers s !! t = Some T → t ∉ heap s → elapsed_event T = None →
  (∀ t' p, Produce t' p ∉ l) →
  wf (mkTimerset (stopping s) (mutex s) (heap s) (delete t (timers s))
        (output s) (next_event s) (calls s ++ l)).
Proof.
  intros W HT Hnin HE Hl.
  assert (∀ a, a ∈ heap s → a ≠ t) as Hne by (intros a Ha ->; done).
  split; simpl.
  - apply W.
  - intros i a Hi. simpl in *. rewrite lookup_delete_ne.
    + by apply (wf_indexed s W).
    + intros <-. apply Hnin. eapply list_elem_of_lookup_2; eauto.
  - eapply ordered_ext; [|apply (wf_ordered s W)]. intros a Ha.
    unfold key, elapses_of. simpl. rewrite lookup_delete_ne; [done|].
    intros <-. by apply (Hne t).
  - intros a Ta Ha Hna. destruct (decide (a = t)) as [->|Hat].
    + by rewrite lookup_delete_eq in Ha.
    + rewrite lookup_delete_ne in Ha by done. by apply (wf_outside s W a).
  - intros a Ta Ha Hina. rewrite lookup_delete_ne in Ha by (symmetry; by apply Hne).
    by apply (wf_active s W a).
  - intros t' p Hc Hq.
    assert (Produce t' (Some p) ∈ calls s) as Hc'.
    { apply elem_of_app in Hc as [|Hc]; [done|]. by apply Hl in Hc. }
    destruct (wf_queue s W t' p Hc' Hq) as (T' & HT' & HE').
    destruct (decide (t' = t)) as [->|Hat]; [congruence|].
    exists T'. by rewrite lookup_delete_ne.
  - intros t' p Hc. apply (wf_fresh s W t' p).
    apply elem_of_app in Hc as [|Hc]; [done|]. by apply Hl in Hc.
Qed.



(** X9: the code takes a timer for active when its elapse time is
    positive.  A start whose absolute time is not positive as an [int]
    (the sum of the interval and the time wraps around, say) puts the
    timer into the heap all the same; [timer_stop] then leaves it there,
    and another [timer_start] fails on the assertion that the timer is not
    in the heap. *)
Theorem X9_nonpositive_time s now t interval ev T :
  reachable s → timers s !! t = Some T → elapses T ≤ 0 →
  ev ≠ None ∨ event T ≠ None →
  to_int (interval + now) ≤ 0 →
  ∃ s1 T1, timer_start now t interval ev s = Some s1 ∧
    timers s1 !! t = Some T1 ∧ elapses T1 = to_int (interval + now) ∧
    0 ≤ index T1 ∧ (t ∈ heap s1) ∧
    (∃ s2, timer_stop t s1 = Some s2 ∧ t ∈ heap s2) ∧
    (∀ now' interval' ev', timer_start now' t interval' ev' s1 = None).
Proof.
  intros Hr HT Hina Hev Hneg. apply reachable_wf in Hr as W.
  assert (t ∉ heap s) as Hnin.
  { intros Hin. destruct (wf_active s W t T HT Hin). lia. }
  destruct (wf_outside s W t T HT Hnin) as [Hidx Hel].
  set (e := to_int (interval + now)) in *.
  unfold timer_start at 1. rewrite HT. simpl.
  assert (bool_decide (ev ≠ None) || bool_decide (event T ≠ None) = true) as ->.
  { destruct Hev; [rewrite bool_decide_eq_true_2 by done; done|].
    rewrite (bool_decide_eq_true_2 (event T ≠ None)) by done. apply orb_true_r. }
  simpl. unfold lock. rewrite (wf_free s W). simpl.
  set (s_l := call MutexLock (set_mutex true s)).
  destruct (Z.ltb_spec 0 (elapses T)) as [|_]; [lia|].
  destruct (abort_elapsed_spec s_l t T HT)
    as (s_a & -> & Hsta & Hma & Hha & Hna & Hta & Houa & Hca).
  subst s_l. simpl in Hsta, Hma, Hha, Hna, Hta, Houa, Hca. simpl.
  erewrite update_eq by (rewrite Hta; apply lookup_insert_eq).
  simpl. fold e. rewrite lookup_insert_eq. simpl. rewrite Hidx. simpl.
  rewrite Hta, insert_insert_eq.
  set (T1 := with_elapses e (with_elapsed_event None T)).
  set (s_1 := set_timers (<[t:=T1]> (timers s)) s_a).
  assert (heap_indexed s_1) as Hx1.
  { intros m a Hm. simpl in *. rewrite Hha in Hm.
    assert (a ≠ t) by (intros ->; apply Hnin; eapply list_elem_of_lookup_2; eauto).
    rewrite lookup_insert_ne by done. by apply (wf_indexed s W). }
  assert (∀ a, a ≠ t → key s_1 a = key s a) as Hk1.
  { intros a Hne. unfold key, elapses_of. simpl. by rewrite lookup_insert_ne. }
  assert (ordered (key s_1) (heap s_1)) as Ho1.
  { simpl. rewrite Hha. eapply ordered_ext; [|apply (wf_ordered s W)].
    intros a Ha. apply Hk1. by intros ->. }
  destruct (heap_insert_spec (key s_1) t s_1 T1 Hx1) as
    (s_2 & -> & Hx2 & Ho2 & Hperm & P2 & Hout2 & Htopiff & Htopne); try done.
  { unfold key, elapses_of. simpl. by rewrite lookup_insert_eq. }
  { simpl. by rewrite lookup_insert_eq. }
  { simpl. by rewrite Hha. }
  simpl. simpl in Hperm. rewrite Hha in Hperm.
  destruct (sp_some _ _ P2 t T1) as (T2 & HT2 & He2 & Hev2 & Hee2).
  { simpl. by rewrite lookup_insert_eq. }
  simpl in He2, Hev2, Hee2. rewrite HT2. simpl.
  unfold unlock. rewrite (sp_mutex _ _ P2). simpl. rewrite Hma. simpl.
  assert (t ∈ heap s_2) as Hin2 by (rewrite Hperm; left).
  assert (0 ≤ index T2) as Hi2.
  { apply list_elem_of_lookup in Hin2 as [j Hj].
    destruct (Hx2 j t Hj) as (T3 & ? & ?). simplify_eq. lia. }
  set (s1 := if index T2 =? 0
             then call Wakeup (call MutexUnlock (set_mutex false s_2))
             else call MutexUnlock (set_mutex false s_2)).
  assert (mutex s1 = false ∧ heap s1 = heap s_2 ∧ timers s1 = timers s_2)
    as (Hm1 & Hh1 & Ht1) by (subst s1; by destruct (index T2 =? 0)).
  exists s1, T2. split; [done|]. rewrite Ht1, Hh1.
  split; [done|]. split; [done|]. split; [done|]. split; [done|]. split.
  - rewrite (timer_stop_inactive s1 t T2 Hm1 ltac:(by rewrite Ht1) ltac:(lia)).
    eexists. split; [reflexivity|]. simpl. by rewrite Hh1.
  - intros now' interval' ev'. unfold timer_start. rewrite Ht1, HT2. simpl.
    destruct (gw_assert _); [|done]. simpl.
    unfold lock. rewrite Hm1. simpl.
    destruct (Z.ltb_spec 0 (elapses T2)) as [|_]; [lia|].
    destruct (abort_elapsed_spec (call MutexLock (set_mutex true s1)) t T2)
      as (s_b & -> & _ & _ & _ & _ & Htb & _); [simpl; by rewrite Ht1|].
    simpl. erewrite update_eq by (rewrite Htb; apply lookup_insert_eq).
    simpl. rewrite lookup_insert_eq. simpl.
    destruct (Z.ltb_spec (index T2) 0) as [|_]; [lia|]. done.
Qed.

Lemma X9_nonpositive_time_witness :
  reachable (state_after wrapped_timer) ∧
  timers (state_after wrapped_timer) !! 0%nat = Some (mkTimer (-1) None None (-1)) ∧
  elapses (mkTimer (-1) None None (-1)) ≤ 0 ∧
  (Some 50%nat ≠ None ∨ event (mkTimer (-1) None None (-1)) ≠ None) ∧
  to_int (500000000 + 1700000000) ≤ 0 ∧
  ∃ s1 T1,
    timer_start 1700000000 0%nat 500000000 (Some 50%nat)
      (state_after wrapped_timer) = Some s1 ∧
    timers s1 !! 0%nat = Some T1 ∧
    elapses T1 = to_int (500000000 + 1700000000) ∧
    0 ≤ index T1 ∧ (0%nat ∈ heap s1) ∧
    (∃ s2, timer_stop 0%nat s1 = Some s2 ∧ 0%nat ∈ heap s2) ∧
    (∀ now' interval' ev', timer_start now' 0%nat interval' ev' s1 = None).
Proof.
  assert (Forall valid_time wrapped_timer) as Hv by (repeat constructor).
  assert (timers (state_after wrapped_timer) !! 0%nat =
          Some (mkTimer (-1) None None (-1))) as HT by (vm_compute; reflexivity).
  assert (elapses (mkTimer (-1) None None (-1)) ≤ 0) as H1 by (simpl; lia).
  assert (Some 50%nat ≠ None ∨ event (mkTimer (-1) None None (-1)) ≠ None) as H2
    by (left; discriminate).
  assert (to_int (500000000 + 1700000000) ≤ 0) as H3 by (vm_compute; discriminate).
  split; [exact (reachable_state_after _ Hv)|].
  split; [exact HT|]. split; [exact H1|]. split; [exact H2|]. split; [exact H3|].
  exact (X9_nonpositive_time (state_after wrapped_timer) 1700000000 0%nat 500000000
           (Some 50%nat) _ (reachable_state_after _ Hv) HT H1 H2 H3).
Defined.

End TimersProofs.

(* ===================================================================== *)
(** * Proofs about gwlib/conn.c *)
(* ===================================================================== *)

Module ConnProofs.
Import Conn.

Local Set Warnings "-clear-no-such-hyp".
Local Arguments Z.to_nat : simpl never.
Local Arguments Z.of_nat : simpl never.

(** ** The monad *)

Lemma bind_some {A B : Type} (m : M A) (k : A → M B) w b w'' :
  (m ≫= k) w = Some (b, w'') ↔
  ∃ a w', m w = Some (a, w') ∧ k a w' = Some (b, w'').
Proof.
  unfold mbind, M_bind. destruct (m w) as [[a w']|]; split.
  - intros H. by exists a, w'.
  - by intros (? & ? & [= -> ->] & ?).
  - done.
  - by intros (? & ? & ? & ?).
Qed.

(** ** What every operation keeps *)

Lemma extends_refl w : extends w w.
Proof.
  split; [done|]. exists []. rewrite !app_nil_r. done.
Qed.

Lemma extends_trans w1 w2 w3 : extends w1 w2 → extends w2 w3 → extends w1 w3.
Proof.
  intros [E1 (l1 & C1 & S1)] [E2 (l2 & C2 & S2)]. split; [auto|].
  exists (l1 ++ l2). split.
  - rewrite C2, C1. by rewrite app_assoc.
  - unfold read_data in *. rewrite flat_map_app, app_assoc.
    etrans; [exact S2|]. by apply suffix_app.
Qed.

Lemma keeps_ret {A : Type} (a : A) : keeps (mret a).
Proof. intros w a' w' [= <- <-]. apply extends_refl. Qed.

Lemma keeps_bind {A B : Type} (m : M A) (k : A → M B) :
  keeps m → (∀ a, keeps (k a)) → keeps (m ≫= k).
Proof.
  intros Hm Hk w b w'' (a & w' & H1 & H2)%bind_some.
  eapply extends_trans; [by eapply Hm | by eapply Hk].
Qed.

Lemma keeps_get : keeps get.
Proof. intros w a w' [= <- <-]. apply extends_refl. Qed.

Lemma keeps_panic {A : Type} : keeps (@panic A).
Proof. by intros w a w'. Qed.

Lemma keeps_gw_assert b : keeps (gw_assert b).
Proof. destruct b; [apply keeps_ret | apply keeps_panic]. Qed.

Lemma extends_intro w w' l :
  (read_eof (conn w) = true → read_eof (conn w') = true) →
  calls w' = calls w ++ l →
  inbuf (conn w') `suffix_of` (inbuf (conn w) ++ read_data l) →
  extends w w'.
Proof. intros. split; [done|]. by exists l. Qed.

Lemma keeps_call c : read_data [c] = [] → keeps (call c).
Proof.
  intros Hc w a w' [= <- <-]. apply (extends_intro _ _ [c]); [done..|].
  rewrite Hc, app_nil_r. done.
Qed.

Lemma keeps_modify f :
  (∀ c, read_eof c = true → read_eof (f c) = true) →
  (∀ c, inbuf (f c) `suffix_of` inbuf c) →
  keeps (modify f).
Proof.
  intros He Hi w a w' [= <- <-]. apply (extends_intro _ _ []); simpl.
  - apply He.
  - by rewrite app_nil_r.
  - rewrite app_nil_r. apply Hi.
Qed.

Lemma keeps_octstr_write_data from : keeps (octstr_write_data from).
Proof.
  intros w a w' [= <- <-].
  apply (extends_intro _ _ [SysWrite from (hd 0 (writes w))]); simpl; [done..|].
  by rewrite app_nil_r.
Qed.

Lemma keeps_gwthread_pollfd fd events seconds :
  keeps (gwthread_pollfd fd events seconds).
Proof.
  intros w a w' [= <- <-].
  eapply (extends_intro _ _ [_]); simpl; [done..|].
  by rewrite app_nil_r.
Qed.

Lemma keeps_lock_in : keeps lock_in.
Proof.
  intros w a w'. unfold lock_in, mbind, M_bind, get; simpl.
  destruct (claimed (conn w)); [intros [= <- <-]; apply extends_refl|].
  destruct (inlock w); [done|]. intros [= <- <-].
  apply (extends_intro _ _ [LockIn]); simpl; [done..|]. by rewrite app_nil_r.
Qed.

Lemma keeps_unlock_in : keeps unlock_in.
Proof.
  intros w a w'. unfold unlock_in, mbind, M_bind, get; simpl.
  destruct (claimed (conn w)); [intros [= <- <-]; apply extends_refl|].
  destruct (inlock w); [|done]. intros [= <- <-].
  apply (extends_intro _ _ [UnlockIn]); simpl; [done..|]. by rewrite app_nil_r.
Qed.

Lemma keeps_lock_out : keeps lock_out.
Proof.
  intros w a w'. unfold lock_out, mbind, M_bind, get; simpl.
  destruct (claimed (conn w)); [intros [= <- <-]; apply extends_refl|].
  destruct (outlock w); [done|]. intros [= <- <-].
  apply (extends_intro _ _ [LockOut]); simpl; [done..|]. by rewrite app_nil_r.
Qed.

Lemma keeps_unlock_out : keeps unlock_out.
Proof.
  intros w a w'. unfold unlock_out, mbind, M_bind, get; simpl.
  destruct (claimed (conn w)); [intros [= <- <-]; apply extends_refl|].
  destruct (outlock w); [|done]. intros [= <- <-].
  apply (extends_intro _ _ [UnlockOut]); simpl; [done..|]. by rewrite app_nil_r.
Qed.

(** The steps of a proof that an operation keeps [extends]: take the
    program apart along its binds and its tests. *)
Ltac keeps_step :=
  lazymatch goal with
  | |- keeps (_ ≫= _) => apply keeps_bind; [|intros ?]
  | |- keeps (mret _) => apply keeps_ret
  | |- keeps get => apply keeps_get
  | |- keeps panic => apply keeps_panic
  | |- keeps (gw_assert _) => apply keeps_gw_assert
  | |- keeps (call _) => apply keeps_call; reflexivity
  | |- keeps (modify _) => apply keeps_modify; [by intros []|by intros []]
  | |- keeps (octstr_write_data _) => apply keeps_octstr_write_data
  | |- keeps (gwthread_pollfd _ _ _) => apply keeps_gwthread_pollfd
  | |- keeps lock_in => apply keeps_lock_in
  | |- keeps unlock_in => apply keeps_unlock_in
  | |- keeps lock_out => apply keeps_lock_out
  | |- keeps unlock_out => apply keeps_unlock_out
  | |- keeps (if ?b then _ else _) => destruct b
  | |- keeps (match ?x with _ => _ end) => destruct x
  | |- keeps (let '(_, _) := ?x in _) => destruct x
  end.

Create HintDb keeps_db.

Ltac keeps_auto := repeat first [keeps_step | solve [auto with keeps_db]].

Lemma keeps_unlocked_register_pollin onoff : keeps (unlocked_register_pollin onoff).
Proof. unfold unlocked_register_pollin. keeps_auto. Qed.

Lemma keeps_unlocked_register_pollout onoff : keeps (unlocked_register_pollout onoff).
Proof. unfold unlocked_register_pollout. keeps_auto. Qed.

#[local] Hint Resolve keeps_unlocked_register_pollin keeps_unlocked_register_pollout : keeps_db.

Lemma keeps_unlocked_write : keeps unlocked_write.
Proof. unfold unlocked_write. keeps_auto. Qed.

#[local] Hint Resolve keeps_unlocked_write : keeps_db.

Lemma keeps_unlocked_try_write : keeps unlocked_try_write.
Proof. unfold unlocked_try_write. keeps_auto. Qed.

#[local] Hint Resolve keeps_unlocked_try_write : keeps_db.

Lemma octstr_delete_head o n : octstr_delete o 0 n = drop (Z.to_nat n) o.
Proof. unfold octstr_delete. by rewrite Z2Nat.inj_0, take_0. Qed.

Lemma sys_read_spec w r w1 :
  sys_read w = Some (r, w1) →
  r = next_read w ∧ conn w1 = conn w ∧ calls w1 = calls w ++ [SysRead r] ∧
  inlock w1 = inlock w ∧ outlock w1 = outlock w ∧ writes w1 = writes w ∧
  reads w1 = tl (reads w) ∧ polls w1 = polls w.
Proof. by intros [= <- <-]. Qed.

Lemma keeps_unlocked_read : keeps unlocked_read.
Proof.
  unfold unlocked_read. apply keeps_bind; [apply keeps_get|]. intros c.
  apply keeps_bind.
  { destruct (0 <? inbufpos c); [|apply keeps_ret].
    apply keeps_modify; intros []; simpl; [done|].
    rewrite octstr_delete_head. apply suffix_drop. }
  intros _ w a w' (r & w1 & H1 & H2)%bind_some.
  apply sys_read_spec in H1 as (_ & Hc & Hl & _).
  assert (bytes_of r = [] → extends w w1) as Hnone.
  { intros Hr. apply (extends_intro _ _ [SysRead r]); [by rewrite Hc|done|].
    simpl. rewrite Hr, Hc. simpl. by rewrite app_nil_r. }
  destruct r as [errno|[|b data]].
  - eapply extends_trans; [by apply Hnone|]. revert H2. generalize w1 a w'.
    change (keeps (if (errno =? EINTR) || (errno =? EAGAIN) || (errno =? EWOULDBLOCK)
                   then mret tt
                   else call LogError;; modify set_read_error;; c ← get;
                        if registered c is Some _ then unlocked_register_pollin false
                        else mret tt)).
    keeps_auto.
  - eapply extends_trans; [by apply Hnone|]. revert H2. generalize w1 a w'.
    change (keeps (modify set_read_eof;; c ← get;
                   if registered c is Some _ then unlocked_register_pollin false
                   else mret tt)).
    keeps_auto.
  - injection H2 as <- <-. apply (extends_intro _ _ [SysRead (ReadBytes (b :: data))]).
    + simpl. by rewrite Hc.
    + done.
    + simpl. rewrite Hc, app_nil_r. done.
Qed.

#[local] Hint Resolve keeps_unlocked_read : keeps_db.

Lemma keeps_unlocked_get length : keeps (unlocked_get length).
Proof. unfold unlocked_get. keeps_auto. Qed.

#[local] Hint Resolve keeps_unlocked_get : keeps_db.

Lemma keeps_flush_loop fuel : keeps (flush_loop fuel).
Proof. induction fuel; simpl; keeps_auto. Qed.

Lemma keeps_withlen_retry fuel : keeps (withlen_retry fuel).
Proof. induction fuel; simpl; keeps_auto. Qed.

#[local] Hint Resolve keeps_flush_loop keeps_withlen_retry : keeps_db.

Lemma keeps_withlen_loop turns try : keeps (withlen_loop turns try).
Proof. revert try. induction turns; intros try; simpl; keeps_auto. Qed.

Lemma keeps_packet_loop turns try startmark endmark :
  keeps (packet_loop turns try startmark endmark).
Proof. revert try. induction turns; intros try; simpl; keeps_auto. Qed.

#[local] Hint Resolve keeps_withlen_loop keeps_packet_loop : keeps_db.

Lemma keeps_run_op o : keeps (run_op o).
Proof.
  destruct o; simpl;
    unfold conn_claim, conn_outbuf_len, conn_inbuf_len, conn_eof, conn_read_error,
      conn_set_output_buffering, poll_callback, conn_register, conn_unregister,
      conn_wait, wait_polled, conn_flush, conn_write, conn_write_data, conn_write_withlen,
      conn_read_everything, conn_read_fixed, conn_read_line, conn_read_withlen,
      conn_read_packet;
    keeps_auto.
  intros w r w' H. by eapply keeps_flush_loop.
Qed.

Lemma keeps_run ops : keeps (run ops).
Proof.
  induction ops as [|o ops IH]; simpl; [apply keeps_ret|].
  apply keeps_bind; [apply keeps_run_op|done].
Qed.

(** ** Closed forms of the unlocked operations *)

Lemma bind_eq {A B : Type} (m : M A) (k : A → M B) w a w1 :
  m w = Some (a, w1) → (m ≫= k) w = k a w1.
Proof. intros H. unfold mbind, M_bind. by rewrite H. Qed.

Lemma quiet_listen_log listening onoff mask : quiet (listen_log listening onoff mask).
Proof.
  unfold listen_log, quiet.
  destruct onoff, listening; simpl; repeat (constructor; [right; eauto|]);
    constructor.
Qed.

Lemma quiet_write_log ret c : quiet (write_log ret c).
Proof.
  unfold write_log. destruct (registered _); [apply quiet_listen_log|constructor].
Qed.

Lemma quiet_pollin_off_log c : quiet (pollin_off_log c).
Proof.
  unfold pollin_off_log. destruct (registered _); [apply quiet_listen_log|constructor].
Qed.

Lemma quiet_read_log r c : quiet (read_log r c).
Proof.
  destruct r as [errno|[|b d]]; simpl; [|apply quiet_pollin_off_log|constructor].
  destruct (transient errno); [constructor|].
  constructor; [by left|apply quiet_pollin_off_log].
Qed.

Lemma quiet_io l : quiet l → io l = [].
Proof.
  induction 1 as [|c l Hc _ IH]; [done|].
  by destruct Hc as [->|(? & ? & ->)].
Qed.

Lemma quiet_warnings l : quiet l → warnings l = 0%nat.
Proof.
  induction 1 as [|c l Hc _ IH]; [done|].
  by destruct Hc as [->|(? & ? & ->)].
Qed.

Lemma quiet_polls_unlocked l rest inl outl :
  quiet l → polls_unlocked inl outl (l ++ rest) = polls_unlocked inl outl rest.
Proof.
  induction 1 as [|c l Hc _ IH]; [done|].
  simpl. by destruct Hc as [->|(? & ? & ->)].
Qed.

Lemma register_pollout_eq onoff w :
  registered (conn w) ≠ None →
  unlocked_register_pollout onoff w =
    Some (tt, mkWorld (set_listening_pollout onoff (conn w)) (inlock w) (outlock w)
                (writes w) (reads w) (polls w)
                (calls w ++ listen_log (listening_pollout (conn w)) onoff POLLOUT)).
Proof.
  intros Hr. destruct w as [c il ol ws rs ps cl]; simpl in *.
  unfold unlocked_register_pollout, listen_log, mbind, M_bind, get; simpl.
  rewrite bool_decide_true by done. simpl.
  destruct c as [? ? ? ? ? ? ? ? ? ? ? ? ? lo]; simpl.
  destruct onoff, lo; simpl; unfold set_listening_pollout; simpl;
    by rewrite ?app_nil_r.
Qed.

Lemma register_pollin_off_eq w :
  registered (conn w) ≠ None →
  unlocked_register_pollin false w =
    Some (tt, mkWorld (set_listening_pollin false (conn w)) (inlock w) (outlock w)
                (writes w) (reads w) (polls w)
                (calls w ++ listen_log (listening_pollin (conn w)) false POLLIN)).
Proof.
  intros Hr. destruct w as [c il ol ws rs ps cl]; simpl in *.
  unfold unlocked_register_pollin, listen_log, mbind, M_bind, get; simpl.
  rewrite bool_decide_true by done. simpl.
  destruct c as [? ? ? ? ? ? ? ? ? ? ? ? li ?]; simpl.
  destruct li; simpl; unfold set_listening_pollin; simpl;
    by rewrite ?app_nil_r.
Qed.

Lemma half_quot o : Z.quot (octstr_len o) 2 = octstr_len o / 2.
Proof. apply Z.quot_div_nonneg; unfold octstr_len; lia. Qed.

Lemma unlocked_write_eq w :
  unlocked_write w =
    Some (if next_write w <? 0
          then (-1, mkWorld (conn w) (inlock w) (outlock w) (tl (writes w))
                      (reads w) (polls w)
                      (calls w ++ [SysWrite (outbufpos (conn w)) (next_write w)]))
          else (next_write w,
                mkWorld (after_write (next_write w) (conn w)) (inlock w) (outlock w)
                  (tl (writes w)) (reads w) (polls w)
                  (calls w ++ SysWrite (outbufpos (conn w)) (next_write w)
                     :: write_log (next_write w) (conn w)))).
Proof.
  destruct w as [c il ol ws rs ps cl]. unfold next_write; simpl.
  unfold unlocked_write.
  rewrite (bind_eq _ _ _ _ _ eq_refl); simpl.
  rewrite (bind_eq _ _ _ _ _ eq_refl); simpl.
  destruct (hd 0 ws <? 0); [done|].
  unfold after_write, write_log, written.
  rewrite (bind_eq _ _ _ _ _ eq_refl); simpl.
  rewrite (bind_eq _ _ _ _ _ eq_refl); simpl.
  rewrite half_quot.
  destruct (octstr_len (outbuf c) / 2 <? outbufpos c + hd 0 ws); simpl.
  - rewrite (bind_eq _ _ _ _ _ eq_refl); simpl.
    rewrite (bind_eq _ _ _ _ _ eq_refl); simpl.
    rewrite octstr_delete_head.
    destruct (registered c) eqn:Hr; simpl.
    + erewrite bind_eq by (by apply register_pollout_eq; simpl; rewrite Hr).
      simpl. by rewrite <- app_assoc.
    + rewrite (bind_eq _ _ _ _ _ eq_refl); simpl. done.
  - rewrite (bind_eq _ _ _ _ _ eq_refl); simpl.
    rewrite (bind_eq _ _ _ _ _ eq_refl); simpl.
    destruct (registered c) eqn:Hr; simpl.
    + erewrite bind_eq by (by apply register_pollout_eq; simpl; rewrite Hr).
      simpl. by rewrite <- app_assoc.
    + rewrite (bind_eq _ _ _ _ _ eq_refl); simpl. done.
Qed.

Lemma unlocked_read_eq w :
  unlocked_read w =
    Some (tt, mkWorld (after_read (next_read w) (conn w)) (inlock w) (outlock w)
                (writes w) (tl (reads w)) (polls w)
                (calls w ++ SysRead (next_read w) :: read_log (next_read w) (conn w))).
Proof.
  destruct w as [c il ol ws rs ps cl]. unfold next_read; simpl.
  unfold unlocked_read.
  rewrite (bind_eq _ _ _ _ _ eq_refl); simpl.
  assert (∀ k : unit → M unit,
    ((if 0 <? inbufpos c
      then modify (λ c, set_inbuf (octstr_delete (inbuf c) 0 (inbufpos c)) 0 c)
      else mret ()) ≫= k) (mkWorld c il ol ws rs ps cl) =
    k tt (mkWorld (compacted c) il ol ws rs ps cl)) as ->.
  { intros k. unfold compacted. destruct (0 <? inbufpos c).
    - rewrite (bind_eq _ _ _ _ _ eq_refl); simpl. by rewrite octstr_delete_head.
    - by rewrite (bind_eq _ _ _ _ _ eq_refl). }
  rewrite (bind_eq _ _ _ _ _ eq_refl); simpl.
  assert (registered (compacted c) = registered c ∧
          listening_pollin (compacted c) = listening_pollin c) as [Hr Hl].
  { unfold compacted. by destruct (0 <? inbufpos c). }
  unfold after_read, read_log, pollin_off, pollin_off_log.
  destruct (hd (ReadError EAGAIN) rs) as [errno|[|b data]]; simpl.
  - fold (transient errno). destruct (transient errno); [done|].
    rewrite (bind_eq _ _ _ _ _ eq_refl); simpl.
    rewrite (bind_eq _ _ _ _ _ eq_refl); simpl.
    rewrite (bind_eq _ _ _ _ _ eq_refl); simpl.
    rewrite Hr. destruct (registered c) eqn:Hc.
    + rewrite register_pollin_off_eq
        by (change (registered (compacted c) ≠ None); by rewrite Hr).
      simpl. by rewrite Hl, <- !app_assoc.
    + by rewrite <- app_assoc.
  - rewrite (bind_eq _ _ _ _ _ eq_refl); simpl.
    rewrite (bind_eq _ _ _ _ _ eq_refl); simpl.
    rewrite Hr. destruct (registered c) eqn:Hc.
    + rewrite register_pollin_off_eq
        by (change (registered (compacted c) ≠ None); by rewrite Hr).
      simpl. by rewrite Hl, <- !app_assoc.
    + done.
  - done.
Qed.

Lemma unlocked_get_eq length w :
  length ≤ unlocked_inbuf_len (conn w) →
  unlocked_get length w =
    Some (octstr_copy (inbuf (conn w)) (inbufpos (conn w)) length,
          mkWorld (set_inbuf (inbuf (conn w)) (inbufpos (conn w) + length) (conn w))
            (inlock w) (outlock w) (writes w) (reads w) (polls w) (calls w)).
Proof.
  intros H. unfold unlocked_get.
  rewrite (bind_eq _ _ _ _ _ eq_refl); simpl.
  replace (length <=? _) with true by (symmetry; by apply Z.leb_le). simpl.
  by rewrite (bind_eq _ _ _ _ _ eq_refl).
Qed.

Lemma lock_in_eq w :
  inlock w = false →
  lock_in w = Some (tt, mkWorld (conn w) (negb (claimed (conn w))) (outlock w)
                          (writes w) (reads w) (polls w)
                          (calls w ++ lock_log (conn w) LockIn)).
Proof.
  destruct w as [c il ol ws rs ps cl]; simpl. intros ->.
  unfold lock_in, lock_log. rewrite (bind_eq _ _ _ _ _ eq_refl); simpl.
  destruct (claimed c); simpl; by rewrite ?app_nil_r.
Qed.

Lemma unlock_in_eq w :
  inlock w = negb (claimed (conn w)) →
  unlock_in w = Some (tt, mkWorld (conn w) false (outlock w)
                            (writes w) (reads w) (polls w)
                            (calls w ++ lock_log (conn w) UnlockIn)).
Proof.
  destruct w as [c il ol ws rs ps cl]; simpl. intros ->.
  unfold unlock_in, lock_log. rewrite (bind_eq _ _ _ _ _ eq_refl); simpl.
  destruct (claimed c); simpl; by rewrite ?app_nil_r.
Qed.

Lemma lock_out_eq w :
  outlock w = false →
  lock_out w = Some (tt, mkWorld (conn w) (inlock w) (negb (claimed (conn w)))
                           (writes w) (reads w) (polls w)
                           (calls w ++ lock_log (conn w) LockOut)).
Proof.
  destruct w as [c il ol ws rs ps cl]; simpl. intros ->.
  unfold lock_out, lock_log. rewrite (bind_eq _ _ _ _ _ eq_refl); simpl.
  destruct (claimed c); simpl; by rewrite ?app_nil_r.
Qed.

Lemma unlock_out_eq w :
  outlock w = negb (claimed (conn w)) →
  unlock_out w = Some (tt, mkWorld (conn w) (inlock w) false
                             (writes w) (reads w) (polls w)
                             (calls w ++ lock_log (conn w) UnlockOut)).
Proof.
  destruct w as [c il ol ws rs ps cl]; simpl. intros ->.
  unfold unlock_out, lock_log. rewrite (bind_eq _ _ _ _ _ eq_refl); simpl.
  destruct (claimed c); simpl; by rewrite ?app_nil_r.
Qed.

Lemma unlock_out_eq_ret {A : Type} (a : A) w :
  outlock w = negb (claimed (conn w)) →
  (unlock_out;; mret a) w =
    Some (a, mkWorld (conn w) (inlock w) false
               (writes w) (reads w) (polls w)
               (calls w ++ lock_log (conn w) UnlockOut)).
Proof.
  intros H. by rewrite (bind_eq _ _ _ _ _ (unlock_out_eq w H)).
Qed.

(** ** The connection after a read *)

Lemma compacted_unread c : unread (compacted c) = unread c.
Proof.
  unfold compacted, unread. destruct (0 <? inbufpos c); [|done]. by simpl.
Qed.

Lemma compacted_inbufpos c : 0 ≤ inbufpos c → inbufpos (compacted c) = 0.
Proof.
  unfold compacted. intros H. destruct (0 <? inbufpos c) eqn:E; [done|].
  apply Z.ltb_ge in E. lia.
Qed.

Lemma compacted_inbuf c : 0 ≤ inbufpos c → inbuf (compacted c) = unread c.
Proof.
  unfold compacted, unread. intros H. destruct (0 <? inbufpos c) eqn:E; [done|].
  apply Z.ltb_ge in E. by replace (inbufpos c) with 0 by lia.
Qed.

Lemma pollin_off_in c :
  inbuf (pollin_off c) = inbuf c ∧ inbufpos (pollin_off c) = inbufpos c ∧
  claimed (pollin_off c) = claimed c.
Proof. unfold pollin_off. by destruct (registered c). Qed.

Lemma after_read_inbuf r c :
  0 ≤ inbufpos c →
  inbuf (after_read r c) = unread c ++ bytes_of r ∧ inbufpos (after_read r c) = 0.
Proof.
  intros H. pose proof (compacted_inbuf c H) as Hi.
  pose proof (compacted_inbufpos c H) as Hp.
  unfold after_read. destruct r as [errno|[|b data]]; simpl.
  - rewrite app_nil_r. destruct (transient errno); [done|].
    by destruct (pollin_off_in (set_read_error (compacted c))) as (-> & -> & _).
  - rewrite app_nil_r.
    by destruct (pollin_off_in (set_read_eof (compacted c))) as (-> & -> & _).
  - by rewrite Hi.
Qed.

Lemma after_read_claimed r c : claimed (after_read r c) = claimed c.
Proof.
  assert (claimed (compacted c) = claimed c) as Hc.
  { unfold compacted. by destruct (0 <? inbufpos c). }
  unfold after_read. destruct r as [errno|[|b data]]; simpl; [| |done].
  - destruct (transient errno); [done|].
    by destruct (pollin_off_in (set_read_error (compacted c))) as (_ & _ & ->).
  - by destruct (pollin_off_in (set_read_eof (compacted c))) as (_ & _ & ->).
Qed.

Lemma after_read_unread r c :
  0 ≤ inbufpos c → unread (after_read r c) = unread c ++ bytes_of r.
Proof.
  intros H. destruct (after_read_inbuf r c H) as [Hi Hp].
  unfold unread at 1. by rewrite Hi, Hp.
Qed.

Lemma after_read_inbuf_len r c :
  0 ≤ inbufpos c →
  unlocked_inbuf_len (after_read r c) = octstr_len (unread c ++ bytes_of r).
Proof.
  intros H. destruct (after_read_inbuf r c H) as [Hi Hp].
  unfold unlocked_inbuf_len. rewrite Hi, Hp. lia.
Qed.

Lemma unread_len c : inbuf_ok c → octstr_len (unread c) = unlocked_inbuf_len c.
Proof.
  unfold inbuf_ok, unread, unlocked_inbuf_len, octstr_len. intros H.
  rewrite length_drop. lia.
Qed.

Lemma calls_since_app w w' l : calls w' = calls w ++ l → calls_since w w' = l.
Proof. intros H. unfold calls_since. rewrite H. apply drop_app_length. Qed.

Lemma io_app l1 l2 : io (l1 ++ l2) = io l1 ++ io l2.
Proof. apply omap_app. Qed.

Lemma io_cons c l : io (c :: l) = io [c] ++ io l.
Proof. apply (io_app [c]). Qed.

Lemma io_lock_log c e :
  e = LockIn ∨ e = UnlockIn ∨ e = LockOut ∨ e = UnlockOut → io (lock_log c e) = [].
Proof. unfold lock_log. destruct (claimed c); [done|]. by intros [->|[->|[->| ->]]]. Qed.

Local Arguments unlocked_read : simpl never.
Local Arguments unlocked_write : simpl never.
Local Arguments unlocked_get : simpl never.
Local Arguments lock_in : simpl never.
Local Arguments unlock_in : simpl never.
Local Arguments lock_out : simpl never.
Local Arguments unlock_out : simpl never.
Local Arguments after_read : simpl never.
Local Arguments after_write : simpl never.
Local Arguments read_log : simpl never.
Local Arguments write_log : simpl never.
Local Arguments unread : simpl never.
Local Arguments lock_log : simpl never.
Local Arguments unlocked_inbuf_len : simpl never.
Local Arguments unlocked_outbuf_len : simpl never.

(** The closed form of [conn_read_fixed]. *)
Lemma conn_read_fixed_eq n w :
  inlock w = false → 0 ≤ inbufpos (conn w) →
  conn_read_fixed n w =
    if unlocked_inbuf_len (conn w) <? n then
      let c1 := after_read (next_read w) (conn w) in
      let l := lock_log (conn w) LockIn ++
               SysRead (next_read w) :: read_log (next_read w) (conn w) in
      if octstr_len (unread (conn w) ++ bytes_of (next_read w)) <? n then
        Some (None, mkWorld c1 false (outlock w) (writes w) (tl (reads w)) (polls w)
                      (calls w ++ l ++ lock_log (conn w) UnlockIn))
      else
        Some (Some (take (Z.to_nat n) (unread (conn w) ++ bytes_of (next_read w))),
              mkWorld (set_inbuf (inbuf c1) n c1) false (outlock w) (writes w)
                (tl (reads w)) (polls w)
                (calls w ++ l ++ lock_log (conn w) UnlockIn))
    else
      Some (Some (take (Z.to_nat n) (unread (conn w))),
            mkWorld (set_inbuf (inbuf (conn w)) (inbufpos (conn w) + n) (conn w))
              false (outlock w) (writes w) (reads w) (polls w)
              (calls w ++ lock_log (conn w) LockIn ++ lock_log (conn w) UnlockIn)).
Proof.
  intros Hl Hp. unfold conn_read_fixed.
  rewrite (bind_eq _ _ _ _ _ (lock_in_eq w Hl)).
  rewrite (bind_eq _ _ _ _ _ eq_refl); simpl.
  destruct (unlocked_inbuf_len (conn w) <? n) eqn:E1.
  - rewrite (bind_eq _ _ _ _ _ (bind_eq _ _ _ _ _ (unlocked_read_eq _))).
    unfold next_read; simpl. fold (next_read w).
    rewrite after_read_inbuf_len by done.
    destruct (octstr_len (unread (conn w) ++ bytes_of (next_read w)) <? n) eqn:E2.
    + erewrite bind_eq by (by apply unlock_in_eq; simpl; rewrite after_read_claimed).
      simpl. unfold lock_log. rewrite after_read_claimed. by rewrite <- !app_assoc.
    + apply Z.ltb_ge in E2.
      erewrite bind_eq
        by (by apply unlocked_get_eq; simpl; rewrite after_read_inbuf_len).
      simpl.
      erewrite bind_eq by (by apply unlock_in_eq; simpl; rewrite after_read_claimed).
      simpl. destruct (after_read_inbuf (next_read w) (conn w) Hp) as [Hi Hz].
      unfold lock_log. simpl. rewrite after_read_claimed, <- !app_assoc, Hz, Hi. simpl.
      unfold octstr_copy. by rewrite Z2Nat.inj_0, drop_0.
  - rewrite (bind_eq _ _ _ _ _ eq_refl). apply Z.ltb_ge in E1.
    erewrite bind_eq by (by apply unlocked_get_eq). simpl.
    erewrite bind_eq by (by apply unlock_in_eq).
    simpl. by rewrite <- !app_assoc.
Qed.

Lemma after_write_spec ret c :
  let pos := outbufpos c + ret in
  (octstr_len (outbuf c) / 2 < pos →
     outbuf (after_write ret c) = drop (Z.to_nat pos) (outbuf c) ∧
     outbufpos (after_write ret c) = 0) ∧
  (pos ≤ octstr_len (outbuf c) / 2 →
     outbuf (after_write ret c) = outbuf c ∧ outbufpos (after_write ret c) = pos) ∧
  (registered c ≠ None →
     listening_pollout (after_write ret c) =
       (0 <? unlocked_outbuf_len (after_write ret c))) ∧
  (registered c = None →
     listening_pollout (after_write ret c) = listening_pollout c) ∧
  registered (after_write ret c) = registered c ∧
  claimed (after_write ret c) = claimed c ∧
  fd (after_write ret c) = fd c ∧
  read_eof (after_write ret c) = read_eof c ∧
  read_error (after_write ret c) = read_error c ∧
  inbuf (after_write ret c) = inbuf c ∧
  inbufpos (after_write ret c) = inbufpos c ∧
  output_buffering (after_write ret c) = output_buffering c.
Proof.
  unfold after_write, written, unlocked_outbuf_len.
  destruct (octstr_len (outbuf c) / 2 <? outbufpos c + ret) eqn:E;
    [apply Z.ltb_lt in E | apply Z.ltb_ge in E];
    (destruct c as [? ? ? ? ? ? ? ? ? [r|] ? ? ? ?]; simpl in *;
     repeat split; intros; try done; try lia).
Qed.

Lemma unlocked_write_fail w :
  next_write w < 0 →
  unlocked_write w =
    Some (-1, mkWorld (conn w) (inlock w) (outlock w) (tl (writes w))
                (reads w) (polls w)
                (calls w ++ [SysWrite (outbufpos (conn w)) (next_write w)])).
Proof.
  intros H. rewrite unlocked_write_eq.
  by replace (next_write w <? 0) with true by (symmetry; by apply Z.ltb_lt).
Qed.

Lemma unlocked_write_ok w :
  0 ≤ next_write w →
  unlocked_write w =
    Some (next_write w,
          mkWorld (after_write (next_write w) (conn w)) (inlock w) (outlock w)
            (tl (writes w)) (reads w) (polls w)
            (calls w ++ SysWrite (outbufpos (conn w)) (next_write w)
               :: write_log (next_write w) (conn w))).
Proof.
  intros H. rewrite unlocked_write_eq.
  by replace (next_write w <? 0) with false by (symmetry; by apply Z.ltb_ge).
Qed.

Lemma after_write_claimed ret c : claimed (after_write ret c) = claimed c.
Proof. by destruct (after_write_spec ret c) as (_ & _ & _ & _ & _ & Hc & _). Qed.

(** ** C6: the write without blocking *)

(** C6, as stated, fails: on a registered connection with a byte to send
    and no output buffering, a write that fails leaves the interest in
    POLLOUT off although the byte is still pending; [conn_write] after
    [conn_register] gets there. *)
Lemma C6_failed_write_counterexample :
  conn_write [x61] registered_world =
    (ret ← unlocked_try_write; unlock_out;; mret ret) pending_byte ∧
  registered (conn pending_byte) = Some 0%nat ∧
  unlocked_outbuf_len (conn pending_byte) = 1 ∧
  output_buffering (conn pending_byte) = 0 ∧
  (∃ w', unlocked_try_write pending_byte = Some (-1, w') ∧
         listening_pollout (conn w') = false ∧
         unlocked_outbuf_len (conn w') = 1) ∧
  ¬ try_write_updates_pollout.
Proof.
  assert (∃ w', unlocked_try_write pending_byte = Some (-1, w') ∧
                listening_pollout (conn w') = false ∧
                unlocked_outbuf_len (conn w') = 1) as H.
  { eexists. split; [vm_compute; reflexivity|]. split; reflexivity. }
  split; [reflexivity|]. do 3 (split; [reflexivity|]). split; [exact H|].
  intros Hclaim. destruct H as (w' & H & Hl & Hp).
  specialize (Hclaim pending_byte (-1) w').
  rewrite Hl, Hp in Hclaim. discriminate Hclaim; done.
Qed.

(** C6, amended: the write without blocking, with the failure of the
    write.  With [pending = len(outbuf) - outbufpos], [unlocked_try_write]
    returns 0 when [pending] is zero and 1 without a write when
    [pending < output_buffering], both without any change; otherwise it
    makes one write.  If the write fails it returns -1 and the connection
    is as before.  Otherwise [outbufpos] moves on by the bytes written,
    the buffer is compacted exactly when [outbufpos > len(outbuf) / 2], a
    registered connection listens for POLLOUT iff bytes are pending, and
    the result is 1 if bytes are pending, else 0. *)
Theorem C6_try_write w :
  ∃ r w', unlocked_try_write w = Some (r, w') ∧
    (unlocked_outbuf_len (conn w) = 0 → r = 0 ∧ w' = w) ∧
    (unlocked_outbuf_len (conn w) ≠ 0 →
     unlocked_outbuf_len (conn w) < output_buffering (conn w) → r = 1 ∧ w' = w) ∧
    (unlocked_outbuf_len (conn w) ≠ 0 →
     output_buffering (conn w) ≤ unlocked_outbuf_len (conn w) →
     io (calls_since w w') = [IoWrite] ∧
     (next_write w < 0 → r = -1 ∧ conn w' = conn w) ∧
     (0 ≤ next_write w →
      (octstr_len (outbuf (conn w)) / 2 < outbufpos (conn w) + next_write w →
         outbuf (conn w') =
           drop (Z.to_nat (outbufpos (conn w) + next_write w)) (outbuf (conn w)) ∧
         outbufpos (conn w') = 0) ∧
      (outbufpos (conn w) + next_write w ≤ octstr_len (outbuf (conn w)) / 2 →
         outbuf (conn w') = outbuf (conn w) ∧
         outbufpos (conn w') = outbufpos (conn w) + next_write w) ∧
      (registered (conn w) ≠ None →
         listening_pollout (conn w') = (0 <? unlocked_outbuf_len (conn w'))) ∧
      (registered (conn w) = None →
         listening_pollout (conn w') = listening_pollout (conn w)) ∧
      r = if 0 <? unlocked_outbuf_len (conn w') then 1 else 0)).
Proof.
  unfold unlocked_try_write. rewrite (bind_eq _ _ _ _ _ eq_refl).
  destruct (unlocked_outbuf_len (conn w) =? 0) eqn:E0.
  { apply Z.eqb_eq in E0. exists 0, w. split; [done|]. repeat split; intros; lia. }
  apply Z.eqb_neq in E0.
  destruct (unlocked_outbuf_len (conn w) <? output_buffering (conn w)) eqn:E1.
  { apply Z.ltb_lt in E1. exists 1, w. split; [done|]. repeat split; intros; lia. }
  apply Z.ltb_ge in E1.
  destruct (next_write w <? 0) eqn:E2.
  - apply Z.ltb_lt in E2. rewrite (bind_eq _ _ _ _ _ (unlocked_write_fail w E2)).
    eexists _, _. split; [reflexivity|].
    split; [intros; lia|]. split; [intros; lia|]. intros _ _.
    split; [by erewrite calls_since_app by reflexivity|].
    split; [done|]. intros; lia.
  - apply Z.ltb_ge in E2. rewrite (bind_eq _ _ _ _ _ (unlocked_write_ok w E2)).
    replace (next_write w <? 0) with false by (symmetry; by apply Z.ltb_ge).
    rewrite (bind_eq _ _ _ _ _ eq_refl). simpl.
    exists (if 0 <? unlocked_outbuf_len (after_write (next_write w) (conn w))
            then 1 else 0).
    eexists. split; [by destruct (0 <? unlocked_outbuf_len _)|].
    split; [intros; lia|]. split; [intros; lia|]. intros _ _.
    split.
    { erewrite calls_since_app by reflexivity. rewrite io_cons.
      by rewrite (quiet_io _ (quiet_write_log _ _)). }
    split; [intros; lia|]. intros _. simpl.
    destruct (after_write_spec (next_write w) (conn w))
      as (H1 & H2 & H3 & H4 & _).
    done.
Qed.

(** ** C9: the input buffer after the end of the file *)

(** C9, as stated, fails: [unlocked_read] does not look at [read_eof], so
    a byte that the descriptor delivers after the end of the file was seen
    is appended to [inbuf]. *)
Lemma C9_append_after_eof_counterexample :
  read_eof (conn (world_after [OpReadEverything] eof_then_data)) = true ∧
  inbuf (conn (world_after [OpReadEverything] eof_then_data)) = [] ∧
  run [OpReadEverything] (world_after [OpReadEverything] eof_then_data) =
    Some (tt, world_after [OpReadEverything; OpReadEverything] eof_then_data) ∧
  inbuf (conn (world_after [OpReadEverything; OpReadEverything] eof_then_data)) =
    [x78] ∧
  ¬ no_append_after_eof.
Proof.
  do 4 (split; [vm_compute; reflexivity|]).
  intros H.
  specialize (H (world_after [OpReadEverything] eof_then_data) [OpReadEverything]
                (world_after [OpReadEverything; OpReadEverything] eof_then_data)).
  assert ([x78] `suffix_of` @nil byte) as [k Hk].
  { apply H; vm_compute; reflexivity. }
  by destruct k.
Qed.

(** C9, amended: once [read_eof] has been set it stays set, and every
    byte that a later operation appends to [inbuf] is a byte that a call
    of [read] made since has returned (the code goes on reading after the
    end of the file): [inbuf] is a suffix of the old [inbuf] followed by
    those bytes, so that nothing is appended when no later [read] returns
    data. *)
Theorem C9_eof_sticky_reads_append w ops w' :
  read_eof (conn w) = true →
  run ops w = Some (tt, w') →
  read_eof (conn w') = true ∧
  inbuf (conn w') `suffix_of` (inbuf (conn w) ++ read_data (calls_since w w')) ∧
  (read_data (calls_since w w') = [] → inbuf (conn w') `suffix_of` inbuf (conn w)).
Proof.
  intros He Hrun. destruct (keeps_run ops w tt w' Hrun) as [E (l & Hl & Hs)].
  rewrite (calls_since_app _ _ _ Hl). split; [auto|]. split; [done|].
  intros Hd. by rewrite Hd, app_nil_r in Hs.
Qed.

Lemma C9_eof_sticky_reads_append_witness :
  read_eof (conn (world_after [OpReadEverything; OpReadEverything] eof_then_data)) =
    true ∧
  inbuf (conn (world_after [OpReadEverything; OpReadEverything] eof_then_data))
    `suffix_of`
    (inbuf (conn (world_after [OpReadEverything] eof_then_data)) ++
     read_data (calls_since (world_after [OpReadEverything] eof_then_data)
                  (world_after [OpReadEverything; OpReadEverything] eof_then_data))) ∧
  (read_data (calls_since (world_after [OpReadEverything] eof_then_data)
                (world_after [OpReadEverything; OpReadEverything] eof_then_data)) = [] →
   inbuf (conn (world_after [OpReadEverything; OpReadEverything] eof_then_data))
     `suffix_of` inbuf (conn (world_after [OpReadEverything] eof_then_data))).
Proof.
  assert (read_eof (conn (world_after [OpReadEverything] eof_then_data)) = true)
    as H1 by (vm_compute; reflexivity).
  assert (run [OpReadEverything] (world_after [OpReadEverything] eof_then_data) =
          Some (tt, world_after [OpReadEverything; OpReadEverything] eof_then_data))
    as H2 by (vm_compute; reflexivity).
  exact (C9_eof_sticky_reads_append _ _ _ H1 H2).
Defined.

(** ** C10: a short [conn_read_fixed] *)

(** C10: when [conn_read_fixed] returns null it has made its one read, and
    the unread bytes are those of before followed by what the read
    brought, still fewer than [n]; a later call with the same [n] returns
    them, the first [n] of them and of what its own read brings. *)
Theorem C10_read_fixed_null n w w' :
  inlock w = false →
  0 ≤ inbufpos (conn w) →
  conn_read_fixed n w = Some (None, w') →
  io (calls_since w w') = [IoRead] ∧
  unread (conn w') = unread (conn w) ++ bytes_of (next_read w) ∧
  octstr_len (unread (conn w')) < n ∧
  ∀ w2, conn w2 = conn w' → inlock w2 = false →
    n ≤ octstr_len (unread (conn w') ++ bytes_of (next_read w2)) →
    ∃ w3, conn_read_fixed n w2 =
      Some (Some (take (Z.to_nat n)
                    (unread (conn w) ++ bytes_of (next_read w) ++
                     bytes_of (next_read w2))), w3).
Proof.
  intros Hl Hp H. rewrite conn_read_fixed_eq in H by done.
  destruct (unlocked_inbuf_len (conn w) <? n) eqn:E1; [|done].
  simpl in H.
  destruct (octstr_len (unread (conn w) ++ bytes_of (next_read w)) <? n) eqn:E2;
    [|done].
  injection H as <-. simpl. apply Z.ltb_lt in E2.
  destruct (after_read_inbuf (next_read w) (conn w) Hp) as [Hi Hz].
  rewrite (after_read_unread _ _ Hp).
  split.
  { erewrite calls_since_app by reflexivity.
    rewrite !io_app, !io_lock_log by auto. rewrite io_cons.
    by rewrite (quiet_io _ (quiet_read_log _ _)). }
  split; [done|]. split; [done|].
  intros w2 Hc Hl2 Hn. simpl in Hc.
  assert (0 ≤ inbufpos (conn w2)) as Hp2 by (rewrite Hc, Hz; lia).
  assert (unread (conn w2) = unread (conn w) ++ bytes_of (next_read w)) as Hu.
  { rewrite Hc. by apply after_read_unread. }
  rewrite conn_read_fixed_eq by done.
  replace (unlocked_inbuf_len (conn w2) <? n) with true; simpl.
  - rewrite Hu, <- app_assoc.
    replace (octstr_len _ <? n) with false; [by eexists|].
    symmetry. apply Z.ltb_ge. by rewrite app_assoc.
  - symmetry. apply Z.ltb_lt. rewrite Hc.
    unfold unlocked_inbuf_len. rewrite Hi, Hz. lia.
Qed.

Lemma C10_read_fixed_null_witness :
  io (calls_since short_read (world_after [OpReadFixed 3] short_read)) = [IoRead] ∧
  unread (conn (world_after [OpReadFixed 3] short_read)) =
    unread (conn short_read) ++ bytes_of (next_read short_read) ∧
  octstr_len (unread (conn (world_after [OpReadFixed 3] short_read))) < 3 ∧
  ∀ w2, conn w2 = conn (world_after [OpReadFixed 3] short_read) →
    inlock w2 = false →
    3 ≤ octstr_len (unread (conn (world_after [OpReadFixed 3] short_read)) ++
                    bytes_of (next_read w2)) →
    ∃ w3, conn_read_fixed 3 w2 =
      Some (Some (take (Z.to_nat 3)
                    (unread (conn short_read) ++ bytes_of (next_read short_read) ++
                     bytes_of (next_read w2))), w3).
Proof.
  assert (inlock short_read = false) as H1 by reflexivity.
  assert (0 ≤ inbufpos (conn short_read)) as H2 by (vm_compute; discriminate).
  assert (conn_read_fixed 3 short_read =
          Some (None, world_after [OpReadFixed 3] short_read))
    as H3 by (vm_compute; reflexivity).
  exact (C10_read_fixed_null 3 _ _ H1 H2 H3).
Defined.

(** ** C8: [conn_wait] *)

Lemma polls_unlocked_io l :
  (∀ fd events seconds, IoPoll fd events seconds ∉ io l) →
  ∀ inl outl, polls_unlocked inl outl l = true.
Proof.
  induction l as [|c l IH]; intros H inl outl; [done|].
  rewrite io_cons in H.
  assert (∀ inl outl, polls_unlocked inl outl l = true) as IH'.
  { apply IH. intros f e s Hin. apply (H f e s). apply elem_of_app. by right. }
  destruct c; simpl; try apply IH'.
  exfalso. eapply H. apply elem_of_app. left. simpl. by constructor.
Qed.

Lemma after_poll_no_poll ret errno fd events seconds :
  IoPoll fd events seconds ∉ (after_poll ret errno).2.
Proof.
  unfold after_poll.
  repeat (match goal with |- context [if ?b then _ else _] => destruct b end);
    simpl; rewrite ?elem_of_cons, ?elem_of_nil; naive_solver.
Qed.

(** A read and a write under their locks. *)
Lemma bind_assoc3 {A B C D : Type} (m1 : M A) (m2 : M B) (m3 : M C) (k : M D) w :
  (m1;; m2;; m3;; k) w = ((m1;; m2;; m3) ≫= λ _, k) w.
Proof.
  unfold mbind, M_bind. destruct (m1 w) as [[? w1]|]; [|done].
  by destruct (m2 w1) as [[? w2]|].
Qed.

Lemma locked_read_eq w :
  inlock w = false →
  (lock_in;; unlocked_read;; unlock_in) w =
    Some (tt, mkWorld (after_read (next_read w) (conn w)) false (outlock w)
                (writes w) (tl (reads w)) (polls w)
                (calls w ++ lock_log (conn w) LockIn ++
                   SysRead (next_read w) :: read_log (next_read w) (conn w) ++
                   lock_log (conn w) UnlockIn)).
Proof.
  intros Hl. rewrite (bind_eq _ _ _ _ _ (lock_in_eq w Hl)).
  rewrite (bind_eq _ _ _ _ _ (unlocked_read_eq _)).
  rewrite unlock_in_eq by (by simpl; rewrite after_read_claimed).
  unfold next_read, lock_log. simpl. rewrite after_read_claimed.
  by rewrite <- !app_assoc.
Qed.

Lemma locked_write_eq w :
  outlock w = false →
  ∃ c l,
    (lock_out;; unlocked_write;; unlock_out) w =
      Some (tt, mkWorld c (inlock w) false (tl (writes w)) (reads w) (polls w)
                  (calls w ++ l)) ∧
    io l = [IoWrite] ∧ polls_unlocked false false l = true ∧
    claimed c = claimed (conn w).
Proof.
  intros Hl. rewrite (bind_eq _ _ _ _ _ (lock_out_eq w Hl)).
  destruct (Z.lt_ge_cases (next_write w) 0) as [E|E].
  - erewrite bind_eq by (by apply unlocked_write_fail).
    rewrite unlock_out_eq by done.
    simpl. eexists _, _. split; [by rewrite <- !app_assoc|].
    unfold lock_log. by destruct (claimed (conn w)).
  - erewrite bind_eq by (by apply unlocked_write_ok).
    rewrite unlock_out_eq by (by simpl; rewrite after_write_claimed).
    simpl. eexists _, _. split; [by rewrite <- !app_assoc|].
    split; [|split; [|apply after_write_claimed]].
    + rewrite !io_app, io_cons, !io_lock_log by auto.
      by rewrite (quiet_io _ (quiet_write_log _ _)).
    + unfold lock_log. rewrite after_write_claimed.
      destruct (claimed (conn w)); simpl;
        by rewrite quiet_polls_unlocked by apply quiet_write_log.
Qed.

Lemma io_read_section r c :
  io (lock_log c LockIn ++ SysRead r :: read_log r c ++ lock_log c UnlockIn) =
    [IoRead].
Proof.
  rewrite io_app, io_cons, io_app, !io_lock_log by auto.
  by rewrite (quiet_io _ (quiet_read_log _ _)).
Qed.

Lemma wait_polled_spec ret errno w :
  at_rest w →
  ∃ w' tail,
    wait_polled ret errno w = Some ((after_poll ret errno).1, w') ∧
    calls w' = calls w ++ tail ∧ io tail = (after_poll ret errno).2.
Proof.
  intros [Hi Ho]. unfold wait_polled, after_poll.
  destruct (ret <? 0).
  { destruct (errno =? EINTR).
    - exists w, []. by rewrite app_nil_r.
    - by eexists _, [LogError]. }
  destruct (ret =? 0).
  { exists w, []. by rewrite app_nil_r. }
  destruct (has_events ret POLLNVAL).
  { by eexists _, [LogError]. }
  destruct (has_events ret (Z.lor POLLERR POLLHUP)).
  { rewrite bind_assoc3. rewrite (bind_eq _ _ _ _ _ (locked_read_eq w Hi)).
    eexists _, _. split; [reflexivity|]. split; [reflexivity|].
    apply io_read_section. }
  assert (∃ w1 l1,
    (if has_events ret POLLOUT then lock_out;; unlocked_write;; unlock_out
     else mret ()) w = Some (tt, w1) ∧
    calls w1 = calls w ++ l1 ∧
    io l1 = (if has_events ret POLLOUT then [IoWrite] else []) ∧
    inlock w1 = false) as (w1 & l1 & H1 & Hc1 & Hio1 & Hi1).
  { destruct (has_events ret POLLOUT).
    - destruct (locked_write_eq w Ho) as (c & l & H & Hio & _).
      eexists _, l. split; [exact H|]. by simpl.
    - exists w, []. by rewrite app_nil_r. }
  rewrite (bind_eq _ _ _ _ _ H1).
  destruct (has_events ret POLLIN).
  - rewrite (bind_eq _ _ _ _ _ (locked_read_eq w1 Hi1)).
    eexists _, _. split; [reflexivity|]. simpl. rewrite Hc1, <- app_assoc.
    split; [reflexivity|]. by rewrite io_app, io_read_section, Hio1.
  - rewrite (bind_eq _ _ _ _ _ eq_refl).
    exists w1, l1. split; [done|]. split; [done|]. by rewrite app_nil_r.
Qed.

Lemma after_write_none c :
  outbuf_ok c → unlocked_outbuf_len (after_write 0 c) = unlocked_outbuf_len c.
Proof.
  intros [H1 H2]. unfold unlocked_outbuf_len.
  destruct (after_write_spec 0 c) as (Ha & Hb & _).
  destruct (Z.lt_ge_cases (octstr_len (outbuf c) / 2) (outbufpos c + 0)) as [E|E].
  - destruct (Ha E) as [-> ->]. unfold octstr_len in *. rewrite length_drop. lia.
  - destruct (Hb E) as [-> ->]. lia.
Qed.

Lemma wait_mask_events c :
  has_events (wait_mask c) POLLOUT = (0 <? unlocked_outbuf_len c) ∧
  has_events (wait_mask c) POLLIN =
    (negb (read_eof c) && negb (read_error c)) || negb (0 <? unlocked_outbuf_len c).
Proof.
  unfold wait_mask.
  by destruct (0 <? unlocked_outbuf_len c), (read_eof c), (read_error c).
Qed.

Lemma lock_log_after_write ret c e : lock_log (after_write ret c) e = lock_log c e.
Proof. unfold lock_log. by rewrite after_write_claimed. Qed.

Lemma wait_mask_code c :
  (if (negb (read_eof c) && negb (read_error c))
      || ((if 0 <? unlocked_outbuf_len c then POLLOUT else 0) =? 0)
   then Z.lor (if 0 <? unlocked_outbuf_len c then POLLOUT else 0) POLLIN
   else if 0 <? unlocked_outbuf_len c then POLLOUT else 0) = wait_mask c.
Proof.
  unfold wait_mask.
  by destruct (0 <? unlocked_outbuf_len c), (read_eof c), (read_error c).
Qed.

(** The closed form of [conn_wait] when the write sends nothing. *)
Lemma conn_wait_poll seconds w :
  at_rest w → outbuf_ok (conn w) → next_write w = 0 →
  ∃ w' tail,
    conn_wait seconds w = Some ((after_poll (next_poll w).1 (next_poll w).2).1, w') ∧
    calls w' = calls w ++
      (lock_log (conn w) LockOut ++
       SysWrite (outbufpos (conn w)) 0 :: write_log 0 (conn w) ++
       lock_log (conn w) UnlockOut ++
       lock_log (conn w) LockIn ++ lock_log (conn w) UnlockIn ++
       Poll (fd (conn w)) (wait_mask (conn w)) seconds
         (next_poll w).1 (next_poll w).2 :: tail) ∧
    io tail = (after_poll (next_poll w).1 (next_poll w).2).2.
Proof.
  intros [Hi Ho] Hok Hw. unfold conn_wait.
  rewrite (bind_eq _ _ _ _ _ (lock_out_eq w Ho)).
  erewrite bind_eq by (apply unlocked_write_ok; unfold next_write in *; simpl; lia).
  unfold next_write in *; simpl. rewrite Hw. simpl.
  rewrite (bind_eq _ _ _ _ _ eq_refl). simpl.
  destruct (after_write_spec 0 (conn w))
    as (_ & _ & _ & _ & _ & Hcl & Hfd & Heof & Herr & _).
  erewrite bind_eq by (by apply unlock_out_eq; simpl; rewrite Hcl).
  erewrite bind_eq by (by apply lock_in_eq).
  simpl. rewrite (bind_eq _ _ _ _ _ eq_refl). simpl.
  erewrite bind_eq by (by apply unlock_in_eq; simpl; rewrite Hcl).
  simpl. rewrite (bind_eq _ _ _ _ _ eq_refl). simpl.
  unfold next_poll. destruct (hd (0, 0) (polls w)) as [ret errno] eqn:Hp. simpl.
  match goal with |- context [wait_polled ret errno ?W] =>
    destruct (wait_polled_spec ret errno W) as (w' & tail & H & Hc & Hio);
      [by split|]
  end.
  exists w', tail. split; [exact H|]. split; [|exact Hio].
  rewrite Hc. simpl. rewrite !lock_log_after_write, Hfd.
  rewrite (wait_mask_code (after_write 0 (conn w))).
  unfold wait_mask. rewrite Heof, Herr, (after_write_none _ Hok).
  by rewrite <- !app_assoc.
Qed.

(** C8, as stated, fails: when the first write fails, [conn_wait] returns
    -1 and does not poll. *)
Lemma C8_failed_write_counterexample :
  (∃ w', conn_wait 5 (fresh_world [-1] [] []) = Some (-1, w') ∧
         io (calls_since (fresh_world [-1] [] []) w') = [IoWrite]) ∧
  ¬ wait_polls_unless_progress.
Proof.
  assert (∃ w', conn_wait 5 (fresh_world [-1] [] []) = Some (-1, w') ∧
                io (calls_since (fresh_world [-1] [] []) w') = [IoWrite])
    as H.
  { eexists. split; [vm_compute; reflexivity|]. vm_compute. reflexivity. }
  split; [exact H|]. destruct H as (w' & H & Hio). intros Hclaim.
  specialize (Hclaim 5 (fresh_world [-1] [] []) (-1) w' (conj eq_refl eq_refl) H).
  simpl in Hclaim. destruct Hclaim as [events Hin]. rewrite Hio in Hin.
  apply elem_of_cons in Hin as [[=]|Hin]. by apply elem_of_nil in Hin.
Qed.

(** C8, amended: [conn_wait] with the failures.  It first attempts a
    write under the out lock; it returns -1 without a poll if the write
    fails and 0 without a poll if it made progress.  Otherwise it polls,
    with no lock held, for POLLOUT iff unsent bytes remain and for POLLIN
    iff neither the end of the file nor a read error has been seen, or
    there is nothing to write.  It returns 1 on a timeout, 0 on EINTR, -1
    on another failure of the poll, -1 on POLLNVAL, -1 after a read on
    POLLERR or POLLHUP, and otherwise 0 after the write for POLLOUT and
    the read for POLLIN ([after_poll]). *)
Theorem C8_conn_wait seconds w :
  at_rest w →
  outbuf_ok (conn w) →
  ∃ r w', conn_wait seconds w = Some (r, w') ∧
    polls_unlocked false false (calls_since w w') = true ∧
    has_events (wait_mask (conn w)) POLLOUT = (0 <? unlocked_outbuf_len (conn w)) ∧
    has_events (wait_mask (conn w)) POLLIN =
      (negb (read_eof (conn w)) && negb (read_error (conn w)))
      || (unlocked_outbuf_len (conn w) =? 0) ∧
    (next_write w < 0 → r = -1 ∧ io (calls_since w w') = [IoWrite]) ∧
    (0 < next_write w → r = 0 ∧ io (calls_since w w') = [IoWrite]) ∧
    (next_write w = 0 →
       r = (after_poll (next_poll w).1 (next_poll w).2).1 ∧
       io (calls_since w w') =
         IoWrite :: IoPoll (fd (conn w)) (wait_mask (conn w)) seconds
           :: (after_poll (next_poll w).1 (next_poll w).2).2).
Proof.
  intros Hrest Hok.
  assert (has_events (wait_mask (conn w)) POLLOUT = (0 <? unlocked_outbuf_len (conn w)) ∧
          has_events (wait_mask (conn w)) POLLIN =
            (negb (read_eof (conn w)) && negb (read_error (conn w)))
            || (unlocked_outbuf_len (conn w) =? 0)) as [Hm1 Hm2].
  { destruct (wait_mask_events (conn w)) as [-> ->]. split; [done|]. f_equal.
    unfold unlocked_outbuf_len. destruct Hok as [_ Hok].
    destruct (Z.ltb_spec 0 (octstr_len (outbuf (conn w)) - outbufpos (conn w)));
      simpl; symmetry; [apply Z.eqb_neq | apply Z.eqb_eq]; lia. }
  destruct (Z.lt_trichotomy (next_write w) 0) as [E|[E|E]].
  - (* the write fails *)
    destruct Hrest as [Hi Ho]. unfold conn_wait.
    rewrite (bind_eq _ _ _ _ _ (lock_out_eq w Ho)).
    erewrite bind_eq by (by apply unlocked_write_fail).
    simpl. rewrite unlock_out_eq_ret by done.
    eexists _, _. split; [reflexivity|]. simpl.
    erewrite calls_since_app by (by rewrite <- !app_assoc).
    split; [unfold lock_log; by destruct (claimed (conn w))|].
    split; [done|]. split; [done|].
    split; [|split; intros; lia]. intros _. split; [done|].
    by rewrite !io_app, !io_lock_log by auto.
  - (* the write sends nothing: poll *)
    destruct (conn_wait_poll seconds w Hrest Hok E) as (w' & tail & H & Hc & Hio).
    eexists _, w'. split; [exact H|].
    rewrite (calls_since_app _ _ _ Hc).
    assert (polls_unlocked false false tail = true) as Htail.
    { apply polls_unlocked_io. intros f e s. rewrite Hio.
      apply after_poll_no_poll. }
    split.
    { unfold lock_log. destruct (claimed (conn w)); simpl;
        rewrite quiet_polls_unlocked by apply quiet_write_log;
        simpl; exact Htail. }
    split; [done|]. split; [done|].
    split; [intros; lia|]. split; [intros; lia|]. intros _. split; [done|].
    rewrite !io_app, io_cons, !io_app, !io_lock_log by auto.
    rewrite (quiet_io _ (quiet_write_log _ _)). simpl.
    by rewrite Hio.
  - (* the write makes progress *)
    destruct Hrest as [Hi Ho]. unfold conn_wait.
    rewrite (bind_eq _ _ _ _ _ (lock_out_eq w Ho)).
    erewrite bind_eq by (apply unlocked_write_ok; unfold next_write in *; simpl; lia).
    unfold next_write in *; simpl.
    replace (hd 0 (writes w) <? 0) with false by (symmetry; apply Z.ltb_ge; lia).
    replace (0 <? hd 0 (writes w)) with true by (symmetry; apply Z.ltb_lt; lia).
    rewrite unlock_out_eq_ret by (by simpl; rewrite after_write_claimed).
    eexists _, _. split; [reflexivity|]. simpl.
    erewrite calls_since_app by (by rewrite <- !app_assoc).
    rewrite lock_log_after_write.
    split.
    { unfold lock_log. destruct (claimed (conn w)); simpl;
        rewrite quiet_polls_unlocked by apply quiet_write_log; done. }
    split; [done|]. split; [done|].
    split; [intros; lia|]. split; [|intros; lia]. intros _. split; [done|].
    rewrite !io_app, io_cons, !io_lock_log by auto.
    by rewrite (quiet_io _ (quiet_write_log _ _)).
Qed.

(** ** C7: frames with a length prefix *)

Lemma skip_negative_spec bytes :
  ∃ skipped,
    bytes = skipped ++ (skip_negative bytes).1 ∧
    length skipped = (4 * (skip_negative bytes).2)%nat.
Proof.
  assert (∀ n bytes, (length bytes ≤ n)%nat →
    ∃ skipped, bytes = skipped ++ (skip_negative bytes).1 ∧
               length skipped = (4 * (skip_negative bytes).2)%nat) as H.
  { clear bytes. induction n as [|n IH]; intros bytes Hn.
    - destruct bytes; [|simpl in Hn; lia]. by exists [].
    - destruct bytes as [|a [|b [|c [|d rest]]]]; try by exists [].
      simpl. destruct (decode_network_long [a; b; c; d] <? 0); [|by exists []].
      destruct (IH rest) as (sk & Hs & Hl); [simpl in Hn; lia|].
      destruct (skip_negative rest) as [r k]. simpl in *.
      exists (a :: b :: c :: d :: sk). split; [by rewrite Hs at 1|].
      simpl. lia. }
  by apply (H (length bytes)).
Qed.

Lemma take_frame_spec bytes f rest :
  take_frame bytes = Some (f, rest) →
  bytes = take 4 bytes ++ f ++ rest ∧ length (take 4 bytes) = 4%nat ∧
  decode_network_long (take 4 bytes) = octstr_len f.
Proof.
  unfold take_frame, octstr_len.
  destruct (Z.ltb_spec (Z.of_nat (length bytes)) 4) as [|H4]; [done|].
  destruct (Z.ltb_spec (decode_network_long (take 4 bytes)) 0) as [|H0]; [done|].
  destruct (Z.ltb_spec (Z.of_nat (length bytes) - 4)
              (decode_network_long (take 4 bytes))) as [|Hn]; [done|].
  intros H.
  assert (f = take (Z.to_nat (decode_network_long (take 4 bytes))) (drop 4 bytes) ∧
          rest = drop (Z.to_nat (decode_network_long (take 4 bytes))) (drop 4 bytes))
    as [-> ->].
  { injection H as <- <-. split; [done|]. by rewrite drop_drop. }
  clear H. split; [|split].
  - by rewrite !take_drop.
  - rewrite length_take. lia.
  - rewrite length_take, length_drop. lia.
Qed.

Lemma retry_world_id w pos : pos = inbufpos (conn w) → retry_world w pos 0 = w.
Proof.
  intros ->. destruct w as [c il ol ws rs ps cl]. destruct c.
  unfold retry_world, set_inbuf. simpl. by rewrite app_nil_r.
Qed.

Lemma unread_advance c n :
  0 ≤ inbufpos c → 0 ≤ n →
  unread (set_inbuf (inbuf c) (inbufpos c + n) c) = drop (Z.to_nat n) (unread c).
Proof.
  intros Hp Hn. unfold unread. simpl. rewrite drop_drop. f_equal. lia.
Qed.

Lemma skip_negative_short u : (length u < 4)%nat → skip_negative u = (u, 0%nat).
Proof.
  destruct u as [|a [|b [|c [|d rest]]]]; intros H; try reflexivity.
  simpl in H. lia.
Qed.

Lemma skip_negative_step u :
  (4 ≤ length u)%nat →
  skip_negative u =
    if decode_network_long (take 4 u) <? 0
    then ((skip_negative (drop 4 u)).1, S (skip_negative (drop 4 u)).2)
    else (u, 0%nat).
Proof.
  destruct u as [|a [|b [|c [|d rest]]]]; simpl; try lia. intros _.
  rewrite take_0, drop_0.
  destruct (decode_network_long [a; b; c; d] <? 0); [|done].
  by destruct (skip_negative rest).
Qed.

Lemma withlen_retry_eq fuel w :
  inbuf_ok (conn w) → (length (unread (conn w)) ≤ fuel)%nat →
  withlen_retry fuel w =
    Some (let rest := (skip_negative (unread (conn w))).1 in
          let k := (skip_negative (unread (conn w))).2 in
          let pos := inbufpos (conn w) + 4 * Z.of_nat k in
          match take_frame rest with
          | Some (f, _) =>
              (Some f,
               retry_world w (pos + 4 + decode_network_long (take 4 rest)) k)
          | None => (None, retry_world w pos k)
          end).
Proof.
  revert w. induction fuel as [|fuel IH]; intros w Hok Hlen.
  - assert (unread (conn w) = []) as Hu by (destruct (unread (conn w)); [done|simpl in Hlen; lia]).
    pose proof (unread_len _ Hok) as Hl. rewrite Hu in Hl.
    simpl. rewrite (bind_eq _ _ _ _ _ eq_refl).
    replace (unlocked_inbuf_len (conn w) <? 4) with true
      by (symmetry; apply Z.ltb_lt; unfold octstr_len in Hl; simpl in Hl; lia).
    rewrite Hu. simpl. by rewrite retry_world_id by lia.
  - pose proof (unread_len _ Hok) as Hl. unfold octstr_len in Hl.
    simpl. rewrite (bind_eq _ _ _ _ _ eq_refl).
    destruct (Z.ltb_spec (unlocked_inbuf_len (conn w)) 4) as [H4|H4].
    { rewrite skip_negative_short by lia. simpl.
      unfold take_frame, octstr_len.
      replace (Z.of_nat (length (unread (conn w))) <? 4) with true
        by (symmetry; apply Z.ltb_lt; lia).
      by rewrite retry_world_id by lia. }
    rewrite skip_negative_step by lia.
    change (octstr_copy (inbuf (conn w)) (inbufpos (conn w)) 4)
      with (take 4 (unread (conn w))).
    destruct (Z.ltb_spec (decode_network_long (take 4 (unread (conn w)))) 0)
      as [Hneg|Hpos].
    + rewrite (bind_eq _ _ _ _ _ eq_refl). rewrite (bind_eq _ _ _ _ _ eq_refl).
      assert (unread (set_inbuf (inbuf (conn w)) (inbufpos (conn w) + 4) (conn w))
              = drop 4 (unread (conn w))) as Hu.
      { destruct Hok. by rewrite unread_advance by lia. }
      rewrite IH; simpl.
      * rewrite Hu. simpl.
        destruct (take_frame (skip_negative (drop 4 (unread (conn w)))).1)
          as [[f r]|]; do 2 f_equal; unfold retry_world; simpl;
          rewrite <- app_assoc; f_equal; unfold set_inbuf; simpl; f_equal; lia.
      * destruct Hok. unfold inbuf_ok. simpl.
        unfold unlocked_inbuf_len, octstr_len in *. lia.
      * rewrite Hu, length_drop. lia.
    + simpl. unfold take_frame at 1. unfold octstr_len at 1 2.
      replace (Z.of_nat (length (unread (conn w))) <? 4) with false
        by (symmetry; apply Z.ltb_ge; lia).
      replace (decode_network_long (take 4 (unread (conn w))) <? 0) with false
        by (symmetry; apply Z.ltb_ge; lia).
      rewrite Hl.
      destruct (unlocked_inbuf_len (conn w) - 4 <?
                decode_network_long (take 4 (unread (conn w)))) eqn:E.
      * by rewrite retry_world_id by lia.
      * apply Z.ltb_ge in E.
        rewrite (bind_eq _ _ _ _ _ eq_refl).
        erewrite bind_eq
          by (apply unlocked_get_eq; unfold unlocked_inbuf_len in *; simpl; lia).
        simpl. unfold retry_world, octstr_copy. simpl. rewrite app_nil_r.
        unfold mret, M_ret. do 2 f_equal.
        { do 2 f_equal. unfold unread. rewrite drop_drop. f_equal.
          destruct Hok. lia. }
        f_equal. unfold set_inbuf. simpl. f_equal. lia.
Qed.

Lemma warnings_app l1 l2 : warnings (l1 ++ l2) = (warnings l1 + warnings l2)%nat.
Proof. unfold warnings. by rewrite List.filter_app, length_app. Qed.

Lemma warnings_replicate k : warnings (replicate k LogWarning) = k.
Proof. unfold warnings. induction k as [|k IH]; simpl; [done|]. by rewrite IH. Qed.

Lemma io_replicate k : io (replicate k LogWarning) = [].
Proof. by induction k. Qed.

Lemma warnings_lock_log c e :
  e = LockIn ∨ e = UnlockIn ∨ e = LockOut ∨ e = UnlockOut →
  warnings (lock_log c e) = 0%nat.
Proof. unfold lock_log. destruct (claimed c); [done|]. by intros [->|[->|[->| ->]]]. Qed.

Lemma warnings_read_section r c :
  warnings (SysRead r :: read_log r c) = 0%nat.
Proof.
  change (warnings (read_log r c) = 0%nat). apply quiet_warnings, quiet_read_log.
Qed.

(** The world that [withlen_retry] leaves. *)
Lemma retry_world_skipped w :
  inbuf_ok (conn w) →
  let rest := (skip_negative (unread (conn w))).1 in
  let k := (skip_negative (unread (conn w))).2 in
  inbuf_ok (conn (retry_world w (inbufpos (conn w) + 4 * Z.of_nat k) k)) ∧
  unread (conn (retry_world w (inbufpos (conn w) + 4 * Z.of_nat k) k)) = rest.
Proof.
  intros Hok. simpl.
  destruct (skip_negative_spec (unread (conn w))) as (sk & Hu & Hl).
  pose proof (unread_len _ Hok) as Hlen. destruct Hok as [Hp Hq].
  set (k := (skip_negative (unread (conn w))).2) in *.
  set (rest := (skip_negative (unread (conn w))).1) in *.
  assert (Z.of_nat (length sk) + Z.of_nat (length rest) =
          unlocked_inbuf_len (conn w)) as Hsum.
  { rewrite <- Hlen, Hu. unfold octstr_len. rewrite length_app. lia. }
  unfold unlocked_inbuf_len in Hsum.
  split.
  - unfold inbuf_ok. simpl. lia.
  - rewrite (unread_advance (conn w) (4 * Z.of_nat k)) by lia.
    rewrite Hu. replace (Z.to_nat (4 * Z.of_nat k)) with (length sk) by lia.
    by rewrite drop_app_length.
Qed.

Lemma retry_world_frame w f rest' :
  inbuf_ok (conn w) →
  let rest := (skip_negative (unread (conn w))).1 in
  let k := (skip_negative (unread (conn w))).2 in
  take_frame rest = Some (f, rest') →
  unread (conn (retry_world w (inbufpos (conn w) + 4 * Z.of_nat k + 4 +
                               decode_network_long (take 4 rest)) k)) = rest'.
Proof.
  intros Hok. simpl. intros Hf.
  destruct (retry_world_skipped w Hok) as [Hok1 Hu1]. simpl in Hok1, Hu1.
  destruct (take_frame_spec _ _ _ Hf) as (Hr & H4 & Hd).
  set (k := (skip_negative (unread (conn w))).2) in *.
  set (rest := (skip_negative (unread (conn w))).1) in *.
  set (c1 := set_inbuf (inbuf (conn w)) (inbufpos (conn w) + 4 * Z.of_nat k) (conn w))
    in *.
  change (unread (set_inbuf (inbuf c1)
                    (inbufpos (conn w) + 4 * Z.of_nat k + 4 +
                     decode_network_long (take 4 rest)) c1) = rest').
  replace (inbufpos (conn w) + 4 * Z.of_nat k + 4 + decode_network_long (take 4 rest))
    with (inbufpos c1 + (4 + octstr_len f)) by (rewrite Hd; subst c1; simpl; lia).
  destruct Hok1 as [Hp _].
  rewrite unread_advance by (unfold octstr_len; lia).
  rewrite Hu1, Hr at 1. unfold octstr_len.
  replace (Z.to_nat (4 + Z.of_nat (length f)))
    with (length (take 4 rest ++ f)) by (rewrite length_app; lia).
  by rewrite app_assoc, drop_app_length.
Qed.

Lemma bind_eq_pair {A B : Type} (m : M A) (k : A → M B) w p :
  m w = Some p → (m ≫= k) w = k p.1 p.2.
Proof. intros H. unfold mbind, M_bind. rewrite H. by destruct p. Qed.

Lemma unlock_in_eq_ret {A : Type} (a : A) w :
  inlock w = negb (claimed (conn w)) →
  (unlock_in;; mret a) w =
    Some (a, mkWorld (conn w) false (outlock w)
               (writes w) (reads w) (polls w)
               (calls w ++ lock_log (conn w) UnlockIn)).
Proof.
  intros H. by rewrite (bind_eq _ _ _ _ _ (unlock_in_eq w H)).
Qed.

(** One turn of the loop of [conn_read_withlen] from [retry] on. *)
Lemma withlen_pass {B : Type} (k : option Octstr → M B) w :
  inbuf_ok (conn w) →
  (c ← get; result ← withlen_retry (length (inbuf c)); k result) w =
    let rest := (skip_negative (unread (conn w))).1 in
    let n := (skip_negative (unread (conn w))).2 in
    let pos := inbufpos (conn w) + 4 * Z.of_nat n in
    match take_frame rest with
    | Some (f, _) =>
        k (Some f) (retry_world w (pos + 4 + decode_network_long (take 4 rest)) n)
    | None => k None (retry_world w pos n)
    end.
Proof.
  intros Hok. rewrite (bind_eq _ _ _ _ _ eq_refl).
  erewrite bind_eq_pair
    by (apply withlen_retry_eq; [done|unfold unread; rewrite length_drop; lia]).
  simpl. by destruct (take_frame _) as [[f r]|].
Qed.

Lemma withlen_loop_spec w :
  inbuf_ok (conn w) →
  ∃ w' l,
    withlen_loop 3 1 w =
      Some (fr_frame (spec_read_withlen (unread (conn w)) (next_read w)), w') ∧
    unread (conn w') = fr_rest (spec_read_withlen (unread (conn w)) (next_read w)) ∧
    calls w' = calls w ++ l ∧
    warnings l = fr_skipped (spec_read_withlen (unread (conn w)) (next_read w)) ∧
    io l = (if fr_read (spec_read_withlen (unread (conn w)) (next_read w))
            then [IoRead] else []) ∧
    inlock w' = inlock w ∧ claimed (conn w') = claimed (conn w).
Proof.
  intros Hok. simpl. rewrite (bind_eq _ _ _ _ _ eq_refl).
  rewrite withlen_pass by done. simpl.
  destruct (retry_world_skipped w Hok) as [Hok2 Hu2]. simpl in Hok2, Hu2.
  pose proof (retry_world_frame w) as Hfr. simpl in Hfr.
  unfold spec_read_withlen.
  destruct (skip_negative (unread (conn w))) as [rest1 k1]. simpl in *.
  destruct (take_frame rest1) as [[f r']|] eqn:Hf; simpl.
  { eexists _, (replicate k1 LogWarning). split; [reflexivity|].
    split; [by eapply Hfr|]. split; [done|].
    split; [apply warnings_replicate|]. split; [apply io_replicate|]. done. }
  set (w2 := retry_world w (inbufpos (conn w) + 4 * Z.of_nat k1) k1) in *.
  rewrite (bind_eq _ _ _ _ _ (unlocked_read_eq w2)).
  assert (unread (conn w2) = rest1) as Hu2' by exact Hu2.
  assert (0 ≤ inbufpos (conn w2)) as Hp2 by (destruct Hok2; done).
  destruct (after_read_inbuf (next_read w2) (conn w2) Hp2) as [Hi3 Hp3].
  set (w3 := mkWorld (after_read (next_read w2) (conn w2)) (inlock w2) (outlock w2)
               (writes w2) (tl (reads w2)) (polls w2)
               (calls w2 ++ SysRead (next_read w2) :: read_log (next_read w2) (conn w2))).
  assert (inbuf_ok (conn w3)) as Hok3.
  { unfold inbuf_ok. change (conn w3) with (after_read (next_read w2) (conn w2)).
    rewrite Hi3, Hp3. unfold octstr_len. lia. }
  assert (unread (conn w3) = rest1 ++ bytes_of (next_read w)) as Hu3.
  { change (conn w3) with (after_read (next_read w2) (conn w2)).
    rewrite after_read_unread by done. by rewrite Hu2'. }
  rewrite withlen_pass by done. cbv zeta.
  destruct (retry_world_skipped w3 Hok3) as [Hok4 Hu4]. cbv zeta in Hok4, Hu4.
  pose proof (retry_world_frame w3) as Hfr3. cbv zeta in Hfr3.
  rewrite Hu3 in *.
  destruct (skip_negative (rest1 ++ bytes_of (next_read w))) as [rest2 k2].
  cbn [fst snd] in *.
  assert (warnings (replicate k1 LogWarning ++
            (SysRead (next_read w2) :: read_log (next_read w2) (conn w2)) ++
            replicate k2 LogWarning) = (k1 + k2)%nat) as Hwarn.
  { rewrite !warnings_app, !warnings_replicate, warnings_read_section. lia. }
  assert (io (replicate k1 LogWarning ++
                (SysRead (next_read w2) :: read_log (next_read w2) (conn w2)) ++
                replicate k2 LogWarning) = [IoRead]) as Hio.
  { rewrite !io_app, !io_replicate, io_cons.
    by rewrite (quiet_io _ (quiet_read_log _ _)). }
  destruct (take_frame rest2) as [[f r']|] eqn:Hf2; simpl.
  - eexists _, _. split; [reflexivity|]. split; [by eapply Hfr3|].
    split; [simpl; by rewrite <- !app_assoc|].
    split; [exact Hwarn|]. split; [exact Hio|].
    simpl. split; [done|]. by rewrite after_read_claimed.
  - eexists _, _. split; [reflexivity|]. split; [exact Hu4|].
    split; [simpl; by rewrite <- !app_assoc|].
    split; [exact Hwarn|]. split; [exact Hio|].
    simpl. split; [done|]. by rewrite after_read_claimed.
Qed.

Lemma spec_read_withlen_frame u next f :
  fr_frame (spec_read_withlen u next) = Some f →
  ∃ skipped prefix,
    u ++ (if fr_read (spec_read_withlen u next) then bytes_of next else []) =
      skipped ++ prefix ++ f ++ fr_rest (spec_read_withlen u next) ∧
    length skipped = (4 * fr_skipped (spec_read_withlen u next))%nat ∧
    length prefix = 4%nat ∧
    decode_network_long prefix = octstr_len f.
Proof.
  unfold spec_read_withlen.
  destruct (skip_negative_spec u) as (sk1 & Hu & Hl1).
  destruct (skip_negative u) as [rest1 k1]. simpl in Hu, Hl1.
  destruct (take_frame rest1) as [[f1 r1]|] eqn:Hf1.
  { simpl. intros [= ->].
    destruct (take_frame_spec _ _ _ Hf1) as (Hr & H4 & Hd).
    exists sk1, (take 4 rest1). rewrite app_nil_r. split; [|done].
    rewrite Hu at 1. by rewrite Hr at 1. }
  destruct (skip_negative_spec (rest1 ++ bytes_of next)) as (sk2 & Hu2 & Hl2).
  destruct (skip_negative (rest1 ++ bytes_of next)) as [rest2 k2].
  simpl in Hu2, Hl2.
  destruct (take_frame rest2) as [[f2 r2]|] eqn:Hf2; [|done].
  simpl. intros [= ->].
  destruct (take_frame_spec _ _ _ Hf2) as (Hr & H4 & Hd).
  exists (sk1 ++ sk2), (take 4 rest2). split; [|split; [|done]].
  - rewrite Hu at 1. rewrite <- !app_assoc. f_equal. rewrite Hu2 at 1.
    f_equal. by rewrite Hr at 1.
  - rewrite length_app. lia.
Qed.

(** C7: [conn_read_withlen] against the frame parser of the
    specification ([spec_read_withlen]).  It returns, always: the prefixes
    with a negative length at the head of the unread bytes are skipped,
    with a warning for each, in the same call; the frame that follows, if
    it is complete, is returned, of exactly the length that its prefix of
    four bytes in network order encodes; if it is not complete there is
    one read, after which the same is tried once more, and the result is
    null if there still is no complete frame. *)
Theorem C7_read_withlen w :
  inlock w = false →
  inbuf_ok (conn w) →
  ∃ w', conn_read_withlen w =
          Some (fr_frame (spec_read_withlen (unread (conn w)) (next_read w)), w') ∧
    unread (conn w') = fr_rest (spec_read_withlen (unread (conn w)) (next_read w)) ∧
    warnings (calls_since w w') =
      fr_skipped (spec_read_withlen (unread (conn w)) (next_read w)) ∧
    io (calls_since w w') =
      (if fr_read (spec_read_withlen (unread (conn w)) (next_read w))
       then [IoRead] else []) ∧
    ∀ f, fr_frame (spec_read_withlen (unread (conn w)) (next_read w)) = Some f →
      ∃ skipped prefix,
        unread (conn w) ++
          (if fr_read (spec_read_withlen (unread (conn w)) (next_read w))
           then bytes_of (next_read w) else []) =
          skipped ++ prefix ++ f ++
          fr_rest (spec_read_withlen (unread (conn w)) (next_read w)) ∧
        length skipped =
          (4 * fr_skipped (spec_read_withlen (unread (conn w)) (next_read w)))%nat ∧
        length prefix = 4%nat ∧
        decode_network_long prefix = octstr_len f.
Proof.
  intros Hl Hok. unfold conn_read_withlen.
  rewrite (bind_eq _ _ _ _ _ (lock_in_eq w Hl)).
  set (w1 := mkWorld (conn w) (negb (claimed (conn w))) (outlock w) (writes w)
               (reads w) (polls w) (calls w ++ lock_log (conn w) LockIn)).
  destruct (withlen_loop_spec w1 Hok)
    as (w2 & l & H & Hu & Hc & Hw & Hio & Hl2 & Hcl).
  change (unread (conn w1)) with (unread (conn w)) in *.
  change (next_read w1) with (next_read w) in *.
  rewrite (bind_eq _ _ _ _ _ H).
  rewrite unlock_in_eq_ret by (by rewrite Hl2, Hcl).
  eexists. split; [reflexivity|]. simpl.
  split; [exact Hu|].
  erewrite calls_since_app by (rewrite Hc; simpl; by rewrite <- !app_assoc).
  split; [|split].
  - rewrite !warnings_app, !warnings_lock_log by auto. rewrite Hw. lia.
  - rewrite !io_app, !io_lock_log by auto. rewrite Hio. by rewrite app_nil_r.
  - apply spec_read_withlen_frame.
Qed.

Lemma C7_read_withlen_witness :
  ∃ w', conn_read_withlen negative_then_ok =
          Some (fr_frame (spec_read_withlen (unread (conn negative_then_ok))
                            (next_read negative_then_ok)), w') ∧
    unread (conn w') =
      fr_rest (spec_read_withlen (unread (conn negative_then_ok))
                 (next_read negative_then_ok)) ∧
    warnings (calls_since negative_then_ok w') =
      fr_skipped (spec_read_withlen (unread (conn negative_then_ok))
                    (next_read negative_then_ok)) ∧
    io (calls_since negative_then_ok w') =
      (if fr_read (spec_read_withlen (unread (conn negative_then_ok))
                     (next_read negative_then_ok))
       then [IoRead] else []) ∧
    ∀ f, fr_frame (spec_read_withlen (unread (conn negative_then_ok))
                     (next_read negative_then_ok)) = Some f →
      ∃ skipped prefix,
        unread (conn negative_then_ok) ++
          (if fr_read (spec_read_withlen (unread (conn negative_then_ok))
                         (next_read negative_then_ok))
           then bytes_of (next_read negative_then_ok) else []) =
          skipped ++ prefix ++ f ++
          fr_rest (spec_read_withlen (unread (conn negative_then_ok))
                     (next_read negative_then_ok)) ∧
        length skipped =
          (4 * fr_skipped (spec_read_withlen (unread (conn negative_then_ok))
                             (next_read negative_then_ok)))%nat ∧
        length prefix = 4%nat ∧
        decode_network_long prefix = octstr_len f.
Proof.
  assert (inlock negative_then_ok = false) as H1 by reflexivity.
  assert (inbuf_ok (conn negative_then_ok)) as H2 by (vm_compute; split; discriminate).
  exact (C7_read_withlen negative_then_ok H1 H2).
Defined.

(** The example of the specification: the negative prefix is skipped with
    one warning and the frame [ok] is returned by the same call. *)
Lemma negative_then_ok_frame :
  fr_frame (spec_read_withlen (unread (conn negative_then_ok))
              (next_read negative_then_ok)) = Some [x6f; x6b] ∧
  fr_skipped (spec_read_withlen (unread (conn negative_then_ok))
                (next_read negative_then_ok)) = 1%nat ∧
  fr_read (spec_read_withlen (unread (conn negative_then_ok))
             (next_read negative_then_ok)) = false ∧
  ∃ w', conn_read_withlen negative_then_ok = Some (Some [x6f; x6b], w') ∧
        warnings (calls_since negative_then_ok w') = 1%nat.
Proof.
  do 3 (split; [vm_compute; reflexivity|]).
  eexists. split; vm_compute; reflexivity.
Qed.

Lemma C8_conn_wait_witness :
  ∃ r w', conn_wait 5 input_ready = Some (r, w') ∧
    polls_unlocked false false (calls_since input_ready w') = true ∧
    has_events (wait_mask (conn input_ready)) POLLOUT =
      (0 <? unlocked_outbuf_len (conn input_ready)) ∧
    has_events (wait_mask (conn input_ready)) POLLIN =
      (negb (read_eof (conn input_ready)) && negb (read_error (conn input_ready)))
      || (unlocked_outbuf_len (conn input_ready) =? 0) ∧
    (next_write input_ready < 0 →
       r = -1 ∧ io (calls_since input_ready w') = [IoWrite]) ∧
    (0 < next_write input_ready →
       r = 0 ∧ io (calls_since input_ready w') = [IoWrite]) ∧
    (next_write input_ready = 0 →
       r = (after_poll (next_poll input_ready).1 (next_poll input_ready).2).1 ∧
       io (calls_since input_ready w') =
         IoWrite :: IoPoll (fd (conn input_ready)) (wait_mask (conn input_ready)) 5
           :: (after_poll (next_poll input_ready).1 (next_poll input_ready).2).2).
Proof.
  assert (at_rest input_ready) as H1 by (split; reflexivity).
  assert (outbuf_ok (conn input_ready)) as H2 by (vm_compute; split; discriminate).
  exact (C8_conn_wait 5 input_ready H1 H2).
Defined.

(** [conn_wait] on the example: the write sends nothing, the poll asks for
    POLLIN alone and reports it, the byte is read and the result is 0. *)
Lemma input_ready_wait :
  ∃ w', conn_wait 5 input_ready = Some (0, w') ∧
        io (calls_since input_ready w') = [IoWrite; IoPoll 3 POLLIN 5; IoRead] ∧
        unread (conn w') = [x61].
Proof. eexists. repeat split; vm_compute; reflexivity. Qed.

(** ** The loop of [conn_flush] *)

Lemma bind_ext {A B : Type} (m : M A) (k1 k2 : A → M B) w :
  (∀ a w', m w = Some (a, w') → k1 a w' = k2 a w') →
  (m ≫= k1) w = (m ≫= k2) w.
Proof.
  intros H. unfold mbind, M_bind. destruct (m w) as [[a w']|]; [|done].
  by apply H.
Qed.

Lemma lock_polls (m : M unit) w a w' :
  m = lock_in ∨ m = unlock_in ∨ m = lock_out ∨ m = unlock_out →
  m w = Some (a, w') → polls w' = polls w.
Proof.
  intros [->|[->|[->| ->]]];
    unfold lock_in, unlock_in, lock_out, unlock_out, mbind, M_bind, get;
    destruct (claimed (conn w)), (inlock w), (outlock w); simpl;
    by intros [= <- <-].
Qed.

(** The loop of [conn_flush] comes to its end within the turns that
    [conn_flush] gives it: a turn more changes nothing. *)
Lemma flush_loop_fuel fuel w :
  (length (polls w) < fuel)%nat → flush_loop (S fuel) w = flush_loop fuel w.
Proof.
  revert w. induction fuel as [|fuel IH]; intros w Hlen; [lia|].
  change (flush_loop (S (S fuel))) with
    (c ← get;
     if unlocked_outbuf_len c =? 0 then mret 0
     else
       unlock_out;;
       '(revents, errno) ← gwthread_pollfd (fd c) POLLOUT (-1);
       if revents <? 0 then
         if errno =? EINTR then mret 1 else call LogError;; mret (-1)
       else if revents =? 0 then mret 1
       else if has_events revents POLLNVAL then call LogError;; mret (-1)
       else
         lock_out;;
         ret ← (if has_events revents (Z.lor POLLOUT (Z.lor POLLERR POLLHUP))
                then unlocked_write else mret 0);
         if ret <? 0 then unlock_out;; mret (-1) else flush_loop (S fuel)).
  change (flush_loop (S fuel) w) with
    ((c ← get;
      if unlocked_outbuf_len c =? 0 then mret 0
      else
        unlock_out;;
        '(revents, errno) ← gwthread_pollfd (fd c) POLLOUT (-1);
        if revents <? 0 then
          if errno =? EINTR then mret 1 else call LogError;; mret (-1)
        else if revents =? 0 then mret 1
        else if has_events revents POLLNVAL then call LogError;; mret (-1)
        else
          lock_out;;
          ret ← (if has_events revents (Z.lor POLLOUT (Z.lor POLLERR POLLHUP))
                 then unlocked_write else mret 0);
          if ret <? 0 then unlock_out;; mret (-1) else flush_loop fuel) w).
  apply bind_ext. intros c w0 [= <- <-].
  destruct (unlocked_outbuf_len (conn w) =? 0); [done|].
  apply bind_ext. intros [] w1 H1.
  apply lock_polls in H1 as Hp1; [|auto].
  apply bind_ext. intros [revents errno] w2 [= Hr Hw2].
  assert (polls w2 = tl (polls w)) as Hp2 by (by rewrite <- Hw2, <- Hp1).
  destruct (revents <? 0); [done|]. destruct (revents =? 0) eqn:E0; [done|].
  destruct (has_events revents POLLNVAL); [done|].
  apply bind_ext. intros [] w3 H3.
  apply lock_polls in H3 as Hp3; [|auto].
  apply bind_ext. intros r w4 H4.
  assert (polls w4 = polls w3) as Hp4.
  { revert H4. destruct (has_events _ _).
    - rewrite unlocked_write_eq. destruct (next_write w3 <? 0); by intros [= <- <-].
    - by intros [= <- <-]. }
  destruct (r <? 0); [done|].
  apply IH. rewrite Hp4, Hp3, Hp2.
  rewrite Hp1 in Hr. destruct (polls w) as [|p ps]; simpl in *; [|lia].
  injection Hr as <- <-. done.
Qed.

(** ** Relations that every operation respects *)

Section Respects.
Context (R : World → World → Prop) (Cr : Connection → Connection → Prop)
  (Lg : Connection → list Call → Prop) `{!Respectful R Cr Lg}.

Lemma respects_weaken {A : Type} (m : M A) c : respects R m → respects_at R c m.
Proof. intros H w a w' _. apply H. Qed.

Lemma respects_ret {A : Type} (a : A) : respects R (mret a).
Proof. intros w a' w' [= <- <-]. apply r_refl. Qed.

Lemma respects_panic {A : Type} : respects R (@panic A).
Proof. by intros w a w'. Qed.

Lemma respects_gw_assert b : respects R (gw_assert b).
Proof. destruct b; [apply respects_ret | apply respects_panic]. Qed.

Lemma respects_bind {A B : Type} (m : M A) (k : A → M B) :
  respects R m → (∀ a, respects R (k a)) → respects R (m ≫= k).
Proof.
  intros Hm Hk w b w'' (a & w' & H1 & H2)%bind_some.
  eapply r_trans; [by eapply Hm | by eapply Hk].
Qed.

Lemma respects_get_bind {B : Type} (k : Connection → M B) :
  (∀ c, respects_at R c (k c)) → respects R (get ≫= k).
Proof.
  intros Hk w b w'' (a & w' & [= <- <-] & H2)%bind_some. by eapply Hk.
Qed.

Lemma respects_get : respects R get.
Proof. intros w a w' [= <- <-]. apply r_refl. Qed.

Lemma respects_at_get_bind {B : Type} (k : Connection → M B) c :
  respects_at R c (k c) → respects_at R c (get ≫= k).
Proof.
  intros Hk w b w'' Hc (a & w' & [= <- <-] & H2)%bind_some. subst c.
  by eapply Hk.
Qed.

Lemma respects_at_bind {A B : Type} (m : M A) (k : A → M B) c :
  respects_at R c m → (∀ a, respects R (k a)) → respects_at R c (m ≫= k).
Proof.
  intros Hm Hk w b w'' Hc (a & w' & H1 & H2)%bind_some.
  eapply r_trans; [by eapply Hm | by eapply Hk].
Qed.

Lemma respects_at_modify f c : Cr c (f c) → Lg c [] → respects_at R c (modify f).
Proof.
  intros Hf Hl w a w' Hc [= <- <-]. subst c.
  rewrite <- (app_nil_r (calls w)). by apply r_step.
Qed.

Lemma respects_modify f : (∀ c, Cr c (f c)) → (∀ c, Lg c []) → respects R (modify f).
Proof. intros Hf Hl w a w' H. by eapply (respects_at_modify f (conn w)). Qed.

Lemma respects_call c0 : (∀ c, Cr c c) → (∀ c, Lg c [c0]) → respects R (call c0).
Proof. intros Hc Hl w a w' [= <- <-]. by apply r_step. Qed.

Lemma respects_octstr_write_data from :
  (∀ c, Cr c c) → (∀ c ret, Lg c [SysWrite from ret]) →
  respects R (octstr_write_data from).
Proof. intros Hc Hl w a w' [= <- <-]. by apply r_step. Qed.

Lemma respects_gwthread_pollfd fd events seconds :
  (∀ c, Cr c c) → (∀ c ret errno, Lg c [Poll fd events seconds ret errno]) →
  respects R (gwthread_pollfd fd events seconds).
Proof. intros Hc Hl w a w' [= <- <-]. by apply r_step. Qed.

Lemma respects_lock (m : M unit) e :
  (m = lock_in ∧ e = LockIn) ∨ (m = unlock_in ∧ e = UnlockIn) ∨
  (m = lock_out ∧ e = LockOut) ∨ (m = unlock_out ∧ e = UnlockOut) →
  (∀ c, Cr c c) → (∀ c, Lg c (lock_log c e)) → respects R m.
Proof.
  intros Hm Hc Hl w a w'. specialize (Hl (conn w)). unfold lock_log in Hl.
  destruct Hm as [[-> ->]|[[-> ->]|[[-> ->]| [-> ->]]]];
    unfold lock_in, unlock_in, lock_out, unlock_out, mbind, M_bind, get;
    destruct (claimed (conn w)), (inlock w) eqn:Hi, (outlock w) eqn:Ho; simpl;
    intros [= <- <-]; try apply r_refl; by apply r_step.
Qed.

Lemma respects_unlocked_write :
  (∀ c, Cr c c) → (∀ c ret, 0 ≤ ret → Cr c (after_write ret c)) →
  (∀ c from ret, Lg c [SysWrite from ret]) →
  (∀ c from ret, 0 ≤ ret → Lg c (SysWrite from ret :: write_log ret c)) →
  respects R unlocked_write.
Proof.
  intros Hc Hw Hl1 Hl2 w a w'. rewrite unlocked_write_eq.
  destruct (Z.ltb_spec (next_write w) 0); intros [= <- <-]; apply r_step; auto.
Qed.

Lemma respects_unlocked_read :
  (∀ c r, Cr c (after_read r c)) → (∀ c r, Lg c (SysRead r :: read_log r c)) →
  respects R unlocked_read.
Proof.
  intros Hc Hl w a w'. rewrite unlocked_read_eq. intros [= <- <-].
  by apply r_step.
Qed.

Lemma respects_fuel {A} (f : nat → M A) (g : World → nat) :
  (∀ n, respects R (f n)) → respects R (λ w, f (g w) w).
Proof. intros H w a w' E. exact (H _ _ _ _ E). Qed.

End Respects.

Create HintDb respects_db.

(** The steps of a proof that an operation respects a relation; [side]
    solves the conditions on the steps of the connection and on the
    calls. *)
Ltac respects_step side :=
  lazymatch goal with
  | |- respects _ (get ≫= _) => eapply respects_get_bind; try tc_solve; intros ?
  | |- respects _ (_ ≫= _) => eapply respects_bind; try tc_solve; [|intros ?]
  | |- respects_at _ _ (get ≫= _) => eapply respects_at_get_bind; try tc_solve
  | |- respects_at _ _ (modify _ ≫= _) =>
      eapply respects_at_bind; try tc_solve; [eapply respects_at_modify; try tc_solve; side|intros ?]
  | |- respects_at _ _ (modify _) => eapply respects_at_modify; try tc_solve; side
  | |- respects_at _ _ (if ?b then _ else _) => destruct b eqn:?
  | |- respects_at _ _ (match ?x with _ => _ end) => destruct x eqn:?
  | |- respects_at _ _ (_ ≫= _) => eapply respects_at_bind; try tc_solve; [|intros ?]
  | |- respects_at _ _ _ => eapply respects_weaken; try tc_solve
  | |- respects _ (mret _) => eapply respects_ret; try tc_solve
  | |- respects _ get => eapply respects_get; try tc_solve
  | |- respects _ panic => eapply respects_panic; try tc_solve
  | |- respects _ (gw_assert _) => eapply respects_gw_assert; try tc_solve
  | |- respects _ (call _) => eapply respects_call; try tc_solve; side
  | |- respects _ (modify _) => eapply respects_modify; try tc_solve; side
  | |- respects _ (octstr_write_data _) => eapply respects_octstr_write_data; try tc_solve; side
  | |- respects _ (gwthread_pollfd _ _ _) => eapply respects_gwthread_pollfd; try tc_solve; side
  | |- respects _ lock_in =>
      eapply (respects_lock _ _ _ lock_in LockIn); try tc_solve; [auto|side..]
  | |- respects _ unlock_in =>
      eapply (respects_lock _ _ _ unlock_in UnlockIn); try tc_solve; [auto 6|side..]
  | |- respects _ lock_out =>
      eapply (respects_lock _ _ _ lock_out LockOut); try tc_solve; [auto 6|side..]
  | |- respects _ unlock_out =>
      eapply (respects_lock _ _ _ unlock_out UnlockOut); try tc_solve; [auto 6|side..]
  | |- respects _ unlocked_write => eapply respects_unlocked_write; try tc_solve; side
  | |- respects _ unlocked_read => eapply respects_unlocked_read; try tc_solve; side
  | |- respects _ (if ?b then _ else _) => destruct b eqn:?
  | |- respects _ (match ?x with _ => _ end) => destruct x eqn:?
  | |- respects _ (let '(_, _) := ?x in _) => destruct x
  | |- respects _ (unlocked_get _) => unfold unlocked_get
  | |- respects _ unlocked_try_write => unfold unlocked_try_write
  | |- respects _ (λ w, flush_loop _ w) =>
      eapply (respects_fuel _ flush_loop _); solve [eauto with respects_db]
  | |- respects _ _ => solve [eauto with respects_db]
  end.

Ltac respects_auto side := repeat (respects_step side).

(** All the operations, for a relation whose side conditions [side]
    solves. *)
Ltac respects_ops side :=
  unfold conn_claim, conn_outbuf_len, conn_inbuf_len, conn_eof, conn_read_error,
    conn_set_output_buffering, poll_callback, conn_register, conn_unregister,
    conn_wait, wait_polled, conn_flush, conn_write, conn_write_data,
    conn_write_withlen, conn_read_everything, conn_read_fixed, conn_read_line,
    conn_read_withlen, conn_read_packet, unlocked_try_write, unlocked_get;
  respects_auto side.

(** *** The connection stays tidy *)

Lemma tidy_respectful :
  Respectful keeps_tidy (λ c c', tidy c → tidy c') (λ _ _, True).
Proof.
  split.
  - by intros w H.
  - intros w1 w2 w3 H1 H2 H. by apply H2, H1.
  - intros w c' il ol ws rs ps l H _. exact H.
Qed.

#[local] Existing Instance tidy_respectful.

Lemma tidy_after_write ret c : 0 ≤ ret → tidy c → tidy (after_write ret c).
Proof.
  intros Hret [Hp Hi Ho]. unfold after_write, written, is_registered in *.
  destruct (Z.ltb_spec (octstr_len (outbuf c) / 2) (outbufpos c + ret)) as [E|E];
    destruct c as [? ? ob op ? ? ? ? ? [r|] ? ? ? ?]; simpl in *;
    split; simpl; unfold octstr_len in *; simpl; try done; try lia;
    try (intros [=]); try (split; [lia|]; apply Z.div_pos; lia).
Qed.

Lemma tidy_after_read r c : tidy c → tidy (after_read r c).
Proof.
  intros [Hp Hi Ho]. unfold after_read, pollin_off, compacted, is_registered in *.
  destruct r as [bs|e]; [destruct bs|];
    destruct c as [? ? ob op ? ? ? re rr [g|] ? ? ? ?]; simpl in *.
  all: repeat match goal with |- context [if ?b then _ else _] => destruct b eqn:? end.
  all: split; simpl in *; try done; try lia.
Qed.

Lemma has_events_wait (a b : bool) :
  has_events (Z.lor (if a then POLLIN else 0) (if b then POLLOUT else 0)) POLLIN = a ∧
  has_events (Z.lor (if a then POLLIN else 0) (if b then POLLOUT else 0)) POLLOUT = b.
Proof. by destruct a, b. Qed.

Lemma octstr_len_app (a b : Octstr) :
  octstr_len (a ++ b) = octstr_len a + octstr_len b.
Proof. unfold octstr_len. rewrite length_app. lia. Qed.

Lemma half_app (a b : Octstr) :
  octstr_len a / 2 ≤ octstr_len (a ++ b) / 2.
Proof.
  rewrite octstr_len_app. apply Z.div_le_mono; [lia|]. unfold octstr_len. lia.
Qed.

Ltac tidy_side :=
  cbv beta; intros; try done;
  try (by apply tidy_after_write);
  try (by apply tidy_after_read);
  try match goal with
  | H : tidy _ |- tidy _ =>
      destruct H; split; simpl in *; unfold is_registered in *; simpl in *;
      rewrite ?(proj1 (has_events_wait _ _)), ?(proj2 (has_events_wait _ _));
      try done; try lia;
      try (split; [lia|]; etransitivity; [|apply half_app]; lia);
      try (by repeat case_match)
  end.

Lemma tidy_flush_loop n : respects keeps_tidy (flush_loop n).
Proof. induction n; simpl; respects_auto tidy_side. Qed.

Lemma tidy_withlen_retry n : respects keeps_tidy (withlen_retry n).
Proof. induction n; simpl; respects_auto tidy_side. Qed.

#[local] Hint Resolve tidy_flush_loop tidy_withlen_retry : respects_db.

Lemma tidy_withlen_loop n : ∀ try, respects keeps_tidy (withlen_loop n try).
Proof. induction n; intros try; simpl; respects_auto tidy_side. Qed.

Lemma tidy_packet_loop n s e : ∀ try, respects keeps_tidy (packet_loop n try s e).
Proof. induction n; intros try; simpl; respects_auto tidy_side. Qed.

#[local] Hint Resolve tidy_withlen_loop tidy_packet_loop : respects_db.

Lemma tidy_run_op o : respects keeps_tidy (run_op o).
Proof. destruct o; simpl; respects_ops tidy_side. Qed.

#[local] Hint Resolve tidy_run_op : respects_db.

Lemma respects_run R Cr Lg `{!Respectful R Cr Lg} ops :
  (∀ o, respects R (run_op o)) → respects R (run ops).
Proof.
  intros H. induction ops as [|o ops IH]; simpl.
  - by eapply respects_ret.
  - eapply respects_bind; [tc_solve|apply H|intros _; apply IH].
Qed.



(** *** A claimed connection takes no lock *)

Lemma claimed_lock_free_respectful :
  Respectful claimed_lock_free
    (λ c c', claimed c = true → claimed c' = true)
    (λ c l, claimed c = true → Forall (λ x, is_lock_call x = false) l).
Proof.
  split.
  - intros w H. split; [done|]. exists []. by rewrite app_nil_r.
  - intros w1 w2 w3 H1 H2 H. destruct (H1 H) as (H' & l1 & E1 & F1).
    destruct (H2 H') as (H'' & l2 & E2 & F2). split; [done|].
    exists (l1 ++ l2). rewrite E2, E1, <- app_assoc. split; [done|].
    by apply Forall_app.
  - intros w c' il ol ws rs ps l H1 H2 H. simpl. split; [by apply H1|].
    exists l. split; [done|]. by apply H2.
Qed.

#[local] Existing Instance claimed_lock_free_respectful.

Lemma quiet_no_lock l : quiet l → Forall (λ x, is_lock_call x = false) l.
Proof.
  intros H. eapply Forall_impl; [exact H|].
  intros c [->|(mask & value & ->)]; reflexivity.
Qed.

Lemma after_write_claimed_eq ret c : claimed (after_write ret c) = claimed c.
Proof.
  unfold after_write, written. by repeat case_match.
Qed.

Ltac clf_side :=
  cbv beta; intros; simpl; try done;
  rewrite ?after_write_claimed_eq, ?after_read_claimed; try done;
  try (unfold lock_log;
       match goal with H : claimed _ = true |- _ => rewrite H end; by constructor);
  try (constructor; [done|]; apply quiet_no_lock;
       first [apply quiet_write_log|apply quiet_read_log]);
  try (by repeat constructor).

Lemma clf_flush_loop n : respects claimed_lock_free (flush_loop n).
Proof. induction n; simpl; respects_auto clf_side. Qed.

Lemma clf_withlen_retry n : respects claimed_lock_free (withlen_retry n).
Proof. induction n; simpl; respects_auto clf_side. Qed.

#[local] Hint Resolve clf_flush_loop clf_withlen_retry : respects_db.

Lemma clf_withlen_loop n : ∀ try, respects claimed_lock_free (withlen_loop n try).
Proof. induction n; intros try; simpl; respects_auto clf_side. Qed.

Lemma clf_packet_loop n s e :
  ∀ try, respects claimed_lock_free (packet_loop n try s e).
Proof. induction n; intros try; simpl; respects_auto clf_side. Qed.

#[local] Hint Resolve clf_withlen_loop clf_packet_loop : respects_db.

Lemma clf_run_op o : respects claimed_lock_free (run_op o).
Proof. destruct o; simpl; respects_ops clf_side. Qed.

(** X11: on a claimed connection no operation locks or unlocks a mutex,
    the claim is never given up, and [conn_claim] is not among the
    operations that return: claiming twice is a panic. *)
Theorem X11_claimed_takes_no_lock w ops w' :
  claimed (conn w) = true → run ops w = Some (tt, w') →
  claimed (conn w') = true ∧
  Forall (λ c, is_lock_call c = false) (calls_since w w') ∧
  OpClaim ∉ ops.
Proof.
  intros Hc Hrun.
  destruct (respects_run claimed_lock_free _ _ ops clf_run_op _ _ _ Hrun Hc)
    as (Hc' & l & El & Hl).
  split; [done|]. split.
  { unfold calls_since. by rewrite El, drop_app_length. }
  clear Hc' l El Hl. revert w Hc Hrun.
  induction ops as [|o ops IH]; intros w Hc Hrun; [by intros ?%elem_of_nil|].
  simpl in Hrun. apply bind_some in Hrun as ([] & w1 & H1 & H2).
  intros [<-|Hin]%elem_of_cons.
  - simpl in H1. unfold conn_claim in H1.
    apply bind_some in H1 as (c & w2 & [= <- <-] & H1). by rewrite Hc in H1.
  - apply (IH w1); [|done..]. by apply (clf_run_op o _ _ _ H1 Hc).
Qed.

Lemma X11_claimed_takes_no_lock_witness :
  claimed (conn claimed_world) = true ∧
  run claimed_ops claimed_world = Some (tt, world_after claimed_ops claimed_world) ∧
  claimed (conn (world_after claimed_ops claimed_world)) = true ∧
  Forall (λ c, is_lock_call c = false)
    (calls_since claimed_world (world_after claimed_ops claimed_world)) ∧
  OpClaim ∉ claimed_ops.
Proof.
  assert (H1 : claimed (conn claimed_world) = true) by reflexivity.
  assert (H2 : run claimed_ops claimed_world =
               Some (tt, world_after claimed_ops claimed_world))
    by (vm_compute; reflexivity).
  exact (conj H1 (conj H2
    (X11_claimed_takes_no_lock claimed_world claimed_ops _ H1 H2))).
Defined.

(** *** What no operation changes *)

Lemma steady_respectful :
  Respectful steady
    (λ c c', fd c' = fd c ∧ (read_error c = true → read_error c' = true))
    (λ _ _, True).
Proof.
  split.
  - by intros w.
  - intros w1 w2 w3 [E1 H1] [E2 H2]. split; [congruence|auto].
  - by intros w c' il ol ws rs ps l H _.
Qed.

#[local] Existing Instance steady_respectful.

Lemma steady_after_write ret c :
  fd (after_write ret c) = fd c ∧ read_error (after_write ret c) = read_error c.
Proof. unfold after_write, written. by repeat case_match. Qed.

Lemma steady_after_read r c :
  fd (after_read r c) = fd c ∧
  (read_error c = true → read_error (after_read r c) = true).
Proof.
  unfold after_read, pollin_off, compacted. by repeat case_match.
Qed.

Ltac steady_side :=
  cbv beta; intros; simpl; try done;
  try (split; [apply steady_after_write|]; by rewrite (proj2 (steady_after_write _ _)));
  try apply steady_after_read.

Lemma steady_flush_loop n : respects steady (flush_loop n).
Proof. induction n; simpl; respects_auto steady_side. Qed.

Lemma steady_withlen_retry n : respects steady (withlen_retry n).
Proof. induction n; simpl; respects_auto steady_side. Qed.

#[local] Hint Resolve steady_flush_loop steady_withlen_retry : respects_db.

Lemma steady_withlen_loop n : ∀ try, respects steady (withlen_loop n try).
Proof. induction n; intros try; simpl; respects_auto steady_side. Qed.

Lemma steady_packet_loop n s e : ∀ try, respects steady (packet_loop n try s e).
Proof. induction n; intros try; simpl; respects_auto steady_side. Qed.

#[local] Hint Resolve steady_withlen_loop steady_packet_loop : respects_db.

Lemma steady_run_op o : respects steady (run_op o).
Proof. destruct o; simpl; respects_ops steady_side. Qed.

(** X12: no operation changes the descriptor of the connection, and none
    clears [read_error]: after a read error every later operation leaves
    the connection in error, also one that reads bytes. *)
Theorem X12_read_error_sticky w ops w' :
  run ops w = Some (tt, w') →
  fd (conn w') = fd (conn w) ∧
  (read_error (conn w) = true → read_error (conn w') = true).
Proof. intros Hrun. exact (respects_run steady _ _ ops steady_run_op _ _ _ Hrun). Qed.

Lemma X12_read_error_sticky_witness :
  run [OpReadEverything; OpReadLine] failed_world =
    Some (tt, world_after [OpReadEverything; OpReadLine] failed_world) ∧
  fd (conn (world_after [OpReadEverything; OpReadLine] failed_world)) =
    fd (conn failed_world) ∧
  (read_error (conn failed_world) = true →
   read_error (conn (world_after [OpReadEverything; OpReadLine] failed_world)) = true).
Proof.
  assert (H : run [OpReadEverything; OpReadLine] failed_world =
              Some (tt, world_after [OpReadEverything; OpReadLine] failed_world))
    by (vm_compute; reflexivity).
  exact (conj H (X12_read_error_sticky failed_world _ _ H)).
Defined.

(** *** Searching the buffer *)

Lemma byte_value_inj a b : byte_value a = byte_value b → a = b.
Proof.
  unfold byte_value. intros H%(inj Z.of_N).
  assert (E : Some a = Some b) by (by rewrite <- !Byte.of_to_N, H).
  by injection E.
Qed.

Lemma search_char_spec o ch pos :
  0 ≤ pos →
  (Forall (λ b, byte_value b ≠ ch) (drop (Z.to_nat pos) o) ∧
   octstr_search_char o ch pos = -1) ∨
  (∃ l b rest, drop (Z.to_nat pos) o = l ++ b :: rest ∧
     Forall (λ b, byte_value b ≠ ch) l ∧ byte_value b = ch ∧
     octstr_search_char o ch pos = pos + octstr_len l).
Proof.
  intros Hpos. unfold octstr_search_char.
  destruct (list_find _ _) as [[i b]|] eqn:E.
  - right. apply list_find_Some in E as (Hi & Hb & Hlt).
    exists (take i (drop (Z.to_nat pos) o)), b, (drop (S i) (drop (Z.to_nat pos) o)).
    split; [by rewrite take_drop_middle|]. split; [|split; [done|]].
    + apply Forall_forall. intros y [j Hj]%list_elem_of_lookup.
      apply lookup_take_Some in Hj as [Hj ?]. by apply (Hlt j).
    + unfold octstr_len. rewrite length_take.
      apply lookup_lt_Some in Hi. lia.
  - left. by apply list_find_None in E.
Qed.

Lemma not_char_elem l b : Forall (λ x, byte_value x ≠ byte_value b) l ↔ b ∉ l.
Proof.
  rewrite Forall_forall. split.
  - intros H Hin. by apply (H b Hin).
  - intros H x Hx E. apply byte_value_inj in E. by subst.
Qed.

(** *** [conn_read_line] *)

Lemma unread_split c l rest :
  inbuf_ok c → unread c = l ++ rest →
  octstr_copy (inbuf c) (inbufpos c) (octstr_len l) = l ∧
  unread (set_inbuf (inbuf c) (inbufpos c + octstr_len l) c) = rest ∧
  inbuf_ok (set_inbuf (inbuf c) (inbufpos c + octstr_len l) c) ∧
  octstr_len l ≤ unlocked_inbuf_len c.
Proof.
  intros Hok E. unfold octstr_copy, unread, inbuf_ok, unlocked_inbuf_len in *.
  simpl. unfold octstr_len in *.
  assert (Hlen : length (drop (Z.to_nat (inbufpos c)) (inbuf c)) =
                 (length l + length rest)%nat) by (by rewrite E, length_app).
  rewrite length_drop in Hlen.
  repeat split; try lia.
  - rewrite E, Nat2Z.id. by rewrite take_app_length.
  - replace (Z.to_nat (inbufpos c + Z.of_nat (length l)))
      with (Z.to_nat (inbufpos c) + length l)%nat by lia.
    by rewrite <- drop_drop, E, drop_app_length.
Qed.

Lemma strip_cr_code (l : Octstr) :
  (if (0 <? octstr_len l) && (octstr_get_char l (octstr_len l - 1) =? 13)
   then octstr_delete l (octstr_len l - 1) 1 else l) =
  match last l with Some x0d => take (length l - 1) l | _ => l end.
Proof.
  induction l as [|a l _] using rev_ind; [done|].
  rewrite last_snoc. unfold octstr_len, octstr_get_char, octstr_delete.
  rewrite length_app. simpl length.
  replace (0 <? Z.of_nat (length l + 1)) with true by (symmetry; apply Z.ltb_lt; lia).
  replace (Z.of_nat (length l + 1) - 1 <? 0) with false
    by (symmetry; apply Z.ltb_ge; lia).
  replace (Z.to_nat (Z.of_nat (length l + 1) - 1)) with (length l) by lia.
  unfold Octstr. rewrite (list_lookup_middle l [] a (length l) eq_refl). simpl.
  replace (length l + 1 - 1)%nat with (length l) by lia.
  rewrite take_app_length.
  destruct (byte_value a =? 13) eqn:E.
  - apply Z.eqb_eq in E. apply (byte_value_inj a x0d) in E. subst a.
    rewrite drop_ge by (rewrite length_app; simpl; lia). by rewrite app_nil_r.
  - destruct a; try done.
Qed.

Lemma read_line_tail w pos l rest :
  inlock w = negb (claimed (conn w)) → inbuf_ok (conn w) →
  unread (conn w) = l ++ x0a :: rest →
  pos = inbufpos (conn w) + octstr_len l →
  (c ← get;
   result ← unlocked_get (pos - inbufpos c);
   modify (λ c, set_inbuf (inbuf c) (inbufpos c + 1) c);;
   unlock_in;;
   mret (Some (if (0 <? octstr_len result) &&
                  (octstr_get_char result (octstr_len result - 1) =? 13)
               then octstr_delete result (octstr_len result - 1) 1
               else result))) w =
  Some (Some (match last l with Some x0d => take (length l - 1) l | _ => l end),
        mkWorld (set_inbuf (inbuf (conn w)) (inbufpos (conn w) + octstr_len l + 1)
                   (conn w))
          false (outlock w) (writes w) (reads w) (polls w)
          (calls w ++ lock_log (conn w) UnlockIn)).
Proof.
  intros Hl Hok E ->.
  destruct (unread_split _ _ _ Hok E) as (Hcopy & Hrest & Hok' & Hlen).
  rewrite (bind_eq _ _ _ _ _ eq_refl). simpl.
  replace (inbufpos (conn w) + octstr_len l - inbufpos (conn w))
    with (octstr_len l) by lia.
  erewrite bind_eq by (by apply unlocked_get_eq).
  rewrite (bind_eq _ _ _ _ _ eq_refl). simpl.
  rewrite Hcopy, strip_cr_code.
  by erewrite unlock_in_eq_ret by done.
Qed.

(** X13: [conn_read_line] looks for a line feed in the unread bytes and
    reads from the descriptor, once, only when there is none.  The stream
    [s] it has then is not lost: without a line feed it stays unread and
    the result is NULL; else the result is what precedes the first line
    feed, less one trailing carriage return, and what follows the line
    feed stays unread.  The lock is free again afterwards. *)
Theorem X13_conn_read_line w :
  inlock w = false → inbuf_ok (conn w) →
  ∃ r w' s,
    conn_read_line w = Some (r, w') ∧ inlock w' = false ∧ inbuf_ok (conn w') ∧
    (((x0a ∈ unread (conn w)) ∧ s = unread (conn w) ∧ io (calls_since w w') = []) ∨
     ((x0a ∉ unread (conn w)) ∧ s = unread (conn w) ++ bytes_of (next_read w) ∧
      io (calls_since w w') = [IoRead])) ∧
    match r with
    | None => (x0a ∉ s) ∧ unread (conn w') = s
    | Some line =>
        ∃ l rest, s = l ++ x0a :: rest ∧ (x0a ∉ l) ∧ unread (conn w') = rest ∧
          (l = line ++ [x0d] ∨ line = l ∧ (last l ≠ Some x0d))
    end.
Proof.
  intros Hl Hok.
  assert (Hstrip : ∀ l : list byte,
    let line := match last l with Some x0d => take (length l - 1) l | _ => l end in
    l = line ++ [x0d] ∨ line = l ∧ (last l ≠ Some x0d)).
  { intros l. induction l as [|a l _] using rev_ind; [by right|].
    rewrite last_snoc, length_app. simpl.
    replace (length l + 1 - 1)%nat with (length l) by lia. rewrite take_app_length.
    destruct a; try (right; split; [done|by intros [=]]). by left. }
  unfold conn_read_line.
  rewrite (bind_eq _ _ _ _ _ (lock_in_eq w Hl)).
  rewrite (bind_eq _ _ _ _ _ eq_refl). simpl.
  destruct (search_char_spec (inbuf (conn w)) 10 (inbufpos (conn w)))
    as [[Hno E]|(l & b & rest & Es & Hno & Hb & E)]; [apply Hok|..];
    fold (unread (conn w)) in *; rewrite E.
  - (* no line feed in the buffer: one read *)
    apply (not_char_elem _ x0a) in Hno. simpl.
    rewrite (bind_eq _ _ _ _ _ (bind_eq _ _ _ _ _ (unlocked_read_eq _))).
    unfold next_read; simpl; fold (next_read w).
    destruct (after_read_inbuf (next_read w) (conn w)) as [Hi Hz]; [apply Hok|].
    set (c1 := after_read (next_read w) (conn w)) in *.
    assert (Hu1 : unread c1 = unread (conn w) ++ bytes_of (next_read w))
      by (by apply after_read_unread, Hok).
    assert (Hok1 : inbuf_ok c1).
    { unfold inbuf_ok. rewrite Hz. unfold octstr_len. lia. }
    destruct (search_char_spec (inbuf c1) 10 (inbufpos c1))
      as [[Hno1 E1]|(l & b & rest & Es & Hno1 & Hb & E1)]; [apply Hok1|..];
      fold (unread c1) in *; rewrite E1.
    + apply (not_char_elem _ x0a) in Hno1. simpl.
      erewrite unlock_in_eq_ret by (by simpl; unfold c1; rewrite after_read_claimed).
      eexists None, _, (unread (conn w) ++ bytes_of (next_read w)).
      split; [done|]. simpl. split; [done|]. split; [done|]. split.
      * right. split; [done|]. split; [done|].
        erewrite calls_since_app by (simpl; by rewrite <- !app_assoc).
        unfold c1, lock_log. rewrite after_read_claimed.
        apply io_read_section.
      * by rewrite <- Hu1.
    + apply (byte_value_inj b x0a) in Hb. subst b.
      apply (not_char_elem _ x0a) in Hno1.
      replace (inbufpos c1 + octstr_len l <? 0) with false
        by (symmetry; apply Z.ltb_ge; destruct Hok1; unfold octstr_len; lia).
      erewrite read_line_tail;
        [|by simpl; unfold c1; rewrite after_read_claimed|done|done|done].
      simpl. eexists (Some _), _, (unread (conn w) ++ bytes_of (next_read w)).
      split; [done|]. simpl. split; [done|].
      destruct (unread_split c1 (l ++ [x0a]) rest Hok1) as (_ & Hrest & Hok2 & _);
        [by rewrite <- app_assoc|].
      rewrite octstr_len_app, Z.add_assoc in Hrest, Hok2.
      split; [done|]. split.
      * right. split; [done|]. split; [done|].
        erewrite calls_since_app by (simpl; by rewrite <- !app_assoc).
        unfold c1, lock_log. rewrite after_read_claimed.
        apply io_read_section.
      * exists l, rest. rewrite <- Hu1. repeat split; first [done|apply Hstrip].
  - (* a line feed in the buffer: no read *)
    apply (byte_value_inj b x0a) in Hb. subst b.
    apply (not_char_elem _ x0a) in Hno.
    assert (Hpos : (inbufpos (conn w) + octstr_len l <? 0) = false)
      by (apply Z.ltb_ge; destruct Hok; unfold octstr_len; lia).
    rewrite Hpos. rewrite (bind_eq _ _ _ _ _ eq_refl). rewrite Hpos.
    erewrite read_line_tail; [|done..].
    simpl. eexists (Some _), _, (unread (conn w)).
    split; [done|]. simpl. split; [done|].
    destruct (unread_split (conn w) (l ++ [x0a]) rest Hok) as (_ & Hrest & Hok2 & _);
      [by rewrite <- app_assoc|].
    rewrite octstr_len_app, Z.add_assoc in Hrest, Hok2.
    split; [done|]. split.
    + left. split; [rewrite Es; set_solver|]. split; [done|].
      erewrite calls_since_app by (simpl; by rewrite <- !app_assoc).
      rewrite io_app, !io_lock_log by auto. done.
    + exists l, rest. repeat split; first [done|apply Hstrip].
Qed.

Lemma X13_conn_read_line_witness :
  inlock line_world = false ∧ inbuf_ok (conn line_world) ∧
  ∃ r w' s,
    conn_read_line line_world = Some (r, w') ∧ inlock w' = false ∧
    inbuf_ok (conn w') ∧
    (((x0a ∈ unread (conn line_world)) ∧ s = unread (conn line_world) ∧
      io (calls_since line_world w') = []) ∨
     ((x0a ∉ unread (conn line_world)) ∧
      s = unread (conn line_world) ++ bytes_of (next_read line_world) ∧
      io (calls_since line_world w') = [IoRead])) ∧
    match r with
    | None => (x0a ∉ s) ∧ unread (conn w') = s
    | Some line =>
        ∃ l rest, s = l ++ x0a :: rest ∧ (x0a ∉ l) ∧ unread (conn w') = rest ∧
          (l = line ++ [x0d] ∨ line = l ∧ (last l ≠ Some x0d))
    end.
Proof.
  assert (H1 : inlock line_world = false) by reflexivity.
  assert (H2 : inbuf_ok (conn line_world)) by (vm_compute; split; discriminate).
  exact (conj H1 (conj H2 (X13_conn_read_line line_world H1 H2))).
Defined.

(** *** [conn_read_everything] *)

Lemma unread_nil_len c : inbuf_ok c → (unlocked_inbuf_len c =? 0) = true ↔ unread c = [].
Proof.
  intros Hok. rewrite Z.eqb_eq, <- (unread_len c Hok). unfold octstr_len.
  destruct (unread c); simpl; [done|]. split; [lia|done].
Qed.

(** X14: [conn_read_everything] hands out all the unread bytes and leaves
    none; it reads from the descriptor, once, only when there are none,
    and then hands out what that read delivered.  Its result is never an
    empty string: it is NULL when there is nothing. *)
Theorem X14_conn_read_everything w :
  inlock w = false → inbuf_ok (conn w) →
  ∃ r w' s,
    conn_read_everything w = Some (r, w') ∧ inlock w' = false ∧
    inbuf_ok (conn w') ∧ unread (conn w') = [] ∧
    ((unread (conn w) ≠ [] ∧ s = unread (conn w) ∧ io (calls_since w w') = []) ∨
     (unread (conn w) = [] ∧ s = bytes_of (next_read w) ∧
      io (calls_since w w') = [IoRead])) ∧
    r = (if s is [] then None else Some s).
Proof.
  intros Hl Hok. unfold conn_read_everything.
  rewrite (bind_eq _ _ _ _ _ (lock_in_eq w Hl)).
  rewrite (bind_eq _ _ _ _ _ eq_refl). simpl.
  destruct (unlocked_inbuf_len (conn w) =? 0) eqn:E.
  - apply (unread_nil_len _ Hok) in E.
    rewrite (bind_eq _ _ _ _ _ (bind_eq _ _ _ _ _ (unlocked_read_eq _))).
    unfold next_read; simpl; fold (next_read w).
    destruct (after_read_inbuf (next_read w) (conn w)) as [Hi Hz]; [apply Hok|].
    set (c1 := after_read (next_read w) (conn w)) in *.
    assert (Hu1 : unread c1 = bytes_of (next_read w)).
    { unfold c1. rewrite after_read_unread by apply Hok. by rewrite E. }
    assert (Hok1 : inbuf_ok c1).
    { unfold inbuf_ok. rewrite Hz. unfold octstr_len. lia. }
    destruct (unlocked_inbuf_len c1 =? 0) eqn:E1.
    + apply (unread_nil_len _ Hok1) in E1.
      erewrite unlock_in_eq_ret by (by simpl; unfold c1; rewrite after_read_claimed).
      eexists _, _, (bytes_of (next_read w)).
      split; [done|]. simpl. split; [done|]. split; [done|]. split; [done|]. split.
      * right. split; [done|]. split; [done|].
        erewrite calls_since_app by (simpl; by rewrite <- !app_assoc).
        unfold c1, lock_log. rewrite after_read_claimed. apply io_read_section.
      * by rewrite <- Hu1, E1.
    + rewrite (bind_eq _ _ _ _ _ eq_refl). simpl.
      erewrite bind_eq by (by apply unlocked_get_eq).
      simpl.
      erewrite unlock_in_eq_ret by (by simpl; unfold c1; rewrite after_read_claimed).
      destruct (unread_split c1 (unread c1) [] Hok1) as (Hcopy & Hrest & Hok2 & _);
        [by rewrite app_nil_r|].
      rewrite (unread_len _ Hok1) in Hcopy, Hrest, Hok2.
      eexists _, _, (bytes_of (next_read w)).
      split; [done|]. simpl. split; [done|]. split; [done|]. split; [done|]. split.
      * right. split; [done|]. split; [done|].
        erewrite calls_since_app by (simpl; by rewrite <- !app_assoc).
        change (lock_log (set_inbuf _ _ c1) UnlockIn) with (lock_log c1 UnlockIn).
        unfold c1, lock_log. rewrite after_read_claimed. apply io_read_section.
      * rewrite Hcopy, <- Hu1. destruct (unread c1) eqn:Eu; [|done].
        by apply (unread_nil_len _ Hok1) in Eu; congruence.
  - rewrite (bind_eq _ _ _ _ _ eq_refl). simpl.
    rewrite (bind_eq _ _ _ _ _ eq_refl). simpl.
    erewrite bind_eq by (by apply unlocked_get_eq).
    simpl. erewrite unlock_in_eq_ret by done.
    destruct (unread_split (conn w) (unread (conn w)) [] Hok)
      as (Hcopy & Hrest & Hok2 & _); [by rewrite app_nil_r|].
    rewrite (unread_len _ Hok) in Hcopy, Hrest, Hok2.
    assert (Hne : unread (conn w) ≠ []).
    { intros Eu. apply (unread_nil_len _ Hok) in Eu. congruence. }
    eexists _, _, (unread (conn w)).
    split; [done|]. simpl. split; [done|]. split; [done|]. split; [done|]. split.
    + left. split; [done|]. split; [done|].
      erewrite calls_since_app by (simpl; by rewrite <- !app_assoc).
      rewrite io_app, !io_lock_log by auto. done.
    + rewrite Hcopy. by destruct (unread (conn w)).
Qed.

Lemma X14_conn_read_everything_witness :
  inlock short_read = false ∧ inbuf_ok (conn short_read) ∧
  ∃ r w' s,
    conn_read_everything short_read = Some (r, w') ∧ inlock w' = false ∧
    inbuf_ok (conn w') ∧ unread (conn w') = [] ∧
    ((unread (conn short_read) ≠ [] ∧ s = unread (conn short_read) ∧
      io (calls_since short_read w') = []) ∨
     (unread (conn short_read) = [] ∧ s = bytes_of (next_read short_read) ∧
      io (calls_since short_read w') = [IoRead])) ∧
    r = (if s is [] then None else Some s).
Proof.
  assert (H1 : inlock short_read = false) by reflexivity.
  assert (H2 : inbuf_ok (conn short_read)) by (vm_compute; split; discriminate).
  exact (conj H1 (conj H2 (X14_conn_read_everything short_read H1 H2))).
Defined.

(** *** Writing *)

Lemma unsent_len c : outbuf_ok c → octstr_len (unsent c) = unlocked_outbuf_len c.
Proof.
  intros [H1 H2]. unfold unsent, unlocked_outbuf_len, octstr_len in *.
  rewrite length_drop. lia.
Qed.

Lemma unsent_append c data :
  outbuf_ok c →
  unsent (set_outbuf (outbuf c ++ data) (outbufpos c) c) = unsent c ++ data ∧
  outbuf_ok (set_outbuf (outbuf c ++ data) (outbufpos c) c).
Proof.
  intros [H1 H2]. unfold unsent, outbuf_ok. simpl. split.
  - rewrite drop_app_le; [done|]. unfold octstr_len in H2. lia.
  - rewrite octstr_len_app. unfold octstr_len in *. lia.
Qed.

Lemma unsent_after_write ret c :
  outbuf_ok c → 0 ≤ ret ≤ unlocked_outbuf_len c →
  unsent (after_write ret c) = drop (Z.to_nat ret) (unsent c) ∧
  outbuf_ok (after_write ret c).
Proof.
  intros [H1 H2] [H3 H4]. unfold unlocked_outbuf_len in H4.
  destruct (after_write_spec ret c) as (Ha & Hb & _). cbv zeta in Ha, Hb.
  unfold unsent, outbuf_ok.
  destruct (Z.lt_ge_cases (octstr_len (outbuf c) / 2) (outbufpos c + ret)) as [E|E].
  - destruct (Ha E) as [-> ->]. split.
    + rewrite Z2Nat.inj_0, drop_0, drop_drop. f_equal. lia.
    + unfold octstr_len. lia.
  - destruct (Hb E) as [-> ->]. split.
    + rewrite drop_drop. f_equal. lia.
    + lia.
Qed.

Lemma unlocked_try_write_eq w :
  unlocked_try_write w =
    Some (if unlocked_outbuf_len (conn w) =? 0 then (0, w)
          else if unlocked_outbuf_len (conn w) <? output_buffering (conn w)
          then (1, w)
          else if next_write w <? 0
          then (-1, mkWorld (conn w) (inlock w) (outlock w) (tl (writes w))
                      (reads w) (polls w)
                      (calls w ++ [SysWrite (outbufpos (conn w)) (next_write w)]))
          else (if 0 <? unlocked_outbuf_len (after_write (next_write w) (conn w))
                then 1 else 0,
                mkWorld (after_write (next_write w) (conn w)) (inlock w) (outlock w)
                  (tl (writes w)) (reads w) (polls w)
                  (calls w ++ SysWrite (outbufpos (conn w)) (next_write w)
                     :: write_log (next_write w) (conn w)))).
Proof.
  unfold unlocked_try_write. rewrite (bind_eq _ _ _ _ _ eq_refl).
  destruct (unlocked_outbuf_len (conn w) =? 0); [done|].
  destruct (unlocked_outbuf_len (conn w) <? output_buffering (conn w)); [done|].
  destruct (next_write w <? 0) eqn:E2.
  - apply Z.ltb_lt in E2. by rewrite (bind_eq _ _ _ _ _ (unlocked_write_fail w E2)).
  - apply Z.ltb_ge in E2. rewrite (bind_eq _ _ _ _ _ (unlocked_write_ok w E2)).
    replace (next_write w <? 0) with false by (symmetry; by apply Z.ltb_ge).
    rewrite (bind_eq _ _ _ _ _ eq_refl). simpl.
    by destruct (0 <? unlocked_outbuf_len _).
Qed.

(** X15: [conn_write] neither loses nor repeats a byte.  With [pending]
    the unsent bytes followed by [data]: nothing is written when
    [pending] is empty (result 0) or shorter than [output_buffering]
    (result 1); else one write is made, a failed write leaves [pending]
    unsent (result -1), and a write of [n] bytes leaves [pending] without
    its first [n] bytes, with result 1 iff some are left.  The lock is
    free again afterwards. *)
Theorem X15_conn_write data w :
  outlock w = false → outbuf_ok (conn w) →
  next_write w ≤ octstr_len (unsent (conn w) ++ data) →
  ∃ ret w',
    conn_write data w = Some (ret, w') ∧ outlock w' = false ∧
    outbuf_ok (conn w') ∧
    if octstr_len (unsent (conn w) ++ data) =? 0 then
      ret = 0 ∧ unsent (conn w') = [] ∧ io (calls_since w w') = []
    else if octstr_len (unsent (conn w) ++ data) <? output_buffering (conn w) then
      ret = 1 ∧ unsent (conn w') = unsent (conn w) ++ data ∧
      io (calls_since w w') = []
    else
      io (calls_since w w') = [IoWrite] ∧
      if next_write w <? 0 then
        ret = -1 ∧ unsent (conn w') = unsent (conn w) ++ data
      else
        unsent (conn w') = drop (Z.to_nat (next_write w)) (unsent (conn w) ++ data) ∧
        ret = if unsent (conn w') is [] then 0 else 1.
Proof.
  intros Hl Hok Hw. unfold conn_write.
  rewrite (bind_eq _ _ _ _ _ (lock_out_eq w Hl)).
  rewrite (bind_eq _ _ _ _ _ eq_refl). simpl.
  destruct (unsent_append (conn w) data Hok) as [Hu Hok1].
  set (c1 := set_outbuf (outbuf (conn w) ++ data) (outbufpos (conn w)) (conn w)) in *.
  rewrite <- Hu in *. rewrite (unsent_len _ Hok1) in *.
  rewrite (bind_eq_pair _ _ _ _ (unlocked_try_write_eq _)).
  unfold next_write. simpl. fold (next_write w).
  destruct (unlocked_outbuf_len c1 =? 0) eqn:E0.
  { simpl. erewrite unlock_out_eq_ret by done. eexists _, _.
    split; [done|]. simpl. split; [done|]. split; [done|]. split; [done|]. split.
    - apply Z.eqb_eq in E0. rewrite <- (unsent_len _ Hok1) in E0.
      unfold octstr_len in E0. by destruct (unsent c1).
    - erewrite calls_since_app by (simpl; by rewrite <- !app_assoc).
      rewrite io_app, !io_lock_log by auto. done. }
  change (output_buffering c1) with (output_buffering (conn w)).
  destruct (unlocked_outbuf_len c1 <? output_buffering (conn w)) eqn:E1.
  { simpl. erewrite unlock_out_eq_ret by done. eexists _, _.
    split; [done|]. simpl. split; [done|]. split; [done|]. split; [done|].
    split; [done|].
    erewrite calls_since_app by (simpl; by rewrite <- !app_assoc).
    rewrite io_app, !io_lock_log by auto. done. }
  destruct (next_write w <? 0) eqn:E2.
  - simpl. erewrite unlock_out_eq_ret by done. eexists _, _.
    split; [done|]. simpl. split; [done|]. split; [done|].
    split; [|done].
    erewrite calls_since_app by (simpl; by rewrite <- !app_assoc).
    rewrite !io_app, !io_lock_log by auto. done.
  - apply Z.ltb_ge in E2. simpl.
    destruct (unsent_after_write (next_write w) c1 Hok1) as [Hu2 Hok2]; [done|].
    set (c2 := after_write (next_write w) c1) in *.
    assert (Hret : (if 0 <? unlocked_outbuf_len c2 then 1 else 0) =
                   (if unsent c2 is [] then 0 else 1)).
    { rewrite <- (unsent_len _ Hok2). unfold octstr_len. clear Hu2.
      destruct (unsent c2) as [|b l]; [done|].
      by replace (0 <? Z.of_nat (length (b :: l))) with true
        by (symmetry; apply Z.ltb_lt; simpl; lia). }
    erewrite unlock_out_eq_ret by (simpl; unfold c2; by rewrite after_write_claimed).
    eexists _, _.
    split; [done|]. simpl. split; [done|]. split; [done|]. split; [|done].
    erewrite calls_since_app by (simpl; by rewrite <- !app_assoc).
    rewrite !io_app, io_cons, !io_lock_log by auto.
    by rewrite (quiet_io _ (quiet_write_log _ _)).
Qed.

Lemma X15_conn_write_witness :
  outlock partial_write = false ∧ outbuf_ok (conn partial_write) ∧
  next_write partial_write ≤
    octstr_len (unsent (conn partial_write) ++ [x61; x62; x63]) ∧
  ∃ ret w',
    conn_write [x61; x62; x63] partial_write = Some (ret, w') ∧
    outlock w' = false ∧ outbuf_ok (conn w') ∧
    if octstr_len (unsent (conn partial_write) ++ [x61; x62; x63]) =? 0 then
      ret = 0 ∧ unsent (conn w') = [] ∧ io (calls_since partial_write w') = []
    else if octstr_len (unsent (conn partial_write) ++ [x61; x62; x63])
              <? output_buffering (conn partial_write) then
      ret = 1 ∧ unsent (conn w') = unsent (conn partial_write) ++ [x61; x62; x63] ∧
      io (calls_since partial_write w') = []
    else
      io (calls_since partial_write w') = [IoWrite] ∧
      if next_write partial_write <? 0 then
        ret = -1 ∧ unsent (conn w') = unsent (conn partial_write) ++ [x61; x62; x63]
      else
        unsent (conn w') =
          drop (Z.to_nat (next_write partial_write))
            (unsent (conn partial_write) ++ [x61; x62; x63]) ∧
        ret = if unsent (conn w') is [] then 0 else 1.
Proof.
  assert (H1 : outlock partial_write = false) by reflexivity.
  assert (H2 : outbuf_ok (conn partial_write)) by (vm_compute; split; discriminate).
  assert (H3 : next_write partial_write ≤
               octstr_len (unsent (conn partial_write) ++ [x61; x62; x63]))
    by (vm_compute; discriminate).
  exact (conj H1 (conj H2 (conj H3
    (X15_conn_write [x61; x62; x63] partial_write H1 H2 H3)))).
Defined.

(** *** The length prefix *)

Lemma byte_value_of_Z z : byte_value (byte_of_Z z) = z mod 256.
Proof.
  unfold byte_value, byte_of_Z.
  assert (Hm : 0 ≤ z mod 256 < 256) by (apply Z.mod_pos_bound; lia).
  destruct (Byte.of_N (Z.to_N (z mod 256))) as [b|] eqn:E.
  - apply Byte.to_of_N in E. simpl. rewrite E. lia.
  - apply Byte.of_N_None_iff in E. lia.
Qed.

Lemma decode_encode n l :
  0 ≤ n < 2147483648 →
  decode_network_long (encode_network_long n ++ l) = n.
Proof.
  intros Hn. unfold decode_network_long, encode_network_long. simpl.
  rewrite !byte_value_of_Z.
  assert (E : (((0 * 256 + (n / 16777216) mod 256) * 256 + (n / 65536) mod 256) * 256 +
               (n / 256) mod 256) * 256 + n mod 256 = n).
  { pose proof (Z.div_mod n 256 ltac:(lia)).
    pose proof (Z.div_mod (n / 256) 256 ltac:(lia)).
    pose proof (Z.div_mod (n / 256 / 256) 256 ltac:(lia)).
    rewrite (Z.div_div n 256 256) in * by lia.
    pose proof (Z.div_mod (n / 65536 / 256) 256 ltac:(lia)).
    rewrite (Z.div_div n 65536 256) in * by lia.
    change (256 * 256) with 65536 in *. change (65536 * 256) with 16777216 in *.
    assert (n / 16777216 / 256 = 0) by (rewrite Z.div_div by lia; apply Z.div_small; lia).
    lia. }
  rewrite E. replace (n <? 2147483648) with true by (symmetry; apply Z.ltb_lt; lia).
  done.
Qed.

Lemma spec_read_withlen_encoded data rest next :
  octstr_len data < 2147483648 →
  spec_read_withlen (encode_network_long (octstr_len data) ++ data ++ rest) next =
    mkFrameResult (Some data) rest 0 false.
Proof.
  intros Hn. assert (H0 : 0 ≤ octstr_len data) by (unfold octstr_len; lia).
  unfold spec_read_withlen.
  assert (Hs : skip_negative (encode_network_long (octstr_len data) ++ data ++ rest) =
               (encode_network_long (octstr_len data) ++ data ++ rest, 0%nat)).
  { pose proof (decode_encode (octstr_len data) [] ltac:(lia)) as Hd.
    rewrite app_nil_r in Hd. unfold encode_network_long in *.
    cbn [app skip_negative]. rewrite Hd.
    by replace (octstr_len data <? 0) with false by (symmetry; apply Z.ltb_ge; lia). }
  rewrite Hs. unfold take_frame.
  replace (take 4 (encode_network_long (octstr_len data) ++ data ++ rest))
    with (encode_network_long (octstr_len data) ++ []) by (by rewrite app_nil_r).
  rewrite decode_encode by lia.
  rewrite !octstr_len_app.
  replace (octstr_len (encode_network_long (octstr_len data))) with 4 by done.
  replace (4 + (octstr_len data + octstr_len rest) <? 4) with false
    by (symmetry; apply Z.ltb_ge; unfold octstr_len; lia).
  replace (octstr_len data <? 0) with false by (symmetry; apply Z.ltb_ge; lia).
  replace (4 + (octstr_len data + octstr_len rest) - 4 <? octstr_len data) with false
    by (symmetry; apply Z.ltb_ge; unfold octstr_len; lia).
  unfold octstr_len. rewrite Nat2Z.id.
  change (drop 4 (encode_network_long _ ++ data ++ rest)) with (data ++ rest).
  rewrite take_app_length.
  change (drop (4 + length data) (encode_network_long _ ++ data ++ rest))
    with (drop (length data) (data ++ rest)).
  by rewrite drop_app_length.
Qed.

Lemma conn_write_withlen_eq data w :
  conn_write_withlen data w =
    conn_write (encode_network_long (octstr_len data) ++ data) w.
Proof.
  unfold conn_write_withlen, conn_write.
  apply bind_ext. intros [] w1 _.
  unfold mbind, M_bind, modify. simpl. by rewrite <- app_assoc.
Qed.

(** X16: what [conn_write_withlen] appends for [data], the four bytes of
    the length and then [data], is what [conn_read_withlen] takes apart:
    with these bytes at the head of the unread input it returns [data]
    without a read or a warning, and leaves what follows them unread. *)
Theorem X16_withlen_round_trip data rest ww wr :
  octstr_len data < 2147483648 →
  inlock wr = false → inbuf_ok (conn wr) →
  unread (conn wr) = encode_network_long (octstr_len data) ++ data ++ rest →
  conn_write_withlen data ww =
    conn_write (encode_network_long (octstr_len data) ++ data) ww ∧
  ∃ w', conn_read_withlen wr = Some (Some data, w') ∧
    unread (conn w') = rest ∧ inlock w' = false ∧
    io (calls_since wr w') = [] ∧ warnings (calls_since wr w') = 0%nat.
Proof.
  intros Hn Hl Hok Hu. split; [apply conn_write_withlen_eq|].
  unfold conn_read_withlen.
  rewrite (bind_eq _ _ _ _ _ (lock_in_eq wr Hl)).
  set (w1 := mkWorld (conn wr) (negb (claimed (conn wr))) (outlock wr) (writes wr)
               (reads wr) (polls wr) (calls wr ++ lock_log (conn wr) LockIn)).
  destruct (withlen_loop_spec w1 Hok)
    as (w2 & l & H & Hu2 & Hc & Hw & Hio & Hl2 & Hcl).
  change (unread (conn w1)) with (unread (conn wr)) in *.
  change (next_read w1) with (next_read wr) in *.
  rewrite Hu, spec_read_withlen_encoded in * by done. simpl in *.
  rewrite (bind_eq _ _ _ _ _ H).
  rewrite unlock_in_eq_ret by (by rewrite Hl2, Hcl).
  eexists. split; [reflexivity|]. simpl.
  split; [exact Hu2|]. split; [done|].
  erewrite calls_since_app by (rewrite Hc; simpl; by rewrite <- !app_assoc).
  split.
  - rewrite !io_app, !io_lock_log by auto. by rewrite Hio.
  - rewrite !warnings_app, !warnings_lock_log by auto. rewrite Hw. lia.
Qed.

Lemma X16_withlen_round_trip_witness :
  octstr_len [x6f; x6b] < 2147483648 ∧
  inlock framed_ok = false ∧ inbuf_ok (conn framed_ok) ∧
  unread (conn framed_ok) =
    encode_network_long (octstr_len [x6f; x6b]) ++ [x6f; x6b] ++ [x21] ∧
  conn_write_withlen [x6f; x6b] (fresh_world [] [] []) =
    conn_write (encode_network_long (octstr_len [x6f; x6b]) ++ [x6f; x6b])
      (fresh_world [] [] []) ∧
  ∃ w', conn_read_withlen framed_ok = Some (Some [x6f; x6b], w') ∧
    unread (conn w') = [x21] ∧ inlock w' = false ∧
    io (calls_since framed_ok w') = [] ∧ warnings (calls_since framed_ok w') = 0%nat.
Proof.
  assert (H1 : octstr_len [x6f; x6b] < 2147483648) by (vm_compute; reflexivity).
  assert (H2 : inlock framed_ok = false) by reflexivity.
  assert (H3 : inbuf_ok (conn framed_ok)) by (vm_compute; split; discriminate).
  assert (H4 : unread (conn framed_ok) =
               encode_network_long (octstr_len [x6f; x6b]) ++ [x6f; x6b] ++ [x21])
    by (vm_compute; reflexivity).
  exact (conj H1 (conj H2 (conj H3 (conj H4
    (X16_withlen_round_trip [x6f; x6b] [x21] (fresh_world [] [] []) framed_ok
       H1 H2 H3 H4))))).
Defined.

(** *** [conn_flush] *)

Lemma flush_loop_spec fuel : ∀ w,
  (length (polls w) < fuel)%nat → outlock w = negb (claimed (conn w)) →
  ∃ r w',
    flush_loop fuel w = Some (r, w') ∧ (r = 0 ∨ r = 1 ∨ r = -1) ∧
    outlock w' = (r =? 0) && negb (claimed (conn w)) ∧
    claimed (conn w') = claimed (conn w) ∧ inlock w' = inlock w ∧
    (r = 0 → unlocked_outbuf_len (conn w') = 0).
Proof.
  induction fuel as [|fuel IH]; intros w Hf Hl; [lia|].
  simpl. rewrite (bind_eq _ _ _ _ _ eq_refl). cbv beta.
  destruct (unlocked_outbuf_len (conn w) =? 0) eqn:E0.
  { apply Z.eqb_eq in E0. exists 0, w. rewrite Hl. repeat split; auto. }
  rewrite (bind_eq _ _ _ _ _ (unlock_out_eq w Hl)).
  rewrite (bind_eq _ _ _ _ _ eq_refl). simpl.
  destruct (polls w) as [|[revents errno] ps] eqn:Ep; simpl.
  { eexists 1, _. split; [done|]. simpl. split; [auto|]. done. }
  destruct (revents <? 0) eqn:E1.
  { destruct (errno =? EINTR).
    - eexists 1, _. split; [done|]. simpl. split; [auto|]. done.
    - eexists (-1), _. split; [done|]. simpl. split; [auto|]. done. }
  destruct (revents =? 0) eqn:E2.
  { eexists 1, _. split; [done|]. simpl. split; [auto|]. done. }
  destruct (has_events revents POLLNVAL) eqn:E3.
  { eexists (-1), _. split; [done|]. simpl. split; [auto|]. done. }
  erewrite bind_eq by (by apply lock_out_eq).
  simpl in Hf. simpl.
  match goal with |- context [(_ ≫= _) ?w1] => set (w2 := w1) end.
  destruct (has_events revents (Z.lor POLLOUT (Z.lor POLLERR POLLHUP))).
  - destruct (Z.lt_ge_cases (next_write w2) 0) as [E4|E4].
    + rewrite (bind_eq _ _ _ _ _ (unlocked_write_fail w2 E4)).
      replace (-1 <? 0) with true by done.
      erewrite unlock_out_eq_ret by done.
      eexists (-1), _. split; [done|]. simpl. split; [auto|]. done.
    + rewrite (bind_eq _ _ _ _ _ (unlocked_write_ok w2 E4)).
      replace (next_write w2 <? 0) with false by (symmetry; by apply Z.ltb_ge).
      match goal with |- context [flush_loop fuel ?w1] => set (w3 := w1) end.
      destruct (IH w3) as (r & w' & H & Hr & Ho & Hc & Hi & Hz).
      { simpl. lia. }
      { simpl. by rewrite after_write_claimed. }
      exists r, w'. split; [done|]. split; [done|].
      simpl in Ho, Hc, Hi. rewrite after_write_claimed in Ho, Hc. done.
  - rewrite (bind_eq _ _ _ _ _ eq_refl). replace (0 <? 0) with false by done.
    destruct (IH w2) as (r & w' & H & Hr & Ho & Hc & Hi & Hz);
      [simpl; lia|done|].
    exists r, w'. done.
Qed.

(** X17: [conn_flush] returns 0, 1 or -1, and 0 only with an empty output
    buffer.  When it returns 1 or -1 the out lock is free again; when it
    returns 0 the lock of an unclaimed connection is still held, so that
    the next [conn_write] or [conn_flush] on it does not return. *)
Theorem X17_conn_flush w :
  outlock w = false →
  ∃ r w',
    conn_flush w = Some (r, w') ∧ (r = 0 ∨ r = 1 ∨ r = -1) ∧
    outlock w' = (r =? 0) && negb (claimed (conn w)) ∧
    (r = 0 → unlocked_outbuf_len (conn w') = 0) ∧
    (r = 0 → claimed (conn w) = false →
     ∀ data, conn_write data w' = None ∧ conn_flush w' = None).
Proof.
  intros Hl. unfold conn_flush at 1.
  rewrite (bind_eq _ _ _ _ _ (lock_out_eq w Hl)).
  match goal with |- context [(_ ≫= _) ?x] => set (w1 := x) end.
  assert (Hlast : ∀ r w',
    outlock w' = (r =? 0) && negb (claimed (conn w)) →
    claimed (conn w') = claimed (conn w) →
    r = 0 → claimed (conn w) = false →
    ∀ data, conn_write data w' = None ∧ conn_flush w' = None).
  { intros r w' Ho Hc -> Hcl data. rewrite Hcl in Ho, Hc. simpl in Ho.
    unfold conn_write, conn_flush, lock_out, mbind, M_bind, get. simpl.
    by rewrite Hc, Ho. }
  destruct (Z.lt_ge_cases (next_write w1) 0) as [E|E].
  - rewrite (bind_eq _ _ _ _ _ (unlocked_write_fail w1 E)).
    replace (-1 <? 0) with true by done.
    erewrite unlock_out_eq_ret by done.
    eexists (-1), _. split; [done|]. simpl. split; [auto|]. done.
  - rewrite (bind_eq _ _ _ _ _ (unlocked_write_ok w1 E)).
    replace (next_write w1 <? 0) with false by (symmetry; by apply Z.ltb_ge).
    match goal with |- context [flush_loop _ ?x] => set (w2 := x) end.
    destruct (flush_loop_spec (S (length (polls w2))) w2)
      as (r & w' & H & Hr & Ho & Hc & Hi & Hz).
    { lia. }
    { simpl. by rewrite after_write_claimed. }
    simpl in Ho, Hc. rewrite after_write_claimed in Ho, Hc.
    exists r, w'. split; [done|]. split; [done|]. split; [done|]. split; [done|].
    by apply Hlast.
Qed.

Lemma X17_conn_flush_witness :
  outlock (fresh_world [] [] []) = false ∧
  ∃ r w',
    conn_flush (fresh_world [] [] []) = Some (r, w') ∧ (r = 0 ∨ r = 1 ∨ r = -1) ∧
    outlock w' = (r =? 0) && negb (claimed (conn (fresh_world [] [] []))) ∧
    (r = 0 → unlocked_outbuf_len (conn w') = 0) ∧
    (r = 0 → claimed (conn (fresh_world [] [] [])) = false →
     ∀ data, conn_write data w' = None ∧ conn_flush w' = None).
Proof.
  assert (H : outlock (fresh_world [] [] []) = false) by reflexivity.
  exact (conj H (X17_conn_flush (fresh_world [] [] []) H)).
Defined.

(** *** [poll_callback] *)

Lemma write_section_eq w :
  outlock w = false →
  (lock_out;; unlocked_write;; unlock_out) w =
    Some (tt,
      if next_write w <? 0
      then mkWorld (conn w) (inlock w) false (tl (writes w)) (reads w) (polls w)
             (calls w ++ lock_log (conn w) LockOut ++
                [SysWrite (outbufpos (conn w)) (next_write w)] ++
                lock_log (conn w) UnlockOut)
      else mkWorld (after_write (next_write w) (conn w)) (inlock w) false
             (tl (writes w)) (reads w) (polls w)
             (calls w ++ lock_log (conn w) LockOut ++
                SysWrite (outbufpos (conn w)) (next_write w)
                  :: write_log (next_write w) (conn w) ++
                lock_log (conn w) UnlockOut)).
Proof.
  intros Hl. rewrite (bind_eq _ _ _ _ _ (lock_out_eq w Hl)).
  match goal with |- context [(_ ≫= _) ?x] => set (w1 := x) end.
  change (next_write w) with (next_write w1).
  destruct (next_write w1 <? 0) eqn:E.
  - apply Z.ltb_lt in E. rewrite (bind_eq _ _ _ _ _ (unlocked_write_fail w1 E)).
    rewrite unlock_out_eq by done. simpl. by rewrite <- !app_assoc.
  - apply Z.ltb_ge in E. rewrite (bind_eq _ _ _ _ _ (unlocked_write_ok w1 E)).
    rewrite unlock_out_eq by (simpl; by rewrite after_write_claimed).
    simpl. unfold lock_log. rewrite after_write_claimed.
    by rewrite <- !app_assoc.
Qed.

Lemma quiet_no_callback l : quiet l → UserCallback ∉ l.
Proof.
  intros H Hin. unfold quiet in H. rewrite Forall_forall in H.
  by destruct (H _ Hin) as [?|(? & ? & ?)].
Qed.

Lemma lock_log_no_callback c e : e ≠ UserCallback → UserCallback ∉ lock_log c e.
Proof. unfold lock_log. destruct (claimed c); set_solver. Qed.

Ltac no_callback :=
  repeat first [rewrite not_elem_of_app|rewrite not_elem_of_cons|split];
  try done; try (by apply lock_log_no_callback);
  try (apply quiet_no_callback; first [apply quiet_write_log|apply quiet_read_log]);
  try apply not_elem_of_nil.



(** *** [conn_register] and [conn_unregister] *)

Lemma register_section {A : Type} (k : Connection → M A) w a c' l :
  at_rest w →
  k (conn w)
    (mkWorld (conn w) (negb (claimed (conn w))) (negb (claimed (conn w)))
       (writes w) (reads w) (polls w)
       (calls w ++ lock_log (conn w) LockOut ++ lock_log (conn w) LockIn)) =
    Some (a, mkWorld c' (negb (claimed (conn w))) (negb (claimed (conn w)))
               (writes w) (reads w) (polls w)
               (calls w ++ lock_log (conn w) LockOut ++ lock_log (conn w) LockIn
                  ++ l)) →
  claimed c' = claimed (conn w) →
  (lock_out;; lock_in;; c ← get; result ← k c; unlock_in;; unlock_out;; mret result) w =
    Some (a, mkWorld c' false false (writes w) (reads w) (polls w)
               (calls w ++ lock_log (conn w) LockOut ++ lock_log (conn w) LockIn
                  ++ l ++ lock_log (conn w) UnlockIn ++ lock_log (conn w) UnlockOut)).
Proof.
  intros [Hi Ho] Hk Hc.
  rewrite (bind_eq _ _ _ _ _ (lock_out_eq w Ho)).
  erewrite bind_eq by (by apply lock_in_eq).
  rewrite (bind_eq _ _ _ _ _ eq_refl). simpl.
  rewrite <- app_assoc.
  rewrite (bind_eq _ _ _ _ _ Hk).
  erewrite bind_eq by (apply unlock_in_eq; simpl; by rewrite Hc).
  erewrite unlock_out_eq_ret by (simpl; by rewrite Hc).
  simpl. unfold lock_log. rewrite Hc. by rewrite <- !app_assoc.
Qed.

(** X19: [conn_register] of an unregistered connection returns 0 and
    tells the set of descriptors once, with POLLIN iff neither the end of
    the input nor a read error was seen and POLLOUT iff bytes are unsent;
    both locks are taken, the out lock first, and released in the reverse
    order.  Registered with a set, the connection refuses any other set
    with -1 and no change; with the same set only the callback and its
    data change, and the set is not told.  [conn_unregister] tells the
    set once and clears the registration, the callback and what the
    connection listens for. *)
Theorem X19_register_unregister f cb data w :
  at_rest w → 0 ≤ fd (conn w) → registered (conn w) = None →
  ∃ w1,
    conn_register (Some f) cb data w = Some (0, w1) ∧ at_rest w1 ∧
    conn w1 =
      set_registration (Some f) cb data
        (negb (read_eof (conn w)) && negb (read_error (conn w)))
        (0 <? unlocked_outbuf_len (conn w)) (conn w) ∧
    calls_since w w1 =
      lock_log (conn w) LockOut ++ lock_log (conn w) LockIn ++
      [FdsetRegister (register_events (conn w))] ++
      lock_log (conn w) UnlockIn ++ lock_log (conn w) UnlockOut ∧
    (∀ f' cb' data', f' ≠ Some f →
     ∃ w2, conn_register f' cb' data' w1 = Some (-1, w2) ∧ conn w2 = conn w1 ∧
       at_rest w2) ∧
    (∀ cb' data',
     ∃ w2, conn_register (Some f) cb' data' w1 = Some (0, w2) ∧ at_rest w2 ∧
       conn w2 =
         set_registration (Some f) cb' data' (listening_pollin (conn w1))
           (listening_pollout (conn w1)) (conn w1) ∧
       calls_since w1 w2 =
         lock_log (conn w) LockOut ++ lock_log (conn w) LockIn ++
         lock_log (conn w) UnlockIn ++ lock_log (conn w) UnlockOut) ∧
    ∃ w2, conn_unregister w1 = Some (tt, w2) ∧ at_rest w2 ∧
      conn w2 = set_registration None None None false false (conn w) ∧
      calls_since w1 w2 =
        lock_log (conn w) LockOut ++ lock_log (conn w) LockIn ++
        [FdsetUnregister] ++
        lock_log (conn w) UnlockIn ++ lock_log (conn w) UnlockOut.
Proof.
  intros Hr Hfd Hreg.
  assert (Hfd' : (fd (conn w) <? 0) = false) by (by apply Z.ltb_ge).
  eexists. split.
  { unfold conn_register. rewrite (bind_eq _ _ _ _ _ eq_refl). cbv beta.
    rewrite Hfd'. eapply (register_section _ w 0).
    - exact Hr.
    - rewrite Hreg. rewrite bool_decide_eq_false_2 by done.
      rewrite (bind_eq _ _ _ _ _ eq_refl). cbv beta.
      rewrite (bind_eq _ _ _ _ _ eq_refl).
      cbn [conn inlock outlock writes reads polls calls].
      rewrite <- !app_assoc. reflexivity.
    - reflexivity. }
  set (c1 := set_registration _ _ _ _ _ (conn w)).
  match goal with |- context [at_rest ?x] => set (w1 := x) end.
  assert (Hr1 : at_rest w1) by done.
  split; [done|]. split.
  { unfold w1, c1. simpl. f_equal; apply has_events_wait. }
  split.
  { by erewrite calls_since_app by (simpl; reflexivity). }
  split; [|split].
  - intros f' cb' data' Hf'. eexists. split.
    { unfold conn_register. rewrite (bind_eq _ _ _ _ _ eq_refl). cbv beta.
      change (fd (conn w1)) with (fd (conn w)). rewrite Hfd'.
      eapply (register_section _ w1 (-1) (conn w1) []).
      - exact Hr1.
      - change (registered (conn w1)) with (Some f).
        rewrite bool_decide_eq_false_2 by done.
        by rewrite !app_nil_r.
      - reflexivity. }
    done.
  - intros cb' data'. eexists. split.
    { unfold conn_register. rewrite (bind_eq _ _ _ _ _ eq_refl). cbv beta.
      change (fd (conn w1)) with (fd (conn w)). rewrite Hfd'.
      eapply (register_section _ w1 0 _ []).
      - exact Hr1.
      - change (registered (conn w1)) with (Some f).
        rewrite bool_decide_eq_true_2 by done.
        rewrite (bind_eq _ _ _ _ _ eq_refl).
        cbn [conn inlock outlock writes reads polls calls].
        by rewrite !app_nil_r.
      - reflexivity. }
    split; [done|]. split; [done|].
    by erewrite calls_since_app by (simpl; reflexivity).
  - unfold conn_unregister. rewrite (bind_eq _ _ _ _ _ eq_refl). cbv beta.
    change (fd (conn w1)) with (fd (conn w)). rewrite Hfd'.
    rewrite (bind_eq _ _ _ _ _ (lock_out_eq w1 (proj2 Hr1))).
    erewrite bind_eq by (by apply lock_in_eq).
    rewrite (bind_eq _ _ _ _ _ eq_refl). simpl.
    rewrite (bind_eq _ _ _ _ _ eq_refl). simpl.
    erewrite bind_eq by (by apply unlock_in_eq).
    rewrite unlock_out_eq by done. simpl.
    eexists. split; [done|]. split; [done|]. split; [done|].
    by erewrite calls_since_app by (simpl; rewrite <- !app_assoc; reflexivity).
Qed.

Lemma X19_register_unregister_witness :
  at_rest (fresh_world [] [] []) ∧ 0 ≤ fd (conn (fresh_world [] [] [])) ∧
  registered (conn (fresh_world [] [] [])) = None ∧
  ∃ w1,
    conn_register (Some 0%nat) None None (fresh_world [] [] []) = Some (0, w1) ∧
    at_rest w1 ∧
    conn w1 =
      set_registration (Some 0%nat) None None
        (negb (read_eof (conn (fresh_world [] [] []))) &&
         negb (read_error (conn (fresh_world [] [] []))))
        (0 <? unlocked_outbuf_len (conn (fresh_world [] [] [])))
        (conn (fresh_world [] [] [])) ∧
    calls_since (fresh_world [] [] []) w1 =
      lock_log (conn (fresh_world [] [] [])) LockOut ++
      lock_log (conn (fresh_world [] [] [])) LockIn ++
      [FdsetRegister (register_events (conn (fresh_world [] [] [])))] ++
      lock_log (conn (fresh_world [] [] [])) UnlockIn ++
      lock_log (conn (fresh_world [] [] [])) UnlockOut ∧
    (∀ f' cb' data', f' ≠ Some 0%nat →
     ∃ w2, conn_register f' cb' data' w1 = Some (-1, w2) ∧ conn w2 = conn w1 ∧
       at_rest w2) ∧
    (∀ cb' data',
     ∃ w2, conn_register (Some 0%nat) cb' data' w1 = Some (0, w2) ∧ at_rest w2 ∧
       conn w2 =
         set_registration (Some 0%nat) cb' data' (listening_pollin (conn w1))
           (listening_pollout (conn w1)) (conn w1) ∧
       calls_since w1 w2 =
         lock_log (conn (fresh_world [] [] [])) LockOut ++
         lock_log (conn (fresh_world [] [] [])) LockIn ++
         lock_log (conn (fresh_world [] [] [])) UnlockIn ++
         lock_log (conn (fresh_world [] [] [])) UnlockOut) ∧
    ∃ w2, conn_unregister w1 = Some (tt, w2) ∧ at_rest w2 ∧
      conn w2 =
        set_registration None None None false false (conn (fresh_world [] [] [])) ∧
      calls_since w1 w2 =
        lock_log (conn (fresh_world [] [] [])) LockOut ++
        lock_log (conn (fresh_world [] [] [])) LockIn ++
        [FdsetUnregister] ++
        lock_log (conn (fresh_world [] [] [])) UnlockIn ++
        lock_log (conn (fresh_world [] [] [])) UnlockOut.
Proof.
  assert (H1 : at_rest (fresh_world [] [] [])) by (split; reflexivity).
  assert (H2 : 0 ≤ fd (conn (fresh_world [] [] []))) by (vm_compute; discriminate).
  assert (H3 : registered (conn (fresh_world [] [] [])) = None) by reflexivity.
  exact (conj H1 (conj H2 (conj H3
    (X19_register_unregister 0%nat None None (fresh_world [] [] []) H1 H2 H3)))).
Defined.

(** *** [conn_read_packet] *)

Lemma packet_scan (next : M (option Octstr)) startmark endmark w :
  inbuf_ok (conn w) →
  ∃ r rest pos,
    scanned startmark endmark (unread (conn w)) r rest ∧
    unread (set_inbuf (inbuf (conn w)) pos (conn w)) = rest ∧
    inbuf_ok (set_inbuf (inbuf (conn w)) pos (conn w)) ∧
    (c ← get;
     let startpos := octstr_search_char (inbuf c) startmark (inbufpos c) in
     if startpos <? 0 then
       modify (λ c, set_inbuf (inbuf c) (octstr_len (inbuf c)) c);;
       next
     else
       modify (λ c, set_inbuf (inbuf c) startpos c);;
       c ← get;
       let endpos := octstr_search_char (inbuf c) endmark (inbufpos c) in
       if endpos <? 0 then next
       else
         result ← unlocked_get (endpos - startpos + 1);
         mret (Some result)) w =
    let w' := mkWorld (set_inbuf (inbuf (conn w)) pos (conn w)) (inlock w) (outlock w)
                (writes w) (reads w) (polls w) (calls w) in
    match r with
    | Some p => Some (Some p, w')
    | None => next w'
    end.
Proof.
  intros Hok. rewrite (bind_eq _ _ _ _ _ eq_refl). cbv beta zeta.
  destruct (search_char_spec (inbuf (conn w)) startmark (inbufpos (conn w)))
    as [[Hno E]|(junk & b & tl & Es & Hno & Hb & E)]; [apply Hok|..];
    fold (unread (conn w)) in *; rewrite E.
  - (* no start mark: everything is discarded *)
    exists None, [], (octstr_len (inbuf (conn w))).
    split; [by left|]. split.
    { unfold unread, octstr_len. simpl. rewrite Nat2Z.id. by apply drop_all. }
    split.
    { unfold inbuf_ok. simpl. unfold octstr_len. lia. }
    replace (-1 <? 0) with true by done.
    by rewrite (bind_eq _ _ _ _ _ eq_refl).
  - destruct (unread_split (conn w) junk (b :: tl) Hok Es) as (_ & Hu1 & Hok1 & _).
    replace (inbufpos (conn w) + octstr_len junk <? 0) with false
      by (symmetry; apply Z.ltb_ge; destruct Hok; unfold octstr_len; lia).
    rewrite (bind_eq _ _ _ _ _ eq_refl). cbv beta.
    rewrite (bind_eq _ _ _ _ _ eq_refl). cbv beta zeta.
    set (c1 := set_inbuf (inbuf (conn w)) (inbufpos (conn w) + octstr_len junk)
                 (conn w)) in *.
    cbn [conn].
    change (octstr_search_char (inbuf c1) endmark (inbufpos c1))
      with (octstr_search_char (inbuf (conn w)) endmark
              (inbufpos (conn w) + octstr_len junk)).
    destruct (search_char_spec (inbuf (conn w)) endmark
                (inbufpos (conn w) + octstr_len junk))
      as [[Hno2 E2]|(body & e & rest & Es2 & Hno2 & He & E2)];
      [destruct Hok; unfold octstr_len; lia|..];
      change (drop _ (inbuf (conn w))) with (unread c1) in *; rewrite E2.
    + (* a start mark and no end mark: kept from the start mark on *)
      exists None, (b :: tl), (inbufpos (conn w) + octstr_len junk).
      split; [|done].
      right. exists junk. split; [done|]. split; [done|].
      split; [by exists b, tl|]. by rewrite <- Hu1.
    + (* a packet *)
      rewrite Hu1 in Es2.
      destruct (unread_split c1 (body ++ [e]) rest Hok1) as (Hcopy & Hu2 & Hok2 & Hlen);
        [by rewrite Hu1, Es2, <- app_assoc|].
      rewrite octstr_len_app in Hcopy, Hu2, Hok2, Hlen.
      change (octstr_len [e]) with 1 in *.
      exists (Some (body ++ [e])), rest,
        (inbufpos (conn w) + octstr_len junk + (octstr_len body + 1)).
      split.
      { exists junk. split; [by rewrite Es, Es2, <- !app_assoc|]. split; [done|].
        split; [|by exists body, e].
        destruct body as [|b' body']; simpl in Es2.
        - injection Es2 as -> _. by exists e, [].
        - injection Es2 as -> _. by exists b', (body' ++ [e]). }
      split; [done|]. split; [done|].
      replace (inbufpos (conn w) + octstr_len junk + octstr_len body <? 0) with false
        by (symmetry; apply Z.ltb_ge; destruct Hok; unfold octstr_len; lia).
      replace (inbufpos (conn w) + octstr_len junk + octstr_len body -
               (inbufpos (conn w) + octstr_len junk) + 1)
        with (octstr_len body + 1) by lia.
      erewrite bind_eq by (by apply unlocked_get_eq).
      cbn [conn inlock outlock writes reads polls calls].
      by rewrite Hcopy.
Qed.

Lemma packet_loop_unfold turns try startmark endmark :
  packet_loop (S turns) try startmark endmark =
    if try <=? 2 then
      (if 1 <? try then unlocked_read else mret tt);;
      c ← get;
      let startpos := octstr_search_char (inbuf c) startmark (inbufpos c) in
      if startpos <? 0 then
        modify (λ c, set_inbuf (inbuf c) (octstr_len (inbuf c)) c);;
        packet_loop turns (try + 1) startmark endmark
      else
        modify (λ c, set_inbuf (inbuf c) startpos c);;
        c ← get;
        let endpos := octstr_search_char (inbuf c) endmark (inbufpos c) in
        if endpos <? 0 then packet_loop turns (try + 1) startmark endmark
        else
          result ← unlocked_get (endpos - startpos + 1);
          mret (Some result)
    else mret None.
Proof. reflexivity. Qed.

Lemma after_read_ok r c : inbuf_ok c → inbuf_ok (after_read r c).
Proof.
  intros Hok. destruct (after_read_inbuf r c) as [Hi Hz]; [apply Hok|].
  unfold inbuf_ok. rewrite Hz. unfold octstr_len. lia.
Qed.

Lemma packet_loop_spec startmark endmark w :
  inbuf_ok (conn w) →
  ∃ r w' l,
    packet_loop 3 1 startmark endmark w = Some (r, w') ∧
    inlock w' = inlock w ∧ claimed (conn w') = claimed (conn w) ∧
    inbuf_ok (conn w') ∧ calls w' = calls w ++ l ∧
    ((r ≠ None ∧ scanned startmark endmark (unread (conn w)) r (unread (conn w')) ∧
      l = []) ∨
     (∃ kept,
        scanned startmark endmark (unread (conn w)) None kept ∧
        scanned startmark endmark (kept ++ bytes_of (next_read w)) r
          (unread (conn w')) ∧
        io l = [IoRead])).
Proof.
  intros Hok. rewrite packet_loop_unfold.
  replace (1 <=? 2) with true by done. replace (1 <? 1) with false by done.
  rewrite (bind_eq _ _ _ _ _ eq_refl).
  destruct (packet_scan (packet_loop 2 (1 + 1) startmark endmark)
              startmark endmark w Hok) as (r1 & kept & pos & Hs1 & Hu1 & Hok1 & ->).
  cbv zeta.
  destruct r1 as [p|].
  { eexists (Some p), _, []. split; [done|]. simpl. rewrite app_nil_r.
    split; [done|]. split; [done|]. split; [done|]. split; [done|].
    left. by rewrite Hu1. }
  rewrite packet_loop_unfold.
  replace (1 + 1 <=? 2) with true by done. replace (1 <? 1 + 1) with true by done.
  rewrite (bind_eq _ _ _ _ _ (unlocked_read_eq _)).
  match goal with |- context [(_ ≫= _) ?x] => set (w2 := x) end.
  assert (Hok2 : inbuf_ok (conn w2)) by (by apply after_read_ok).
  assert (Hu2 : unread (conn w2) = kept ++ bytes_of (next_read w)).
  { simpl. rewrite after_read_unread by apply Hok1. by rewrite Hu1. }
  destruct (packet_scan (packet_loop 1 (1 + 1 + 1) startmark endmark)
              startmark endmark w2 Hok2) as (r2 & rest & pos2 & Hs2 & Hu3 & Hok3 & ->).
  cbv zeta. rewrite Hu2 in Hs2.
  assert (Hio : io (SysRead (next_read w) ::
                    read_log (next_read w)
                      (set_inbuf (inbuf (conn w)) pos (conn w))) = [IoRead]).
  { rewrite io_cons. by rewrite (quiet_io _ (quiet_read_log _ _)). }
  destruct r2 as [p|].
  - eexists (Some p), _, _. split; [done|]. simpl.
    rewrite after_read_claimed.
    split; [done|]. split; [done|]. split; [done|]. split; [done|].
    right. exists kept. split; [done|]. split; [|exact Hio].
    rewrite <- Hu3 in Hs2. exact Hs2.
  - rewrite packet_loop_unfold. replace (1 + 1 + 1 <=? 2) with false by done.
    eexists None, _, _. split; [done|]. simpl.
    rewrite after_read_claimed.
    split; [done|]. split; [done|]. split; [done|]. split; [done|].
    right. exists kept. split; [done|]. split; [|exact Hio].
    rewrite <- Hu3 in Hs2. exact Hs2.
Qed.

(** X20: [conn_read_packet] scans the unread bytes for a packet: it drops
    the bytes before the first start mark, and takes the bytes from there
    to the first end mark, which is the start mark itself when the two
    marks are the same byte.  Only when that finds no complete packet it
    reads from the descriptor, once, and scans again what it kept
    followed by what the read delivered; what it keeps then, from a start
    mark on, stays unread. *)
Theorem X20_conn_read_packet startmark endmark w :
  inlock w = false → inbuf_ok (conn w) →
  ∃ r w',
    conn_read_packet startmark endmark w = Some (r, w') ∧
    inlock w' = false ∧ inbuf_ok (conn w') ∧
    ((r ≠ None ∧ scanned startmark endmark (unread (conn w)) r (unread (conn w')) ∧
      io (calls_since w w') = []) ∨
     (∃ kept,
        scanned startmark endmark (unread (conn w)) None kept ∧
        scanned startmark endmark (kept ++ bytes_of (next_read w)) r
          (unread (conn w')) ∧
        io (calls_since w w') = [IoRead])).
Proof.
  intros Hl Hok. unfold conn_read_packet.
  rewrite (bind_eq _ _ _ _ _ (lock_in_eq w Hl)).
  match goal with |- context [(_ ≫= _) ?x] => set (w1 := x) end.
  destruct (packet_loop_spec startmark endmark w1 Hok)
    as (r & w2 & l & H & Hl2 & Hcl & Hok2 & Hc & Hr).
  change (unread (conn w1)) with (unread (conn w)) in *.
  change (next_read w1) with (next_read w) in *.
  rewrite (bind_eq _ _ _ _ _ H).
  rewrite unlock_in_eq_ret by (by rewrite Hl2, Hcl).
  eexists r, _. split; [reflexivity|]. simpl.
  split; [done|]. split; [done|].
  erewrite calls_since_app by (rewrite Hc; simpl; by rewrite <- !app_assoc).
  rewrite !io_app, !io_lock_log by auto. rewrite app_nil_r. simpl.
  destruct Hr as [(Hn & Hs & ->)|(kept & Hs1 & Hs2 & Hio)].
  - by left.
  - right. by exists kept.
Qed.

Lemma X20_conn_read_packet_witness :
  inlock packet_world = false ∧ inbuf_ok (conn packet_world) ∧
  ∃ r w',
    conn_read_packet 2 3 packet_world = Some (r, w') ∧
    inlock w' = false ∧ inbuf_ok (conn w') ∧
    ((r ≠ None ∧ scanned 2 3 (unread (conn packet_world)) r (unread (conn w')) ∧
      io (calls_since packet_world w') = []) ∨
     (∃ kept,
        scanned 2 3 (unread (conn packet_world)) None kept ∧
        scanned 2 3 (kept ++ bytes_of (next_read packet_world)) r
          (unread (conn w')) ∧
        io (calls_since packet_world w') = [IoRead])).
Proof.
  assert (H1 : inlock packet_world = false) by reflexivity.
  assert (H2 : inbuf_ok (conn packet_world)) by (vm_compute; split; discriminate).
  exact (conj H1 (conj H2 (X20_conn_read_packet 2 3 packet_world H1 H2))).
Defined.

(** *** Operations that return *)

Section Total.
Context {A B : Type}.
Implicit Types (c : Connection) (i o : bool).

Lemma ta_ret c i o (a : A) : inbuf_ok c → total_at c i o (mret a) i o.
Proof. intros Hok w <- Hl. by exists a, w. Qed.

Lemma ta_last c i o (m : M A) i' o' :
  total_at c i o (m ≫= mret) i' o' → total_at c i o m i' o'.
Proof.
  intros H w Hc Hl. destruct (H w Hc Hl) as (a & w' & E & H').
  exists a, w'. split; [|done].
  apply bind_some in E as (a' & w1 & E1 & [= -> ->]). done.
Qed.

Lemma ta_assoc {C : Type} c i o (m : M C) (f : C → M A) (k : A → M B) i' o' :
  total_at c i o (m ≫= λ a, f a ≫= k) i' o' →
  total_at c i o ((m ≫= f) ≫= k) i' o'.
Proof.
  intros H w Hc Hl. destruct (H w Hc Hl) as (a & w' & E & H').
  exists a, w'. split; [|done]. rewrite <- E.
  unfold mbind, M_bind. by destruct (m w) as [[]|].
Qed.

Lemma ta_get c i o (k : Connection → M B) i' o' :
  total_at c i o (k c) i' o' → total_at c i o (get ≫= k) i' o'.
Proof. intros H w Hc Hl. rewrite (bind_eq _ _ _ _ _ eq_refl), Hc. by apply H. Qed.

Lemma ta_mret c i o (a : A) (k : A → M B) i' o' :
  total_at c i o (k a) i' o' → total_at c i o (mret a ≫= k) i' o'.
Proof. intros H w Hc Hl. rewrite (bind_eq _ _ _ _ _ eq_refl). by apply H. Qed.

Lemma ta_modify c i o f (k : unit → M B) i' o' :
  claimed (f c) = claimed c → total_at (f c) i o (k tt) i' o' →
  total_at c i o (modify f ≫= k) i' o'.
Proof.
  intros Hcl H w Hc Hl. rewrite (bind_eq _ _ _ _ _ eq_refl).
  destruct (H (mkWorld (f (conn w)) (inlock w) (outlock w) (writes w) (reads w)
                 (polls w) (calls w))) as (a & w' & E & H1 & H2 & H3).
  - simpl. by rewrite Hc.
  - unfold locks in *. simpl. by rewrite Hc, Hcl, <- Hc.
  - exists a, w'. by rewrite <- Hcl.
Qed.

Lemma ta_call c i o e (k : unit → M B) i' o' :
  total_at c i o (k tt) i' o' → total_at c i o (call e ≫= k) i' o'.
Proof. intros H w Hc Hl. rewrite (bind_eq _ _ _ _ _ eq_refl). by apply H. Qed.

Lemma ta_assert c i o b (k : unit → M B) i' o' :
  b = true → total_at c i o (k tt) i' o' → total_at c i o (gw_assert b ≫= k) i' o'.
Proof. intros -> H w Hc Hl. rewrite (bind_eq _ _ _ _ _ eq_refl). by apply H. Qed.

Lemma ta_poll c i o fd' events seconds (k : Z * Z → M B) i' o' :
  (∀ r, total_at c i o (k r) i' o') →
  total_at c i o (gwthread_pollfd fd' events seconds ≫= k) i' o'.
Proof. intros H w Hc Hl. rewrite (bind_eq _ _ _ _ _ eq_refl). by apply H. Qed.

Lemma ta_lock_in c o (k : unit → M B) i' o' :
  total_at c true o (k tt) i' o' → total_at c false o (lock_in ≫= k) i' o'.
Proof.
  intros H w Hc [Hi Ho]. rewrite (bind_eq _ _ _ _ _ (lock_in_eq w Hi)).
  apply H; [done|]. split; simpl; [done|]. by rewrite Ho.
Qed.

Lemma ta_unlock_in c o (k : unit → M B) i' o' :
  total_at c false o (k tt) i' o' → total_at c true o (unlock_in ≫= k) i' o'.
Proof.
  intros H w Hc [Hi Ho]. rewrite (bind_eq _ _ _ _ _ (unlock_in_eq w Hi)).
  apply H; [done|]. split; simpl; [done|]. by rewrite Ho.
Qed.

Lemma ta_lock_out c i (k : unit → M B) i' o' :
  total_at c i true (k tt) i' o' → total_at c i false (lock_out ≫= k) i' o'.
Proof.
  intros H w Hc [Hi Ho]. rewrite (bind_eq _ _ _ _ _ (lock_out_eq w Ho)).
  apply H; [done|]. split; simpl; [|done]. by rewrite Hi.
Qed.

Lemma ta_unlock_out c i (k : unit → M B) i' o' :
  total_at c i false (k tt) i' o' → total_at c i true (unlock_out ≫= k) i' o'.
Proof.
  intros H w Hc [Hi Ho]. rewrite (bind_eq _ _ _ _ _ (unlock_out_eq w Ho)).
  apply H; [done|]. split; simpl; [|done]. by rewrite Hi.
Qed.

Lemma ta_write c i o (k : Z → M B) i' o' :
  (∀ r c', inbuf c' = inbuf c → inbufpos c' = inbufpos c →
     claimed c' = claimed c → fd c' = fd c → total_at c' i o (k r) i' o') →
  total_at c i o (unlocked_write ≫= k) i' o'.
Proof.
  intros H w Hc [Hi Ho].
  destruct (Z.lt_ge_cases (next_write w) 0) as [E|E].
  - rewrite (bind_eq _ _ _ _ _ (unlocked_write_fail w E)).
    destruct (H (-1) c eq_refl eq_refl eq_refl eq_refl
                (mkWorld (conn w) (inlock w) (outlock w) (tl (writes w)) (reads w)
                   (polls w)
                   (calls w ++ [SysWrite (outbufpos (conn w)) (next_write w)])))
      as (a & w' & E' & H'); [done|done|]. by exists a, w'.
  - rewrite (bind_eq _ _ _ _ _ (unlocked_write_ok w E)).
    assert (Hs : inbuf (after_write (next_write w) c) = inbuf c ∧
                 inbufpos (after_write (next_write w) c) = inbufpos c ∧
                 fd (after_write (next_write w) c) = fd c).
    { unfold after_write, written. by repeat case_match. }
    destruct Hs as (Hs1 & Hs2 & Hs3).
    destruct (H (next_write w) (after_write (next_write w) c) Hs1 Hs2
                (after_write_claimed _ _) Hs3
                (mkWorld (after_write (next_write w) (conn w)) (inlock w) (outlock w)
                   (tl (writes w)) (reads w) (polls w)
                   (calls w ++ SysWrite (outbufpos (conn w)) (next_write w)
                      :: write_log (next_write w) (conn w))))
      as (a & w' & E' & H1 & H2 & H3).
    + simpl. by rewrite Hc.
    + unfold locks. simpl. by rewrite after_write_claimed.
    + exists a, w'. rewrite after_write_claimed in H3. done.
Qed.

Lemma ta_read c i o (k : unit → M B) i' o' :
  inbuf_ok c →
  (∀ c', inbuf_ok c' → claimed c' = claimed c → fd c' = fd c →
     total_at c' i o (k tt) i' o') →
  total_at c i o (unlocked_read ≫= k) i' o'.
Proof.
  intros Hok H w Hc [Hi Ho].
  rewrite (bind_eq _ _ _ _ _ (unlocked_read_eq w)).
  destruct (H (after_read (next_read w) c) (after_read_ok _ _ Hok)
              (after_read_claimed _ _)
              (proj1 (steady_after_read _ _))
              (mkWorld (after_read (next_read w) (conn w)) (inlock w) (outlock w)
                 (writes w) (tl (reads w)) (polls w)
                 (calls w ++ SysRead (next_read w)
                    :: read_log (next_read w) (conn w))))
    as (a & w' & E' & H1 & H2 & H3).
  - simpl. by rewrite Hc.
  - unfold locks. simpl. by rewrite after_read_claimed.
  - exists a, w'. rewrite after_read_claimed in H3. done.
Qed.

End Total.

Lemma search_char_bounds o ch pos :
  0 ≤ pos → (octstr_search_char o ch pos <? 0) = false →
  pos ≤ octstr_search_char o ch pos < octstr_len o.
Proof.
  intros Hpos H. apply Z.ltb_ge in H.
  destruct (search_char_spec o ch pos Hpos) as [[_ E]|(l & b & rest & Es & _ & _ & E)];
    [lia|].
  rewrite E. unfold octstr_len.
  assert (Hlen : length (drop (Z.to_nat pos) o) = (length l + S (length rest))%nat)
    by (by rewrite Es, length_app).
  rewrite length_drop in Hlen. lia.
Qed.

Ltac ta_side :=
  try done;
  repeat match goal with
  | H : (octstr_search_char ?o ?ch ?pos <? 0) = false |- _ =>
      pose proof (λ Hp, search_char_bounds o ch pos Hp H); apply Z.ltb_ge in H
  | H : (_ <? _) = true |- _ => apply Z.ltb_lt in H
  | H : (_ <? _) = false |- _ => apply Z.ltb_ge in H
  | H : (_ <=? _) = true |- _ => apply Z.leb_le in H
  | H : (_ <=? _) = false |- _ => apply Z.leb_gt in H
  | H : (_ =? _) = true |- _ => apply Z.eqb_eq in H
  | H : (_ =? _) = false |- _ => apply Z.eqb_neq in H
  | |- (_ <=? _) = true => apply Z.leb_le
  end;
  unfold inbuf_ok, unlocked_inbuf_len in *; simpl in *;
  repeat match goal with
  | H : inbuf ?c' = inbuf _ |- _ => rewrite H in *; clear H
  | H : inbufpos ?c' = inbufpos _ |- _ => rewrite H in *; clear H
  end;
  rewrite ?octstr_len_app in *;
  try (unfold octstr_len in *; lia).

Ltac ta_step :=
  cbv beta zeta;
  lazymatch goal with
  | |- total_at _ _ _ (mret _) _ _ => apply ta_ret; ta_side
  | |- total_at _ _ _ ((_ ≫= _) ≫= _) _ _ => apply ta_assoc
  | |- total_at _ _ _ (get ≫= _) _ _ => apply ta_get
  | |- total_at _ _ _ (mret _ ≫= _) _ _ => apply ta_mret
  | |- total_at _ _ _ (modify _ ≫= _) _ _ => apply ta_modify; [reflexivity|]
  | |- total_at _ _ _ (call _ ≫= _) _ _ => apply ta_call
  | |- total_at _ _ _ (gw_assert _ ≫= _) _ _ => apply ta_assert; [ta_side|]
  | |- total_at _ _ _ (gwthread_pollfd _ _ _ ≫= _) _ _ =>
      apply ta_poll; intros [? ?]
  | |- total_at _ false _ (lock_in ≫= _) _ _ => apply ta_lock_in
  | |- total_at _ true _ (unlock_in ≫= _) _ _ => apply ta_unlock_in
  | |- total_at _ _ false (lock_out ≫= _) _ _ => apply ta_lock_out
  | |- total_at _ _ true (unlock_out ≫= _) _ _ => apply ta_unlock_out
  | |- total_at _ _ _ (unlocked_write ≫= _) _ _ =>
      apply ta_write; intros ? ? ? ? ? ?
  | |- total_at _ _ _ (unlocked_read ≫= _) _ _ =>
      apply ta_read; [ta_side|intros ? ? ? ?]
  | |- total_at _ _ _ (unlocked_get _ ≫= _) _ _ => unfold unlocked_get
  | |- total_at _ _ _ (unlocked_try_write ≫= _) _ _ => unfold unlocked_try_write
  | |- total_at _ _ _ ((if ?b then _ else _) ≫= _) _ _ => destruct b eqn:?
  | |- total_at _ _ _ ((match ?x with _ => _ end) ≫= _) _ _ => destruct x eqn:?
  | |- total_at _ _ _ (if ?b then _ else _) _ _ => destruct b eqn:?
  | |- total_at _ _ _ (match ?x with _ => _ end) _ _ => destruct x eqn:?
  | |- total_at _ _ _ unlock_in _ _ => apply ta_last
  | |- total_at _ _ _ unlock_out _ _ => apply ta_last
  | |- total_at _ _ _ (call _) _ _ => apply ta_last
  | |- total_at _ _ _ (modify _) _ _ => apply ta_last
  | |- total_at _ _ _ (unlocked_get _) _ _ => apply ta_last
  end.

Lemma ta_withlen_retry {B : Type} fuel : ∀ c i o (k : option Octstr → M B) i' o',
  inbuf_ok c → (length (unread c) ≤ fuel)%nat →
  (∀ r c', inbuf_ok c' → claimed c' = claimed c → fd c' = fd c →
     total_at c' i o (k r) i' o') →
  total_at c i o (withlen_retry fuel ≫= k) i' o'.
Proof.
  induction fuel as [|fuel IH]; intros c i o k i' o' Hok Hf Hk;
    pose proof (unread_len c Hok) as Hlen; simpl; repeat ta_step;
    try (apply Hk; ta_side).
  - unfold octstr_len in Hlen. ta_side.
  - apply IH; [ta_side| |].
    + rewrite (unread_advance c 4) by (destruct Hok; lia).
      rewrite length_drop. unfold octstr_len in Hlen. ta_side.
    + intros r c' ? ? ?. by apply Hk.
Qed.

Ltac ta_auto :=
  repeat first
    [ta_step
    |apply ta_withlen_retry;
       [ta_side
       |unfold unread; rewrite length_drop; lia
       |intros ? ? ? ? ?]].

Lemma total_run_op o c :
  inbuf_ok c → returns o → total_at c false false (run_op o) false false.
Proof.
  intros Hok Ho.
  destruct o; try done; simpl in Ho; simpl;
    unfold conn_outbuf_len, conn_inbuf_len, conn_eof, conn_read_error,
      conn_set_output_buffering, poll_callback, conn_register, conn_unregister,
      conn_wait, wait_polled, conn_write, conn_write_data,
      conn_write_withlen, conn_read_everything, conn_read_fixed, conn_read_line,
      conn_read_withlen, conn_read_packet;
    simpl; ta_auto.
Qed.



End ConnProofs.
